(** * phydms: tree likelihood engine and the model-adequacy p-value

    A shallow embedding of [phydmslib/treelikelihood.py] (class
    [TreeLikelihood]) and of [translate_with_gaps], [calc_aa_frequencies]
    and [calculate_pvalue] from [phydmslib/modeladequacy.py], with the
    properties stated about them.

    Python objects are mutable and exceptions leave the writes made so far
    in place, so methods are written in a state-and-exception monad whose
    outcome carries the final state on both exits. *)

From Stdlib Require Import ZArith QArith Lia String Ascii Bool.
From stdpp Require Import base option list gmap strings.

Local Open Scope Z_scope.

(** ** Exceptions and the state-and-exception monad *)

(** The Python exception classes the embedded code can raise. *)
Inductive exn : Type :=
  | AssertionError | ValueError | RuntimeError
  | KeyError | IndexError | TypeError | AttributeError.

(** Outcome of a call: it returned [a], or raised [x]; either way the
    object is left in state [s]. *)
Inductive res (S A : Type) : Type :=
  | Ret (a : A) (s : S)
  | Exc (x : exn) (s : S).
Arguments Ret {S A} a s.
Arguments Exc {S A} x s.

Definition Py (S A : Type) : Type := S -> res S A.

Definition ret {S A} (a : A) : Py S A := fun s => Ret a s.

Definition bind {S A B} (c : Py S A) (k : A -> Py S B) : Py S B :=
  fun s => match c s with
           | Ret a s' => k a s'
           | Exc x s' => Exc x s'
           end.

Definition raise {S A} (x : exn) : Py S A := fun s => Exc x s.
Definition get {S} : Py S S := fun s => Ret s s.
Definition put {S} (s : S) : Py S unit := fun _ => Ret tt s.
Definition gets {S A} (f : S -> A) : Py S A := fun s => Ret (f s) s.
Definition modify {S} (f : S -> S) : Py S unit := fun s => Ret tt (f s).

Notation "'do' x <- c ; k" := (bind c (fun x => k))
  (at level 10, x name, c at level 100, k at level 200,
   format "'[v' 'do'  x  <-  c ; '/' k ']'").
Notation "'do' ' p <- c ; k" := (bind c (fun p => k))
  (at level 10, p pattern, c at level 100, k at level 200,
   format "'[v' 'do'  ' p  <-  c ; '/' k ']'").
Notation "c >> k" := (bind c (fun _ => k))
  (at level 100, k at level 200, right associativity).

(** [assert b] *)
Definition assert {S} (b : bool) : Py S unit :=
  if b then ret tt else raise AssertionError.

(** A pure computation that may raise, run inside a method. *)
Definition lift {S A} (r : exn + A) : Py S A :=
  match r with inl x => raise x | inr a => ret a end.

(** [for x in l: f x] *)
Fixpoint forM_ {S X} (l : list X) (f : X -> Py S unit) : Py S unit :=
  match l with
  | [] => ret tt
  | x :: l' => f x >> forM_ l' f
  end.

(** A loop whose body also updates a local variable [a]. *)
Fixpoint foldM {S X A} (f : A -> X -> Py S A) (l : list X) (a : A) : Py S A :=
  match l with
  | [] => ret a
  | x :: l' => do a' <- f a x; foldM f l' a'
  end.

(** [enumerate(l)] *)
Definition enumerate {A} (l : list A) : list (nat * A) :=
  zip (seq 0 (length l)) l.

(** [l[i]] for a Python integer [i]: negative indices count from the end. *)
Definition py_index {A} (l : list A) (i : Z) : exn + A :=
  let k := if i <? 0 then i + Z.of_nat (length l) else i in
  if k <? 0 then inl IndexError
  else match l !! Z.to_nat k with
       | Some a => inr a
       | None => inl IndexError
       end.

Definition index {S A} (l : list A) (i : Z) : Py S A := lift (py_index l i).

(** [l[i] = v] for [0 <= i]: the list after the assignment. *)
Definition setitem {S A} (l : list A) (i : nat) (v : A) : Py S (list A) :=
  if (i <? length l)%nat then ret (<[i := v]> l) else raise IndexError.

(** [d[k]] on a [dict] *)
Definition getitem {S K A} `{Countable K} (d : gmap K A) (k : K) : Py S A :=
  match d !! k with
  | Some a => ret a
  | None => raise KeyError
  end.

(** A [dict] whose iteration order matters: the items in insertion order.
    [dict_setitem k v d] is [d[k] = v]: an existing key keeps its place. *)
Fixpoint dict_setitem {K V} `{EqDecision K} (k : K) (v : V)
    (d : list (K * V)) : list (K * V) :=
  match d with
  | [] => [(k, v)]
  | (k', v') :: d' =>
      if decide (k = k') then (k, v) :: d' else (k', v') :: dict_setitem k v d'
  end.

(** [dict(pairs)]: a later pair overrides an earlier one with the same key. *)
Definition dict_of_pairs {K V} `{Countable K} (pairs : list (K * V)) : gmap K V :=
  foldl (fun d kv => <[kv.1 := kv.2]> d) ∅ pairs.

(** Running a computation on the state of a sub-object. *)
Definition zoom {S T A} (proj : S -> T) (upd : T -> S -> S) (c : Py T A) : Py S A :=
  fun s => match c (proj s) with
           | Ret a t => Ret a (upd t s)
           | Exc x t => Exc x (upd t s)
           end.

(** [wp c Q E s]: run from [s], the call [c] either returns a value and a
    state satisfying [Q] or raises an exception and leaves a state
    satisfying [E]. *)
Definition wp {S A} (c : Py S A) (Q : A -> S -> Prop) (E : exn -> S -> Prop)
    (s : S) : Prop :=
  match c s with
  | Ret a s' => Q a s'
  | Exc x s' => E x s'
  end.

(** The state a call leaves, however it ends. *)
Definition final {S A} (r : res S A) : S :=
  match r with
  | Ret _ s => s
  | Exc _ s => s
  end.

(** The value a call returns and the exception it raises, if any. *)
Definition returned {S A} (r : res S A) : option A :=
  match r with
  | Ret a _ => Some a
  | Exc _ _ => None
  end.

Definition raised {S A} (r : res S A) : option exn :=
  match r with
  | Ret _ _ => None
  | Exc x _ => Some x
  end.

(** The exceptional postcondition of a statement about returns only. *)
Definition any {S} : exn -> S -> Prop := fun _ _ => True.

From Stdlib Require Import SpecFloat.
From stdpp Require Import sorting.

Local Open Scope Z_scope.

(** ** What a call leaves alone *)

(** [keeps R c]: whatever state [c] starts from and however it ends, the
    state it leaves is related to the one it started from by [R]. *)
Definition keeps {S A} (R : S -> S -> Prop) (c : Py S A) : Prop :=
  forall s, R s (final (c s)).

(** The states that agree on what [f] reads. *)
Definition same {S B} (f : S -> B) : S -> S -> Prop :=
  fun s s' => f s' = f s.

(** A call that reads the state and writes nothing. *)
Definition reads {S A} (c : Py S A) : Prop := forall s, final (c s) = s.

(** ** [phydmslib.modeladequacy.calculate_pvalue] *)

Module ModelAdequacy.

(** [scipy.random] is not part of the repository: the generator is a
    parameter.  [random_seed s] is [scipy.random.seed(s)] ([None] when the
    library rejects the seed); [randint high g] is
    [scipy.random.randint(high, size=1)[0]] drawn from state [g]. *)
Class RandomGen : Type := {
  RandomState : Type;
  random_seed : Z -> option RandomState;
  randint : Z -> RandomState -> Z * RandomState;
}.

(** The library's contract for [randint(high)]: a value of [0, high). *)
Definition randint_in_range `{RG : RandomGen} : Prop :=
  forall high g, 0 < high -> 0 <= fst (randint high g) < high.

(** [numpy] is not part of the repository either: the elementwise
    comparisons are parameters, over the numbers Python passes.
    [greater l v] is [scipy.greater(l, v)] and [equal l v] is
    [scipy.equal(l, v)] for a list [l] and a number [v]: one boolean per
    element of [l].  numpy compares in the common type of the array and
    the scalar, float64 as soon as a float is involved, so the booleans
    need not be those of the exact values, and the one of an element may
    depend on the other elements; no element is both greater than and
    equal to the scalar. *)
Class Numbers : Type := {
  Number : Type;
  greater : list Number -> Number -> list bool;
  equal : list Number -> Number -> list bool;
  length_greater : forall l v, length (greater l v) = length l;
  length_equal : forall l v, length (equal l v) = length l;
  greater_not_equal : forall l v i,
    greater l v !! i = Some true -> equal l v !! i = Some false;
}.

(** [scipy.sum] of an array of booleans. *)
Definition count_true (l : list bool) : Z :=
  Z.of_nat (length (List.filter (fun b : bool => b) l)).

(** [scipy.sum(scipy.greater(simulation_values, true_value))] *)
Definition count_greater `{NB : Numbers} (simulation_values : list Number)
    (true_value : Number) : Z :=
  count_true (greater simulation_values true_value).

(** [scipy.sum(scipy.equal(simulation_values, true_value))] *)
Definition count_equal `{NB : Numbers} (simulation_values : list Number)
    (true_value : Number) : Z :=
  count_true (equal simulation_values true_value).

(** The quotient of the two integers is kept exact (the float result is
    its rounding, and rounding keeps the order against 0 and 1.0).  The
    state is the generator's. *)
Definition calculate_pvalue `{RG : RandomGen} `{NB : Numbers}
    (simulation_values : list Number) (true_value : Number) (seed : option Z)
    : Py RandomState Q :=
  (match seed with
   | Some s => match random_seed s with
               | Some g => put g
               | None => raise ValueError
               end
   | None => ret tt
   end) >>
  assert (2 <=? Z.of_nat (length simulation_values)) >>
  let greater := count_greater simulation_values true_value in
  let tie_breaker := count_equal simulation_values true_value in
  do tie_breaker <- (if 1 <=? tie_breaker
                     then (do g <- get;
                           let '(v, g') := randint tie_breaker g in
                           put g' >> ret v)
                     else ret tie_breaker);
  let pvalue := Qmake (greater + tie_breaker + 1)
                      (Z.to_pos (Z.of_nat (length simulation_values) + 1)) in
  assert (Qle_bool 0 pvalue && Qle_bool pvalue 1) >>
  ret pvalue.

(** *** The comparisons of numpy on Python's integers and floats *)

(** A Python [int] (within the range of int64) or a [float], a binary64
    value. *)
Inductive pynum : Type :=
  | PyInt (z : Z)
  | PyFloat (f : spec_float).

(** [float(z)]: the integer rounded to binary64, to nearest, ties to
    even. *)
Definition float_of_Z (z : Z) : spec_float := binary_normalize 53 1024 z 0 false.

Definition is_int (n : pynum) : bool :=
  match n with PyInt _ => true | PyFloat _ => false end.

(** How numpy compares the element [x] of an array with the scalar [v]:
    an array of integers against an integer in int64, exactly
    ([as_ints]); otherwise in float64, every integer rounded to it.
    [None] is the unordered case of a NaN. *)
Definition np_compare (as_ints : bool) (x v : pynum) : option comparison :=
  match as_ints, x, v with
  | true, PyInt a, PyInt b => Some (a ?= b)
  | _, _, _ =>
      SFcompare (match x with PyInt a => float_of_Z a | PyFloat f => f end)
                (match v with PyInt b => float_of_Z b | PyFloat f => f end)
  end.

Definition np_greater (l : list pynum) (v : pynum) : list bool :=
  map (fun x => match np_compare (forallb is_int (v :: l)) x v with
                | Some Gt => true
                | _ => false
                end) l.

Definition np_equal (l : list pynum) (v : pynum) : list bool :=
  map (fun x => match np_compare (forallb is_int (v :: l)) x v with
                | Some Eq => true
                | _ => false
                end) l.

Lemma np_greater_not_equal l v i :
  np_greater l v !! i = Some true -> np_equal l v !! i = Some false.
Proof.
  unfold np_greater, np_equal. rewrite !list_lookup_fmap.
  destruct (l !! i) as [x|]; cbn; [|done].
  by destruct (np_compare _ x v) as [[| |]|].
Qed.

Definition numpy_numbers : Numbers := {|
  Number := pynum;
  greater := np_greater;
  equal := np_equal;
  length_greater := fun l v => length_map _ l;
  length_equal := fun l v => length_map _ l;
  greater_not_equal := np_greater_not_equal;
|}.

(** The exact value of a number, where it has one. *)
Definition exact (n : pynum) : option Q :=
  match n with
  | PyInt z => Some (inject_Z z)
  | PyFloat (S754_zero _) => Some 0%Q
  | PyFloat (S754_finite s m e) =>
      Some (inject_Z (if s then Z.neg m else Z.pos m) * Qpower 2 e)%Q
  | PyFloat _ => None
  end.

(** The values of the examples: the integers of the function's doctest
    with two ties, and two integers against the float [2^53], the first of
    which is rounded to it. *)
Definition tied_values : list pynum := [PyInt 1; PyInt 10; PyInt 10; PyInt 11].

Definition big_values : list pynum := [PyInt (2 ^ 53 + 1); PyInt 1].

Definition big_true : pynum := PyFloat (float_of_Z (2 ^ 53)).

(** A generator for the examples: seeding stores the seed, a draw returns
    the state reduced modulo the bound and advances it. *)
Definition counter_gen : RandomGen := {|
  RandomState := Z;
  random_seed := fun s => if 0 <=? s then Some s else None;
  randint := fun high g => (g mod high, g + 1);
|}.

End ModelAdequacy.

(** ** [phydmslib.treelikelihood] *)

Module TreeLik.

(** *** Floats and arrays *)

(** Floating-point numbers and the operations the engine applies to them
    are parameters.  [fsum] is [scipy.sum] along one axis, [feqb] is [==],
    [fneg1] is the fill value [-1] of the tables and [funinit] stands for
    the content of a fresh [scipy.ndarray].  The traps that
    [scipy.errstate] turns into exceptions are not modelled: where the
    Python raises [FloatingPointError] the model goes on. *)
Class Float : Type := {
  F : Type;
  fzero : F;
  fneg1 : F;
  funinit : F;
  fadd : F -> F -> F;
  fmul : F -> F -> F;
  fdiv : F -> F -> F;
  flog : F -> F;
  fsum : list F -> F;
  feqb : F -> F -> bool;
}.

(** Arrays of shape [(nsites, N_CODON)] and [(nsites, N_CODON, N_CODON)]
    are lists of rows; an operand of the wrong shape, which numpy would
    reject or broadcast, is outside the model's contract. *)
Abbreviation tab := (list (list F)).
Abbreviation mat := (list (list (list F))).

(** Modelled from the spec: [N_CODON] of [phydmslib.constants], the number
    of sense codons. *)
Definition N_CODON : nat := 61.

(** [phydmslib.constants.CODON_TO_INDEX], a table that is not among the
    sources: a parameter. *)
Class Constants : Type := {
  CODON_TO_INDEX : gmap string nat;
}.

(** The value of a model attribute: a [float]; a 1-dimensional
    [ndarray]; a 0-dimensional [ndarray], on which [len()] and iteration
    raise [TypeError]; or anything else (an [ndarray] of two or more
    dimensions, or a value that is neither a [float] nor an [ndarray]). *)
Inductive pyval `{Float} : Type :=
  | PFloat (x : F)
  | PArray (a : list F)
  | PUnsized (x : F)
  | POther.

(** An array that carries one entry for a scalar parameter and a leading
    axis of entries for a vector parameter. *)
Inductive darr (A : Type) : Type :=
  | DScalar (a : A)
  | DVector (l : list A).
Arguments DScalar {A} a.
Arguments DVector {A} l.

(** The index tuples [()] and [(j,)]. *)
Inductive jidx : Type :=
  | JEmpty
  | JAt (j : nat).

#[global] Instance jidx_eq_dec : EqDecision jidx.
Proof. solve_decision. Defined.

(** [a[j]] for an index tuple.  [()] on a vector-shaped array and [(j,)]
    on a scalar-shaped one select something of another shape: an error
    here. *)
Definition darr_get {A} (a : darr A) (j : jidx) : exn + A :=
  match a, j with
  | DScalar x, JEmpty => inr x
  | DVector l, JAt j =>
      match l !! j with Some x => inr x | None => inl IndexError end
  | _, _ => inl TypeError
  end.

(** [scipy.copyto(a[j], x)]: the array after the write. *)
Definition darr_set {A} (a : darr A) (j : jidx) (x : A) : exn + darr A :=
  match a, j with
  | DScalar _, JEmpty => inr (DScalar x)
  | DVector l, JAt j =>
      if (j <? length l)%nat then inr (DVector (<[j := x]> l))
      else inl IndexError
  | _, _ => inl TypeError
  end.

Definition darr_map {A B} (f : A -> B) (a : darr A) : darr B :=
  match a with
  | DScalar x => DScalar (f x)
  | DVector l => DVector (map f l)
  end.

(** An elementwise operation on two such arrays, the one without the
    leading axis being broadcast along it. *)
Definition darr_zip {A} (f : A -> A -> A) (a b : darr A) : exn + darr A :=
  match a, b with
  | DScalar x, DScalar y => inr (DScalar (f x y))
  | DScalar x, DVector l => inr (DVector (map (f x) l))
  | DVector l, DScalar y => inr (DVector (map (fun x => f x y) l))
  | DVector l1, DVector l2 =>
      if (length l1 =? length l2)%nat then inr (DVector (zip_with f l1 l2))
      else inl ValueError
  end.

(** A slot of the flat parameter array: a scalar parameter [param], or
    the component [(param, pindex)] of a vector parameter. *)
Inductive slot : Type :=
  | Scalar (param : string)
  | Component (param : string) (pindex : nat).

#[global] Instance slot_eq_dec : EqDecision slot.
Proof. solve_decision. Defined.

Definition slot_name (s : slot) : string :=
  match s with
  | Scalar param => param
  | Component param _ => param
  end.

(** Calls recorded in the order they are made (a ghost field of the
    engine, not a Python attribute). *)
Inductive event : Type :=
  | ModelUpdateParams
  | UpdateInternals.

(** *** The substitution model *)

(** [phydmslib.models.Model] is not among the sources: the engine sees it
    through this interface.  [M] and [dM] are the calls without tip data,
    [M_tips] and [dM_tips] the calls with [tips] and [gaps];
    [model_updateParams] mutates the model and may raise; [getattr] is
    [None] where the model has no attribute of that name, and
    [getattr(model, name)] raises [AttributeError]. *)
Class ModelOps `{Float} : Type := {
  Model : Type;
  model_nsites : Model -> nat;
  freeparams : Model -> list string;
  getattr : Model -> string -> option pyval;
  PARAMLIMITS : Model -> gmap string (F * F);
  stationarystate : Model -> tab;
  dstationarystate : Model -> string -> darr tab;
  M : Model -> F -> mat;
  M_tips : Model -> F -> list nat -> list nat -> tab;
  dM : Model -> F -> string -> mat -> darr mat;
  dM_tips : Model -> F -> string -> tab -> list nat -> list nat -> darr tab;
  model_updateParams : gmap string pyval -> Py Model unit;
}.

(** *** Trees *)

(** A [Bio.Phylo] clade.  A node is identified by its path from the root
    (the positions of the children taken), which stands for the identity
    of the Python object. *)
#[warnings="-register-all"]
Inductive Clade `{Float} : Type :=
  | mkClade (name : option string) (branch_length : F) (clades : list Clade).

Section Trees.
Context `{FL : Float}.

Definition name (c : Clade) : option string :=
  match c with mkClade n _ _ => n end.
Definition branch_length (c : Clade) : F :=
  match c with mkClade _ b _ => b end.
Definition clades (c : Clade) : list Clade :=
  match c with mkClade _ _ cs => cs end.

Definition is_terminal (c : Clade) : bool :=
  match clades c with [] => true | _ => false end.

(** [find_clades(order='postorder')] from the clade at [path]. *)
Fixpoint postorder (path : list nat) (c : Clade) : list (list nat * Clade) :=
  match c with
  | mkClade _ _ cs =>
      (fix children (i : nat) (cs : list Clade) : list (list nat * Clade) :=
         match cs with
         | [] => []
         | ch :: cs' => postorder (path ++ [i]) ch ++ children (S i) cs'
         end) 0%nat cs
      ++ [(path, c)]
  end.

(** [find_clades()] in its default order, preorder. *)
Fixpoint preorder (path : list nat) (c : Clade) : list (list nat * Clade) :=
  match c with
  | mkClade _ _ cs =>
      (path, c) ::
      (fix children (i : nat) (cs : list Clade) : list (list nat * Clade) :=
         match cs with
         | [] => []
         | ch :: cs' => preorder (path ++ [i]) ch ++ children (S i) cs'
         end) 0%nat cs
  end.

Definition get_terminals (tree : Clade) : list Clade :=
  List.filter is_terminal (map snd (preorder [] tree)).

Definition get_nonterminals (tree : Clade) : list Clade :=
  List.filter (fun c => negb (is_terminal c)) (map snd (preorder [] tree)).

Definition count_terminals (tree : Clade) : nat := length (get_terminals tree).

(** The traversals of the children of a clade, the first of which has
    position [i]. *)
Definition postorder_children (path : list nat)
    : nat -> list Clade -> list (list nat * Clade) :=
  fix children (i : nat) (cs : list Clade) : list (list nat * Clade) :=
    match cs with
    | [] => []
    | ch :: cs' => postorder (path ++ [i]) ch ++ children (S i) cs'
    end.

Definition preorder_children (path : list nat)
    : nat -> list Clade -> list (list nat * Clade) :=
  fix children (i : nat) (cs : list Clade) : list (list nat * Clade) :=
    match cs with
    | [] => []
    | ch :: cs' => preorder (path ++ [i]) ch ++ children (S i) cs'
    end.

(** Induction on a clade with the property in hand for its children. *)
Fixpoint Clade_nested_ind (P : Clade -> Prop)
    (step : forall nm b cs, Forall P cs -> P (mkClade nm b cs))
    (c : Clade) : P c :=
  match c with
  | mkClade nm b cs =>
      step nm b cs
           ((fix all (cs : list Clade) : Forall P cs :=
               match cs with
               | [] => @List.Forall_nil _ P
               | ch :: cs' =>
                   @List.Forall_cons _ P ch cs' (Clade_nested_ind P step ch) (all cs')
               end) cs)
  end.

(** The clade at [path] below [c]. *)
Fixpoint node_at (c : Clade) (path : list nat) : option Clade :=
  match path with
  | [] => Some c
  | i :: path' =>
      match clades c !! i with
      | Some ch => node_at ch path'
      | None => None
      end
  end.

End Trees.

(** *** The engine's state *)

Section Engine.
Context `{FL : Float} `{MO : !ModelOps} `{CO : Constants}.

(** The attributes of a [TreeLikelihood] object. *)
Record TreeLikelihood : Type := mkTreeLikelihood {
  model : Model;
  nsites : nat;
  alignment : list (string * string);
  nseqs : nat;
  tree : Clade;
  name_to_nodeindex : gmap (list nat) nat;
  ninternal : nat;
  ntips : nat;
  nnodes : nat;
  rdescend : list Z;
  ldescend : list Z;
  t : list F;
  L : list (list (list F));
  dL : gmap string (list (darr (list (list F))));
  tips : list (list nat);
  gaps : list (list nat);
  _paramsarray : option (list F);
  _index_to_param : list (nat * slot);
  _param_to_index : list (slot * nat);
  siteloglik : list F;
  loglik : F;
  dsiteloglik : gmap string (darr (list F));
  dloglik : gmap string (darr F);
  calls : list event;
}.

Definition set_model (v : Model) (self : TreeLikelihood) : TreeLikelihood :=
  {| model := v;
     nsites := nsites self;
     alignment := alignment self;
     nseqs := nseqs self;
     tree := tree self;
     name_to_nodeindex := name_to_nodeindex self;
     ninternal := ninternal self;
     ntips := ntips self;
     nnodes := nnodes self;
     rdescend := rdescend self;
     ldescend := ldescend self;
     t := t self;
     L := L self;
     dL := dL self;
     tips := tips self;
     gaps := gaps self;
     _paramsarray := _paramsarray self;
     _index_to_param := _index_to_param self;
     _param_to_index := _param_to_index self;
     siteloglik := siteloglik self;
     loglik := loglik self;
     dsiteloglik := dsiteloglik self;
     dloglik := dloglik self;
     calls := calls self |}.

Definition set_nsites (v : nat) (self : TreeLikelihood) : TreeLikelihood :=
  {| model := model self;
     nsites := v;
     alignment := alignment self;
     nseqs := nseqs self;
     tree := tree self;
     name_to_nodeindex := name_to_nodeindex self;
     ninternal := ninternal self;
     ntips := ntips self;
     nnodes := nnodes self;
     rdescend := rdescend self;
     ldescend := ldescend self;
     t := t self;
     L := L self;
     dL := dL self;
     tips := tips self;
     gaps := gaps self;
     _paramsarray := _paramsarray self;
     _index_to_param := _index_to_param self;
     _param_to_index := _param_to_index self;
     siteloglik := siteloglik self;
     loglik := loglik self;
     dsiteloglik := dsiteloglik self;
     dloglik := dloglik self;
     calls := calls self |}.

Definition set_alignment (v : list (string * string)) (self : TreeLikelihood) : TreeLikelihood :=
  {| model := model self;
     nsites := nsites self;
     alignment := v;
     nseqs := nseqs self;
     tree := tree self;
     name_to_nodeindex := name_to_nodeindex self;
     ninternal := ninternal self;
     ntips := ntips self;
     nnodes := nnodes self;
     rdescend := rdescend self;
     ldescend := ldescend self;
     t := t self;
     L := L self;
     dL := dL self;
     tips := tips self;
     gaps := gaps self;
     _paramsarray := _paramsarray self;
     _index_to_param := _index_to_param self;
     _param_to_index := _param_to_index self;
     siteloglik := siteloglik self;
     loglik := loglik self;
     dsiteloglik := dsiteloglik self;
     dloglik := dloglik self;
     calls := calls self |}.

Definition set_nseqs (v : nat) (self : TreeLikelihood) : TreeLikelihood :=
  {| model := model self;
     nsites := nsites self;
     alignment := alignment self;
     nseqs := v;
     tree := tree self;
     name_to_nodeindex := name_to_nodeindex self;
     ninternal := ninternal self;
     ntips := ntips self;
     nnodes := nnodes self;
     rdescend := rdescend self;
     ldescend := ldescend self;
     t := t self;
     L := L self;
     dL := dL self;
     tips := tips self;
     gaps := gaps self;
     _paramsarray := _paramsarray self;
     _index_to_param := _index_to_param self;
     _param_to_index := _param_to_index self;
     siteloglik := siteloglik self;
     loglik := loglik self;
     dsiteloglik := dsiteloglik self;
     dloglik := dloglik self;
     calls := calls self |}.

Definition set_tree (v : Clade) (self : TreeLikelihood) : TreeLikelihood :=
  {| model := model self;
     nsites := nsites self;
     alignment := alignment self;
     nseqs := nseqs self;
     tree := v;
     name_to_nodeindex := name_to_nodeindex self;
     ninternal := ninternal self;
     ntips := ntips self;
     nnodes := nnodes self;
     rdescend := rdescend self;
     ldescend := ldescend self;
     t := t self;
     L := L self;
     dL := dL self;
     tips := tips self;
     gaps := gaps self;
     _paramsarray := _paramsarray self;
     _index_to_param := _index_to_param self;
     _param_to_index := _param_to_index self;
     siteloglik := siteloglik self;
     loglik := loglik self;
     dsiteloglik := dsiteloglik self;
     dloglik := dloglik self;
     calls := calls self |}.

Definition set_name_to_nodeindex (v : gmap (list nat) nat) (self : TreeLikelihood) : TreeLikelihood :=
  {| model := model self;
     nsites := nsites self;
     alignment := alignment self;
     nseqs := nseqs self;
     tree := tree self;
     name_to_nodeindex := v;
     ninternal := ninternal self;
     ntips := ntips self;
     nnodes := nnodes self;
     rdescend := rdescend self;
     ldescend := ldescend self;
     t := t self;
     L := L self;
     dL := dL self;
     tips := tips self;
     gaps := gaps self;
     _paramsarray := _paramsarray self;
     _index_to_param := _index_to_param self;
     _param_to_index := _param_to_index self;
     siteloglik := siteloglik self;
     loglik := loglik self;
     dsiteloglik := dsiteloglik self;
     dloglik := dloglik self;
     calls := calls self |}.

Definition set_ninternal (v : nat) (self : TreeLikelihood) : TreeLikelihood :=
  {| model := model self;
     nsites := nsites self;
     alignment := alignment self;
     nseqs := nseqs self;
     tree := tree self;
     name_to_nodeindex := name_to_nodeindex self;
     ninternal := v;
     ntips := ntips self;
     nnodes := nnodes self;
     rdescend := rdescend self;
     ldescend := ldescend self;
     t := t self;
     L := L self;
     dL := dL self;
     tips := tips self;
     gaps := gaps self;
     _paramsarray := _paramsarray self;
     _index_to_param := _index_to_param self;
     _param_to_index := _param_to_index self;
     siteloglik := siteloglik self;
     loglik := loglik self;
     dsiteloglik := dsiteloglik self;
     dloglik := dloglik self;
     calls := calls self |}.

Definition set_ntips (v : nat) (self : TreeLikelihood) : TreeLikelihood :=
  {| model := model self;
     nsites := nsites self;
     alignment := alignment self;
     nseqs := nseqs self;
     tree := tree self;
     name_to_nodeindex := name_to_nodeindex self;
     ninternal := ninternal self;
     ntips := v;
     nnodes := nnodes self;
     rdescend := rdescend self;
     ldescend := ldescend self;
     t := t self;
     L := L self;
     dL := dL self;
     tips := tips self;
     gaps := gaps self;
     _paramsarray := _paramsarray self;
     _index_to_param := _index_to_param self;
     _param_to_index := _param_to_index self;
     siteloglik := siteloglik self;
     loglik := loglik self;
     dsiteloglik := dsiteloglik self;
     dloglik := dloglik self;
     calls := calls self |}.

Definition set_nnodes (v : nat) (self : TreeLikelihood) : TreeLikelihood :=
  {| model := model self;
     nsites := nsites self;
     alignment := alignment self;
     nseqs := nseqs self;
     tree := tree self;
     name_to_nodeindex := name_to_nodeindex self;
     ninternal := ninternal self;
     ntips := ntips self;
     nnodes := v;
     rdescend := rdescend self;
     ldescend := ldescend self;
     t := t self;
     L := L self;
     dL := dL self;
     tips := tips self;
     gaps := gaps self;
     _paramsarray := _paramsarray self;
     _index_to_param := _index_to_param self;
     _param_to_index := _param_to_index self;
     siteloglik := siteloglik self;
     loglik := loglik self;
     dsiteloglik := dsiteloglik self;
     dloglik := dloglik self;
     calls := calls self |}.

Definition set_rdescend (v : list Z) (self : TreeLikelihood) : TreeLikelihood :=
  {| model := model self;
     nsites := nsites self;
     alignment := alignment self;
     nseqs := nseqs self;
     tree := tree self;
     name_to_nodeindex := name_to_nodeindex self;
     ninternal := ninternal self;
     ntips := ntips self;
     nnodes := nnodes self;
     rdescend := v;
     ldescend := ldescend self;
     t := t self;
     L := L self;
     dL := dL self;
     tips := tips self;
     gaps := gaps self;
     _paramsarray := _paramsarray self;
     _index_to_param := _index_to_param self;
     _param_to_index := _param_to_index self;
     siteloglik := siteloglik self;
     loglik := loglik self;
     dsiteloglik := dsiteloglik self;
     dloglik := dloglik self;
     calls := calls self |}.

Definition set_ldescend (v : list Z) (self : TreeLikelihood) : TreeLikelihood :=
  {| model := model self;
     nsites := nsites self;
     alignment := alignment self;
     nseqs := nseqs self;
     tree := tree self;
     name_to_nodeindex := name_to_nodeindex self;
     ninternal := ninternal self;
     ntips := ntips self;
     nnodes := nnodes self;
     rdescend := rdescend self;
     ldescend := v;
     t := t self;
     L := L self;
     dL := dL self;
     tips := tips self;
     gaps := gaps self;
     _paramsarray := _paramsarray self;
     _index_to_param := _index_to_param self;
     _param_to_index := _param_to_index self;
     siteloglik := siteloglik self;
     loglik := loglik self;
     dsiteloglik := dsiteloglik self;
     dloglik := dloglik self;
     calls := calls self |}.

Definition set_t (v : list F) (self : TreeLikelihood) : TreeLikelihood :=
  {| model := model self;
     nsites := nsites self;
     alignment := alignment self;
     nseqs := nseqs self;
     tree := tree self;
     name_to_nodeindex := name_to_nodeindex self;
     ninternal := ninternal self;
     ntips := ntips self;
     nnodes := nnodes self;
     rdescend := rdescend self;
     ldescend := ldescend self;
     t := v;
     L := L self;
     dL := dL self;
     tips := tips self;
     gaps := gaps self;
     _paramsarray := _paramsarray self;
     _index_to_param := _index_to_param self;
     _param_to_index := _param_to_index self;
     siteloglik := siteloglik self;
     loglik := loglik self;
     dsiteloglik := dsiteloglik self;
     dloglik := dloglik self;
     calls := calls self |}.

Definition set_L (v : list (list (list F))) (self : TreeLikelihood) : TreeLikelihood :=
  {| model := model self;
     nsites := nsites self;
     alignment := alignment self;
     nseqs := nseqs self;
     tree := tree self;
     name_to_nodeindex := name_to_nodeindex self;
     ninternal := ninternal self;
     ntips := ntips self;
     nnodes := nnodes self;
     rdescend := rdescend self;
     ldescend := ldescend self;
     t := t self;
     L := v;
     dL := dL self;
     tips := tips self;
     gaps := gaps self;
     _paramsarray := _paramsarray self;
     _index_to_param := _index_to_param self;
     _param_to_index := _param_to_index self;
     siteloglik := siteloglik self;
     loglik := loglik self;
     dsiteloglik := dsiteloglik self;
     dloglik := dloglik self;
     calls := calls self |}.

Definition set_dL (v : gmap string (list (darr (list (list F))))) (self : TreeLikelihood) : TreeLikelihood :=
  {| model := model self;
     nsites := nsites self;
     alignment := alignment self;
     nseqs := nseqs self;
     tree := tree self;
     name_to_nodeindex := name_to_nodeindex self;
     ninternal := ninternal self;
     ntips := ntips self;
     nnodes := nnodes self;
     rdescend := rdescend self;
     ldescend := ldescend self;
     t := t self;
     L := L self;
     dL := v;
     tips := tips self;
     gaps := gaps self;
     _paramsarray := _paramsarray self;
     _index_to_param := _index_to_param self;
     _param_to_index := _param_to_index self;
     siteloglik := siteloglik self;
     loglik := loglik self;
     dsiteloglik := dsiteloglik self;
     dloglik := dloglik self;
     calls := calls self |}.

Definition set_tips (v : list (list nat)) (self : TreeLikelihood) : TreeLikelihood :=
  {| model := model self;
     nsites := nsites self;
     alignment := alignment self;
     nseqs := nseqs self;
     tree := tree self;
     name_to_nodeindex := name_to_nodeindex self;
     ninternal := ninternal self;
     ntips := ntips self;
     nnodes := nnodes self;
     rdescend := rdescend self;
     ldescend := ldescend self;
     t := t self;
     L := L self;
     dL := dL self;
     tips := v;
     gaps := gaps self;
     _paramsarray := _paramsarray self;
     _index_to_param := _index_to_param self;
     _param_to_index := _param_to_index self;
     siteloglik := siteloglik self;
     loglik := loglik self;
     dsiteloglik := dsiteloglik self;
     dloglik := dloglik self;
     calls := calls self |}.

Definition set_gaps (v : list (list nat)) (self : TreeLikelihood) : TreeLikelihood :=
  {| model := model self;
     nsites := nsites self;
     alignment := alignment self;
     nseqs := nseqs self;
     tree := tree self;
     name_to_nodeindex := name_to_nodeindex self;
     ninternal := ninternal self;
     ntips := ntips self;
     nnodes := nnodes self;
     rdescend := rdescend self;
     ldescend := ldescend self;
     t := t self;
     L := L self;
     dL := dL self;
     tips := tips self;
     gaps := v;
     _paramsarray := _paramsarray self;
     _index_to_param := _index_to_param self;
     _param_to_index := _param_to_index self;
     siteloglik := siteloglik self;
     loglik := loglik self;
     dsiteloglik := dsiteloglik self;
     dloglik := dloglik self;
     calls := calls self |}.

Definition set__paramsarray (v : option (list F)) (self : TreeLikelihood) : TreeLikelihood :=
  {| model := model self;
     nsites := nsites self;
     alignment := alignment self;
     nseqs := nseqs self;
     tree := tree self;
     name_to_nodeindex := name_to_nodeindex self;
     ninternal := ninternal self;
     ntips := ntips self;
     nnodes := nnodes self;
     rdescend := rdescend self;
     ldescend := ldescend self;
     t := t self;
     L := L self;
     dL := dL self;
     tips := tips self;
     gaps := gaps self;
     _paramsarray := v;
     _index_to_param := _index_to_param self;
     _param_to_index := _param_to_index self;
     siteloglik := siteloglik self;
     loglik := loglik self;
     dsiteloglik := dsiteloglik self;
     dloglik := dloglik self;
     calls := calls self |}.

Definition set__index_to_param (v : list (nat * slot)) (self : TreeLikelihood) : TreeLikelihood :=
  {| model := model self;
     nsites := nsites self;
     alignment := alignment self;
     nseqs := nseqs self;
     tree := tree self;
     name_to_nodeindex := name_to_nodeindex self;
     ninternal := ninternal self;
     ntips := ntips self;
     nnodes := nnodes self;
     rdescend := rdescend self;
     ldescend := ldescend self;
     t := t self;
     L := L self;
     dL := dL self;
     tips := tips self;
     gaps := gaps self;
     _paramsarray := _paramsarray self;
     _index_to_param := v;
     _param_to_index := _param_to_index self;
     siteloglik := siteloglik self;
     loglik := loglik self;
     dsiteloglik := dsiteloglik self;
     dloglik := dloglik self;
     calls := calls self |}.

Definition set__param_to_index (v : list (slot * nat)) (self : TreeLikelihood) : TreeLikelihood :=
  {| model := model self;
     nsites := nsites self;
     alignment := alignment self;
     nseqs := nseqs self;
     tree := tree self;
     name_to_nodeindex := name_to_nodeindex self;
     ninternal := ninternal self;
     ntips := ntips self;
     nnodes := nnodes self;
     rdescend := rdescend self;
     ldescend := ldescend self;
     t := t self;
     L := L self;
     dL := dL self;
     tips := tips self;
     gaps := gaps self;
     _paramsarray := _paramsarray self;
     _index_to_param := _index_to_param self;
     _param_to_index := v;
     siteloglik := siteloglik self;
     loglik := loglik self;
     dsiteloglik := dsiteloglik self;
     dloglik := dloglik self;
     calls := calls self |}.

Definition set_siteloglik (v : list F) (self : TreeLikelihood) : TreeLikelihood :=
  {| model := model self;
     nsites := nsites self;
     alignment := alignment self;
     nseqs := nseqs self;
     tree := tree self;
     name_to_nodeindex := name_to_nodeindex self;
     ninternal := ninternal self;
     ntips := ntips self;
     nnodes := nnodes self;
     rdescend := rdescend self;
     ldescend := ldescend self;
     t := t self;
     L := L self;
     dL := dL self;
     tips := tips self;
     gaps := gaps self;
     _paramsarray := _paramsarray self;
     _index_to_param := _index_to_param self;
     _param_to_index := _param_to_index self;
     siteloglik := v;
     loglik := loglik self;
     dsiteloglik := dsiteloglik self;
     dloglik := dloglik self;
     calls := calls self |}.

Definition set_loglik (v : F) (self : TreeLikelihood) : TreeLikelihood :=
  {| model := model self;
     nsites := nsites self;
     alignment := alignment self;
     nseqs := nseqs self;
     tree := tree self;
     name_to_nodeindex := name_to_nodeindex self;
     ninternal := ninternal self;
     ntips := ntips self;
     nnodes := nnodes self;
     rdescend := rdescend self;
     ldescend := ldescend self;
     t := t self;
     L := L self;
     dL := dL self;
     tips := tips self;
     gaps := gaps self;
     _paramsarray := _paramsarray self;
     _index_to_param := _index_to_param self;
     _param_to_index := _param_to_index self;
     siteloglik := siteloglik self;
     loglik := v;
     dsiteloglik := dsiteloglik self;
     dloglik := dloglik self;
     calls := calls self |}.

Definition set_dsiteloglik (v : gmap string (darr (list F))) (self : TreeLikelihood) : TreeLikelihood :=
  {| model := model self;
     nsites := nsites self;
     alignment := alignment self;
     nseqs := nseqs self;
     tree := tree self;
     name_to_nodeindex := name_to_nodeindex self;
     ninternal := ninternal self;
     ntips := ntips self;
     nnodes := nnodes self;
     rdescend := rdescend self;
     ldescend := ldescend self;
     t := t self;
     L := L self;
     dL := dL self;
     tips := tips self;
     gaps := gaps self;
     _paramsarray := _paramsarray self;
     _index_to_param := _index_to_param self;
     _param_to_index := _param_to_index self;
     siteloglik := siteloglik self;
     loglik := loglik self;
     dsiteloglik := v;
     dloglik := dloglik self;
     calls := calls self |}.

Definition set_dloglik (v : gmap string (darr F)) (self : TreeLikelihood) : TreeLikelihood :=
  {| model := model self;
     nsites := nsites self;
     alignment := alignment self;
     nseqs := nseqs self;
     tree := tree self;
     name_to_nodeindex := name_to_nodeindex self;
     ninternal := ninternal self;
     ntips := ntips self;
     nnodes := nnodes self;
     rdescend := rdescend self;
     ldescend := ldescend self;
     t := t self;
     L := L self;
     dL := dL self;
     tips := tips self;
     gaps := gaps self;
     _paramsarray := _paramsarray self;
     _index_to_param := _index_to_param self;
     _param_to_index := _param_to_index self;
     siteloglik := siteloglik self;
     loglik := loglik self;
     dsiteloglik := dsiteloglik self;
     dloglik := v;
     calls := calls self |}.

Definition set_calls (v : list event) (self : TreeLikelihood) : TreeLikelihood :=
  {| model := model self;
     nsites := nsites self;
     alignment := alignment self;
     nseqs := nseqs self;
     tree := tree self;
     name_to_nodeindex := name_to_nodeindex self;
     ninternal := ninternal self;
     ntips := ntips self;
     nnodes := nnodes self;
     rdescend := rdescend self;
     ldescend := ldescend self;
     t := t self;
     L := L self;
     dL := dL self;
     tips := tips self;
     gaps := gaps self;
     _paramsarray := _paramsarray self;
     _index_to_param := _index_to_param self;
     _param_to_index := _param_to_index self;
     siteloglik := siteloglik self;
     loglik := loglik self;
     dsiteloglik := dsiteloglik self;
     dloglik := dloglik self;
     calls := v |}.

(** *** Array operations *)

(** Elementwise [a * b] and [a + b] on arrays of shape [(nsites, N_CODON)]. *)
Definition tab_mul (a b : tab) : tab := zip_with (zip_with fmul) a b.
Definition tab_add (a b : tab) : tab := zip_with (zip_with fadd) a b.

(** [a + c] for a number [c]. *)
Definition tab_add_const (a : tab) (c : F) : tab :=
  map (map (fun x => fadd x c)) a.

(** The second operand of [dML + MdL]: an array, or the number [0]. *)
Inductive operand : Type :=
  | OArray (a : tab)
  | OZero.

Definition tab_add_operand (a : tab) (b : operand) : tab :=
  match b with
  | OArray b => tab_add a b
  | OZero => tab_add_const a fzero
  end.

(** Modelled from the spec: [phydmslib.numutils.broadcastMatrixVectorMultiply]
    is not among the sources; the result at site [r] and codon [x] is the
    sum over [y] of [m[r][x][y] * v[r][y]]. *)
Definition broadcastMatrixVectorMultiply (m : mat) (v : tab) : tab :=
  zip_with (fun mr vr => map (fun mrx => fsum (zip_with fmul mrx vr)) mr) m v.

(** [scipy.full((d1, d2, d3), -1, dtype='float')] and the like. *)
Definition full3 (d1 d2 d3 : nat) (x : F) : mat :=
  replicate d1 (replicate d2 (replicate d3 x)).

(** *** The likelihood kernel *)

(** What the loop body keeps about one descendant: for a tip its branch
    length, codons, gaps and [M(t, tips, gaps)]; for an internal node its
    branch length, internal node number and [M(t)]. *)
Inductive descendant : Type :=
  | TipNode (tn : F) (codons : list nat) (gp : list nat) (Mn : tab)
  | InternalNode (tn : F) (ni : Z) (Mn : mat).

(** The matrix [M] and the product [ML] for the descendant [nd] reached by
    a branch of length [tn]. *)
Definition descend (nd : Z) (tn : F) : Py TreeLikelihood (descendant * tab) :=
  do self <- get;
  if nd <? Z.of_nat (ntips self) then
    do codons <- index (tips self) nd;
    do gp <- index (gaps self) nd;
    let Mn := M_tips (model self) tn codons gp in
    ret (TipNode tn codons gp Mn, Mn)
  else
    let Mn := M (model self) tn in
    do Ln <- index (L self) (nd - Z.of_nat (ntips self));
    ret (InternalNode tn (nd - Z.of_nat (ntips self)) Mn,
         broadcastMatrixVectorMultiply Mn Ln).

(** [paramvalue = getattr(self.model, param)] and [indices]: the index
    tuples of the parameter value. *)
Definition indices_of (paramvalue : option pyval) : exn + list jidx :=
  match paramvalue with
  | None => inl AttributeError
  | Some (PFloat _) => inr [JEmpty]
  | Some (PArray a) => inr (map JAt (seq 0 (length a)))
  | Some (PUnsized _) => inl TypeError
  | Some POther => inl TypeError
  end.

(** [dML] and [MdL] of one descendant for the index tuple [j]; the first
    component of the argument is [dM] of that descendant, computed once per
    parameter. *)
Definition dterms (param : string) (j : jidx)
    (nd : descendant * (darr tab + darr mat)) : Py TreeLikelihood (tab * operand) :=
  match nd with
  | (TipNode _ _ _ _, inl dMn) =>
      do dMnj <- lift (darr_get dMn j);
      ret (dMnj, OZero)
  | (InternalNode _ ni Mn, inr dMn) =>
      do self <- get;
      do dMnj <- lift (darr_get dMn j);
      do Ln <- index (L self) ni;
      do dLp <- getitem (dL self) param;
      do dLn <- index dLp ni;
      do dLnj <- lift (darr_get dLn j);
      ret (broadcastMatrixVectorMultiply dMnj Ln,
           OArray (broadcastMatrixVectorMultiply Mn dLnj))
  | _ => raise TypeError
  end.

(** [dM] of a descendant with respect to [param]. *)
Definition dM_of (m : Model) (param : string) (nd : descendant)
    : descendant * (darr tab + darr mat) :=
  match nd with
  | TipNode tn codons gp Mn => (nd, inl (dM_tips m tn param Mn codons gp))
  | InternalNode tn _ Mn => (nd, inr (dM m tn param Mn))
  end.

(** The body of [for j in indices] at node [ni]. *)
Definition computeDerivative (ni : nat) (MLright MLleft : tab) (param : string)
    (dMright dMleft : descendant * (darr tab + darr mat)) (j : jidx)
    : Py TreeLikelihood unit :=
  do '(dMLright, MdLright) <- dterms param j dMright;
  do '(dMLleft, MdLleft) <- dterms param j dMleft;
  do self <- get;
  do dLp <- getitem (dL self) param;
  do dLn <- index dLp (Z.of_nat ni);
  do dLn' <- lift (darr_set dLn j
                     (tab_add (tab_mul (tab_add_operand dMLright MdLright) MLleft)
                              (tab_mul MLright (tab_add_operand dMLleft MdLleft))));
  modify (set_dL (<[param := <[ni := dLn']> dLp]> (dL self))).

(** The body of [for param in self.model.freeparams] at node [ni]. *)
Definition computeDerivatives (ni : nat) (Dright Dleft : descendant)
    (MLright MLleft : tab) (param : string) : Py TreeLikelihood unit :=
  do self <- get;
  let paramvalue := getattr (model self) param in
  do indices <- lift (indices_of paramvalue);
  let dMright := dM_of (model self) param Dright in
  let dMleft := dM_of (model self) param Dleft in
  forM_ indices (computeDerivative ni MLright MLleft param dMright dMleft).

(** The body of [for n in range(self.ntips, self.nnodes)]. *)
Definition computeNode (n : nat) : Py TreeLikelihood unit :=
  do self <- get;
  let ni := (n - ntips self)%nat in
  do nright <- index (rdescend self) (Z.of_nat ni);
  do nleft <- index (ldescend self) (Z.of_nat ni);
  do tright <- index (t self) nright;
  do tleft <- index (t self) nleft;
  do '(Dright, MLright) <- descend nright tright;
  do '(Dleft, MLleft) <- descend nleft tleft;
  do L' <- setitem (L self) ni (tab_mul MLright MLleft);
  modify (set_L L') >>
  forM_ (freeparams (model self))
        (computeDerivatives ni Dright Dleft MLright MLleft).

(** [TreeLikelihood._computePartialLikelihoods] *)
Definition _computePartialLikelihoods : Py TreeLikelihood unit :=
  do self <- get;
  forM_ (seq (ntips self) (nnodes self - ntips self)) computeNode.

(** [TreeLikelihood._updateInternals] *)
Definition _updateInternals : Py TreeLikelihood unit :=
  modify (fun self => set_calls (calls self ++ [UpdateInternals]) self) >>
  _computePartialLikelihoods >>
  do self <- get;
  do Lroot <- index (L self) (-1);
  let sitelik := map fsum (tab_mul Lroot (stationarystate (model self))) in
  modify (set_siteloglik (map flog sitelik)) >>
  do self <- get;
  modify (set_loglik (fsum (siteloglik self))) >>
  modify (set_dsiteloglik ∅) >>
  modify (set_dloglik ∅) >>
  forM_ (freeparams (model self)) (fun param =>
    do self <- get;
    let dpi := dstationarystate (model self) param in
    do Lroot <- index (L self) (-1);
    do dLp <- getitem (dL self) param;
    do dLroot <- index dLp (-1);
    do x <- lift (darr_zip tab_add
                    (darr_map (fun d => tab_mul d Lroot) dpi)
                    (darr_map (fun d => tab_mul d (stationarystate (model self)))
                              dLroot));
    let ds := darr_map (fun d => zip_with fdiv (map fsum d) sitelik) x in
    modify (set_dsiteloglik (<[param := ds]> (dsiteloglik self))) >>
    do self <- get;
    modify (set_dloglik (<[param := darr_map fsum ds]> (dloglik self)))).

(** *** The update protocol *)

(** [TreeLikelihood.updateParams] *)
Definition updateParams (newvalues : gmap string pyval) : Py TreeLikelihood unit :=
  do self <- get;
  let modelparams :=
    filter (fun kv => kv.1 ∈ freeparams (model self)) newvalues in
  let otherparams :=
    filter (fun kv => kv.1 ∉ freeparams (model self)) newvalues in
  (if decide (modelparams = ∅) then ret tt
   else modify (fun self => set_calls (calls self ++ [ModelUpdateParams]) self) >>
        zoom model set_model (model_updateParams modelparams)) >>
  (if decide (otherparams = ∅) then ret tt else raise RuntimeError) >>
  (if decide (newvalues = ∅) then ret tt
   else _updateInternals >> modify (set__paramsarray None)).

(** The value a slot reads from the model.  A 0-dimensional array is
    stored like its number and cannot be indexed. *)
Definition slot_value (m : Model) (param : slot) : exn + F :=
  match param with
  | Scalar p =>
      match getattr m p with
      | None => inl AttributeError
      | Some (PFloat x) => inr x
      | Some (PUnsized x) => inr x
      | Some _ => inl TypeError
      end
  | Component p pindex =>
      match getattr m p with
      | None => inl AttributeError
      | Some (PArray a) => py_index a (Z.of_nat pindex)
      | Some (PUnsized _) => inl IndexError
      | Some _ => inl TypeError
      end
  end.

(** The getter of the property [paramsarray]. *)
Definition paramsarray : Py TreeLikelihood (list F) :=
  do self <- get;
  match _paramsarray self with
  | Some a => ret a
  | None =>
      let nparams := length (_index_to_param self) in
      modify (set__paramsarray (Some (replicate nparams funinit))) >>
      foldM (fun a '(i, param) =>
               do self <- get;
               do v <- lift (slot_value (model self) param);
               do a' <- setitem a i v;
               modify (set__paramsarray (Some a')) >> ret a')
            (_index_to_param self) (replicate nparams funinit)
  end.

(** [all(value == self._paramsarray)]; arrays of different lengths do not
    compare elementwise. *)
Definition all_equal (value a : list F) : exn + bool :=
  if (length value =? length a)%nat
  then inr (forallb (fun xy => feqb xy.1 xy.2) (zip value a))
  else inl ValueError.

(** The first loop of the setter: [newvalues] and [vectorized_params]
    after the slot [(i, param)]. *)
Definition collect (value : list F)
    (acc : gmap string pyval * gmap string (gmap nat F)) (item : nat * slot)
    : Py TreeLikelihood (gmap string pyval * gmap string (gmap nat F)) :=
  let '(newvalues, vectorized_params) := acc in
  let '(i, param) := item in
  do x <- index value (Z.of_nat i);
  match param with
  | Scalar p => ret (<[p := PFloat x]> newvalues, vectorized_params)
  | Component iparam iparamindex =>
      match vectorized_params !! iparam with
      | Some paramd =>
          assert (bool_decide (paramd !! iparamindex = None)) >>
          ret (newvalues,
               <[iparam := <[iparamindex := x]> paramd]> vectorized_params)
      | None =>
          ret (newvalues, <[iparam := {[iparamindex := x]}]> vectorized_params)
      end
  end.

(** The second loop of the setter: the array of a vector parameter. *)
Definition assemble (newvalues : gmap string pyval)
    (item : string * gmap nat F) : Py TreeLikelihood (gmap string pyval) :=
  let '(param, paramd) := item in
  assert (bool_decide (dom paramd = list_to_set (seq 0 (size paramd)))) >>
  do a <- foldM (fun a i => do x <- getitem paramd i; ret (a ++ [x]))
                (seq 0 (size paramd)) [];
  ret (<[param := PArray a]> newvalues).

(** The setter of the property [paramsarray]. *)
Definition set_paramsarray (value : list F) : Py TreeLikelihood unit :=
  do self <- get;
  let nparams := length (_index_to_param self) in
  assert (length value =? nparams)%nat >>
  do unchanged <- match _paramsarray self with
                  | Some a => lift (all_equal value a)
                  | None => ret false
                  end;
  if (unchanged : bool) then ret tt
  else
    do '(newvalues, vectorized_params) <-
         foldM (collect value) (_index_to_param self) (∅, ∅);
    do newvalues <- foldM assemble (map_to_list vectorized_params) newvalues;
    updateParams newvalues >>
    do a <- paramsarray;
    modify (set__paramsarray (Some a)).

(** The property [paramsarraybounds]. *)
Definition paramsarraybounds : Py TreeLikelihood (list (F * F)) :=
  do self <- get;
  do bounds <- foldM (fun bounds '(i, param) =>
                        do b <- getitem (PARAMLIMITS (model self)) (slot_name param);
                        ret (bounds ++ [b]))
                     (_index_to_param self) [];
  assert (length bounds =? length (_index_to_param self))%nat >>
  ret bounds.

(** The property [dloglikarray]. *)
Definition dloglikarray : Py TreeLikelihood (list F) :=
  do self <- get;
  let nparams := length (_index_to_param self) in
  foldM (fun a '(i, param) =>
           do d <- getitem (dloglik self) (slot_name param);
           do v <- lift (darr_get d match param with
                                    | Scalar _ => JEmpty
                                    | Component _ pindex => JAt pindex
                                    end);
           setitem a i v)
        (_index_to_param self) (replicate nparams funinit).

(** *** Construction *)

(** The object as [__init__] has allocated it, before the loops run. *)
Definition allocated (tree : Clade) (alignment : list (string * string))
    (model : Model) : TreeLikelihood :=
  let nsites := model_nsites model in
  let ninternal := length (get_nonterminals tree) in
  let ntips := count_terminals tree in
  let nnodes := (ntips + ninternal)%nat in
  {| model := model;
     nsites := nsites;
     alignment := alignment;
     nseqs := length alignment;
     tree := tree;
     name_to_nodeindex := ∅;
     ninternal := ninternal;
     ntips := ntips;
     nnodes := nnodes;
     rdescend := replicate ninternal (-1);
     ldescend := replicate ninternal (-1);
     t := replicate (nnodes - 1) fneg1;
     L := full3 ninternal nsites N_CODON fneg1;
     dL := ∅;
     tips := replicate ntips (replicate nsites 0%nat);
     gaps := [];
     _paramsarray := None;
     _index_to_param := [];
     _param_to_index := [];
     siteloglik := [];
     loglik := fzero;
     dsiteloglik := ∅;
     dloglik := ∅;
     calls := [] |}.

(** The body of [for param in self.model.freeparams] that allocates [dL]:
    [getattr] raises for a name the model has not, [len()] in the test of
    the [elif] raises for a 0-dimensional array, and the [else] branch
    raises for every other value. *)
Definition allocate_dL (param : string) : Py TreeLikelihood unit :=
  do self <- get;
  let table := replicate (nsites self) (replicate N_CODON fneg1) in
  match getattr (model self) param with
  | None => raise AttributeError
  | Some (PFloat _) =>
      modify (set_dL (<[param := replicate (ninternal self) (DScalar table)]>
                        (dL self)))
  | Some (PArray a) =>
      modify (set_dL (<[param := replicate (ninternal self)
                                   (DVector (replicate (length a) table))]>
                        (dL self)))
  | Some (PUnsized _) => raise TypeError
  | Some POther => raise ValueError
  end.

(** The body of [for r in range(self.nsites)] for the tip [n]; the local
    [nodegaps] is threaded through. *)
Definition encode_site (n : nat) (sequence : string) (nodegaps : list nat)
    (r : nat) : Py TreeLikelihood (list nat) :=
  let codon := substring (3 * r) 3 sequence in
  if decide (codon = "---"%string) then ret (nodegaps ++ [r])
  else match CODON_TO_INDEX !! codon with
       | Some x =>
           do self <- get;
           do row <- index (tips self) (Z.of_nat n);
           do row' <- setitem row r x;
           do tips' <- setitem (tips self) n row';
           modify (set_tips tips') >> ret nodegaps
       | None => raise ValueError
       end.

(** The body of [for (n, node) in enumerate(tipnodes + internalnodes)]. *)
Definition index_node (alignment_d : gmap string string)
    (item : nat * (list nat * Clade)) : Py TreeLikelihood unit :=
  let '(n, (path, node)) := item in
  do self <- get;
  (if decide (path = []) then ret tt
   else assert (n <? nnodes self - 1)%nat >>
        do t' <- setitem (t self) n (branch_length node);
        modify (set_t t')) >>
  (if is_terminal node then
     assert (n <? ntips self)%nat >>
     do sequence <- match name node with
                    | Some head => getitem alignment_d head
                    | None => raise KeyError
                    end;
     do nodegaps <- foldM (encode_site n sequence) (seq 0 (nsites self)) [];
     do self <- get;
     modify (set_gaps (gaps self ++ [nodegaps]))
   else
     assert (ntips self <=? n)%nat >>
     assert (length (clades node) =? 2)%nat >>
     let ni := (n - ntips self)%nat in
     do self <- get;
     do nr <- getitem (name_to_nodeindex self) (path ++ [0%nat]);
     do rdescend' <- setitem (rdescend self) ni (Z.of_nat nr);
     modify (set_rdescend rdescend') >>
     do self <- get;
     do nl <- getitem (name_to_nodeindex self) (path ++ [1%nat]);
     do ldescend' <- setitem (ldescend self) ni (Z.of_nat nl);
     modify (set_ldescend ldescend')) >>
  do self <- get;
  modify (set_name_to_nodeindex (<[path := n]> (name_to_nodeindex self))).

(** The slots of one parameter, appended at index [i]; returns the next
    free index.  A value that is neither a float nor a 1-dimensional array
    does not come this far: the loop that allocates [dL] has raised for
    it. *)
Definition index_param (i : nat) (param : string) : Py TreeLikelihood nat :=
  do self <- get;
  match getattr (model self) param with
  | None => raise AttributeError
  | Some (PFloat _) =>
      modify (set__index_to_param
                (dict_setitem i (Scalar param) (_index_to_param self))) >>
      ret (S i)
  | Some (PArray a) =>
      foldM (fun i '(pindex, pvalue) =>
               do self <- get;
               modify (set__index_to_param
                         (dict_setitem i (Component param pindex)
                                       (_index_to_param self))) >>
               ret (S i))
            (enumerate a) i
  | Some (PUnsized _) => raise TypeError
  | Some POther => raise TypeError
  end.

(** [TreeLikelihood.__init__], run on the allocated object. *)
Definition init_body : Py TreeLikelihood unit :=
  do self <- get;
  assert (forallb (fun hs => (String.length hs.2 =? 3 * nsites self)%nat)
                  (alignment self)) >>
  assert (bool_decide
            ((list_to_set (map (fun hs => Some hs.1) (alignment self))
               : gset (option string))
             = list_to_set (map name (get_terminals (tree self))))) >>
  assert (count_terminals (tree self) =? nseqs self)%nat >>
  forM_ (freeparams (model self)) allocate_dL >>
  let nodes := postorder [] (tree self) in
  let tipnodes := List.filter (fun pn => is_terminal pn.2) nodes in
  let internalnodes := List.filter (fun pn => negb (is_terminal pn.2)) nodes in
  forM_ (enumerate (tipnodes ++ internalnodes))
        (index_node (dict_of_pairs (alignment self))) >>
  do self <- get;
  assert (length (gaps self) =? ntips self)%nat >>
  do i <- foldM index_param (freeparams (model self)) 0%nat;
  do self <- get;
  modify (set__param_to_index
            (foldl (fun d xy => dict_setitem xy.2 xy.1 d) []
                   (_index_to_param self))) >>
  assert (i =? length (_index_to_param self))%nat >>
  _updateInternals.

Definition __init__ (tree : Clade) (alignment : list (string * string))
    (model : Model) : exn + TreeLikelihood :=
  match init_body (allocated tree alignment model) with
  | Ret _ self => inr self
  | Exc x _ => inl x
  end.

(** *** Reachable states *)

(** The states of an engine in normal operation: constructed from [tree],
    [alignment] and a model in state [model0], then read and updated
    through its public properties and methods, every call having
    returned. *)
Inductive reachable (tree : Clade) (alignment : list (string * string))
    (model0 : Model) : TreeLikelihood -> Prop :=
  | reachable_init self :
      __init__ tree alignment model0 = inr self ->
      reachable tree alignment model0 self
  | reachable_updateParams self newvalues self' :
      reachable tree alignment model0 self ->
      updateParams newvalues self = Ret tt self' ->
      reachable tree alignment model0 self'
  | reachable_set_paramsarray self value self' :
      reachable tree alignment model0 self ->
      set_paramsarray value self = Ret tt self' ->
      reachable tree alignment model0 self'
  | reachable_paramsarray self a self' :
      reachable tree alignment model0 self ->
      paramsarray self = Ret a self' ->
      reachable tree alignment model0 self'.

(** *** The quantities the properties are stated with *)

(** A result that is defined. *)
Definition ok {A} (r : exn + A) : option A :=
  match r with inr a => Some a | inl _ => None end.

(** The attributes fixed by construction. *)
Definition structure (self : TreeLikelihood) :=
  (nsites self, alignment self, nseqs self, tree self,
   name_to_nodeindex self, ninternal self, ntips self, nnodes self,
   rdescend self, ldescend self, t self, tips self, gaps self,
   _index_to_param self, _param_to_index self).

(** Everything but the tables [L] and [dL]. *)
Definition beside_tables (self : TreeLikelihood) :=
  (structure self, model self, _paramsarray self, siteloglik self,
   loglik self, dsiteloglik self, dloglik self, calls self).

(** The cached quantities of the engine. *)
Definition cached (self : TreeLikelihood) :=
  (L self, dL self, siteloglik self, loglik self, dsiteloglik self,
   dloglik self).

(** [dL[param][i]] and [dL[param][i][j]]. *)
Definition dL_at (self : TreeLikelihood) (param : string) (i : nat)
    : option (darr tab) :=
  dLp ← dL self !! param; dLp !! i.

Definition dL_entry (self : TreeLikelihood) (param : string) (i : nat)
    (j : jidx) : option tab :=
  d ← dL_at self param i; ok (darr_get d j).

(** The message [MLc] from the child [c]: for a tip
    [model.M(t[c], tips[c], gaps[c])], for an internal node the product of
    [model.M(t[c])] with [L[c - ntips]]. *)
Definition ML (self : TreeLikelihood) (c : nat) : option tab :=
  tc ← t self !! c;
  if (c <? ntips self)%nat then
    codons ← tips self !! c;
    gp ← gaps self !! c;
    Some (M_tips (model self) tc codons gp)
  else
    Lc ← L self !! (c - ntips self)%nat;
    Some (broadcastMatrixVectorMultiply (M (model self) tc) Lc).

(** [dMLc[j]]: for a tip [model.dM(tc, p, Mc, tips[c], gaps[c])[j]], for an
    internal node the product of [model.dM(tc, p, Mc)[j]] with
    [L[c - ntips]]. *)
Definition dML (self : TreeLikelihood) (p : string) (c : nat) (j : jidx)
    : option tab :=
  tc ← t self !! c;
  if (c <? ntips self)%nat then
    codons ← tips self !! c;
    gp ← gaps self !! c;
    ok (darr_get (dM_tips (model self) tc p
                    (M_tips (model self) tc codons gp) codons gp) j)
  else
    dMcj ← ok (darr_get (dM (model self) tc p (M (model self) tc)) j);
    Lc ← L self !! (c - ntips self)%nat;
    Some (broadcastMatrixVectorMultiply dMcj Lc).

(** [MdLc[j]]: [0] for a tip, for an internal node the product of
    [model.M(tc)] with [dL[p][c - ntips][j]]. *)
Definition MdL (self : TreeLikelihood) (p : string) (c : nat) (j : jidx)
    : option operand :=
  if (c <? ntips self)%nat then Some OZero
  else
    tc ← t self !! c;
    dLcj ← dL_entry self p (c - ntips self) j;
    Some (OArray (broadcastMatrixVectorMultiply (M (model self) tc) dLcj)).

(** The two children of the internal node [m]. *)
Definition children (self : TreeLikelihood) (m : nat) : option (nat * nat) :=
  nright ← rdescend self !! (m - ntips self)%nat;
  nleft ← ldescend self !! (m - ntips self)%nat;
  if (0 <=? nright) && (0 <=? nleft)
  then Some (Z.to_nat nright, Z.to_nat nleft)
  else None.

(** The recursion holds at the internal node [m]: [L[m - ntips]] is
    [MLright * MLleft]. *)
Definition L_holds (self : TreeLikelihood) (m : nat) : Prop :=
  exists nright nleft MLright MLleft,
    children self m = Some (nright, nleft) /\
    ML self nright = Some MLright /\ ML self nleft = Some MLleft /\
    L self !! (m - ntips self)%nat = Some (tab_mul MLright MLleft).

(** The derivative recursion holds at [m] for the component [j] of [p]. *)
Definition dL_holds (self : TreeLikelihood) (p : string) (j : jidx) (m : nat)
    : Prop :=
  exists nright nleft MLright MLleft dMLright MdLright dMLleft MdLleft,
    children self m = Some (nright, nleft) /\
    ML self nright = Some MLright /\ ML self nleft = Some MLleft /\
    dML self p nright j = Some dMLright /\ MdL self p nright j = Some MdLright /\
    dML self p nleft j = Some dMLleft /\ MdL self p nleft j = Some MdLleft /\
    dL_entry self p (m - ntips self) j
    = Some (tab_add (tab_mul (tab_add_operand dMLright MdLright) MLleft)
                    (tab_mul MLright (tab_add_operand dMLleft MdLleft))).

(** The index tuples of the parameter [p] in the current model. *)
Definition component (self : TreeLikelihood) (p : string) (j : jidx) : Prop :=
  exists indices, indices_of (getattr (model self) p) = inr indices /\
                  j ∈ indices.

(** Both recursions hold at the internal node [m]. *)
Definition node_holds (self : TreeLikelihood) (m : nat) : Prop :=
  L_holds self m /\
  forall p j, p ∈ freeparams (model self) -> component self p j ->
              dL_holds self p j m.

(** The node indexing the kernel relies on: every internal node has its
    two children at smaller indices. *)
Definition children_below (self : TreeLikelihood) : Prop :=
  nnodes self = (ntips self + ninternal self)%nat /\
  forall m, (ntips self <= m < nnodes self)%nat ->
    exists nright nleft,
      children self m = Some (nright, nleft) /\
      (nright < m)%nat /\ (nleft < m)%nat.

(** What the loop body of the kernel holds about the descendant [c]. *)
Definition descendant_of (self : TreeLikelihood) (c : nat) (D : descendant)
    : Prop :=
  exists tc, t self !! c = Some tc /\
    if (c <? ntips self)%nat then
      exists codons gp,
        tips self !! c = Some codons /\ gaps self !! c = Some gp /\
        D = TipNode tc codons gp (M_tips (model self) tc codons gp)
    else
      D = InternalNode tc (Z.of_nat (c - ntips self)) (M (model self) tc).

(** Two states that differ at most in the entries of [L] and [dL] of the
    internal node number [ni]. *)
Definition agree_off (ni : nat) (s s' : TreeLikelihood) : Prop :=
  beside_tables s = beside_tables s' /\
  length (L s) = length (L s') /\
  (forall i, i <> ni -> L s !! i = L s' !! i) /\
  (forall p i, i <> ni -> dL_at s p i = dL_at s' p i).

(** Two states that differ at most in the entry of [dL[p]] of the internal
    node number [ni]. *)
Definition agree_param (p : string) (ni : nat) (s s' : TreeLikelihood) : Prop :=
  beside_tables s = beside_tables s' /\
  L s = L s' /\
  (forall p', p' <> p -> dL s !! p' = dL s' !! p') /\
  (forall i, i <> ni -> dL_at s p i = dL_at s' p i).

(** The root reduction: [siteloglik[r]] is the logarithm of the sum over
    [x] of [L[root - ntips][r][x] * pi[r][x]], the root being the node
    [nnodes - 1], and [loglik] is the sum of [siteloglik]. *)
Definition root_holds (self : TreeLikelihood) : Prop :=
  exists Lroot,
    L self !! (nnodes self - 1 - ntips self)%nat = Some Lroot /\
    (forall r Lr pir,
        Lroot !! r = Some Lr -> stationarystate (model self) !! r = Some pir ->
        siteloglik self !! r = Some (flog (fsum (zip_with fmul Lr pir)))) /\
    length (siteloglik self)
    = (length Lroot `min` length (stationarystate (model self)))%nat /\
    loglik self = fsum (siteloglik self).

(** [tips[n][r]] *)
Definition entry (self : TreeLikelihood) (n r : nat) : option nat :=
  row ← tips self !! n; row !! r.

(** Site [r] of the tip [n] encodes the window of [sequence] at [r]: a
    gap is listed in [gaps[n]] and its entry is [0]; a codon of the table
    has its index for entry and is not listed. *)
Definition site_encoded (self : TreeLikelihood) (n : nat) (sequence : string)
    (r : nat) : Prop :=
  let codon := substring (3 * r) 3 sequence in
  exists gp, gaps self !! n = Some gp /\
    ((codon = "---"%string /\ (r ∈ gp) /\ entry self n r = Some 0%nat) \/
     (codon <> "---"%string /\ (r ∉ gp) /\
      exists x, CODON_TO_INDEX !! codon = Some x /\ entry self n r = Some x)).

(** What the loop over the nodes may change. *)
Definition reindexed (s s' : TreeLikelihood) : Prop :=
  s' = set_name_to_nodeindex (name_to_nodeindex s')
         (set_ldescend (ldescend s')
            (set_rdescend (rdescend s')
               (set_gaps (gaps s') (set_tips (tips s') (set_t (t s') s))))).

(** The tip [c] of index [n] is encoded: its sequence is the one the
    alignment gives for its name, and every site encodes its window. *)
Definition tip_encoded (self : TreeLikelihood) (n : nat) (c : Clade) : Prop :=
  exists head sequence,
    name c = Some head /\
    dict_of_pairs (alignment self) !! head = Some sequence /\
    forall r, (r < nsites self)%nat -> site_encoded self n sequence r.

(** The state of the loop over the nodes once the items [pre] of
    [enumerate(tipnodes + internalnodes)] are done, [ntip] of the nodes
    being tips and [s0] the state the loop started from. *)
Definition nodes_indexed (s0 : TreeLikelihood) (ntip : nat)
    (pre : list (nat * (list nat * Clade))) (s' : TreeLikelihood) : Prop :=
  reindexed s0 s' /\
  (forall path n, name_to_nodeindex s' !! path = Some n <->
                  exists c, (n, (path, c)) ∈ pre) /\
  length (tips s') = length (tips s0) /\
  (forall n, (length pre <= n)%nat -> tips s' !! n = tips s0 !! n) /\
  length (rdescend s') = length (rdescend s0) /\
  length (ldescend s') = length (ldescend s0) /\
  (forall n path c, (n, (path, c)) ∈ pre ->
     if is_terminal c then (n < ntips s0)%nat else (ntips s0 <= n)%nat) /\
  (forall m, (m < length pre)%nat -> (ntips s0 <= m)%nat ->
     exists nr nl, children s' m = Some (nr, nl) /\ (nr < m)%nat /\ (nl < m)%nat) /\
  length (gaps s') = (length pre `min` ntip)%nat /\
  (forall n path c, (n, (path, c)) ∈ pre -> is_terminal c = true ->
     tip_encoded s' n c).

(** The slots of one parameter: one for a scalar, one per component, in
    component order, for a vector. *)
Definition slots_of (m : Model) (param : string) : list slot :=
  match getattr m param with
  | Some (PFloat _) => [Scalar param]
  | Some (PArray a) => map (Component param) (seq 0 (length a))
  | _ => []
  end.

(** The flat parameter map: the slots of the free parameters in the order
    the model declares them. *)
Definition flat_slots (m : Model) : list slot :=
  concat (map (slots_of m) (freeparams m)).

(** The node indexing: every node of the tree has an index below [nnodes],
    below [ntips] exactly when it is a tip; every index is that of one
    node; the root has the last one; the children of an internal node have
    smaller indices than it. *)
Definition indexing_holds (self : TreeLikelihood) : Prop :=
  (forall path c, node_at (tree self) path = Some c ->
     exists n, name_to_nodeindex self !! path = Some n /\
               (n < nnodes self)%nat /\
               if is_terminal c then (n < ntips self)%nat
               else (ntips self <= n)%nat) /\
  ((forall n, (n < nnodes self)%nat ->
      exists path c, node_at (tree self) path = Some c /\
                     name_to_nodeindex self !! path = Some n) /\
   (forall path path' n,
      name_to_nodeindex self !! path = Some n ->
      name_to_nodeindex self !! path' = Some n -> path = path')) /\
  name_to_nodeindex self !! [] = Some (nnodes self - 1)%nat /\
  children_below self.

(** The tip encoding: every tip of the tree is encoded under its index. *)
Definition encoding_holds (self : TreeLikelihood) : Prop :=
  forall path c n,
    node_at (tree self) path = Some c -> is_terminal c = true ->
    name_to_nodeindex self !! path = Some n ->
    (n < ntips self)%nat /\ tip_encoded self n c.

(** The content of the three assertions on the alignment. *)
Definition alignment_checked (self : TreeLikelihood) : Prop :=
  (forall head sequence, (head, sequence) ∈ alignment self ->
     String.length sequence = (3 * nsites self)%nat) /\
  (forall head, (exists sequence, (head, sequence) ∈ alignment self) <->
                (exists c, c ∈ get_terminals (tree self) /\ name c = Some head)) /\
  count_terminals (tree self) = length (alignment self).

(** The tables agree with the current model: both recursions hold at
    every internal node, and so does the root reduction. *)
Definition consistent (self : TreeLikelihood) : Prop :=
  length (L self) = ninternal self /\
  (forall m, (ntips self <= m < nnodes self)%nat -> node_holds self m) /\
  root_holds self.

(** The cached flat array, when there is one, has one element per slot. *)
Definition cache_sized (self : TreeLikelihood) : Prop :=
  forall a, _paramsarray self = Some a ->
            length a = length (_index_to_param self).

(** [a[r][x]] *)
Definition cell (a : tab) (r x : nat) : option F :=
  row ← a !! r; row !! x.

(** *** Further quantities *)

(** What the likelihood kernel has no business with: the structure, the
    model, the cached flat array and the record of calls. *)
Definition inputs (self : TreeLikelihood) :=
  (structure self, model self, _paramsarray self, calls self).

(** Everything but the cached flat array. *)
Definition beside_cache (self : TreeLikelihood) :=
  (structure self, model self, cached self, calls self).

(** A parameter value construction allocates a table for: a float or a
    1-dimensional array. *)
Definition allocatable (paramvalue : option pyval) : Prop :=
  match paramvalue with
  | Some (PFloat _) | Some (PArray _) => True
  | _ => False
  end.

(** The exception the allocation of [dL] raises for a value that is
    neither. *)
Definition allocation_error (paramvalue : option pyval) : option exn :=
  match paramvalue with
  | None => Some AttributeError
  | Some (PUnsized _) => Some TypeError
  | Some POther => Some ValueError
  | Some _ => None
  end.


(** The sites of [sequence] whose window is ['---'], in increasing
    order. *)
Definition gap_sites (nsites : nat) (sequence : string) : list nat :=
  List.filter (fun r => bool_decide (substring (3 * r) 3 sequence = "---"%string))
              (seq 0 nsites).

(** The nodes in the order [__init__] numbers them: the tips in postorder,
    then the internal nodes in postorder. *)
Definition numbered (tree : Clade) : list (list nat * Clade) :=
  let nodes := postorder [] tree in
  List.filter (fun pn => is_terminal pn.2) nodes
  ++ List.filter (fun pn => negb (is_terminal pn.2)) nodes.

(** What the loop over the nodes has written once the items [pre] are
    done, [ntip] of the nodes being tips: the index of every node done and
    of no other, its branch length unless it is the root, for a tip its
    gaps, for an internal node its two children; the arrays have kept
    their sizes. *)
Definition nodes_written (s0 : TreeLikelihood) (alignment_d : gmap string string)
    (ntip : nat) (pre : list (nat * (list nat * Clade))) (s' : TreeLikelihood) : Prop :=
  reindexed s0 s' /\
  (forall path n, name_to_nodeindex s' !! path = Some n <->
                  exists c, (n, (path, c)) ∈ pre) /\
  length (t s') = length (t s0) /\
  length (rdescend s') = length (rdescend s0) /\
  length (ldescend s') = length (ldescend s0) /\
  length (tips s') = length (tips s0) /\
  (forall n row, tips s' !! n = Some row ->
     exists row0, tips s0 !! n = Some row0 /\ length row = length row0) /\
  (forall n path c, (n, (path, c)) ∈ pre -> path <> [] ->
     t s' !! n = Some (branch_length c)) /\
  (forall n path c, (n, (path, c)) ∈ pre -> is_terminal c = true ->
     exists head sequence,
       name c = Some head /\ alignment_d !! head = Some sequence /\
       gaps s' !! n = Some (gap_sites (nsites s0) sequence)) /\
  length (gaps s') = (length pre `min` ntip)%nat /\
  (forall n path c, (n, (path, c)) ∈ pre -> is_terminal c = false ->
     exists cr cl nr nl,
       (ntips s0 <= n)%nat /\ clades c = [cr; cl] /\
       name_to_nodeindex s' !! (path ++ [0%nat]) = Some nr /\
       name_to_nodeindex s' !! (path ++ [1%nat]) = Some nl /\
       rdescend s' !! (n - ntips s0)%nat = Some (Z.of_nat nr) /\
       ldescend s' !! (n - ntips s0)%nat = Some (Z.of_nat nl)).

(** The attributes the loop over the nodes has written, with the sizes
    and the inputs they index. *)
Definition topology (self : TreeLikelihood) :=
  (nsites self, alignment self, nseqs self, tree self,
   name_to_nodeindex self, ninternal self, ntips self, nnodes self,
   rdescend self, ldescend self, t self, tips self, gaps self).

(** The array [a] holds, slot by slot, the values the model has now. *)
Definition reflects (self : TreeLikelihood) (a : list F) : Prop :=
  Forall2 (fun (it : nat * slot) x => slot_value (model self) it.2 = inr x)
          (_index_to_param self) a.

(** The cached flat array, when there is one, is up to date. *)
Definition cache_fresh (self : TreeLikelihood) : Prop :=
  forall a, _paramsarray self = Some a -> reflects self a.

(** The index tuple of a slot within the value of its parameter. *)
Definition slot_index (param : slot) : jidx :=
  match param with
  | Scalar _ => JEmpty
  | Component _ pindex => JAt pindex
  end.



End Engine.

End TreeLik.

(** ** [phydmslib.modeladequacy]: translation and amino-acid frequencies *)

Module Adequacy.
Import TreeLik.

(** [CODON_TO_AA] (an array of amino-acid indices, one per codon index)
    and [INDEX_TO_AA] (a dictionary from amino-acid index to one-letter
    code, here its items in the order of the dictionary) of
    [phydmslib.constants], not among the sources: parameters, like
    [CODON_TO_INDEX]. *)
Class AminoAcids : Type := {
  CODON_TO_AA : list nat;
  INDEX_TO_AA : list (nat * ascii);
  INDEX_TO_AA_keys : NoDup (INDEX_TO_AA.*1);
}.

(** What the frequencies need of the floats besides [Float]: the float of
    an integer, and the test of [scipy.allclose(x, 1, atol=0.005)] on one
    element [x]. *)
Class FloatFrames `{FL : Float} : Type := {
  float_of_int : Z -> F;
  isclose_1 : F -> bool;
}.

(** A loop that appends one result per item and stops at the first item
    that raises. *)
Fixpoint mapE {A B} (f : A -> exn + B) (l : list A) : exn + list B :=
  match l with
  | [] => inr []
  | x :: l' =>
      match f x with
      | inl e => inl e
      | inr y => match mapE f l' with
                 | inl e => inl e
                 | inr ys => inr (y :: ys)
                 end
      end
  end.

(** A loop that updates a local variable and stops at the first item that
    raises. *)
Fixpoint foldE {A X} (f : A -> X -> exn + A) (l : list X) (a : A) : exn + A :=
  match l with
  | [] => inr a
  | x :: l' =>
      match f a x with
      | inl e => inl e
      | inr a' => foldE f l' a'
      end
  end.

(** [d[k]] on a [dict] kept as its items in order. *)
Fixpoint dict_get {K V} `{EqDecision K} (d : list (K * V)) (k : K) : option V :=
  match d with
  | [] => None
  | (k', v) :: d' => if decide (k = k') then Some v else dict_get d' k
  end.

(** [range(0, n, 3)] *)
Definition range3 (n : nat) : list nat :=
  map (fun j => 3 * j)%nat (seq 0 ((n + 2) / 3)).

(** The order of [sort] on one-letter strings. *)
Definition ascii_le (a b : ascii) : Prop :=
  (nat_of_ascii a <= nat_of_ascii b)%nat.

#[export] Instance ascii_le_dec a b : Decision (ascii_le a b) :=
  Nat.le_dec (nat_of_ascii a) (nat_of_ascii b).

(** The rows of a table given by its columns, each of [nrows] entries. *)
Definition frame_rows {A} (nrows : nat) (cols : list (list A)) : list (list A) :=
  map (fun i => omap (fun col => col !! i) cols) (seq 0 nrows).

Section Translation.
Context `{CO : Constants} `{AA : AminoAcids}.

(** The body of the loop of [translate_with_gaps] for the window that
    starts at [i]. *)
Definition translate_codon (sequence : string) (i : nat) : exn + ascii :=
  let codon := substring i 3 sequence in
  if decide (codon = "---"%string) then inr "-"%char
  else match CODON_TO_INDEX !! codon with
       | None => inl KeyError
       | Some x =>
           match CODON_TO_AA !! x with
           | None => inl IndexError
           | Some a =>
               match dict_get INDEX_TO_AA a with
               | None => inl KeyError
               | Some aa => inr aa
               end
           end
       end.

(** [translate_with_gaps] *)
Definition translate_with_gaps (sequence : string) : exn + string :=
  if (String.length sequence mod 3 =? 0)%nat then
    match mapE (translate_codon sequence) (range3 (String.length sequence)) with
    | inl e => inl e
    | inr prot_seq => inr (string_of_list_ascii prot_seq)
    end
  else inl AssertionError.

(** The amino acid the three tables give for a codon, where they give
    one. *)
Definition amino_acid (codon : string) : option ascii :=
  x ← CODON_TO_INDEX !! codon; a ← CODON_TO_AA !! x; dict_get INDEX_TO_AA a.

(** The window of three characters for codon position [j]. *)
Definition window (sequence : string) (j : nat) : string :=
  substring (3 * j) 3 sequence.

(** *** [calc_aa_frequencies] *)

(** [if aa != '-': df[aa][i] += 1] *)
Definition count_aa (df : list (ascii * list Z)) (item : nat * ascii)
    : exn + list (ascii * list Z) :=
  let '(i, aa) := item in
  if decide (aa = "-"%char) then inr df
  else match dict_get df aa with
       | None => inl KeyError
       | Some col =>
           match col !! i with
           | None => inl IndexError
           | Some c => inr (dict_setitem aa (<[i := c + 1]> col) df)
           end
       end.

(** The body of [for seq in alignment]. *)
Definition count_sequence (df : list (ascii * list Z)) (seq : string * string)
    : exn + list (ascii * list Z) :=
  match translate_with_gaps seq.2 with
  | inl e => inl e
  | inr prot => foldE count_aa (enumerate (list_ascii_of_string prot)) df
  end.

(** The data frame returned: the column [site] and, in order, the columns
    of the amino acids. *)
Record DataFrame `{FL : Float} : Type := mkDataFrame {
  site : list Z;
  columns : list (ascii * list F);
}.

Context `{FL : Float} `{FF : !FloatFrames}.

Definition calc_aa_frequencies (alignment : list (string * string))
    : exn + DataFrame :=
  if forallb (fun s => (String.length s.2 mod 3 =? 0)%nat) alignment then
    match alignment with
    | [] => inl IndexError
    | first :: _ =>
        let seqlength := (String.length first.2 / 3)%nat in
        let df0 := foldl (fun d k => dict_setitem k (replicate seqlength 0) d)
                         [] (INDEX_TO_AA.*2) in
        match foldE count_sequence alignment df0 with
        | inl e => inl e
        | inr df =>
            (* pd.DataFrame(df): no columns, no rows *)
            let nrows := match df with [] => 0%nat | _ => seqlength end in
            let totals := map (foldr Z.add 0) (frame_rows nrows (df.*2)) in
            if existsb (Z.eqb 0) totals then inl AssertionError
            else
              let freq :=
                map (fun col : ascii * list Z =>
                       (col.1, zip_with (fun c total =>
                                           fdiv (float_of_int c)
                                                (float_of_int total))
                                        col.2 totals)) df in
              if forallb isclose_1 (map fsum (frame_rows nrows (freq.*2))) then
                match mapE (fun a => match dict_get freq a with
                                     | Some col => inr (a, col)
                                     | None => inl KeyError
                                     end)
                           (merge_sort ascii_le (INDEX_TO_AA.*2)) with
                | inl e => inl e
                | inr cols =>
                    inr {| site := map (fun x => Z.of_nat x + 1) (seq 0 nrows);
                           columns := cols |}
                end
              else inl AssertionError
        end
    end
  else inl AssertionError.

End Translation.

(** *** What the counts of [calc_aa_frequencies] are *)

(** Whether the protein has the amino acid [aa], which is no gap, at
    position [i]. *)
Definition has_letter (i : nat) (aa : ascii) (prot : string) : bool :=
  bool_decide (aa <> "-"%char /\ String.get i prot = Some aa).

(** How many of the proteins have the amino acid [aa] at position [i]. *)
Definition letter_count (prots : list string) (i : nat) (aa : ascii) : Z :=
  Z.of_nat (length (List.filter (has_letter i aa) prots)).

(** Whether the protein has a character other than a gap at position [i]. *)
Definition has_residue (i : nat) (prot : string) : bool :=
  match String.get i prot with
  | Some c => bool_decide (c <> "-"%char)
  | None => false
  end.

(** How many of the proteins have an amino acid at position [i]. *)
Definition residue_count (prots : list string) (i : nat) : Z :=
  Z.of_nat (length (List.filter (has_residue i) prots)).

(** The dictionary [df] holds, under each of [keys] and in their order, a
    column of [n] counts, the count at [i] under [aa] being [g i aa]. *)
Definition counted (n : nat) (keys : list ascii) (g : nat -> ascii -> Z)
    (df : list (ascii * list Z)) : Prop :=
  df.*1 = keys /\
  forall aa, aa ∈ keys ->
    exists col, dict_get df aa = Some col /\ length col = n /\
                forall i, (i < n)%nat -> col !! i = Some (g i aa).

(** Every amino acid of the protein is one of [keys], at a position
    below [n]. *)
Definition fits (n : nat) (keys : list ascii) (prot : string) : Prop :=
  forall i c, String.get i prot = Some c -> c <> "-"%char ->
              c ∈ keys /\ (i < n)%nat.

(** Exact rationals in the place of the floats, for the examples. *)
Definition Qfloat : Float := {|
  F := Q;
  fzero := 0%Q;
  fneg1 := (-1)%Q;
  funinit := 0%Q;
  fadd := Qplus;
  fmul := Qmult;
  fdiv := Qdiv;
  flog := fun x => x;
  fsum := fun l => foldr Qplus 0%Q l;
  feqb := Qeq_bool;
|}.

Definition Qframes : @FloatFrames Qfloat :=
  @Build_FloatFrames Qfloat inject_Z
    (fun x : Q => Qle_bool (99499 # 100000) x && Qle_bool x (100501 # 100000)).

(** Tables for the three codons of the small instance. *)
Definition toy_amino_acids : AminoAcids := {|
  CODON_TO_AA := [0; 1; 2]%nat;
  INDEX_TO_AA := [(0%nat, "K"%char); (1%nat, "M"%char); (2%nat, "L"%char)];
  INDEX_TO_AA_keys := bool_decide_unpack (NoDup [0; 1; 2]%nat) I;
|}.

(** An alignment with a gap, one whose second site has gaps only, and
    the frame of the first. *)
Definition toy_gapped : list (string * string) :=
  [("seq_1", "ATGATG"); ("seq_2", "CTT---")]%string.

Definition toy_all_gaps : list (string * string) :=
  [("seq_1", "ATG---"); ("seq_2", "CTT---")]%string.

Definition toy_frame : @DataFrame Qfloat :=
  @mkDataFrame Qfloat [1; 2]
    [("K"%char, [0 # 2; 0 # 1]%Q);
     ("L"%char, [1 # 2; 0 # 1]%Q);
     ("M"%char, [1 # 2; 1 # 1]%Q)].

End Adequacy.

(** ** A small instance for the examples *)

(** Integers stand for the floats; the model has a scalar parameter
    [kappa] and a vector parameter [eta] of length two, and its matrices
    are simple functions of the branch length and of the parameters. *)
Module Toy.
Import TreeLik.

#[export] Instance Zfloat : Float := {|
  F := Z;
  fzero := 0;
  fneg1 := -1;
  funinit := 0;
  fadd := Z.add;
  fmul := Z.mul;
  fdiv := Z.div;
  flog := Z.log2;
  fsum := fun l => foldr Z.add 0 l;
  feqb := Z.eqb;
|}.

#[export] Instance codons : Constants := {|
  CODON_TO_INDEX :=
    {[ "AAA"%string := 0%nat; "ATG"%string := 1%nat; "CTT"%string := 2%nat ]};
|}.

Record toy_model : Type := mkToy { kappa : Z; eta : list Z }.

Definition toy_M (m : toy_model) (tn : Z) : list (list (list Z)) :=
  replicate 2 (map (fun x => map (fun y => if (x =? y)%nat then kappa m + tn
                                           else foldr Z.add 1 (eta m))
                                 (seq 0 N_CODON))
                   (seq 0 N_CODON)).

Definition toy_M_tips (m : toy_model) (tn : Z) (codons gp : list nat)
    : list (list Z) :=
  imap (fun r row =>
          if bool_decide (r ∈ gp) then replicate N_CODON 1
          else map (fun mx => default 0 (mx !! default 0%nat (codons !! r))) row)
       (toy_M m tn).

Definition toy_d {A} (m : toy_model) (param : string) (a : A) : darr A :=
  if String.eqb param "kappa" then DScalar a
  else DVector (replicate (length (eta m)) a).

#[export] Instance toy_ops : ModelOps := {|
  Model := toy_model;
  model_nsites := fun _ => 2%nat;
  freeparams := fun _ => ["kappa"%string; "eta"%string];
  getattr := fun m param =>
    if String.eqb param "kappa" then Some (PFloat (kappa m))
    else if String.eqb param "eta" then Some (PArray (eta m))
    else None;
  PARAMLIMITS := fun _ =>
    {[ "kappa"%string := (1, 100); "eta"%string := (0, 10) ]};
  stationarystate := fun m => replicate 2 (replicate N_CODON (kappa m));
  dstationarystate := fun m param =>
    toy_d m param (replicate 2 (replicate N_CODON 1));
  M := toy_M;
  M_tips := toy_M_tips;
  dM := fun m tn param Mn => toy_d m param (map (map (map (Z.add tn))) Mn);
  dM_tips := fun m tn param Mn codons gp =>
    toy_d m param (map (map (Z.add tn)) Mn);
  model_updateParams := fun d m =>
    match d !! "kappa"%string, d !! "eta"%string with
    | Some (PArray _), _ | Some (PUnsized _), _ | Some POther, _
    | _, Some (PFloat _) | _, Some (PUnsized _) | _, Some POther =>
        Exc AssertionError m
    | k, e =>
        Ret tt {| kappa := match k with Some (PFloat x) => x | _ => kappa m end;
                  eta := match e with Some (PArray a) => a | _ => eta m end |}
    end;
|}.

(** The tree [((A:1,B:2):3,C:4);] and an alignment of two sites. *)
Definition toy_tree : Clade :=
  mkClade None 0
    [ mkClade None 3 [ mkClade (Some "A"%string) 1 [];
                       mkClade (Some "B"%string) 2 [] ];
      mkClade (Some "C"%string) 4 [] ].

Definition toy_alignment : list (string * string) :=
  [ ("A", "ATG---"); ("B", "CTTATG"); ("C", "---CTT") ]%string.

Definition toy_start : toy_model := {| kappa := 2; eta := [1; 3] |}.

(** The engine built from them (the allocated object stands in should
    construction fail, which it does not). *)
Definition toy_engine : TreeLikelihood :=
  match __init__ toy_tree toy_alignment toy_start with
  | inr self => self
  | inl _ => allocated toy_tree toy_alignment toy_start
  end.

(** Whether construction succeeds. *)
Definition toy_constructs : bool :=
  match __init__ toy_tree toy_alignment toy_start with
  | inr _ => true
  | inl _ => false
  end.

(** An assignment with a key of the model and a key that is none. *)
Definition toy_newvalues : gmap string pyval :=
  {[ "kappa"%string := PFloat 5; "tau"%string := PFloat 1 ]}.

(** The engine after [updateParams] has been called with it. *)
Definition toy_after : TreeLikelihood :=
  final (updateParams toy_newvalues toy_engine).

(** The engine after its [paramsarray] has been read. *)
Definition toy_read : TreeLikelihood := final (paramsarray toy_engine).

End Toy.

(** More of the small instance. *)
Module ToyMore.
Import TreeLik Toy.

(** An assignment of the model's [kappa] alone. *)
Definition toy_update : gmap string pyval := {[ "kappa"%string := PFloat 5 ]}.

(** The engine after [updateParams] has been called with it. *)
Definition toy_updated : TreeLikelihood :=
  final (updateParams toy_update toy_engine).

(** The engine after the array [5, 1, 3] has been assigned to its
    [paramsarray]. *)
Definition toy_assigned : TreeLikelihood :=
  final (set_paramsarray [5; 1; 3] toy_engine).

(** The tree [((A:1,A:2):3,C:4);], two of whose tips have the name [A],
    and an alignment with two rows for the header [A], the first of which
    has the window [XXX] at its first site. *)
Definition twin_tree : Clade :=
  mkClade None 0
    [ mkClade None 3 [ mkClade (Some "A"%string) 1 [];
                       mkClade (Some "A"%string) 2 [] ];
      mkClade (Some "C"%string) 4 [] ].

Definition twin_alignment : list (string * string) :=
  [ ("A", "XXXATG"); ("A", "ATG---"); ("C", "---CTT") ]%string.

(** Whether construction succeeds on them. *)
Definition twin_constructs : bool :=
  match __init__ twin_tree twin_alignment toy_start with
  | inr _ => true
  | inl _ => false
  end.

(** An alignment whose first sequence is too short, and one whose first
    sequence has the window [XXX] at its second site. *)
Definition short_alignment : list (string * string) :=
  [ ("A", "ATG"); ("B", "CTTATG"); ("C", "---CTT") ]%string.

Definition odd_alignment : list (string * string) :=
  [ ("A", "ATGXXX"); ("B", "CTTATG"); ("C", "---CTT") ]%string.

(** The small model with a second free parameter [mu], whose value (or
    absence) is [mu]. *)
Definition odd_ops (mu : option pyval) : ModelOps := {|
  Model := toy_model;
  model_nsites := @model_nsites _ toy_ops;
  freeparams := fun _ => ["kappa"%string; "mu"%string];
  getattr := fun m param =>
    if String.eqb param "mu" then mu else @getattr _ toy_ops m param;
  PARAMLIMITS := @PARAMLIMITS _ toy_ops;
  stationarystate := @stationarystate _ toy_ops;
  dstationarystate := @dstationarystate _ toy_ops;
  M := @M _ toy_ops;
  M_tips := @M_tips _ toy_ops;
  dM := @dM _ toy_ops;
  dM_tips := @dM_tips _ toy_ops;
  model_updateParams := @model_updateParams _ toy_ops;
|}.

End ToyMore.

(** * Properties *)

(** ** Reasoning about outcomes *)

Section Outcomes.
Context {S : Type}.
Implicit Types (s : S) (E : exn -> S -> Prop).

Lemma wp_ret {A} (a : A) (Q : A -> S -> Prop) E s : Q a s -> wp (ret a) Q E s.
Proof. done. Qed.

Lemma wp_raise {A} x (Q : A -> S -> Prop) E s : E x s -> wp (raise x) Q E s.
Proof. done. Qed.

Lemma wp_bind {A B} (c : Py S A) (k : A -> Py S B) (Q : B -> S -> Prop) E s :
  wp c (fun a s' => wp (k a) Q E s') E s -> wp (bind c k) Q E s.
Proof. unfold wp, bind. by destruct (c s). Qed.

Lemma wp_get (Q : S -> S -> Prop) E s : Q s s -> wp get Q E s.
Proof. done. Qed.

Lemma wp_modify (f : S -> S) (Q : unit -> S -> Prop) E s :
  Q tt (f s) -> wp (modify f) Q E s.
Proof. done. Qed.

Lemma wp_assert (b : bool) (Q : unit -> S -> Prop) E s :
  (b = true -> Q tt s) -> (b = false -> E AssertionError s) ->
  wp (assert b) Q E s.
Proof. destruct b; cbn; auto. Qed.

Lemma wp_lift {A} (r : exn + A) (Q : A -> S -> Prop) E s :
  (forall a, r = inr a -> Q a s) -> (forall x, r = inl x -> E x s) ->
  wp (lift r) Q E s.
Proof. destruct r; cbn; auto. Qed.

Lemma wp_index {A} (l : list A) i (Q : A -> S -> Prop) E s :
  (forall a, py_index l i = inr a -> Q a s) ->
  (py_index l i = inl IndexError -> E IndexError s) ->
  wp (index l i) Q E s.
Proof.
  intros HQ HE. apply wp_lift; [done|]. intros x Hx.
  assert (x = IndexError) as ->; [|by apply HE].
  unfold py_index in Hx. repeat case_match; congruence.
Qed.

Lemma wp_setitem {A} (l : list A) i v (Q : list A -> S -> Prop) E s :
  ((i < length l)%nat -> Q (<[i := v]> l) s) ->
  ((length l <= i)%nat -> E IndexError s) ->
  wp (setitem l i v) Q E s.
Proof.
  intros HQ HE. unfold setitem.
  destruct (Nat.ltb_spec i (length l)); cbn; auto.
Qed.

Lemma wp_getitem {K A} `{Countable K} (d : gmap K A) k (Q : A -> S -> Prop) E s :
  (forall a, d !! k = Some a -> Q a s) -> (d !! k = None -> E KeyError s) ->
  wp (getitem d k) Q E s.
Proof. intros HQ HE. unfold getitem. destruct (d !! k); cbn; auto. Qed.

Lemma wp_mono {A} (c : Py S A) (Q Q' : A -> S -> Prop) E E' s :
  wp c Q E s -> (forall a s', Q a s' -> Q' a s') ->
  (forall x s', E x s' -> E' x s') -> wp c Q' E' s.
Proof. unfold wp. destruct (c s); auto. Qed.

Lemma wp_post {A} (c : Py S A) (Q Q' : A -> S -> Prop) s :
  wp c Q any s -> (forall a s', Q a s' -> Q' a s') -> wp c Q' any s.
Proof. intros Hwp HQ. by eapply wp_mono. Qed.

Lemma wp_Ret {A} (c : Py S A) (Q : A -> S -> Prop) E s a s' :
  wp c Q E s -> c s = Ret a s' -> Q a s'.
Proof. unfold wp. intros Hwp Hc. by rewrite Hc in Hwp. Qed.

Lemma wp_Exc {A} (c : Py S A) (Q : A -> S -> Prop) E s x s' :
  wp c Q E s -> c s = Exc x s' -> E x s'.
Proof. unfold wp. intros Hwp Hc. by rewrite Hc in Hwp. Qed.

Lemma bind_Ret {A B} (c : Py S A) (k : A -> Py S B) s a s' :
  c s = Ret a s' -> bind c k s = k a s'.
Proof. intros Hc. unfold bind. by rewrite Hc. Qed.

Lemma bind_Exc {A B} (c : Py S A) (k : A -> Py S B) s x s' :
  c s = Exc x s' -> bind c k s = Exc x s'.
Proof. intros Hc. unfold bind. by rewrite Hc. Qed.

Lemma wp_conj {A} (c : Py S A) (Q1 Q2 : A -> S -> Prop) E1 E2 s :
  wp c Q1 E1 s -> wp c Q2 E2 s ->
  wp c (fun a s' => Q1 a s' /\ Q2 a s') (fun x s' => E1 x s' /\ E2 x s') s.
Proof. unfold wp. destruct (c s); auto. Qed.

(** A loop with a local variable: [I pre a] holds once the items [pre]
    are done and the local is [a]. *)
Lemma wp_foldM {X A} (f : A -> X -> Py S A) (I : list X -> A -> S -> Prop)
    E (l : list X) a s :
  I [] a s ->
  (forall pre x post a s, l = pre ++ x :: post -> I pre a s ->
     wp (f a x) (fun a' s' => I (pre ++ [x]) a' s') E s) ->
  wp (foldM f l a) (I l) E s.
Proof.
  intros Hstart Hstep.
  assert (forall post pre a s, l = pre ++ post -> I pre a s ->
            wp (foldM f post a) (I l) E s) as Hgen.
  { induction post as [|x post IH]; intros pre a' s' Hl Hpre.
    - rewrite app_nil_r in Hl. subst pre. done.
    - cbn [foldM]. apply wp_bind.
      eapply wp_mono; [by eapply Hstep | | done].
      intros a'' s'' HI. apply (IH (pre ++ [x])); [|done].
      by rewrite <- app_assoc. }
  by apply (Hgen l []).
Qed.

Lemma wp_forM_ {X} (f : X -> Py S unit) (I : list X -> S -> Prop)
    E (l : list X) s :
  I [] s ->
  (forall pre x post s, l = pre ++ x :: post -> I pre s ->
     wp (f x) (fun _ s' => I (pre ++ [x]) s') E s) ->
  wp (forM_ l f) (fun _ => I l) E s.
Proof.
  intros Hstart Hstep.
  assert (forall post pre s, l = pre ++ post -> I pre s ->
            wp (forM_ post f) (fun _ => I l) E s) as Hgen.
  { induction post as [|x post IH]; intros pre s' Hl Hpre.
    - rewrite app_nil_r in Hl. subst pre. done.
    - cbn [forM_]. apply wp_bind.
      eapply wp_mono; [by eapply Hstep | | done].
      intros a'' s'' HI. apply (IH (pre ++ [x])); [|done].
      by rewrite <- app_assoc. }
  by apply (Hgen l []).
Qed.

Lemma wp_zoom {T A} (proj : S -> T) (upd : T -> S -> S) (c : Py T A)
    (Q : A -> S -> Prop) E s :
  wp c (fun a t => Q a (upd t s)) (fun x t => E x (upd t s)) (proj s) ->
  wp (zoom proj upd c) Q E s.
Proof. unfold wp, zoom. by destruct (c (proj s)). Qed.

End Outcomes.

(** *** Positions in [range] and [enumerate] *)

Lemma seq_middle a k pre x post :
  seq a k = pre ++ x :: post ->
  x = (a + length pre)%nat /\ (length pre < k)%nat /\
  pre = seq a (length pre).
Proof.
  intros Hseq.
  pose proof (f_equal length Hseq) as Hlen.
  rewrite length_seq, length_app in Hlen. cbn in Hlen.
  pose proof (f_equal (fun l => l !! length pre) Hseq) as Hlk.
  cbn beta in Hlk. rewrite list_lookup_middle in Hlk by done.
  apply lookup_seq in Hlk as [Hlk _].
  split; [done|]. split; [lia|].
  apply (f_equal (take (length pre))) in Hseq.
  rewrite take_app_length, take_seq in Hseq.
  rewrite <- Hseq at 1. f_equal. lia.
Qed.

Lemma lookup_enumerate {A} (l : list A) i :
  enumerate l !! i = (fun y => (i, y)) <$> l !! i.
Proof.
  unfold enumerate. rewrite lookup_zip_with.
  destruct (l !! i) as [y|] eqn:Hy.
  - rewrite lookup_seq_lt by (by eapply lookup_lt_Some). done.
  - by destruct (seq 0 (length l) !! i).
Qed.

Lemma length_enumerate {A} (l : list A) : length (enumerate l) = length l.
Proof. unfold enumerate. rewrite length_zip_with, length_seq. lia. Qed.

Lemma enumerate_middle {A} (l : list A) pre n x post :
  enumerate l = pre ++ (n, x) :: post ->
  n = length pre /\ l !! n = Some x /\
  forall k y, (k, y) ∈ pre -> (k < n)%nat /\ l !! k = Some y.
Proof.
  intros Hen.
  pose proof (f_equal (fun e => e !! length pre) Hen) as Hlk. cbn beta in Hlk.
  rewrite list_lookup_middle, lookup_enumerate in Hlk by done.
  destruct (l !! length pre) as [y|] eqn:Hy; [|done].
  injection Hlk as <- <-. split; [done|]. split; [done|].
  intros k y' Hin. apply list_elem_of_lookup in Hin as [i Hi].
  pose proof (lookup_lt_Some _ _ _ Hi) as Hlt.
  pose proof (f_equal (fun e => e !! i) Hen) as Hlk. cbn beta in Hlk.
  rewrite lookup_app_l, Hi, lookup_enumerate in Hlk by done.
  destruct (l !! i) as [z|] eqn:Hz; [|done].
  injection Hlk as <- <-. done.
Qed.

(** *** Dictionaries and strings *)

Lemma dict_of_pairs_lookup {K V} `{Countable K} (pairs : list (K * V)) k v :
  dict_of_pairs pairs !! k = Some v -> (k, v) ∈ pairs.
Proof.
  unfold dict_of_pairs.
  assert (forall d : gmap K V,
            foldl (fun d kv => <[kv.1 := kv.2]> d) d pairs !! k = Some v ->
            (k, v) ∈ pairs \/ d !! k = Some v) as Hgen.
  { induction pairs as [|[k' v'] pairs IH]; intros d Hlk; [by right|].
    cbn in Hlk. destruct (IH _ Hlk) as [Hin|Hd].
    - left. by right.
    - cbn in Hd. destruct (decide (k' = k)) as [->|Hne].
      + rewrite lookup_insert_eq in Hd. injection Hd as ->. left. by left.
      + rewrite lookup_insert_ne in Hd by done. by right. }
  intros Hlk. destruct (Hgen ∅ Hlk) as [?|Hempty]; [done|].
  by rewrite lookup_empty in Hempty.
Qed.

Lemma length_substring n m (s : string) :
  (n + m <= String.length s)%nat -> String.length (substring n m s) = m.
Proof.
  revert n m. induction s as [|ch s IH]; intros n m Hlen.
  - cbn in Hlen. by destruct n, m; try lia.
  - destruct n as [|n].
    + destruct m as [|m]; [done|]. cbn. f_equal. apply IH. cbn in Hlen. lia.
    + cbn. apply IH. cbn in Hlen. lia.
Qed.

(** Symbolic execution of a method body: [wp_go] runs through the steps
    that cannot fail, [wp_read x Hx] through one that reads [x] and may
    raise. *)
Ltac wp_go :=
  repeat lazymatch goal with
  | |- wp (bind _ _) _ _ _ => apply wp_bind
  | |- wp (ret _) _ _ _ => apply wp_ret
  | |- wp get _ _ _ => apply wp_get
  | |- wp (modify _) _ _ _ => apply wp_modify
  | |- wp (raise _) _ any _ => exact I
  end.

Tactic Notation "wp_read" ident(x) ident(Hx) :=
  wp_go;
  lazymatch goal with
  | |- wp (index _ _) _ _ _ =>
      apply wp_index; [intros x Hx | try (intros; exact I)]
  | |- wp (getitem _ _) _ _ _ =>
      apply wp_getitem; [intros x Hx | try (intros; exact I)]
  | |- wp (lift _) _ _ _ => apply wp_lift; [intros x Hx | try (intros; exact I)]
  end;
  wp_go.

Tactic Notation "wp_assert" ident(Hb) :=
  wp_go;
  lazymatch goal with
  | |- wp (assert _) _ _ _ => apply wp_assert; [intros Hb | try (intros; exact I)]
  end;
  wp_go.

Tactic Notation "wp_setitem" ident(Hlen) :=
  wp_go;
  lazymatch goal with
  | |- wp (setitem _ _ _) _ _ _ =>
      apply wp_setitem; [intros Hlen | try (intros; exact I)]
  end;
  wp_go.

(** ** Calls that leave part of the state alone *)

Section Frames.
Context {S : Type}.
Implicit Types (s : S) (R : S -> S -> Prop).

#[global] Instance same_preorder {B} (f : S -> B) : PreOrder (same f).
Proof.
  split.
  - by intros s.
  - intros s1 s2 s3 H12 H23. unfold same in *. congruence.
Qed.

Lemma keeps_Ret {A} R (c : Py S A) s a s' : keeps R c -> c s = Ret a s' -> R s s'.
Proof. intros Hc Hs. specialize (Hc s). by rewrite Hs in Hc. Qed.

Lemma keeps_Exc {A} R (c : Py S A) s x s' : keeps R c -> c s = Exc x s' -> R s s'.
Proof. intros Hc Hs. specialize (Hc s). by rewrite Hs in Hc. Qed.

Lemma keeps_reads {A} R `{!Reflexive R} (c : Py S A) : reads c -> keeps R c.
Proof. intros Hc s. by rewrite Hc. Qed.

Lemma keeps_bind {A B} R `{!Transitive R} (c : Py S A) (k : A -> Py S B) :
  keeps R c -> (forall a, keeps R (k a)) -> keeps R (bind c k).
Proof.
  intros Hc Hk s. specialize (Hc s). unfold bind.
  destruct (c s) as [a s'|x s']; cbn in *; [|done].
  transitivity s'; [done | apply Hk].
Qed.

Lemma keeps_modify R (f : S -> S) : (forall s, R s (f s)) -> keeps R (modify f).
Proof. intros Hf s. apply Hf. Qed.

Lemma keeps_after_modify {B} R (f : S -> S) (k : unit -> Py S B) s :
  keeps R (k tt) -> R (f s) (final (bind (modify f) k s)).
Proof. intros Hk. apply Hk. Qed.

Lemma keeps_forM_ {X} R `{!PreOrder R} (l : list X) (f : X -> Py S unit) :
  (forall x, x ∈ l -> keeps R (f x)) -> keeps R (forM_ l f).
Proof.
  induction l as [|x l IH]; intros Hf; cbn [forM_].
  - by intros s.
  - apply keeps_bind; [apply _ | apply Hf; by left |].
    intros _. apply IH. intros y Hy. apply Hf. by right.
Qed.

Lemma keeps_foldM {X A} R `{!PreOrder R} (l : list X) (f : A -> X -> Py S A) a :
  (forall a x, x ∈ l -> keeps R (f a x)) -> keeps R (foldM f l a).
Proof.
  revert a. induction l as [|x l IH]; intros a Hf; cbn [foldM].
  - by intros s.
  - apply keeps_bind; [apply _ | apply Hf; by left |].
    intros a'. apply IH. intros a'' y Hy. apply Hf. by right.
Qed.

Lemma reads_ret {A} (a : A) : reads (ret a : Py S A).
Proof. done. Qed.

Lemma reads_raise {A} x : reads (raise x : Py S A).
Proof. done. Qed.

Lemma reads_get : reads (get : Py S S).
Proof. done. Qed.

Lemma reads_assert b : reads (assert b : Py S unit).
Proof. by destruct b. Qed.

Lemma reads_lift {A} (r : exn + A) : reads (lift r : Py S A).
Proof. by destruct r. Qed.

Lemma reads_index {A} (l : list A) i : reads (index l i : Py S A).
Proof. apply reads_lift. Qed.

Lemma reads_setitem {A} (l : list A) i v : reads (setitem l i v : Py S (list A)).
Proof. intros s. unfold setitem. by destruct (i <? length l)%nat. Qed.

Lemma reads_getitem {K A} `{Countable K} (d : gmap K A) k :
  reads (getitem d k : Py S A).
Proof. intros s. unfold getitem. by destruct (d !! k). Qed.

Lemma reads_bind {A B} (c : Py S A) (k : A -> Py S B) :
  reads c -> (forall a, reads (k a)) -> reads (bind c k).
Proof.
  intros Hc Hk s. specialize (Hc s). unfold bind.
  destruct (c s) as [a s'|x s']; cbn in *; subst; [apply Hk | done].
Qed.

Lemma reads_foldM {X A} (l : list X) (f : A -> X -> Py S A) a :
  (forall a x, reads (f a x)) -> reads (foldM f l a).
Proof.
  intros Hf. revert a. induction l as [|x l IH]; intros a; cbn [foldM]; [done|].
  by apply reads_bind.
Qed.

Lemma reads_Ret {A} (c : Py S A) s a s' : reads c -> c s = Ret a s' -> s' = s.
Proof. intros Hc Hs. specialize (Hc s). by rewrite Hs in Hc. Qed.

Lemma reads_Exc {A} (c : Py S A) s x s' : reads c -> c s = Exc x s' -> s' = s.
Proof. intros Hc Hs. specialize (Hc s). by rewrite Hs in Hc. Qed.

(** The outcome of a call, as a statement about it. *)
Lemma wp_self {A} (c : Py S A) s :
  wp c (fun a s' => c s = Ret a s') (fun x s' => c s = Exc x s') s.
Proof. unfold wp. by destruct (c s). Qed.

Lemma bind_Ret_inv {A B} (c : Py S A) (k : A -> Py S B) s b s2 :
  bind c k s = Ret b s2 -> exists a s1, c s = Ret a s1 /\ k a s1 = Ret b s2.
Proof.
  unfold bind. destruct (c s) as [a s1|x s1]; [|done]. intros Hk. by exists a, s1.
Qed.

Lemma assert_Ret_inv (b : bool) s u s1 :
  assert b s = Ret u s1 -> b = true /\ s1 = s.
Proof. destruct b; cbn; [|done]. by intros [= _ ->]. Qed.

Lemma returned_Ret {A} (c : Py S A) s a :
  returned (c s) = Some a -> c s = Ret a (final (c s)).
Proof. destruct (c s) as [a' s'|x s']; cbn; [|done]. by intros [= ->]. Qed.

Lemma returned_reads {A} (c : Py S A) s a :
  reads c -> returned (c s) = Some a -> c s = Ret a s.
Proof.
  intros Hc Ha. specialize (Hc s). rewrite (returned_Ret _ _ _ Ha) in Hc |- *.
  cbn in Hc. by rewrite Hc.
Qed.

(** Weakening what is said of the returns, the exceptions staying. *)
Lemma wp_returns {A} (c : Py S A) (Q Q' : A -> S -> Prop) E s :
  wp c Q E s -> (forall a s', Q a s' -> Q' a s') -> wp c Q' E s.
Proof. intros Hwp HQ. by eapply wp_mono. Qed.

Lemma raised_bind {A B} (c : Py S A) (k : A -> Py S B) s x :
  raised (c s) = Some x -> raised (bind c k s) = Some x.
Proof. unfold bind. by destruct (c s). Qed.


(** Two statements about the returns of one call. *)
Lemma wp_both {A} (c : Py S A) (Q1 Q2 : A -> S -> Prop) s :
  wp c Q1 any s -> wp c Q2 any s ->
  wp c (fun a s' => Q1 a s' /\ Q2 a s') any s.
Proof. unfold wp. destruct (c s); auto. Qed.

End Frames.

(** Proves that a straight-line body reads the state only. *)
Ltac reads_go :=
  repeat lazymatch goal with
  | |- reads (bind _ _) => apply reads_bind; [|intros ?]
  | |- reads (ret _) => apply reads_ret
  | |- reads (raise _) => apply reads_raise
  | |- reads get => apply reads_get
  | |- reads (assert _) => apply reads_assert
  | |- reads (index _ _) => apply reads_index
  | |- reads (setitem _ _ _) => apply reads_setitem
  | |- reads (getitem _ _) => apply reads_getitem
  | |- reads (lift _) => apply reads_lift
  end.

(** Splits a body along its binds, leaving the steps that write. *)
Ltac keeps_go :=
  repeat lazymatch goal with
  | |- keeps _ (bind _ _) => apply keeps_bind; [apply _ | | intros ?]
  | |- keeps _ (ret _) => apply keeps_reads; [apply _ | apply reads_ret]
  | |- keeps _ (raise _) => apply keeps_reads; [apply _ | apply reads_raise]
  | |- keeps _ get => apply keeps_reads; [apply _ | apply reads_get]
  | |- keeps _ (assert _) => apply keeps_reads; [apply _ | apply reads_assert]
  | |- keeps _ (index _ _) => apply keeps_reads; [apply _ | apply reads_index]
  | |- keeps _ (setitem _ _ _) => apply keeps_reads; [apply _ | apply reads_setitem]
  | |- keeps _ (getitem _ _) => apply keeps_reads; [apply _ | apply reads_getitem]
  | |- keeps _ (lift _) => apply keeps_reads; [apply _ | apply reads_lift]
  end.

(** ** The p-value *)

Module ModelAdequacyFacts.
Import ModelAdequacy.

(** Two arrays of booleans, of one length, that are nowhere both true
    have at most that many true entries between them. *)
Lemma count_true_exclusive (g e : list bool) :
  length g = length e ->
  (forall i, g !! i = Some true -> e !! i = Some false) ->
  0 <= count_true g /\ 0 <= count_true e /\
  count_true g + count_true e <= Z.of_nat (length g).
Proof.
  unfold count_true. revert e.
  induction g as [|b g IH]; intros [|c e] Hlen Hex; try discriminate;
    cbn [List.filter length]; [lia|].
  destruct (IH e) as (Hg & He & Hsum).
  - cbn in Hlen. lia.
  - intros i Hi. apply (Hex (S i) Hi).
  - destruct b, c; cbn [length]; try lia.
    specialize (Hex 0%nat eq_refl). discriminate.
Qed.

Lemma count_true_none (l : list bool) :
  Forall (fun b => b = false) l -> count_true l = 0.
Proof.
  unfold count_true. induction 1 as [|b l -> _ IH]; [reflexivity|].
  cbn [List.filter]. exact IH.
Qed.

Section Pvalue.
Context `{RG : RandomGen} `{NB : Numbers}.

Lemma count_greater_equal_le sims tv :
  0 <= count_greater sims tv /\ 0 <= count_equal sims tv /\
  count_greater sims tv + count_equal sims tv <= Z.of_nat (length sims).
Proof.
  unfold count_greater, count_equal.
  rewrite <- (length_greater sims tv).
  apply count_true_exclusive.
  - by rewrite length_greater, length_equal.
  - apply greater_not_equal.
Qed.

Lemma count_equal_no_ties sims tv :
  Forall (fun b => b = false) (equal sims tv) -> count_equal sims tv = 0.
Proof. apply count_true_none. Qed.

(** What the function returns once the number [tb] of ties counted as
    greater is fixed, provided it is at most the number of ties. *)
Lemma pvalue_assertion sims tv tb :
  0 <= tb -> count_greater sims tv + tb + 1 <= Z.of_nat (length sims) + 1 ->
  let p := Qmake (count_greater sims tv + tb + 1)
                 (Z.to_pos (Z.of_nat (length sims) + 1)) in
  Qle_bool 0 p && Qle_bool p 1 = true /\
  (1 # Z.to_pos (Z.of_nat (length sims) + 1) <= p)%Q /\ (p <= 1)%Q.
Proof.
  intros Htb Hle p.
  destruct (count_greater_equal_le sims tv) as (Hg & _ & _).
  assert (Z.pos (Z.to_pos (Z.of_nat (length sims) + 1))
          = Z.of_nat (length sims) + 1) as Hpos by (apply Z2Pos.id; lia).
  assert ((1 # Z.to_pos (Z.of_nat (length sims) + 1) <= p)%Q /\ (0 <= p)%Q
          /\ (p <= 1)%Q) as (H1 & H2 & H3).
  { unfold p, Qle; cbn [Qnum Qden]. rewrite !Hpos. nia. }
  repeat split; try done.
  apply andb_true_iff; split; by apply Qle_bool_iff.
Qed.

End Pvalue.

(** C9, as the code has it: with at least two simulation values none of
    which [scipy.equal] finds equal to the true value, the function
    returns (g + 1) / (n + 1), g the number of values [scipy.greater]
    finds greater than the true value, and makes no draw; the integers
    [11, 12, 13, 14] against the integer 10 give 1.0; and the integers
    [1, 10, 10, 11] against 10 with seed 1 give 0.6, the seeded draw among
    the two ties being 1. *)
Theorem calculate_pvalue_value `{RG : RandomGen} :
  (forall (NB : Numbers) (sims : list Number) (tv : Number) g,
      (2 <= length sims)%nat ->
      Forall (fun b => b = false) (equal sims tv) ->
      exists p, calculate_pvalue sims tv None g = Ret p g /\
                (p == inject_Z (count_greater sims tv + 1)
                      / inject_Z (Z.of_nat (length sims) + 1))%Q) /\
  (forall g, exists p,
      calculate_pvalue (NB := numpy_numbers)
        [PyInt 11; PyInt 12; PyInt 13; PyInt 14] (PyInt 10) None g = Ret p g /\
      (p == 1)%Q) /\
  (forall g g1, random_seed 1 = Some g1 -> fst (randint 2 g1) = 1 ->
      exists p g',
        calculate_pvalue (NB := numpy_numbers)
          [PyInt 1; PyInt 10; PyInt 10; PyInt 11] (PyInt 10) (Some 1) g
        = Ret p g' /\ (p == 6 # 10)%Q).
Proof.
  split; [|split].
  - intros NB sims tv g Hlen Hne.
    pose proof (count_equal_no_ties sims tv Hne) as Heq.
    destruct (count_greater_equal_le sims tv) as (Hg & _ & Hsum).
    destruct (pvalue_assertion sims tv 0) as (Hassert & _); [lia | lia |].
    eexists. split.
    + unfold calculate_pvalue. cbn [bind ret].
      unfold bind at 1. cbn [ret].
      replace (2 <=? Z.of_nat (length sims)) with true
        by (symmetry; apply Z.leb_le; lia).
      unfold bind, assert, ret. rewrite Heq. cbn [Z.leb Z.compare].
      rewrite Hassert. reflexivity.
    + rewrite Z.add_0_r. rewrite Qmake_Qdiv.
      rewrite Z2Pos.id by lia. reflexivity.
  - intros g. eexists. split; [reflexivity | reflexivity].
  - intros g g1 Hseed Hdraw. unfold calculate_pvalue.
    rewrite Hseed.
    change (count_equal (NB := numpy_numbers)
              [PyInt 1; PyInt 10; PyInt 10; PyInt 11] (PyInt 10)) with 2.
    change (count_greater (NB := numpy_numbers)
              [PyInt 1; PyInt 10; PyInt 10; PyInt 11] (PyInt 10)) with 1.
    change (Z.of_nat (length [PyInt 1; PyInt 10; PyInt 10; PyInt 11])) with 4.
    change (2 <=? 4) with true. change (1 <=? 2) with true.
    unfold bind, put, assert, ret, get.
    destruct (randint 2 g1) as [v g'] eqn:Hr. cbn [fst] in Hdraw. subst v.
    eexists _, _. split; [reflexivity | reflexivity].
Qed.

(** C9, at a generator whose seeded draw is 1: three values above 10 out of
    four untied ones give 4/5. *)
Lemma calculate_pvalue_value_witness :
  (exists p, @calculate_pvalue counter_gen numpy_numbers
               [PyInt 1; PyInt 11; PyInt 12; PyInt 13] (PyInt 10) None 0
             = Ret p 0 /\ (p == 4 # 5)%Q) /\
  (exists p g', @calculate_pvalue counter_gen numpy_numbers
                  [PyInt 1; PyInt 10; PyInt 10; PyInt 11] (PyInt 10)
                  (Some 1) 0 = Ret p g' /\ (p == 6 # 10)%Q).
Proof.
  split.
  - destruct (proj1 (@calculate_pvalue_value counter_gen) numpy_numbers
                [PyInt 1; PyInt 11; PyInt 12; PyInt 13] (PyInt 10) 0)
      as (p & Hp & Hv).
    + cbn; lia.
    + repeat constructor.
    + exists p. split; [exact Hp|]. rewrite Hv. reflexivity.
  - apply (proj2 (proj2 (@calculate_pvalue_value counter_gen)) 0 1);
      reflexivity.
Defined.

(** C9 as stated fails at the integers [2^53 + 1, 1] against the float
    [2^53]: no value equals the true one and one is greater, which makes
    2/3; but numpy compares in float64, where [2^53 + 1] is [2^53], so
    that it finds one tie and nothing greater, a draw is made, and the
    result is 1/3. *)
Lemma calculate_pvalue_value_counterexample :
  (2 <= length big_values)%nat /\
  exact big_true = Some (inject_Z (2 ^ 53)) /\
  Forall (fun v => exists q, exact v = Some q /\ ~ (q == inject_Z (2 ^ 53))%Q)
         big_values /\
  length (List.filter (fun v => match exact v with
                               | Some q => negb (Qle_bool q (inject_Z (2 ^ 53)))
                               | None => false
                               end) big_values) = 1%nat /\
  equal (Numbers := numpy_numbers) big_values big_true = [true; false] /\
  greater (Numbers := numpy_numbers) big_values big_true = [false; false] /\
  @calculate_pvalue counter_gen numpy_numbers big_values big_true None 0
  = Ret (1 # 3)%Q 1 /\
  ~ ((1 # 3) == inject_Z (1 + 1) / inject_Z (2 + 1))%Q.
Proof.
  split; [cbn; lia|].
  split; [vm_compute; reflexivity|].
  split.
  { constructor; [|constructor; [|constructor]].
    - eexists. split; [reflexivity|]. vm_compute. discriminate.
    - eexists. split; [reflexivity|]. vm_compute. discriminate. }
  split; [vm_compute; reflexivity|].
  split; [vm_compute; reflexivity|].
  split; [vm_compute; reflexivity|].
  split; [vm_compute; reflexivity|].
  vm_compute. discriminate.
Qed.

(** C10: whenever at least two values are given, the seed (if any) is
    accepted and the generator honours the range of [randint], the function
    returns, and its result lies in [1/(n+1), 1]; hence it is positive and
    the closing assertion does not fire. *)
Theorem calculate_pvalue_bounds `{RG : RandomGen} `{NB : Numbers}
    (sims : list Number) (tv : Number) seed g
    (Hrange : randint_in_range)
    (Hlen : (2 <= length sims)%nat)
    (Hseed : forall s, seed = Some s -> is_Some (random_seed s)) :
  exists p g', calculate_pvalue sims tv seed g = Ret p g' /\
               (1 # Z.to_pos (Z.of_nat (length sims) + 1) <= p)%Q /\
               (0 < p)%Q /\ (p <= 1)%Q.
Proof.
  destruct (count_greater_equal_le sims tv) as (Hg & He & Hsum).
  assert (exists g0, (match seed with
                      | Some s => match random_seed s with
                                  | Some g => put g
                                  | None => raise ValueError
                                  end
                      | None => ret tt
                      end) g = Ret tt g0) as [g0 Hg0].
  { destruct seed as [s|]; [|by eexists].
    destruct (Hseed s eq_refl) as [g1 ->]. by eexists. }
  unfold calculate_pvalue. rewrite (bind_Ret _ _ _ _ _ Hg0).
  replace (2 <=? Z.of_nat (length sims)) with true
    by (symmetry; apply Z.leb_le; lia).
  unfold bind at 1. cbn [assert ret].
  destruct (1 <=? count_equal sims tv) eqn:Hties.
  - apply Z.leb_le in Hties.
    pose proof (Hrange (count_equal sims tv) g0 ltac:(lia)) as Hv.
    unfold bind, get, put, ret.
    destruct (randint (count_equal sims tv) g0) as [v g'].
    cbn [fst] in Hv.
    destruct (pvalue_assertion sims tv v) as (Hassert & Hlo & Hhi); [lia..|].
    rewrite Hassert. cbn [assert]. eexists _, _. split; [reflexivity|].
    split; [exact Hlo|]. split; [|exact Hhi].
    eapply Qlt_le_trans; [|exact Hlo]. reflexivity.
  - apply Z.leb_gt in Hties.
    unfold bind, ret.
    destruct (pvalue_assertion sims tv (count_equal sims tv))
      as (Hassert & Hlo & Hhi); [lia..|].
    rewrite Hassert. cbn [assert]. eexists _, _. split; [reflexivity|].
    split; [exact Hlo|]. split; [|exact Hhi].
    eapply Qlt_le_trans; [|exact Hlo]. reflexivity.
Qed.

(** C10 at [1, 2, 3, 4] against 10: every value is below the true one and
    the result is still at least 1/5. *)
Lemma calculate_pvalue_bounds_witness :
  exists p g', @calculate_pvalue counter_gen numpy_numbers
                 [PyInt 1; PyInt 2; PyInt 3; PyInt 4] (PyInt 10) None 0
               = Ret p g' /\
               (1 # 5 <= p)%Q /\ (0 < p)%Q /\ (p <= 1)%Q.
Proof.
  apply (@calculate_pvalue_bounds counter_gen numpy_numbers
           [PyInt 1; PyInt 2; PyInt 3; PyInt 4] (PyInt 10) None 0).
  - intros high g Hhigh. cbn. apply Z.mod_pos_bound. lia.
  - cbn. lia.
  - intros s Hs. discriminate.
Defined.

End ModelAdequacyFacts.

(** ** More on the p-value *)

Module ModelAdequacyExtras.
Import ModelAdequacy ModelAdequacyFacts.

(** X18: with at least two simulation values of which [scipy.equal] finds
    [ties >= 1] equal to the true value, and a generator that honours the
    range of [randint], one value [v] is drawn from [0, ties), the
    generator moves on by that draw, and the result is
    [(g + v + 1) / (n + 1)], [g] the number of values [scipy.greater]
    finds greater: at most [ties - 1] of the ties count as greater, so
    that with exactly one tie the result is [(g + 1) / (n + 1)], the same
    as without it. *)
Theorem calculate_pvalue_ties `{RG : RandomGen} `{NB : Numbers}
    (sims : list Number) (tv : Number) g
    (Hrange : randint_in_range)
    (Hlen : (2 <= length sims)%nat)
    (Hties : 1 <= count_equal sims tv) :
  exists v g',
    randint (count_equal sims tv) g = (v, g') /\
    0 <= v < count_equal sims tv /\
    calculate_pvalue sims tv None g
    = Ret (Qmake (count_greater sims tv + v + 1)
                 (Z.to_pos (Z.of_nat (length sims) + 1))) g' /\
    (count_equal sims tv = 1 -> v = 0).
Proof.
  destruct (count_greater_equal_le sims tv) as (Hg & He & Hsum).
  pose proof (Hrange (count_equal sims tv) g ltac:(lia)) as Hv.
  destruct (randint (count_equal sims tv) g) as [v g'] eqn:Hdraw.
  cbn [fst] in Hv. exists v, g'. split; [done|]. split; [done|].
  split; [|lia].
  unfold calculate_pvalue. unfold bind at 1. cbn [ret].
  replace (2 <=? Z.of_nat (length sims)) with true
    by (symmetry; apply Z.leb_le; lia).
  unfold bind at 1. cbn [assert ret].
  replace (1 <=? count_equal sims tv) with true
    by (symmetry; apply Z.leb_le; lia).
  unfold bind, get, put, ret. rewrite Hdraw.
  destruct (pvalue_assertion sims tv v) as (Hassert & _); [lia..|].
  rewrite Hassert. reflexivity.
Qed.

(** X19: with fewer than two simulation values the function raises
    [AssertionError]; a seed given has been applied to the generator by
    then (and a seed the generator rejects has raised before). *)
Theorem calculate_pvalue_too_few `{RG : RandomGen} `{NB : Numbers}
    (sims : list Number) (tv : Number) seed g
    (Hlen : (length sims < 2)%nat) :
  calculate_pvalue sims tv seed g
  = match seed with
    | None => Exc AssertionError g
    | Some s => match random_seed s with
                | Some g1 => Exc AssertionError g1
                | None => Exc ValueError g
                end
    end.
Proof.
  unfold calculate_pvalue.
  replace (2 <=? Z.of_nat (length sims)) with false
    by (symmetry; apply Z.leb_gt; lia).
  destruct seed as [s|]; [|reflexivity].
  unfold bind at 1. destruct (random_seed s) as [g1|]; reflexivity.
Qed.

Lemma counter_gen_in_range : @randint_in_range counter_gen.
Proof. intros high g Hhigh. cbn. apply Z.mod_pos_bound. lia. Defined.

(** X18 at the integers [1, 10, 10, 11] against 10, the generator in
    state 1: the draw among the two ties is 1. *)
Lemma calculate_pvalue_ties_witness :
  exists v g',
    @randint counter_gen (@count_equal numpy_numbers tied_values (PyInt 10)) 1
    = (v, g') /\
    0 <= v < @count_equal numpy_numbers tied_values (PyInt 10) /\
    @calculate_pvalue counter_gen numpy_numbers tied_values (PyInt 10) None 1
    = Ret (Qmake (@count_greater numpy_numbers tied_values (PyInt 10) + v + 1)
                 (Z.to_pos (Z.of_nat (length tied_values) + 1))) g' /\
    (@count_equal numpy_numbers tied_values (PyInt 10) = 1 -> v = 0).
Proof.
  apply (@calculate_pvalue_ties counter_gen numpy_numbers
           tied_values (PyInt 10) 1).
  - exact counter_gen_in_range.
  - cbn. lia.
  - vm_compute. discriminate.
Defined.

(** X19 at a single value and the seed 1: the assertion fails, the
    generator is in the seeded state. *)
Lemma calculate_pvalue_too_few_witness :
  @calculate_pvalue counter_gen numpy_numbers [PyInt 3] (PyInt 10) (Some 1) 0
  = Exc AssertionError 1.
Proof.
  apply (@calculate_pvalue_too_few counter_gen numpy_numbers [PyInt 3] (PyInt 10)
           (Some 1) 0).
  cbn. lia.
Defined.

End ModelAdequacyExtras.

(** ** Translation with gaps *)

Module AdequacyFacts.
Import Adequacy.

Lemma mapE_inr {A B} (f : A -> exn + B) l ys :
  mapE f l = inr ys <-> Forall2 (fun x y => f x = inr y) l ys.
Proof.
  revert ys. induction l as [|x l IH]; intros ys; cbn.
  - split; [intros [= <-]; constructor | by inversion 1].
  - destruct (f x) as [e|y] eqn:Hfx.
    + split; [done|]. inversion 1; congruence.
    + destruct (mapE f l) as [e|ys'] eqn:Hl.
      * split; [done|]. inversion 1 as [|? y' ? ys'' Hy Hrest]; subst.
        apply IH in Hrest. discriminate.
      * split.
        -- intros [= <-]. constructor; [done|]. by apply IH.
        -- inversion 1 as [|? y' ? ys'' Hy Hrest]; subst.
           apply IH in Hrest. congruence.
Qed.

Lemma mapE_inl {A B} (f : A -> exn + B) l e :
  mapE f l = inl e ->
  exists pre x post, l = pre ++ x :: post /\ f x = inl e /\
                     forall x', x' ∈ pre -> exists y, f x' = inr y.
Proof.
  induction l as [|x l IH]; cbn; [done|].
  destruct (f x) as [e'|y] eqn:Hfx.
  - intros [= ->]. exists [], x, l. split; [done|]. split; [done|].
    intros x' Hin. apply elem_of_nil in Hin. destruct Hin.
  - destruct (mapE f l) as [e'|ys]; [|done].
    intros [= ->]. destruct (IH eq_refl) as (pre & x0 & post & -> & Hx0 & Hpre).
    exists (x :: pre), x0, post. split; [done|]. split; [done|].
    intros x' [->|Hin]%elem_of_cons; [by exists y | by apply Hpre].
Qed.

Lemma dict_get_elem_of {K V} `{EqDecision K} (d : list (K * V)) k v :
  dict_get d k = Some v -> v ∈ d.*2.
Proof.
  induction d as [|[k' v'] d IH]; cbn; [done|].
  destruct (decide (k = k')) as [_|_].
  - intros [= ->]. apply elem_of_cons. by left.
  - intros Hget. apply elem_of_cons. right. by apply IH.
Qed.

Lemma length_of_list_ascii l :
  String.length (string_of_list_ascii l) = length l.
Proof. induction l as [|c l IH]; cbn; congruence. Qed.

Lemma get_of_list_ascii l j :
  String.get j (string_of_list_ascii l) = l !! j.
Proof.
  revert j. induction l as [|c l IH]; intros [|j]; cbn; try done.
Qed.

Lemma range3_divisible n :
  (n mod 3 = 0)%nat -> range3 n = map (fun j => 3 * j)%nat (seq 0 (n / 3)).
Proof.
  intros Hmod. unfold range3. f_equal. f_equal.
  pose proof (Nat.div_mod_eq n 3) as Hn.
  symmetry. apply (Nat.div_unique _ _ _ 2); lia.
Qed.

Section Translation.
Context `{CO : TreeLik.Constants} `{AA : AminoAcids}.

(** What one pass of the loop body gives. *)
Lemma translate_codon_inr sequence j c :
  translate_codon sequence (3 * j) = inr c <->
  (window sequence j = "---"%string /\ c = "-"%char) \/
  (window sequence j <> "---"%string /\ amino_acid (window sequence j) = Some c).
Proof.
  unfold translate_codon, amino_acid, window.
  destruct (decide (substring (3 * j) 3 sequence = "---"%string)) as [Hgap|Hgap].
  - split; [intros [= <-]; by left|]. intros [[_ ->]|[? _]]; done.
  - destruct (TreeLik.CODON_TO_INDEX !! _) as [x|]; cbn;
      [|split; [done | intros [[? _]|[_ ?]]; done]].
    destruct (CODON_TO_AA !! x) as [a|]; cbn;
      [|split; [done | intros [[? _]|[_ ?]]; done]].
    destruct (dict_get INDEX_TO_AA a) as [aa|]; cbn;
      [|split; [done | intros [[? _]|[_ ?]]; done]].
    split; [intros [= <-]; by right|]. intros [[? _]|[_ [= <-]]]; done.
Qed.

Lemma translate_codon_inl sequence j e :
  translate_codon sequence (3 * j) = inl e ->
  (e = KeyError \/ e = IndexError) /\
  window sequence j <> "---"%string /\ amino_acid (window sequence j) = None.
Proof.
  unfold translate_codon, amino_acid, window.
  destruct (decide (substring (3 * j) 3 sequence = "---"%string)) as [Hgap|Hgap];
    [done|].
  destruct (TreeLik.CODON_TO_INDEX !! _) as [x|]; cbn;
    [|intros [= <-]; auto].
  destruct (CODON_TO_AA !! x) as [a|]; cbn; [|intros [= <-]; auto].
  destruct (dict_get INDEX_TO_AA a) as [aa|]; cbn; [done|intros [= <-]; auto].
Qed.

(** A call that raises on a sequence of whole codons stopped at a window
    the tables do not resolve. *)
Lemma translate_with_gaps_inl sequence e :
  (String.length sequence mod 3 = 0)%nat ->
  translate_with_gaps sequence = inl e ->
  exists j, (j < String.length sequence / 3)%nat /\
            translate_codon sequence (3 * j) = inl e.
Proof.
  intros Hmod. unfold translate_with_gaps.
  rewrite (proj2 (Nat.eqb_eq _ _) Hmod), (range3_divisible _ Hmod).
  destruct (mapE _ _) as [e'|l] eqn:Hl; [|done]. intros [= ->].
  apply mapE_inl in Hl as (pre & x & post & Hsplit & Hx & _).
  assert (map (fun j => 3 * j)%nat (seq 0 (String.length sequence / 3))
            !! length pre = Some x) as Hlook.
  { rewrite Hsplit. by apply list_lookup_middle. }
  rewrite list_lookup_fmap in Hlook.
  destruct (seq 0 (String.length sequence / 3) !! length pre) as [j|] eqn:Hj;
    [|done].
  cbn in Hlook. injection Hlook as <-.
  apply lookup_seq in Hj as [-> Hlt]. by exists (length pre).
Qed.

(** The result of a call that returns, position by position. *)
Lemma translate_with_gaps_inr sequence prot :
  translate_with_gaps sequence = inr prot <->
  (String.length sequence mod 3 = 0)%nat /\
  exists l, prot = string_of_list_ascii l /\
            length l = (String.length sequence / 3)%nat /\
            forall j c, l !! j = Some c -> translate_codon sequence (3 * j) = inr c.
Proof.
  unfold translate_with_gaps.
  destruct (String.length sequence mod 3 =? 0)%nat eqn:Hmod.
  - apply Nat.eqb_eq in Hmod. rewrite (range3_divisible _ Hmod).
    destruct (mapE _ _) as [e|l] eqn:Hl.
    + split; [done|]. intros (_ & l & -> & Hlen & Hall).
      assert (mapE (translate_codon sequence)
                (map (fun j => 3 * j)%nat (seq 0 (String.length sequence / 3)))
              = inr l) as Hl'; [|congruence].
      apply mapE_inr. apply Forall2_fmap_l.
      apply Forall2_same_length_lookup_2.
      * by rewrite length_seq.
      * intros j x c Hx Hc. apply lookup_seq in Hx as [-> _]. by apply Hall.
    + apply mapE_inr in Hl. apply Forall2_fmap_l in Hl.
      assert (length l = (String.length sequence / 3)%nat) as Hlen.
      { apply Forall2_length in Hl. by rewrite length_seq in Hl. }
      assert (forall j c, l !! j = Some c ->
                          translate_codon sequence (3 * j) = inr c) as Hall.
      { intros j c Hc.
        assert (j < String.length sequence / 3)%nat as Hj
          by (rewrite <- Hlen; by eapply lookup_lt_Some).
        eapply (Forall2_lookup_lr _ _ _ j j c) in Hl; [done| |done].
        by apply lookup_seq. }
      split.
      * intros [= <-]. split; [done|]. by exists l.
      * intros (_ & l' & -> & Hlen' & Hall'). f_equal. f_equal.
        apply list_eq_same_length with (String.length sequence / 3)%nat;
          [done..|].
        intros j c c' _ Hc Hc'. apply Hall in Hc. apply Hall' in Hc'. congruence.
  - apply Nat.eqb_neq in Hmod. split; [done|]. by intros [? _].
Qed.

End Translation.
End AdequacyFacts.

(** ** Properties of [translate_with_gaps] *)

Module AdequacyExtras.
Import Adequacy AdequacyFacts.

Section Translation.
Context `{CO : TreeLik.Constants} `{AA : AminoAcids}.

(** X20: when [translate_with_gaps] returns, the sequence has a whole
    number of codons, the protein has one character per codon, and its
    character [j] is ['-'] where the window [seq[3j:3j+3]] is ['---'] and
    otherwise the letter [INDEX_TO_AA[CODON_TO_AA[CODON_TO_INDEX[window]]]]. *)
Theorem translate_with_gaps_result sequence prot
    (Hret : translate_with_gaps sequence = inr prot) :
  (String.length sequence mod 3 = 0)%nat /\
  String.length prot = (String.length sequence / 3)%nat /\
  forall j, (j < String.length sequence / 3)%nat ->
    exists c, String.get j prot = Some c /\
      ((window sequence j = "---"%string /\ c = "-"%char) \/
       (window sequence j <> "---"%string /\
        amino_acid (window sequence j) = Some c)).
Proof.
  apply translate_with_gaps_inr in Hret as (Hmod & l & -> & Hlen & Hall).
  split; [done|]. split; [by rewrite length_of_list_ascii|].
  intros j Hj. rewrite get_of_list_ascii.
  destruct (lookup_lt_is_Some_2 l j) as [c Hc]; [lia|].
  exists c. split; [done|]. apply translate_codon_inr. by apply Hall.
Qed.

(** X21: how [translate_with_gaps] ends.  It returns exactly when the
    length is a multiple of 3 and every window is ['---'] or is resolved
    by the three tables; it raises [AssertionError] exactly when the
    length is no multiple of 3, and otherwise a [KeyError] or an
    [IndexError] of a table lookup, at a window that is no gap and that
    the tables do not resolve. *)
Theorem translate_with_gaps_ends sequence :
  match translate_with_gaps sequence with
  | inr _ =>
      (String.length sequence mod 3 = 0)%nat /\
      forall j, (j < String.length sequence / 3)%nat ->
        window sequence j = "---"%string \/
        is_Some (amino_acid (window sequence j))
  | inl e =>
      ((String.length sequence mod 3 <> 0)%nat /\ e = AssertionError) \/
      ((String.length sequence mod 3 = 0)%nat /\
       (e = KeyError \/ e = IndexError) /\
       exists j, (j < String.length sequence / 3)%nat /\
         window sequence j <> "---"%string /\
         amino_acid (window sequence j) = None)
  end.
Proof.
  destruct (translate_with_gaps sequence) as [e|prot] eqn:Hcall.
  - destruct (decide (String.length sequence mod 3 = 0)%nat) as [Hmod|Hmod].
    + right. split; [done|].
      destruct (translate_with_gaps_inl _ _ Hmod Hcall) as (j & Hj & Hstop).
      apply translate_codon_inl in Hstop as (He & Hgap & Hnone).
      split; [done|]. by exists j.
    + left. split; [done|]. unfold translate_with_gaps in Hcall.
      rewrite (proj2 (Nat.eqb_neq _ _) Hmod) in Hcall. congruence.
  - apply translate_with_gaps_inr in Hcall as (Hmod & l & -> & Hlen & Hall).
    split; [done|]. intros j Hj.
    destruct (lookup_lt_is_Some_2 l j) as [c Hc]; [lia|].
    apply Hall, translate_codon_inr in Hc as [[Hgap _]|[_ Haa]];
      [by left | right; by exists c].
Qed.

(** X22: when ['-'] is none of the letters of [INDEX_TO_AA], the gaps of
    the protein [translate_with_gaps] returns are exactly at the codon
    positions whose window is ['---']. *)
Theorem translate_with_gaps_gaps sequence prot j
    (Hletters : "-"%char ∉ INDEX_TO_AA.*2)
    (Hret : translate_with_gaps sequence = inr prot)
    (Hj : (j < String.length sequence / 3)%nat) :
  String.get j prot = Some "-"%char <-> window sequence j = "---"%string.
Proof.
  apply translate_with_gaps_inr in Hret as (Hmod & l & -> & Hlen & Hall).
  rewrite get_of_list_ascii.
  destruct (lookup_lt_is_Some_2 l j) as [c Hc]; [lia|].
  rewrite Hc. pose proof (Hall _ _ Hc) as Hcodon.
  apply translate_codon_inr in Hcodon as [[Hgap ->]|[Hgap Haa]]; [done|].
  split; [|done]. intros [= ->]. exfalso.
  unfold amino_acid in Haa.
  destruct (TreeLik.CODON_TO_INDEX !! _) as [x|]; [|done]. cbn in Haa.
  destruct (CODON_TO_AA !! x) as [a|]; [|done]. cbn in Haa.
  apply Hletters. apply (dict_get_elem_of _ _ _ Haa).
Qed.

End Translation.

(** X20 on the sequence [CTT---ATG], translated to [L-M]. *)
Lemma translate_with_gaps_result_witness :
  (String.length "CTT---ATG" mod 3 = 0)%nat /\
  String.length "L-M" = (String.length "CTT---ATG" / 3)%nat /\
  forall j, (j < String.length "CTT---ATG" / 3)%nat ->
    exists c, String.get j "L-M" = Some c /\
      ((window "CTT---ATG" j = "---"%string /\ c = "-"%char) \/
       (window "CTT---ATG" j <> "---"%string /\
        @amino_acid Toy.codons toy_amino_acids (window "CTT---ATG" j) = Some c)).
Proof.
  apply (@translate_with_gaps_result Toy.codons toy_amino_acids
           "CTT---ATG" "L-M").
  vm_compute. reflexivity.
Defined.

(** X21 on [ATGATG], which is translated, on [ATGA], whose length is no
    multiple of 3, and on [ATGXXX], whose second codon is unknown. *)
Lemma translate_with_gaps_ends_witness :
  @translate_with_gaps Toy.codons toy_amino_acids "ATGATG" = inr "MM"%string /\
  @translate_with_gaps Toy.codons toy_amino_acids "ATGA" = inl AssertionError /\
  @translate_with_gaps Toy.codons toy_amino_acids "ATGXXX" = inl KeyError /\
  ((String.length "ATGXXX" mod 3 <> 0)%nat /\ KeyError = AssertionError \/
   (String.length "ATGXXX" mod 3 = 0)%nat /\
   (KeyError = KeyError \/ KeyError = IndexError) /\
   exists j, (j < String.length "ATGXXX" / 3)%nat /\
     window "ATGXXX" j <> "---"%string /\
     @amino_acid Toy.codons toy_amino_acids (window "ATGXXX" j) = None).
Proof.
  split; [vm_compute; reflexivity|]. split; [vm_compute; reflexivity|].
  split; [vm_compute; reflexivity|].
  exact (@translate_with_gaps_ends Toy.codons toy_amino_acids "ATGXXX").
Defined.

(** X22 on [CTT---ATG]: the protein has its gap at position 1. *)
Lemma translate_with_gaps_gaps_witness :
  String.get 1 "L-M" = Some "-"%char <-> window "CTT---ATG" 1 = "---"%string.
Proof.
  apply (@translate_with_gaps_gaps Toy.codons toy_amino_acids
           "CTT---ATG" "L-M" 1).
  - vm_compute. intros Hin. repeat (apply elem_of_cons in Hin as [Hin|Hin]; [discriminate|]).
    apply elem_of_nil in Hin. destruct Hin.
  - vm_compute. reflexivity.
  - vm_compute. lia.
Defined.

End AdequacyExtras.

(** ** Amino-acid frequencies *)

Module FrequencyFacts.
Import Adequacy AdequacyFacts.

(** *** Loops that may raise *)

Lemma foldE_app {A X} (f : A -> X -> exn + A) l1 l2 a :
  foldE f (l1 ++ l2) a
  = match foldE f l1 a with
    | inl e => inl e
    | inr a' => foldE f l2 a'
    end.
Proof.
  revert a. induction l1 as [|x l1 IH]; intros a; cbn; [done|].
  destruct (f a x); [done|]. apply IH.
Qed.

(** A loop that returns has kept an invariant of its prefixes. *)
Lemma foldE_inv {A X} (f : A -> X -> exn + A) (I : list X -> A -> Prop) l a b :
  I [] a ->
  (forall pre x post a a',
     l = pre ++ x :: post -> I pre a -> f a x = inr a' -> I (pre ++ [x]) a') ->
  foldE f l a = inr b -> I l b.
Proof.
  intros Hstart Hstep.
  assert (forall post pre a, l = pre ++ post -> I pre a ->
                             foldE f post a = inr b -> I l b) as Hgen.
  { induction post as [|x post IH]; intros pre a0 Hl Hpre; cbn.
    - intros [= <-]. by rewrite Hl, app_nil_r.
    - destruct (f a0 x) as [e|a'] eqn:Hf; [done|].
      apply (IH (pre ++ [x])).
      + by rewrite <- app_assoc.
      + by apply (Hstep pre x post a0). }
  by apply (Hgen l []).
Qed.

(** A loop returns when its body returns under an invariant it keeps. *)
Lemma foldE_returns {A X} (f : A -> X -> exn + A) (I : list X -> A -> Prop) l a :
  I [] a ->
  (forall pre x post a,
     l = pre ++ x :: post -> I pre a ->
     exists a', f a x = inr a' /\ I (pre ++ [x]) a') ->
  exists b, foldE f l a = inr b /\ I l b.
Proof.
  intros Hstart Hstep.
  assert (forall post pre a, l = pre ++ post -> I pre a ->
                             exists b, foldE f post a = inr b /\ I l b) as Hgen.
  { induction post as [|x post IH]; intros pre a0 Hl Hpre; cbn.
    - exists a0. split; [done|]. by rewrite Hl, app_nil_r.
    - destruct (Hstep pre x post a0 Hl Hpre) as (a' & -> & Ha').
      apply (IH (pre ++ [x])); [by rewrite <- app_assoc | done]. }
  by apply (Hgen l []).
Qed.

(** *** Dictionaries in order *)

Section Dict.
Context {K V : Type} `{EqDecision K}.
Implicit Types (d : list (K * V)).

Lemma dict_get_Some d k v : dict_get d k = Some v -> (k, v) ∈ d.
Proof.
  induction d as [|[k' v'] d IH]; cbn; [done|].
  destruct (decide (k = k')) as [<-|_].
  - intros [= ->]. by left.
  - intros Hget. right. by apply IH.
Qed.

Lemma dict_get_is_Some d k : is_Some (dict_get d k) <-> k ∈ d.*1.
Proof.
  induction d as [|[k' v'] d IH]; cbn.
  - split; [by intros [? ?] | by intros ?%elem_of_nil].
  - destruct (decide (k = k')) as [<-|Hne].
    + split; [intros _; by left | by eexists].
    + rewrite IH. split; [by right|]. by intros [?|?]%elem_of_cons.
Qed.

Lemma dict_get_NoDup d k v :
  NoDup (d.*1) -> (k, v) ∈ d -> dict_get d k = Some v.
Proof.
  induction d as [|[k' v'] d IH]; cbn; [by intros _ ?%elem_of_nil|].
  intros [Hfresh Hnd]%NoDup_cons [[= -> ->]|Hin]%elem_of_cons.
  - by rewrite decide_True.
  - destruct (decide (k = k')) as [<-|_]; [|by apply IH].
    destruct Hfresh. apply list_elem_of_fmap. by exists (k, v).
Qed.

Lemma dict_setitem_keys_in d k v :
  k ∈ d.*1 -> (dict_setitem k v d).*1 = d.*1.
Proof.
  induction d as [|[k' v'] d IH]; cbn; [by intros ?%elem_of_nil|].
  destruct (decide (k = k')) as [<-|Hne]; [done|].
  intros [?|Hin]%elem_of_cons; [done|]. cbn. by rewrite IH.
Qed.

Lemma dict_setitem_keys_fresh d k v :
  k ∉ d.*1 -> (dict_setitem k v d).*1 = d.*1 ++ [k].
Proof.
  induction d as [|[k' v'] d IH]; cbn; [done|].
  intros Hnot. destruct (decide (k = k')) as [<-|Hne].
  - destruct Hnot. by left.
  - cbn. rewrite IH; [done|]. intros Hin. apply Hnot. by right.
Qed.

Lemma dict_get_setitem d k v k' :
  dict_get (dict_setitem k v d) k'
  = if decide (k' = k) then Some v else dict_get d k'.
Proof.
  induction d as [|[k0 v0] d IH]; cbn.
  - by destruct (decide (k' = k)).
  - destruct (decide (k = k0)) as [<-|Hne]; cbn.
    + by destruct (decide (k' = k)).
    + destruct (decide (k' = k0)) as [->|Hne'].
      * by rewrite decide_False by done.
      * apply IH.
Qed.

(** The dictionary of a comprehension with the same value for every
    key. *)
Lemma dict_comprehension (keys : list K) (v : V) :
  let d := foldl (fun d k => dict_setitem k v d) [] keys in
  NoDup (d.*1) /\ (forall k, k ∈ d.*1 <-> k ∈ keys) /\
  (forall k v', (k, v') ∈ d -> v' = v).
Proof.
  cbn zeta. induction keys as [|k keys IH] using rev_ind; cbn.
  - split; [constructor|]. split; [done|]. by intros k v' ?%elem_of_nil.
  - rewrite foldl_app. cbn.
    set (d := foldl (fun d k => dict_setitem k v d) [] keys) in *.
    destruct IH as (Hnd & Hkeys & Hvals).
    destruct (decide (k ∈ d.*1)) as [Hin|Hnot].
    + rewrite dict_setitem_keys_in by done. split; [done|]. split.
      * intros k'. rewrite Hkeys. rewrite elem_of_app, list_elem_of_singleton.
        split; [by left|]. intros [?| ->]; [done|]. by apply Hkeys.
      * intros k' v' Hin'. apply dict_get_NoDup in Hin';
          [|by rewrite dict_setitem_keys_in].
        rewrite dict_get_setitem in Hin'.
        destruct (decide (k' = k)); [congruence|].
        by apply (Hvals k'), dict_get_Some.
    + rewrite dict_setitem_keys_fresh by done. split.
      * apply NoDup_app. split; [done|]. split; [|apply NoDup_singleton].
        by intros k' Hk' ->%list_elem_of_singleton.
      * split.
        -- intros k'. rewrite !elem_of_app, Hkeys. done.
        -- intros k' v' Hin'. apply dict_get_NoDup in Hin'.
           ++ rewrite dict_get_setitem in Hin'.
              destruct (decide (k' = k)); [congruence|].
              by apply (Hvals k'), dict_get_Some.
           ++ rewrite dict_setitem_keys_fresh by done.
              apply NoDup_app. split; [done|]. split; [|apply NoDup_singleton].
              by intros k'' Hk'' ->%list_elem_of_singleton.
Qed.

End Dict.

(** *** Counting *)

Lemma get_list_ascii_of_string prot i :
  list_ascii_of_string prot !! i = String.get i prot.
Proof.
  revert i. induction prot as [|c prot IH]; intros [|i]; cbn; try done.
Qed.

Lemma counted_ext n keys g g' df :
  (forall i aa, (i < n)%nat -> aa ∈ keys -> g i aa = g' i aa) ->
  counted n keys g df -> counted n keys g' df.
Proof.
  intros Hext (Hkeys & Hcols). split; [done|].
  intros aa Haa. destruct (Hcols aa Haa) as (col & Hget & Hlen & Hcol).
  exists col. split; [done|]. split; [done|].
  intros i Hi. rewrite <- Hext by done. by apply Hcol.
Qed.

(** One pass of [df[aa][i] += 1], guarded by [aa != '-']. *)
Lemma count_aa_counted n keys g df k c df' :
  counted n keys g df ->
  count_aa df (k, c) = inr df' ->
  counted n keys
    (fun i aa => g i aa
                 + if bool_decide (aa <> "-"%char /\ i = k /\ aa = c)
                   then 1 else 0) df' /\
  (c <> "-"%char -> c ∈ keys /\ (k < n)%nat).
Proof.
  intros (Hkeys & Hcols). unfold count_aa.
  destruct (decide (c = "-"%char)) as [->|Hc].
  - intros [= <-]. split; [|done].
    apply (counted_ext n keys g); [|by split].
    intros i aa _ _. rewrite bool_decide_eq_false_2; [lia|].
    intros (Hne & _ & ->). done.
  - destruct (dict_get df c) as [col|] eqn:Hget; [|done].
    destruct (col !! k) as [x|] eqn:Hx; [|done]. intros [= <-].
    assert (c ∈ keys) as Hin.
    { rewrite <- Hkeys. apply dict_get_is_Some. by eexists. }
    destruct (Hcols c Hin) as (col' & Hget' & Hlen & Hcol).
    assert (col' = col) as -> by congruence.
    assert (k < n)%nat as Hk by (rewrite <- Hlen; by eapply lookup_lt_Some).
    split; [|done]. split.
    + rewrite dict_setitem_keys_in; [done|]. by rewrite Hkeys.
    + intros aa Haa. rewrite dict_get_setitem.
      destruct (decide (aa = c)) as [->|Hne].
      * exists (<[k := x + 1]> col). split; [done|].
        split; [by rewrite length_insert|].
        intros i Hi. destruct (decide (i = k)) as [->|Hik].
        -- rewrite list_lookup_insert_eq by lia.
           rewrite bool_decide_eq_true_2 by done.
           rewrite (Hcol k Hk) in Hx. congruence.
        -- rewrite list_lookup_insert_ne by done.
           rewrite bool_decide_eq_false_2 by (by intros (_ & ? & _)).
           rewrite Z.add_0_r. by apply Hcol.
      * destruct (Hcols aa Haa) as (col0 & Hget0 & Hlen0 & Hcol0).
        exists col0. split; [done|]. split; [done|].
        intros i Hi. rewrite bool_decide_eq_false_2 by (by intros (_ & _ & ?)).
        rewrite Z.add_0_r. by apply Hcol0.
Qed.

(** [count_aa] returns on a gap, and on an amino acid of the dictionary at
    a position of its columns. *)
Lemma count_aa_returns n keys g df k c :
  counted n keys g df ->
  (c <> "-"%char -> c ∈ keys /\ (k < n)%nat) ->
  exists df', count_aa df (k, c) = inr df'.
Proof.
  intros (Hkeys & Hcols) Hfit. unfold count_aa.
  destruct (decide (c = "-"%char)) as [->|Hc]; [by eexists|].
  destruct (Hfit Hc) as [Hin Hk].
  destruct (Hcols c Hin) as (col & -> & Hlen & Hcol).
  rewrite (Hcol k Hk). by eexists.
Qed.

(** The counts after the first [m] characters of a protein. *)
Lemma count_chars_step n keys g prot pre k c post df df' :
  enumerate (list_ascii_of_string prot) = pre ++ (k, c) :: post ->
  counted n keys
    (fun i aa => g i aa
                 + if bool_decide (aa <> "-"%char /\ (i < length pre)%nat /\
                                   String.get i prot = Some aa)
                   then 1 else 0) df ->
  count_aa df (k, c) = inr df' ->
  counted n keys
    (fun i aa => g i aa
                 + if bool_decide (aa <> "-"%char /\
                                   (i < length (pre ++ [(k, c)]))%nat /\
                                   String.get i prot = Some aa)
                   then 1 else 0) df' /\
  (c <> "-"%char -> c ∈ keys /\ (k < n)%nat).
Proof.
  intros Hsplit Hdf Hcount.
  apply enumerate_middle in Hsplit as (-> & Hc & _).
  rewrite get_list_ascii_of_string in Hc.
  destruct (count_aa_counted _ _ _ _ _ _ _ Hdf Hcount) as [Hdf' Hfit].
  split; [|done]. revert Hdf'. apply counted_ext.
  intros i aa _ _. rewrite length_app. cbn [length].
  repeat case_bool_decide; try lia; exfalso;
    destruct_and?;
    repeat match goal with
           | H : ~ (_ /\ _) |- _ => apply not_and_l in H as [H|H]
           | H : ~ _ <> _ |- _ => apply dec_stable in H
           end;
    subst; try lia; try congruence;
    assert (i = length pre) as -> by lia; congruence.
Qed.

Lemma count_chars_counted n keys g prot df df' :
  counted n keys g df ->
  foldE count_aa (enumerate (list_ascii_of_string prot)) df = inr df' ->
  counted n keys (fun i aa => g i aa + if has_letter i aa prot then 1 else 0) df' /\
  fits n keys prot.
Proof.
  intros Hdf Hloop.
  pose proof (foldE_inv count_aa
    (fun pre df =>
       counted n keys
         (fun i aa => g i aa
                      + if bool_decide (aa <> "-"%char /\ (i < length pre)%nat /\
                                        String.get i prot = Some aa)
                        then 1 else 0) df /\
       forall i c, (i < length pre)%nat -> String.get i prot = Some c ->
                   c <> "-"%char -> c ∈ keys /\ (i < n)%nat)
    (enumerate (list_ascii_of_string prot)) df df') as Hinv.
  cbn beta in Hinv. destruct Hinv as [Hdf' Hfit]; [| |exact Hloop|].
  - split; [|cbn; lia]. revert Hdf. apply counted_ext.
    intros i aa _ _. rewrite bool_decide_eq_false_2; [lia|]. cbn. lia.
  - intros pre [k c] post a a' Hsplit [Ha Hfit] Hcount.
    destruct (count_chars_step _ _ _ _ _ _ _ _ _ _ Hsplit Ha Hcount)
      as [Ha' Hc].
    split; [done|]. intros i c' Hi Hget Hc'.
    apply enumerate_middle in Hsplit as (-> & Hk & _).
    rewrite get_list_ascii_of_string in Hk.
    rewrite length_app in Hi. cbn in Hi.
    destruct (decide (i = length pre)) as [->|Hne].
    + assert (c' = c) as -> by congruence. by apply Hc.
    + apply (Hfit i c'); [lia|done..].
  - rewrite length_enumerate in Hdf', Hfit.
    assert (forall i c, String.get i prot = Some c ->
                        (i < length (list_ascii_of_string prot))%nat) as Hlt.
    { intros i c Hget. rewrite <- get_list_ascii_of_string in Hget.
      by eapply lookup_lt_Some. }
    split.
    + revert Hdf'. apply counted_ext. intros i aa _ _. unfold has_letter.
      repeat case_bool_decide; try lia; exfalso; destruct_and?;
        repeat match goal with
               | H : ~ (_ /\ _) |- _ => apply not_and_l in H as [H|H]
               end; try done.
      apply H. by eapply Hlt.
    + intros i c Hget Hc. apply (Hfit i c); [by eapply Hlt|done..].
Qed.

Lemma count_chars_returns n keys g prot df :
  counted n keys g df -> fits n keys prot ->
  exists df', foldE count_aa (enumerate (list_ascii_of_string prot)) df = inr df'.
Proof.
  intros Hdf Hfit.
  destruct (foldE_returns count_aa
    (fun pre df =>
       counted n keys
         (fun i aa => g i aa
                      + if bool_decide (aa <> "-"%char /\ (i < length pre)%nat /\
                                        String.get i prot = Some aa)
                        then 1 else 0) df)
    (enumerate (list_ascii_of_string prot)) df) as (df' & Hloop & _);
    [| |by exists df'].
  - revert Hdf. apply counted_ext.
    intros i aa _ _. rewrite bool_decide_eq_false_2; [lia|]. cbn. lia.
  - intros pre [k c] post a Hsplit Ha.
    destruct (count_aa_returns _ _ _ _ k c Ha) as [a' Hcount].
    { intros Hc. apply (Hfit k c); [|done].
      apply enumerate_middle in Hsplit as (_ & Hk & _).
      by rewrite get_list_ascii_of_string in Hk. }
    exists a'. split; [done|].
    by destruct (count_chars_step _ _ _ _ _ _ _ _ _ _ Hsplit Ha Hcount).
Qed.

Lemma letter_count_cons prot prots i aa :
  letter_count (prot :: prots) i aa
  = (if has_letter i aa prot then 1 else 0) + letter_count prots i aa.
Proof.
  unfold letter_count. cbn [List.filter].
  destruct (has_letter i aa prot); cbn [length]; lia.
Qed.

Lemma residue_count_cons prot prots i :
  residue_count (prot :: prots) i
  = (if has_residue i prot then 1 else 0) + residue_count prots i.
Proof.
  unfold residue_count. cbn [List.filter].
  destruct (has_residue i prot); cbn [length]; lia.
Qed.

(** *** Sums over the columns *)

Lemma sum_map_add {A} (f f' : A -> Z) l :
  foldr Z.add 0 (map (fun x => f x + f' x) l)
  = foldr Z.add 0 (map f l) + foldr Z.add 0 (map f' l).
Proof. induction l as [|x l IH]; cbn; lia. Qed.

Lemma sum_map_ext {A} (f f' : A -> Z) l :
  (forall x, x ∈ l -> f x = f' x) ->
  foldr Z.add 0 (map f l) = foldr Z.add 0 (map f' l).
Proof.
  induction l as [|x l IH]; intros Hext; cbn; [done|].
  rewrite (Hext x) by (by left). rewrite IH; [done|].
  intros y Hy. apply Hext. by right.
Qed.

Lemma sum_map_zero {A} (f : A -> Z) (l : list A) :
  (forall x, x ∈ l -> f x = 0) -> foldr Z.add 0 (map f l) = 0.
Proof.
  induction l as [|x l IH]; intros Hzero; cbn; [done|].
  rewrite (Hzero x) by (by left). rewrite IH; [done|].
  intros y Hy. apply Hzero. by right.
Qed.

Lemma sum_indicator (keys : list ascii) c :
  NoDup keys ->
  foldr Z.add 0 (map (fun aa => if bool_decide (aa = c) then 1 else 0) keys)
  = if bool_decide (c ∈ keys) then 1 else 0.
Proof.
  induction keys as [|k keys IH]; intros Hnd; cbn; [done|].
  apply NoDup_cons in Hnd as [Hfresh Hnd]. rewrite (IH Hnd).
  destruct (decide (k = c)) as [->|Hne].
  - rewrite bool_decide_eq_true_2 by done.
    rewrite (bool_decide_eq_false_2 (c ∈ keys)) by done.
    rewrite bool_decide_eq_true_2 by (by left). done.
  - rewrite bool_decide_eq_false_2 by done.
    destruct (decide (c ∈ keys)) as [Hin|Hnot].
    + rewrite !bool_decide_eq_true_2; [done|by right|done].
    + rewrite !bool_decide_eq_false_2; [done| |done].
      by intros [?|?]%elem_of_cons.
Qed.

Lemma sum_has_letter n keys prot i :
  NoDup keys -> fits n keys prot ->
  foldr Z.add 0 (map (fun aa => if has_letter i aa prot then 1 else 0) keys)
  = if has_residue i prot then 1 else 0.
Proof.
  intros Hnd Hfit. unfold has_residue.
  destruct (String.get i prot) as [c|] eqn:Hget.
  - destruct (decide (c = "-"%char)) as [->|Hc].
    + rewrite bool_decide_eq_false_2 by (by intros ?).
      apply sum_map_zero.
      intros aa _. unfold has_letter. rewrite Hget.
      rewrite bool_decide_eq_false_2; [done|]. intros [Hne [= Heq]]. congruence.
    + rewrite bool_decide_eq_true_2 by done.
      rewrite (sum_map_ext _ (fun aa => if bool_decide (aa = c) then 1 else 0)).
      * rewrite sum_indicator by done.
        rewrite bool_decide_eq_true_2; [done|]. by apply (Hfit i c).
      * intros aa _. unfold has_letter. rewrite Hget.
        destruct (decide (aa = c)) as [->|Hne].
        -- by rewrite !bool_decide_eq_true_2.
        -- rewrite !bool_decide_eq_false_2; [done|done|].
           intros [_ [= Heq]]. congruence.
  - apply sum_map_zero.
    intros aa _. unfold has_letter. rewrite Hget.
    rewrite bool_decide_eq_false_2; [done|]. by intros [_ ?].
Qed.

(** The counts of a site add up to the number of its residues. *)
Lemma sum_letter_count n keys prots i :
  NoDup keys -> Forall (fits n keys) prots ->
  foldr Z.add 0 (map (letter_count prots i) keys) = residue_count prots i.
Proof.
  intros Hnd. induction 1 as [|prot prots Hfit Hfits IH].
  - by apply sum_map_zero.
  - rewrite residue_count_cons, <- IH, <- (sum_has_letter n keys) by done.
    rewrite <- sum_map_add. apply sum_map_ext.
    intros aa _. apply letter_count_cons.
Qed.

Lemma counted_row n keys g df i :
  NoDup keys -> counted n keys g df -> (i < n)%nat ->
  omap (fun col : list Z => col !! i) (df.*2) = map (g i) keys.
Proof.
  intros Hnd (Hkeys & Hcols) Hi.
  assert (Forall (fun kv : ascii * list Z => kv.2 !! i = Some (g i kv.1)) df)
    as Hall.
  { apply Forall_forall. intros [aa col] Hin. cbn.
    assert (aa ∈ keys) as Haa.
    { rewrite <- Hkeys. apply list_elem_of_fmap. by exists (aa, col). }
    destruct (Hcols aa Haa) as (col' & Hget & _ & Hcol).
    rewrite (dict_get_NoDup df aa col) in Hget by (by rewrite ?Hkeys).
    injection Hget as <-. by apply Hcol. }
  rewrite <- Hkeys. clear Hkeys Hcols Hnd.
  induction Hall as [|[aa col] df Hcol Hall IH]; cbn; [done|].
  cbn in Hcol. rewrite Hcol. f_equal. exact IH.
Qed.

(** The row sums of the counts. *)
Lemma counted_totals n keys prots df :
  NoDup keys -> counted n keys (letter_count prots) df ->
  Forall (fits n keys) prots ->
  map (foldr Z.add 0) (frame_rows n (df.*2))
  = map (residue_count prots) (seq 0 n).
Proof.
  intros Hnd Hdf Hfits. unfold frame_rows. rewrite map_map.
  apply map_ext_in. intros i Hi%in_seq.
  rewrite (counted_row n keys (letter_count prots)) by (done || lia).
  by apply (sum_letter_count n).
Qed.

Section Sequences.
Context `{CO : TreeLik.Constants} `{AA : AminoAcids}.

(** The loop over the alignment, when it returns. *)
Lemma count_sequences_counted n keys alignment :
  forall g df0 df,
    counted n keys g df0 ->
    foldE count_sequence alignment df0 = inr df ->
    exists prots,
      Forall2 (fun s p => translate_with_gaps s.2 = inr p) alignment prots /\
      counted n keys (fun i aa => g i aa + letter_count prots i aa) df /\
      Forall (fits n keys) prots.
Proof.
  induction alignment as [|s alignment IH]; intros g df0 df Hdf0; cbn.
  - intros [= <-]. exists []. split; [constructor|]. split; [|constructor].
    revert Hdf0. apply counted_ext. intros i aa _ _. unfold letter_count. cbn. lia.
  - unfold count_sequence at 1.
    destruct (translate_with_gaps s.2) as [e|prot] eqn:Hprot; [done|].
    destruct (foldE count_aa _ df0) as [e|df1] eqn:Hchars; [done|].
    intros Hloop.
    destruct (count_chars_counted _ _ _ _ _ _ Hdf0 Hchars) as [Hdf1 Hfit].
    destruct (IH _ _ _ Hdf1 Hloop) as (prots & Hprots & Hdf & Hfits).
    exists (prot :: prots). split; [by constructor|]. split; [|by constructor].
    revert Hdf. apply counted_ext. intros i aa _ _.
    rewrite letter_count_cons. lia.
Qed.

(** The loop over the alignment returns when every sequence is
    translated to a protein that fits. *)
Lemma count_sequences_returns n keys alignment prots :
  Forall2 (fun s p => translate_with_gaps s.2 = inr p) alignment prots ->
  Forall (fits n keys) prots ->
  forall g df0,
    counted n keys g df0 ->
    exists df, foldE count_sequence alignment df0 = inr df /\
               counted n keys (fun i aa => g i aa + letter_count prots i aa) df.
Proof.
  induction 1 as [|s prot alignment prots Hprot Hprots IH];
    intros Hfits g df0 Hdf0; cbn.
  - exists df0. split; [done|].
    revert Hdf0. apply counted_ext. intros i aa _ _. unfold letter_count. cbn. lia.
  - apply Forall_cons in Hfits as [Hfit Hfits].
    unfold count_sequence at 1. rewrite Hprot.
    destruct (count_chars_returns _ _ _ prot _ Hdf0 Hfit) as [df1 Hchars].
    rewrite Hchars.
    destruct (count_chars_counted _ _ _ _ _ _ Hdf0 Hchars) as [Hdf1 _].
    destruct (IH Hfits _ _ Hdf1) as (df & Hloop & Hdf).
    exists df. split; [done|].
    revert Hdf. apply counted_ext. intros i aa _ _.
    rewrite letter_count_cons. lia.
Qed.

(** An amino acid of a translation is a letter of [INDEX_TO_AA]. *)
Lemma translate_with_gaps_letters sequence prot j c :
  translate_with_gaps sequence = inr prot ->
  String.get j prot = Some c -> c <> "-"%char -> c ∈ INDEX_TO_AA.*2.
Proof.
  intros (_ & l & -> & _ & Hall)%translate_with_gaps_inr Hget Hc.
  rewrite get_of_list_ascii in Hget.
  apply Hall, translate_codon_inr in Hget as [[_ ->]|[_ Haa]]; [done|].
  unfold amino_acid in Haa.
  destruct (TreeLik.CODON_TO_INDEX !! _) as [x|]; [|done]. cbn in Haa.
  destruct (CODON_TO_AA !! x) as [a|]; [|done]. cbn in Haa.
  by apply (dict_get_elem_of _ a).
Qed.

End Sequences.

(** *** The frame *)

#[export] Instance ascii_le_total : Total ascii_le.
Proof. intros a b. unfold ascii_le. lia. Qed.

Lemma dict_get_map_values {K V W} `{EqDecision K} (h : V -> W)
    (d : list (K * V)) k :
  dict_get (map (fun kv : K * V => (kv.1, h kv.2)) d) k = h <$> dict_get d k.
Proof.
  induction d as [|[k' v] d IH]; cbn; [done|].
  by destruct (decide (k = k')).
Qed.

(** The dictionary before the counting. *)
Lemma zeros_counted n (values : list ascii) :
  let df0 := foldl (fun d k => dict_setitem k (replicate n 0) d) [] values in
  NoDup (df0.*1) /\ (forall k, k ∈ df0.*1 <-> k ∈ values) /\
  counted n (df0.*1) (fun _ _ => 0) df0.
Proof.
  cbn zeta.
  destruct (dict_comprehension values (replicate n 0)) as (Hnd & Hkeys & Hvals).
  cbn zeta in Hnd, Hkeys, Hvals.
  set (df0 := foldl _ _ _) in *.
  split; [done|]. split; [done|]. split; [done|].
  intros aa Haa. apply dict_get_is_Some in Haa as [col Hget].
  exists col. split; [done|].
  rewrite (Hvals aa col) by (by apply dict_get_Some).
  split; [by rewrite length_replicate|].
  intros i Hi. by apply lookup_replicate_2.
Qed.

Lemma existsb_zero_false (totals : list Z) i x :
  existsb (Z.eqb 0) totals = false -> totals !! i = Some x -> x <> 0.
Proof.
  intros Hnone Hx ->.
  assert (existsb (Z.eqb 0) totals = true) as Hsome; [|congruence].
  apply existsb_exists. exists 0. split; [|done].
  apply list_elem_of_In. by eapply list_elem_of_lookup_2.
Qed.

Lemma existsb_zero_true (totals : list Z) i :
  totals !! i = Some 0 -> existsb (Z.eqb 0) totals = true.
Proof.
  intros Hx. apply existsb_exists. exists 0. split; [|done].
  apply list_elem_of_In. by eapply list_elem_of_lookup_2.
Qed.

End FrequencyFacts.

(** ** Properties of [calc_aa_frequencies] *)

Module FrequencyExtras.
Import Adequacy AdequacyFacts FrequencyFacts.

Section Frequencies.
Context `{CO : TreeLik.Constants} `{AA : AminoAcids}.
Context `{FL : TreeLik.Float} `{FF : !FloatFrames}.

(** X23: the frame [calc_aa_frequencies] returns.  The alignment has a
    first sequence, of [n] codons say, and every sequence is translated.
    The column [site] counts the rows from 1 ([n] rows, none when
    [INDEX_TO_AA] is empty); the other columns are the letters of
    [INDEX_TO_AA] in ascending order; and the entry of letter [aa] at site
    [i] is the number of sequences with amino acid [aa] at [i] divided by
    the number of sequences with an amino acid at [i], which is not 0. *)
Theorem calc_aa_frequencies_result alignment frame
    (Hret : calc_aa_frequencies alignment = inr frame) :
  exists first rest prots,
    alignment = first :: rest /\
    Forall2 (fun s p => translate_with_gaps s.2 = inr p) alignment prots /\
    let n := (String.length first.2 / 3)%nat in
    site frame = map (fun x => Z.of_nat x + 1)
                     (seq 0 (match INDEX_TO_AA with [] => 0%nat | _ => n end)) /\
    Sorted ascii_le ((columns frame).*1) /\
    (columns frame).*1 ≡ₚ INDEX_TO_AA.*2 /\
    forall aa col, (aa, col) ∈ columns frame ->
      length col = n /\
      forall i, (i < n)%nat ->
        residue_count prots i <> 0 /\
        col !! i = Some (TreeLik.fdiv (float_of_int (letter_count prots i aa))
                                      (float_of_int (residue_count prots i))).
Proof.
  unfold calc_aa_frequencies in Hret.
  destruct (forallb _ alignment) eqn:Hlens; [|done].
  destruct alignment as [|first rest]; [done|].
  set (n := (String.length first.2 / 3)%nat) in *.
  destruct (zeros_counted n (INDEX_TO_AA.*2)) as (Hnd & Hkeys & Hdf0).
  cbn zeta in Hnd, Hkeys, Hdf0.
  set (df0 := foldl _ _ _) in *.
  destruct (foldE count_sequence (first :: rest) df0) as [e|df] eqn:Hloop;
    [done|].
  destruct (count_sequences_counted _ _ _ _ _ _ Hdf0 Hloop)
    as (prots & Hprots & Hdf & Hfits).
  apply (counted_ext _ _ _ (letter_count prots)) in Hdf;
    [|intros i aa _ _; lia].
  set (nrows := match df with [] => 0%nat | _ => n end) in *.
  set (totals := map (foldr Z.add 0) (frame_rows nrows (df.*2))) in *.
  destruct (existsb (Z.eqb 0) totals) eqn:Hzero; [done|].
  set (freq := map _ df) in *.
  destruct (forallb isclose_1 _); [|done].
  destruct (mapE _ _) as [e|cols] eqn:Hsel; [done|].
  injection Hret as <-. cbn [site columns].
  exists first, rest, prots. split; [done|]. split; [done|]. cbn zeta.
  assert (nrows = match INDEX_TO_AA with [] => 0%nat | _ => n end) as Hnrows.
  { destruct Hdf as [Hdfkeys _]. subst nrows.
    destruct df as [|kv df].
    - destruct INDEX_TO_AA as [|[a c] table]; [done|].
      assert (c ∈ df0.*1) as Hin by (apply Hkeys; by left).
      rewrite <- Hdfkeys in Hin. by apply elem_of_nil in Hin.
    - destruct INDEX_TO_AA as [|[a c] table]; [|done].
      assert (kv.1 ∈ df0.*1) as Hin by (rewrite <- Hdfkeys; by left).
      apply Hkeys in Hin. by apply elem_of_nil in Hin. }
  split; [by rewrite Hnrows|].
  apply mapE_inr in Hsel.
  assert (cols.*1 = merge_sort ascii_le (INDEX_TO_AA.*2)) as Hlabels.
  { clear -Hsel. induction Hsel as [|a y sorted cols Hy Hsel IH]; [done|].
    cbn. rewrite IH. f_equal.
    destruct (dict_get freq a); [|done]. by injection Hy as <-. }
  split; [rewrite Hlabels; apply (Sorted_merge_sort ascii_le)|].
  split; [rewrite Hlabels; apply merge_sort_Permutation|].
  intros aa col Hin.
  assert (dict_get freq aa = Some col) as Hcol.
  { clear -Hsel Hin. induction Hsel as [|a y sorted cols Hy Hsel IH].
    - by apply elem_of_nil in Hin.
    - apply elem_of_cons in Hin as [<-|Hin]; [|by apply IH].
      destruct (dict_get freq a) as [col'|] eqn:Hget; [|done].
      by injection Hy as <- <-. }
  subst freq.
  rewrite (dict_get_map_values
             (fun v : list Z =>
                zip_with (fun c total => TreeLik.fdiv (float_of_int c)
                                                      (float_of_int total))
                         v totals)) in Hcol.
  destruct (dict_get df aa) as [col0|] eqn:Hcol0; [|done].
  cbn in Hcol. injection Hcol as <-.
  assert (aa ∈ df0.*1) as Haa.
  { destruct Hdf as [<- _]. apply dict_get_is_Some. by eexists. }
  assert (nrows = n) as Hn.
  { subst nrows. destruct df; [done|done]. }
  assert (totals = map (residue_count prots) (seq 0 n)) as Htotals.
  { subst totals. rewrite Hn. by apply (counted_totals n (df0.*1)). }
  destruct Hdf as [_ Hcols].
  destruct (Hcols aa Haa) as (col0' & Hget & Hlen & Hentries).
  assert (col0' = col0) as -> by congruence.
  split.
  { rewrite length_zip_with, Hlen, Htotals, length_map, length_seq. lia. }
  intros i Hi.
  assert (totals !! i = Some (residue_count prots i)) as Htotal.
  { rewrite Htotals, list_lookup_fmap, lookup_seq_lt by done. done. }
  split; [by apply (existsb_zero_false totals i)|].
  rewrite lookup_zip_with, (Hentries i Hi). cbn. rewrite Htotal. done.
Qed.

(** X24: where [calc_aa_frequencies] raises.  A sequence whose length is
    no multiple of 3 gives [AssertionError]; an empty alignment gives
    [IndexError]; and when every sequence is translated, no protein has
    an amino acid past the length of the first, and [INDEX_TO_AA] is not
    empty, a site at which no sequence has an amino acid (a column of
    gaps) gives [AssertionError]. *)
Theorem calc_aa_frequencies_raises alignment :
  ((exists s, s ∈ alignment /\ (String.length s.2 mod 3 <> 0)%nat) ->
   calc_aa_frequencies alignment = inl AssertionError) /\
  (alignment = [] -> calc_aa_frequencies alignment = inl IndexError) /\
  (forall first rest prots i,
     alignment = first :: rest ->
     Forall2 (fun s p => translate_with_gaps s.2 = inr p) alignment prots ->
     Forall (fun prot => forall j c, String.get j prot = Some c ->
                           c <> "-"%char ->
                           (j < String.length first.2 / 3)%nat) prots ->
     INDEX_TO_AA <> [] ->
     (i < String.length first.2 / 3)%nat ->
     residue_count prots i = 0 ->
     calc_aa_frequencies alignment = inl AssertionError).
Proof.
  split; [|split].
  - intros (s & Hin & Hmod). unfold calc_aa_frequencies.
    destruct (forallb _ alignment) eqn:Hlens; [|done].
    rewrite forallb_forall in Hlens. apply list_elem_of_In in Hin.
    apply Hlens, Nat.eqb_eq in Hin. done.
  - intros ->. reflexivity.
  - intros first rest prots i -> Hprots Hshort Htable Hi Hgap.
    unfold calc_aa_frequencies.
    assert (forallb (fun s : string * string =>
                       (String.length s.2 mod 3 =? 0)%nat) (first :: rest)
            = true) as ->.
    { apply forallb_forall. intros s Hin%list_elem_of_In.
      apply Nat.eqb_eq.
      apply list_elem_of_lookup in Hin as [k Hk].
      destruct (Forall2_lookup_l _ _ _ _ _ Hprots Hk) as (p & _ & Hp).
      by apply translate_with_gaps_inr in Hp as [Hmod _]. }
    set (n := (String.length first.2 / 3)%nat) in *.
    destruct (zeros_counted n (INDEX_TO_AA.*2)) as (Hnd & Hkeys & Hdf0).
    cbn zeta in Hnd, Hkeys, Hdf0.
    set (df0 := foldl _ _ _) in *.
    assert (Forall (fits n (df0.*1)) prots) as Hfits.
    { apply Forall_forall. intros p Hin j c Hget Hc.
      split; [|by apply (proj1 (Forall_forall _ _) Hshort p Hin j c)].
      apply Hkeys.
      apply list_elem_of_lookup in Hin as [k Hk].
      destruct (Forall2_lookup_r _ _ _ _ _ Hprots Hk) as (s & _ & Hs).
      by apply (translate_with_gaps_letters s.2 p j c). }
    destruct (count_sequences_returns n (df0.*1) _ _ Hprots Hfits _ _ Hdf0)
      as (df & -> & Hdf).
    apply (counted_ext _ _ _ (letter_count prots)) in Hdf;
      [|intros i' aa _ _; lia].
    assert (match df with [] => 0%nat | _ => n end = n) as ->.
    { destruct Hdf as [Hdfkeys _]. destruct df as [|kv df]; [|done].
      destruct INDEX_TO_AA as [|[a c] table]; [done|].
      assert (c ∈ df0.*1) as Hin by (apply Hkeys; by left).
      rewrite <- Hdfkeys in Hin. by apply elem_of_nil in Hin. }
    rewrite (counted_totals n (df0.*1) prots) by done.
    rewrite (existsb_zero_true _ i); [done|].
    rewrite list_lookup_fmap, lookup_seq_lt by done. cbn. by rewrite Hgap.
Qed.

End Frequencies.

(** X23 on the alignment [ATGATG], [CTT---]: the first site has [L] and
    [M] at one half each, the second [M] alone. *)
Lemma calc_aa_frequencies_result_witness :
  exists first rest prots,
    toy_gapped = first :: rest /\
    Forall2 (fun s p => @translate_with_gaps Toy.codons toy_amino_acids s.2
                        = inr p) toy_gapped prots /\
    let n := (String.length first.2 / 3)%nat in
    site toy_frame
    = map (fun x => Z.of_nat x + 1)
          (seq 0 (match @INDEX_TO_AA toy_amino_acids with
                  | [] => 0%nat
                  | _ => n
                  end)) /\
    Sorted ascii_le ((columns toy_frame).*1) /\
    (columns toy_frame).*1 ≡ₚ (@INDEX_TO_AA toy_amino_acids).*2 /\
    forall aa col, (aa, col) ∈ columns toy_frame ->
      length col = n /\
      forall i, (i < n)%nat ->
        residue_count prots i <> 0 /\
        col !! i = Some (@TreeLik.fdiv Qfloat
                           (@float_of_int Qfloat Qframes (letter_count prots i aa))
                           (@float_of_int Qfloat Qframes (residue_count prots i))).
Proof.
  apply (@calc_aa_frequencies_result Toy.codons toy_amino_acids Qfloat Qframes
           toy_gapped toy_frame).
  vm_compute. reflexivity.
Defined.

(** X24 on the alignment [ATG---], [CTT---], whose second site has gaps
    only. *)
Lemma calc_aa_frequencies_raises_witness :
  @calc_aa_frequencies Toy.codons toy_amino_acids Qfloat Qframes toy_all_gaps
  = inl AssertionError.
Proof.
  apply (proj2 (proj2 (@calc_aa_frequencies_raises Toy.codons toy_amino_acids
                         Qfloat Qframes toy_all_gaps))
           ("seq_1", "ATG---")%string [("seq_2", "CTT---")%string]
           ["M-"; "L-"]%string 1%nat).
  - reflexivity.
  - constructor; [vm_compute; reflexivity|].
    constructor; [vm_compute; reflexivity|]. constructor.
  - constructor; [|constructor; [|constructor]].
    + intros [|[|j]] c Hget Hc; cbn in *; [lia|congruence|discriminate].
    + intros [|[|j]] c Hget Hc; cbn in *; [lia|congruence|discriminate].
  - discriminate.
  - cbn. lia.
  - vm_compute. reflexivity.
Defined.

End FrequencyExtras.

(** ** The likelihood kernel *)

Module TreeLikFacts.
Import TreeLik.

Section Kernel.
Context `{FL : Float} `{MO : !ModelOps} `{CO : Constants}.
Implicit Types (s self : TreeLikelihood) (p : string) (j : jidx).

(** *** Indexing *)

Lemma py_index_nat {A} (l : list A) (c : nat) a :
  py_index l (Z.of_nat c) = inr a <-> l !! c = Some a.
Proof.
  unfold py_index.
  destruct (Z.ltb_spec (Z.of_nat c) 0); [lia|]. cbv zeta.
  destruct (Z.ltb_spec (Z.of_nat c) 0); [lia|].
  rewrite Nat2Z.id. destruct (l !! c); split; congruence.
Qed.

Lemma py_index_last {A} (l : list A) a :
  py_index l (-1) = inr a <->
  (0 < length l)%nat /\ l !! (length l - 1)%nat = Some a.
Proof.
  unfold py_index. change (-1 <? 0) with true. cbv zeta iota.
  destruct (Z.ltb_spec (-1 + Z.of_nat (length l)) 0).
  - split; [done | intros [Hlen _]; lia].
  - replace (Z.to_nat (-1 + Z.of_nat (length l))) with (length l - 1)%nat by lia.
    destruct (l !! (length l - 1)%nat) as [b|].
    + split.
      * intros [= ->]. split; [lia | done].
      * intros [_ [= ->]]. done.
    + split; [done | intros [_ ?]; done].
Qed.

Lemma darr_get_set_eq {A} (a a' : darr A) j x :
  darr_set a j x = inr a' -> darr_get a' j = inr x.
Proof.
  destruct a as [y|l]; destruct j as [|k]; cbn [darr_get darr_set];
    try discriminate.
  - by intros [= <-].
  - destruct (Nat.ltb_spec k (length l)); [|discriminate].
    intros [= <-]. cbn. by rewrite list_lookup_insert_eq.
Qed.

Lemma darr_get_set_ne {A} (a a' : darr A) j j' x :
  darr_set a j x = inr a' -> j <> j' -> darr_get a' j' = darr_get a j'.
Proof.
  destruct a as [y|l]; destruct j as [|k]; destruct j' as [|k'];
    cbn [darr_get darr_set]; try discriminate; try (by intros [= <-]).
  - destruct (Nat.ltb_spec k (length l)); [|discriminate]. by intros [= <-].
  - destruct (Nat.ltb_spec k (length l)); [|discriminate].
    intros [= <-] Hne. cbn.
    rewrite list_lookup_insert_ne; [done | congruence].
Qed.

(** *** Fields shared by two states *)

Lemma beside_tables_fields s s' :
  beside_tables s = beside_tables s' ->
  structure s = structure s' /\ model s = model s' /\
  ntips s = ntips s' /\ nnodes s = nnodes s' /\ ninternal s = ninternal s' /\
  rdescend s = rdescend s' /\ ldescend s = ldescend s' /\
  t s = t s' /\ tips s = tips s' /\ gaps s = gaps s'.
Proof. unfold beside_tables, structure. intros [=]. repeat split; congruence. Qed.

(** Brings the shared fields in and states the goal over the first state. *)
Ltac shared H :=
  let E0 := fresh "E" in let E1 := fresh "E" in let E2 := fresh "E" in
  let E3 := fresh "E" in let E4 := fresh "E" in let E5 := fresh "E" in
  let E6 := fresh "E" in let E7 := fresh "E" in let E8 := fresh "E" in
  let E9 := fresh "E" in
  destruct (beside_tables_fields _ _ H)
    as (E0 & E1 & E2 & E3 & E4 & E5 & E6 & E7 & E8 & E9);
  rewrite <- ?E1, <- ?E2, <- ?E3, <- ?E4, <- ?E5, <- ?E6, <- ?E7, <- ?E8, <- ?E9.

Lemma children_shared s s' m :
  beside_tables s = beside_tables s' -> children s m = children s' m.
Proof. intros H. unfold children. by shared H. Qed.

Lemma component_shared s s' p j :
  beside_tables s = beside_tables s' -> component s p j <-> component s' p j.
Proof. intros H. unfold component. by shared H. Qed.

Lemma descendant_of_shared s s' c D :
  beside_tables s = beside_tables s' ->
  descendant_of s c D -> descendant_of s' c D.
Proof.
  intros H. unfold descendant_of. by shared H.
Qed.

(** The messages of a child depend on the tables only at the child. *)
Lemma ML_shared s s' c :
  beside_tables s = beside_tables s' ->
  ((c < ntips s)%nat \/ L s !! (c - ntips s)%nat = L s' !! (c - ntips s)%nat) ->
  ML s c = ML s' c.
Proof.
  intros H Hc. unfold ML. shared H.
  destruct (t s !! c) as [b|]; [cbn [mbind option_bind]|done].
  destruct (Nat.ltb_spec c (ntips s)); [done|].
  destruct Hc as [Hc | Hc]; [lia | by rewrite Hc].
Qed.

Lemma dML_shared s s' p c j :
  beside_tables s = beside_tables s' ->
  ((c < ntips s)%nat \/ L s !! (c - ntips s)%nat = L s' !! (c - ntips s)%nat) ->
  dML s p c j = dML s' p c j.
Proof.
  intros H Hc. unfold dML. shared H.
  destruct (t s !! c) as [b|]; [cbn [mbind option_bind]|done].
  destruct (Nat.ltb_spec c (ntips s)); [done|].
  destruct Hc as [Hc | Hc]; [lia | by rewrite Hc].
Qed.

Lemma MdL_shared s s' p c j :
  beside_tables s = beside_tables s' ->
  ((c < ntips s)%nat \/
   dL_at s p (c - ntips s) = dL_at s' p (c - ntips s)) ->
  MdL s p c j = MdL s' p c j.
Proof.
  intros H Hc. unfold MdL, dL_entry. shared H.
  destruct (Nat.ltb_spec c (ntips s)); [done|].
  destruct Hc as [Hc | Hc]; [lia | by rewrite Hc].
Qed.

(** *** One descendant *)

Lemma descend_spec s c tc :
  t s !! c = Some tc ->
  wp (descend (Z.of_nat c) tc)
     (fun r s' => s' = s /\ descendant_of s c r.1 /\ ML s c = Some r.2) any s.
Proof.
  intros Ht. unfold descend, descendant_of, ML. rewrite Ht. cbn [mbind option_bind].
  wp_go.
  destruct (Nat.ltb_spec c (ntips s)) as [Hlt|Hge].
  - destruct (Z.ltb_spec (Z.of_nat c) (Z.of_nat (ntips s))); [|lia].
    wp_read codons Hc. apply py_index_nat in Hc.
    wp_read gp Hg. apply py_index_nat in Hg.
    rewrite Hc, Hg. cbn. eauto 10.
  - destruct (Z.ltb_spec (Z.of_nat c) (Z.of_nat (ntips s))); [lia|].
    replace (Z.of_nat c - Z.of_nat (ntips s)) with (Z.of_nat (c - ntips s)) by lia.
    wp_read Ln HL. apply py_index_nat in HL.
    rewrite HL. cbn. eauto 10.
Qed.

Lemma dterms_spec s p j c D m :
  descendant_of s c D -> m = model s ->
  wp (dterms p j (dM_of m p D))
     (fun r s' => s' = s /\ dML s p c j = Some r.1 /\ MdL s p c j = Some r.2)
     any s.
Proof.
  intros (tc & Ht & HD) ->. unfold dML, MdL, dL_entry, dL_at. rewrite Ht.
  cbn [mbind option_bind].
  destruct (Nat.ltb_spec c (ntips s)) as [Hlt|Hge].
  - destruct HD as (codons & gp & Hc & Hg & ->). rewrite Hc, Hg.
    cbn [dM_of dterms mbind option_bind].
    wp_read dMnj Hd. by rewrite Hd.
  - subst D. cbn [dM_of dterms].
    wp_read dMnj Hd. rewrite Hd. cbn [ok mbind option_bind].
    wp_read Ln HL. apply py_index_nat in HL. rewrite HL.
    wp_read dLp HdLp. rewrite HdLp. cbn [mbind option_bind].
    wp_read dLn HdLn. apply py_index_nat in HdLn. rewrite HdLn.
    cbn [mbind option_bind].
    wp_read dLnj HdLnj. by rewrite HdLnj.
Qed.

(** *** States that agree away from one node *)

Lemma agree_param_refl p ni s : agree_param p ni s s.
Proof. by repeat split. Qed.

Lemma agree_param_trans p ni s1 s2 s3 :
  agree_param p ni s1 s2 -> agree_param p ni s2 s3 -> agree_param p ni s1 s3.
Proof.
  intros (Hb1 & HL1 & Ho1 & Hp1) (Hb2 & HL2 & Ho2 & Hp2).
  repeat split; try congruence.
  - intros p' Hp'. rewrite Ho1, Ho2; done.
  - intros i Hi. rewrite Hp1, Hp2; done.
Qed.

Lemma agree_off_refl ni s : agree_off ni s s.
Proof. by repeat split. Qed.

Lemma agree_off_trans ni s1 s2 s3 :
  agree_off ni s1 s2 -> agree_off ni s2 s3 -> agree_off ni s1 s3.
Proof.
  intros (Hb1 & Hl1 & HL1 & Hd1) (Hb2 & Hl2 & HL2 & Hd2).
  repeat split; try congruence.
  - intros i Hi. rewrite HL1, HL2; done.
  - intros p i Hi. rewrite Hd1, Hd2; done.
Qed.

Lemma agree_param_off p ni s s' : agree_param p ni s s' -> agree_off ni s s'.
Proof.
  intros (Hb & HL & Ho & Hp). repeat split; try congruence.
  intros p' i Hi. destruct (decide (p' = p)) as [->|Hne]; [by apply Hp|].
  unfold dL_at. by rewrite (Ho p' Hne).
Qed.

(** The derivative recursion at [(p, j, m)] reads [dL] only at [p]. *)
Lemma dL_holds_shared s s' p j m :
  beside_tables s = beside_tables s' -> L s = L s' ->
  dL s !! p = dL s' !! p ->
  dL_holds s p j m -> dL_holds s' p j m.
Proof.
  intros Hb HL Hd (nr & nl & MLr & MLl & dMLr & MdLr & dMLl & MdLl &
                   Hch & HMLr & HMLl & HdMLr & HMdLr & HdMLl & HMdLl & Hentry).
  assert (forall i, dL_at s p i = dL_at s' p i) as Hat
    by (intros i; unfold dL_at; by rewrite Hd).
  exists nr, nl, MLr, MLl, dMLr, MdLr, dMLl, MdLl.
  rewrite <- (children_shared s s' m Hb).
  rewrite <- !(ML_shared s s') by (done || (right; by rewrite HL)).
  rewrite <- !(dML_shared s s') by (done || (right; by rewrite HL)).
  rewrite <- !(MdL_shared s s') by (done || (right; by rewrite Hat)).
  assert (ntips s = ntips s') as <- by (by shared Hb).
  unfold dL_entry. rewrite <- Hat. done.
Qed.

(** The messages of a child below the node that [ni] numbers are not
    disturbed by a write at the entries of that node. *)
Lemma messages_stable s s' ni p j c :
  agree_off ni s s' -> (c < ntips s + ni)%nat ->
  ML s' c = ML s c /\ dML s' p c j = dML s p c j /\
  MdL s' p c j = MdL s p c j.
Proof.
  intros (Hb & Hlen & HL & Hd) Hc.
  assert ((c < ntips s)%nat \/
          L s !! (c - ntips s)%nat = L s' !! (c - ntips s)%nat) as HLc.
  { destruct (decide (c < ntips s)%nat); [by left|right]. apply HL. lia. }
  assert ((c < ntips s)%nat \/
          dL_at s p (c - ntips s) = dL_at s' p (c - ntips s)) as Hdc.
  { destruct (decide (c < ntips s)%nat); [by left|right]. apply Hd. lia. }
  rewrite <- (ML_shared s s'), <- (dML_shared s s'), <- (MdL_shared s s');
    done.
Qed.

(** The derivative recursion at a node is not disturbed by a write at the
    entries of a later node [ni]. *)
Lemma dL_holds_stable s s' ni p j m nr nl :
  agree_off ni s s' -> children s m = Some (nr, nl) ->
  (nr < m)%nat -> (nl < m)%nat -> (ntips s <= m)%nat ->
  (m - ntips s <= ni)%nat ->
  dL_entry s' p (m - ntips s) j = dL_entry s p (m - ntips s) j ->
  dL_holds s p j m -> dL_holds s' p j m.
Proof.
  intros Hag Hch Hr Hl Hm Hni He
         (nr' & nl' & MLr & MLl & dMLr & MdLr & dMLl & MdLl &
          Hch' & HMLr & HMLl & HdMLr & HMdLr & HdMLl & HMdLl & Hentry).
  assert (nr' = nr /\ nl' = nl) as [-> ->] by (split; congruence).
  exists nr, nl, MLr, MLl, dMLr, MdLr, dMLl, MdLl.
  destruct (messages_stable s s' ni p j nr Hag) as (-> & -> & ->); [lia|].
  destruct (messages_stable s s' ni p j nl Hag) as (-> & -> & ->); [lia|].
  destruct Hag as (Hb & _).
  rewrite <- (children_shared s s' m Hb).
  assert (ntips s = ntips s') as <- by (by shared Hb).
  rewrite He. done.
Qed.

Lemma L_holds_stable s s' ni m nr nl :
  agree_off ni s s' -> children s m = Some (nr, nl) ->
  (nr < m)%nat -> (nl < m)%nat -> (ntips s <= m)%nat ->
  (m - ntips s < ni)%nat ->
  L_holds s m -> L_holds s' m.
Proof.
  intros Hag Hch Hr Hl Hm Hni
         (nr' & nl' & MLr & MLl & Hch' & HMLr & HMLl & Hentry).
  assert (nr' = nr /\ nl' = nl) as [-> ->] by (split; congruence).
  exists nr, nl, MLr, MLl.
  destruct (messages_stable s s' ni "" JEmpty nr Hag) as (-> & _); [lia|].
  destruct (messages_stable s s' ni "" JEmpty nl Hag) as (-> & _); [lia|].
  destruct Hag as (Hb & _ & HL & _).
  rewrite <- (children_shared s s' m Hb).
  assert (ntips s = ntips s') as <- by (by shared Hb).
  rewrite <- HL by lia. done.
Qed.

(** *** The loops of the kernel *)

Lemma computeDerivative_spec s n ni m nr nl Dr Dl MLr MLl p j :
  ni = (n - ntips s)%nat -> m = model s -> (ntips s <= n)%nat ->
  children s n = Some (nr, nl) -> (nr < n)%nat -> (nl < n)%nat ->
  descendant_of s nr Dr -> descendant_of s nl Dl ->
  ML s nr = Some MLr -> ML s nl = Some MLl ->
  wp (computeDerivative ni MLr MLl p (dM_of m p Dr) (dM_of m p Dl) j)
     (fun _ s' => agree_param p ni s s' /\ dL_holds s' p j n /\
                  forall j', j' <> j -> dL_entry s' p ni j' = dL_entry s p ni j')
     any s.
Proof.
  intros -> -> Hn Hch Hr Hl HDr HDl HMLr HMLl. unfold computeDerivative.
  apply wp_bind.
  eapply wp_post; [by apply (dterms_spec s p j nr Dr) | ].
  intros [dMLr MdLr] ? (-> & HdMLr & HMdLr). cbn [fst snd] in *.
  apply wp_bind.
  eapply wp_post; [by apply (dterms_spec s p j nl Dl) | ].
  intros [dMLl MdLl] ? (-> & HdMLl & HMdLl). cbn [fst snd] in *.
  wp_read dLp HdLp. wp_read dLn HdLn. apply py_index_nat in HdLn.
  wp_read dLn' Hset.
  set (v := tab_add _ _) in *.
  set (s' := set_dL _ s).
  assert (agree_param p (n - ntips s) s s') as Hag.
  { repeat split.
    - intros p' Hp'. subst s'. cbn. by rewrite lookup_insert_ne.
    - intros i Hi. subst s'. unfold dL_at. cbn.
      rewrite lookup_insert_eq, HdLp. cbn.
      by rewrite list_lookup_insert_ne. }
  assert (dL_at s' p (n - ntips s) = Some dLn') as Hat'.
  { subst s'. unfold dL_at. cbn. rewrite lookup_insert_eq. cbn.
    apply list_lookup_insert_eq. by eapply lookup_lt_Some. }
  assert (dL_at s p (n - ntips s) = Some dLn) as Hat.
  { unfold dL_at. rewrite HdLp. done. }
  split; [done|]. split.
  - exists nr, nl, MLr, MLl, dMLr, MdLr, dMLl, MdLl.
    pose proof (agree_param_off _ _ _ _ Hag) as Hoff.
    destruct (messages_stable s s' (n - ntips s) p j nr Hoff) as (-> & -> & ->);
      [lia|].
    destruct (messages_stable s s' (n - ntips s) p j nl Hoff) as (-> & -> & ->);
      [lia|].
    repeat split; try done.
    unfold dL_entry. change (ntips s') with (ntips s). rewrite Hat'. cbn.
    by rewrite (darr_get_set_eq _ _ _ _ Hset).
  - intros j' Hj'. unfold dL_entry. rewrite Hat', Hat. cbn.
    f_equal. by eapply darr_get_set_ne.
Qed.

Lemma computeDerivatives_spec s n ni nr nl Dr Dl MLr MLl p :
  ni = (n - ntips s)%nat -> (ntips s <= n)%nat ->
  children s n = Some (nr, nl) -> (nr < n)%nat -> (nl < n)%nat ->
  descendant_of s nr Dr -> descendant_of s nl Dl ->
  ML s nr = Some MLr -> ML s nl = Some MLl ->
  wp (computeDerivatives ni Dr Dl MLr MLl p)
     (fun _ s' => agree_param p ni s s' /\
                  forall j, component s' p j -> dL_holds s' p j n)
     any s.
Proof.
  intros Hni Hn Hch Hr Hl HDr HDl HMLr HMLl. unfold computeDerivatives.
  wp_read indices Hind.
  eapply wp_post;
    [apply (wp_forM_ _ (fun pre s' =>
              agree_param p ni s s' /\
              forall j, j ∈ pre -> dL_holds s' p j n)) | ].
  - split; [apply agree_param_refl|]. intros j Hj. by apply elem_of_nil in Hj.
  - intros pre j post s' Hl' (Hag & Hpre).
    pose proof Hag as (Hb & HL & _).
    assert (ntips s' = ntips s) as Hnt by (by shared Hb).
    assert (model s = model s') as Hmo by (by shared Hb).
    eapply wp_post;
      [eapply (computeDerivative_spec s' n ni (model s) nr nl Dr Dl MLr MLl p j)
      | ]; try done.
    + congruence.
    + lia.
    + by rewrite <- (children_shared s s').
    + by eapply descendant_of_shared.
    + by eapply descendant_of_shared.
    + rewrite <- (ML_shared s s'); [done..|]. right. by rewrite HL.
    + rewrite <- (ML_shared s s'); [done..|]. right. by rewrite HL.
    + intros _ s'' (Hag' & Hj & Hothers). split; [by eapply agree_param_trans|].
      intros j0 Hj0. destruct (decide (j0 = j)) as [->|Hne]; [done|].
      apply elem_of_app in Hj0 as [Hj0|Hj0];
        [|apply list_elem_of_singleton in Hj0; done].
      eapply (dL_holds_stable s' s'' ni p j0 n nr nl);
        [by eapply agree_param_off | by rewrite <- (children_shared s s')
        | done | done | lia | lia | | by apply Hpre].
      rewrite Hnt, <- Hni. by apply Hothers.
  - intros _ s' (Hag & Hall). split; [done|].
    intros j (ind' & Hind' & Hj). apply Hall.
    destruct Hag as (Hb & _).
    assert (model s = model s') as Hmo by (by shared Hb).
    rewrite <- Hmo in Hind'. congruence.
Qed.

Lemma children_below_shared s s' :
  beside_tables s = beside_tables s' -> children_below s -> children_below s'.
Proof.
  intros Hb [Hnn Hcb].
  assert (ntips s = ntips s' /\ nnodes s = nnodes s' /\
          ninternal s = ninternal s') as (Hn1 & Hn2 & Hn3) by (by shared Hb).
  split; [congruence|]. intros m Hm.
  rewrite <- (children_shared s s' m Hb). apply Hcb. lia.
Qed.

Lemma children_Z s m nr nl nright nleft :
  children s m = Some (nr, nl) ->
  rdescend s !! (m - ntips s)%nat = Some nright ->
  ldescend s !! (m - ntips s)%nat = Some nleft ->
  nright = Z.of_nat nr /\ nleft = Z.of_nat nl.
Proof.
  unfold children. intros Hch Hr Hl. rewrite Hr, Hl in Hch.
  cbn [mbind option_bind] in Hch.
  destruct (Z.leb_spec 0 nright), (Z.leb_spec 0 nleft); cbn in Hch;
    try discriminate.
  injection Hch as <- <-. lia.
Qed.

Lemma computeNode_spec s n :
  children_below s -> (ntips s <= n < nnodes s)%nat ->
  wp (computeNode n)
     (fun _ s' => agree_off (n - ntips s) s s' /\ node_holds s' n) any s.
Proof.
  intros [Hnn Hcb] Hn. destruct (Hcb n Hn) as (nr & nl & Hch & Hr & Hl).
  unfold computeNode. set (ni := (n - ntips s)%nat).
  wp_read nright Hnr. apply py_index_nat in Hnr.
  wp_read nleft Hnl. apply py_index_nat in Hnl.
  destruct (children_Z s n nr nl nright nleft Hch Hnr Hnl) as [-> ->].
  wp_read tright Htr. apply py_index_nat in Htr.
  wp_read tleft Htl. apply py_index_nat in Htl.
  eapply wp_post; [by apply descend_spec | ].
  intros [Dr MLr] ? (-> & HDr & HMLr). cbn [fst snd] in *.
  apply wp_bind. eapply wp_post; [by apply descend_spec | ].
  intros [Dl MLl] ? (-> & HDl & HMLl). cbn [fst snd] in *.
  wp_setitem Hlen.
  set (s1 := set_L _ s).
  assert (agree_off ni s s1) as Hoff1.
  { repeat split.
    - subst s1. cbn. by rewrite length_insert.
    - intros i Hi. subst s1. cbn. by rewrite list_lookup_insert_ne. }
  eapply wp_post;
    [apply (wp_forM_ _ (fun pre s' =>
              agree_off ni s1 s' /\ L s' = L s1 /\
              forall p, p ∈ pre ->
                forall j, component s' p j -> dL_holds s' p j n)) | ].
  - split; [apply agree_off_refl|]. split; [done|].
    intros p Hp. by apply elem_of_nil in Hp.
  - intros pre p post s' Hl' (Hoff & HL & Hpre).
    pose proof (agree_off_trans _ _ _ _ Hoff1 Hoff) as Hoff'.
    pose proof Hoff' as (Hb & _).
    assert (ntips s' = ntips s) as Hnt by (by shared Hb).
    eapply wp_post;
      [eapply (computeDerivatives_spec s' n ni nr nl Dr Dl MLr MLl p) | ].
    + subst ni. congruence.
    + lia.
    + by rewrite <- (children_shared s s').
    + done.
    + done.
    + by eapply descendant_of_shared.
    + by eapply descendant_of_shared.
    + destruct (messages_stable s s' ni "" JEmpty nr Hoff') as (-> & _);
        [subst ni; lia | done].
    + destruct (messages_stable s s' ni "" JEmpty nl Hoff') as (-> & _);
        [subst ni; lia | done].
    + intros _ s'' (Hag & Hp). pose proof Hag as (Hb' & HL' & Hothers & _).
      split; [eapply agree_off_trans; [done | by eapply agree_param_off]|].
      split; [congruence|].
      intros p0 Hp0 j Hj. destruct (decide (p0 = p)) as [->|Hne]; [by apply Hp|].
      apply elem_of_app in Hp0 as [Hp0|Hp0];
        [|apply list_elem_of_singleton in Hp0; done].
      eapply (dL_holds_shared s' s''); [done | done | by apply Hothers |].
      apply Hpre; [done|]. by eapply component_shared.
  - intros _ s' (Hoff & HL & Hall).
    pose proof (agree_off_trans _ _ _ _ Hoff1 Hoff) as Hoff'.
    pose proof Hoff' as (Hb & _).
    assert (ntips s' = ntips s) as Hnt by (by shared Hb).
    assert (model s = model s') as Hmo by (by shared Hb).
    split; [done|]. split.
    + exists nr, nl, MLr, MLl.
      destruct (messages_stable s s' ni "" JEmpty nr Hoff') as (-> & _);
        [subst ni; lia|].
      destruct (messages_stable s s' ni "" JEmpty nl Hoff') as (-> & _);
        [subst ni; lia|].
      rewrite <- (children_shared s s' n Hb). repeat split; try done.
      rewrite HL, Hnt. subst s1. cbn. by apply list_lookup_insert_eq.
    + intros p j Hp Hj. apply Hall; [|done]. by rewrite Hmo.
Qed.

Lemma node_holds_stable s s' ni m :
  agree_off ni s s' -> children_below s ->
  (ntips s <= m)%nat -> (m - ntips s < ni)%nat -> (m < nnodes s)%nat ->
  node_holds s m -> node_holds s' m.
Proof.
  intros Hoff [Hnn Hcb] Hm Hni Hmn [HL HdL].
  destruct (Hcb m) as (nr & nl & Hch & Hr & Hl); [lia|].
  pose proof Hoff as (Hb & _ & _ & Hd).
  assert (model s = model s') as Hmo by (by shared Hb).
  split.
  - by eapply (L_holds_stable s s' ni m nr nl).
  - intros p j Hp Hj.
    eapply (dL_holds_stable s s' ni p j m nr nl); try done; try lia.
    + unfold dL_entry. rewrite Hd; [done | lia].
    + apply HdL; [by rewrite Hmo | by eapply component_shared].
Qed.

(** The kernel leaves both recursions in force at every internal node. *)
Lemma computePartialLikelihoods_spec s :
  children_below s ->
  wp _computePartialLikelihoods
     (fun _ s' => beside_tables s = beside_tables s' /\
                  length (L s) = length (L s') /\
                  forall m, (ntips s <= m < nnodes s)%nat -> node_holds s' m)
     any s.
Proof.
  intros Hcb. unfold _computePartialLikelihoods. wp_go.
  eapply wp_post;
    [apply (wp_forM_ _ (fun pre s' =>
              beside_tables s = beside_tables s' /\
              length (L s) = length (L s') /\
              forall m, m ∈ pre -> node_holds s' m)) | ].
  - split; [done|]. split; [done|]. intros m Hm. by apply elem_of_nil in Hm.
  - intros pre n post s' Hseq (Hb & Hlen & Hpre).
    assert (ntips s = ntips s' /\ nnodes s = nnodes s') as [Hnt Hnn]
      by (by shared Hb).
    destruct (seq_middle _ _ _ _ _ Hseq) as (Hn & Hnlt' & Hpre_seq).
    assert (ntips s + length pre < nnodes s)%nat as Hnlt by lia.
    pose proof (children_below_shared s s' Hb Hcb) as Hcb'.
    eapply wp_post; [apply (computeNode_spec s' n Hcb'); lia | ].
    intros _ s'' (Hoff & Hn'). pose proof Hoff as (Hb' & Hlen' & _).
    split; [congruence|]. split; [congruence|].
    intros m Hm. apply elem_of_app in Hm as [Hm|Hm];
      [|apply list_elem_of_singleton in Hm; by subst m].
    rewrite Hpre_seq in Hm. apply elem_of_seq in Hm.
    eapply (node_holds_stable s' s''); [done | done | lia | lia | lia |].
    apply Hpre. rewrite Hpre_seq. apply elem_of_seq. lia.
  - intros _ s' (Hb & Hlen & Hall). split; [done|]. split; [done|].
    intros m Hm. apply Hall. apply elem_of_seq. lia.
Qed.

(** *** The root reduction *)

(** A state is determined by its fields. *)
Lemma rebuild s s' :
  structure s = structure s' -> model s = model s' ->
  L s = L s' -> dL s = dL s' ->
  s' = set_calls (calls s')
         (set_dloglik (dloglik s')
            (set_dsiteloglik (dsiteloglik s')
               (set_loglik (loglik s')
                  (set_siteloglik (siteloglik s')
                     (set__paramsarray (_paramsarray s') s))))).
Proof.
  destruct s, s'. unfold structure. cbn. intros [=] ? ? ?. by subst.
Qed.

Lemma node_holds_tables s s' m :
  structure s = structure s' -> model s = model s' ->
  L s = L s' -> dL s = dL s' ->
  node_holds s m -> node_holds s' m.
Proof.
  intros Hs Hm HL Hd H. rewrite (rebuild s s' Hs Hm HL Hd). exact H.
Qed.

Lemma children_below_structure s s' :
  structure s = structure s' -> children_below s -> children_below s'.
Proof.
  unfold children_below, children, structure. intros [=] [Hnn Hcb].
  split; [congruence|].
  intros m Hm. replace (ntips s') with (ntips s) in *.
  replace (nnodes s') with (nnodes s) in *.
  replace (rdescend s') with (rdescend s). replace (ldescend s') with (ldescend s).
  by apply Hcb.
Qed.

Lemma sitelik_lookup (Lroot pi : tab) r Lr pir :
  Lroot !! r = Some Lr -> pi !! r = Some pir ->
  map flog (map fsum (tab_mul Lroot pi)) !! r
  = Some (flog (fsum (zip_with fmul Lr pir))).
Proof.
  intros HL Hpi. unfold tab_mul.
  rewrite !list_lookup_fmap, lookup_zip_with, HL. cbn. by rewrite Hpi.
Qed.

Lemma beside_tables_parts s s' :
  beside_tables s = beside_tables s' ->
  structure s = structure s' /\ model s = model s' /\
  _paramsarray s = _paramsarray s' /\ siteloglik s = siteloglik s' /\
  loglik s = loglik s' /\ dsiteloglik s = dsiteloglik s' /\
  dloglik s = dloglik s' /\ calls s = calls s'.
Proof.
  unfold beside_tables. generalize (structure s), (structure s').
  intros a b [=]. by repeat split.
Qed.

Lemma structure_sizes s s' :
  structure s = structure s' ->
  ntips s = ntips s' /\ nnodes s = nnodes s' /\ ninternal s = ninternal s'.
Proof. unfold structure. intros [=]. by repeat split. Qed.

(** What [_updateInternals] leaves: the recursions at every internal
    node, the root reduction, the structure and the model untouched, and
    one more call on record. *)
Lemma updateInternals_spec s :
  children_below s -> length (L s) = ninternal s ->
  wp _updateInternals
     (fun _ s' => structure s' = structure s /\ model s' = model s /\
                  _paramsarray s' = _paramsarray s /\
                  calls s' = calls s ++ [UpdateInternals] /\
                  length (L s') = ninternal s' /\
                  (forall m, (ntips s' <= m < nnodes s')%nat -> node_holds s' m) /\
                  root_holds s')
     any s.
Proof.
  intros Hcb Hlen. unfold _updateInternals. wp_go.
  set (sa := set_calls _ s).
  assert (children_below sa) as Hcba by done.
  eapply wp_post; [by apply computePartialLikelihoods_spec | ].
  intros _ sb (Hb & Hlenb & Hnodes). wp_go.
  wp_read Lroot HLroot. apply py_index_last in HLroot as [Hpos HLroot].
  set (pi := stationarystate (model sb)).
  set (sc := set_dloglik _ _).
  eapply wp_post;
    [apply (wp_forM_ _ (fun _ s' =>
              structure s' = structure sc /\ model s' = model sc /\
              L s' = L sc /\ dL s' = dL sc /\ siteloglik s' = siteloglik sc /\
              loglik s' = loglik sc /\ _paramsarray s' = _paramsarray sc /\
              calls s' = calls sc)) | ].
  - done.
  - intros pre p post s' _ Hkept.
    wp_read Lroot' HLroot'. wp_read dLp HdLp. wp_read dLroot HdLroot.
    wp_read x Hx. exact Hkept.
  - intros _ s' (Hs & Hm & HL & HdL & Hsl & Hll & Hpa & Hca).
    apply beside_tables_parts in Hb as (Hsb & Hmb & Hpb & _ & _ & _ & _ & Hcab).
    change (structure sa) with (structure s) in Hsb.
    change (model sa) with (model s) in Hmb.
    change (_paramsarray sa) with (_paramsarray s) in Hpb.
    change (structure sc) with (structure sb) in Hs.
    change (model sc) with (model sb) in Hm.
    change (_paramsarray sc) with (_paramsarray sb) in Hpa.
    change (calls sc) with (calls sb) in Hca.
    change (L sc) with (L sb) in HL. change (dL sc) with (dL sb) in HdL.
    destruct (structure_sizes _ _ Hs) as (Hnt & Hnn & Hni).
    destruct (structure_sizes _ _ Hsb) as (Hntb & Hnnb & Hnib).
    split; [congruence|]. split; [congruence|].
    split; [congruence|]. split; [by rewrite Hca, <- Hcab|].
    split; [rewrite HL; cbn in Hlenb; congruence|]. split.
    + intros m Hm'. eapply (node_holds_tables sb s'); try done.
      apply Hnodes. cbn. lia.
    + exists Lroot. destruct Hcb as [Hnn' _].
      assert (length (L sb) = ninternal s) as HlenLb by (cbn in Hlenb; congruence).
      split.
      { rewrite HL. rewrite <- HLroot. f_equal. lia. }
      rewrite Hsl, Hll, Hm. cbn. split; [|split; [|done]].
      * intros r Lr pir HLr Hpir. by apply sitelik_lookup.
      * unfold tab_mul. by rewrite !length_map, length_zip_with.
Qed.

End Kernel.
End TreeLikFacts.
(** ** Trees and their traversals *)

Module TreeFacts.
Import TreeLik.

Section Trees.
Context `{FL : Float}.
Implicit Types (c ch : Clade) (cs : list Clade) (path rel : list nat).

Lemma postorder_eq path c :
  postorder path c = postorder_children path 0 (clades c) ++ [(path, c)].
Proof. by destruct c. Qed.

Lemma preorder_eq path c :
  preorder path c = (path, c) :: preorder_children path 0 (clades c).
Proof. by destruct c. Qed.

Lemma postorder_children_cons path i ch cs :
  postorder_children path i (ch :: cs)
  = postorder (path ++ [i]) ch ++ postorder_children path (S i) cs.
Proof. done. Qed.

Lemma preorder_children_cons path i ch cs :
  preorder_children path i (ch :: cs)
  = preorder (path ++ [i]) ch ++ preorder_children path (S i) cs.
Proof. done. Qed.

(** Both traversals visit the same number of nodes. *)
Lemma length_postorder_preorder c :
  forall path, length (postorder path c) = length (preorder path c).
Proof.
  induction c as [nm b cs IH] using Clade_nested_ind. intros path.
  rewrite postorder_eq, preorder_eq. cbn [clades]. rewrite length_app. cbn.
  enough (forall i, length (postorder_children path i cs)
                    = length (preorder_children path i cs)) as -> by lia.
  induction IH as [|ch cs Hch _ IHcs]; intros i; [done|].
  rewrite postorder_children_cons, preorder_children_cons, !length_app.
  by rewrite Hch, IHcs.
Qed.

(** The nodes a traversal visits are the nodes of the tree, each under
    its path. *)
Lemma elem_of_postorder c :
  forall path0 path c',
    (path, c') ∈ postorder path0 c <->
    exists rel, path = path0 ++ rel /\ node_at c rel = Some c'.
Proof.
  induction c as [nm b cs IH] using Clade_nested_ind. intros path0 path c'.
  rewrite postorder_eq. cbn [clades].
  assert (forall i,
            (path, c') ∈ postorder_children path0 i cs <->
            exists k ch rel, cs !! k = Some ch /\
                             path = path0 ++ (i + k)%nat :: rel /\
                             node_at ch rel = Some c') as Hchildren.
  { induction IH as [|ch cs Hch _ IHcs]; intros i.
    - cbn. split; [by intros ?%elem_of_nil|]. by intros (k & ? & ? & ? & _).
    - rewrite postorder_children_cons, elem_of_app, Hch, IHcs. split.
      + intros [(rel & -> & Hrel)|(k & ch' & rel & Hk & -> & Hrel)].
        * exists 0%nat, ch, rel. rewrite <- app_assoc, Nat.add_0_r. done.
        * exists (S k), ch', rel. split; [done|]. split; [|done].
          do 2 f_equal. lia.
      + intros ([|k] & ch' & rel & Hk & -> & Hrel).
        * left. injection Hk as ->. exists rel.
          rewrite <- app_assoc, Nat.add_0_r. done.
        * right. exists k, ch', rel. split; [done|]. split; [|done].
          do 2 f_equal. lia. }
  rewrite elem_of_app, Hchildren, list_elem_of_singleton. split.
  - intros [(k & ch & rel & Hk & -> & Hrel)|[= -> ->]].
    + exists (k :: rel). split; [done|]. cbn. by rewrite Hk.
    + exists []. by rewrite app_nil_r.
  - intros ([|k rel] & -> & Hrel).
    + right. rewrite app_nil_r. cbn in Hrel. congruence.
    + left. cbn in Hrel. destruct (cs !! k) as [ch|] eqn:Hk; [|done].
      by exists k, ch, rel.
Qed.

Lemma elem_of_preorder c :
  forall path0 path c',
    (path, c') ∈ preorder path0 c <->
    exists rel, path = path0 ++ rel /\ node_at c rel = Some c'.
Proof.
  induction c as [nm b cs IH] using Clade_nested_ind. intros path0 path c'.
  rewrite preorder_eq. cbn [clades].
  assert (forall i,
            (path, c') ∈ preorder_children path0 i cs <->
            exists k ch rel, cs !! k = Some ch /\
                             path = path0 ++ (i + k)%nat :: rel /\
                             node_at ch rel = Some c') as Hchildren.
  { induction IH as [|ch cs Hch _ IHcs]; intros i.
    - cbn. split; [by intros ?%elem_of_nil|]. by intros (k & ? & ? & ? & _).
    - rewrite preorder_children_cons, elem_of_app, Hch, IHcs. split.
      + intros [(rel & -> & Hrel)|(k & ch' & rel & Hk & -> & Hrel)].
        * exists 0%nat, ch, rel. rewrite <- app_assoc, Nat.add_0_r. done.
        * exists (S k), ch', rel. split; [done|]. split; [|done].
          do 2 f_equal. lia.
      + intros ([|k] & ch' & rel & Hk & -> & Hrel).
        * left. injection Hk as ->. exists rel.
          rewrite <- app_assoc, Nat.add_0_r. done.
        * right. exists k, ch', rel. split; [done|]. split; [|done].
          do 2 f_equal. lia. }
  rewrite elem_of_cons, Hchildren. split.
  - intros [[= -> ->]|(k & ch & rel & Hk & -> & Hrel)].
    + exists []. by rewrite app_nil_r.
    + exists (k :: rel). split; [done|]. cbn. by rewrite Hk.
  - intros ([|k rel] & -> & Hrel).
    + left. rewrite app_nil_r. cbn in Hrel. congruence.
    + right. cbn in Hrel. destruct (cs !! k) as [ch|] eqn:Hk; [|done].
      by exists k, ch, rel.
Qed.

(** No node is visited twice. *)
Lemma NoDup_postorder c :
  forall path0, NoDup (map fst (postorder path0 c)).
Proof.
  induction c as [nm b cs IH] using Clade_nested_ind. intros path0.
  rewrite postorder_eq. cbn [clades].
  assert (forall i, NoDup (map fst (postorder_children path0 i cs)) /\
                    forall path, path ∈ map fst (postorder_children path0 i cs) ->
                      exists k rel, path = path0 ++ (i + k)%nat :: rel)
    as Hchildren.
  { induction IH as [|ch cs Hch _ IHcs]; intros i.
    - cbn. split; [constructor|]. by intros ? ?%elem_of_nil.
    - rewrite postorder_children_cons, map_app.
      destruct (IHcs (S i)) as [Hnd Hpaths]. split.
      + apply NoDup_app. split; [apply Hch|]. split; [|done].
        intros path Hin Hin'.
        apply Hpaths in Hin' as (k & rel & ->).
        apply list_elem_of_fmap in Hin as ([path' c'] & Heq & Hin).
        cbn in Heq. subst path'.
        apply elem_of_postorder in Hin as (rel' & Heq & _).
        rewrite <- app_assoc in Heq. apply app_inv_head in Heq.
        cbn in Heq. injection Heq as Heq _. lia.
      + intros path Hin. apply elem_of_app in Hin as [Hin|Hin].
        * apply list_elem_of_fmap in Hin as ([path' c'] & Heq & Hin).
          cbn in Heq. subst path'.
          apply elem_of_postorder in Hin as (rel' & -> & _).
          exists 0%nat, rel'. rewrite <- app_assoc, Nat.add_0_r. done.
        * apply Hpaths in Hin as (k & rel & ->).
          exists (S k), rel. do 2 f_equal. lia. }
  rewrite map_app. cbn. apply NoDup_app. destruct (Hchildren 0%nat) as [Hnd Hpaths].
  split; [done|]. split; [|apply NoDup_singleton].
  intros path Hin Hin'. apply list_elem_of_singleton in Hin'. subst path.
  apply Hpaths in Hin as (k & rel & Heq).
  rewrite <- (app_nil_r path0) in Heq at 1. by apply app_inv_head in Heq.
Qed.

(** The root comes last. *)
Lemma last_postorder path c : last (postorder path c) = Some (path, c).
Proof. rewrite postorder_eq. apply last_snoc. Qed.

End Trees.
End TreeFacts.

(** ** Construction *)

Module ConstructionFacts.
Import TreeLik TreeFacts TreeLikFacts.

Section Construction.
Context `{FL : Float} `{MO : !ModelOps} `{CO : Constants}.
Implicit Types (s self : TreeLikelihood) (path : list nat).

(** *** Encoding one tip *)

(** The loop over the sites of tip [n]: only row [n] of [tips] changes;
    a gap is appended to the local list and its entry is left alone, a
    codon of the table is stored. *)
Lemma encode_sites_spec s n sequence :
  wp (foldM (encode_site n sequence) (seq 0 (nsites s)) [])
     (fun gp s' =>
        s' = set_tips (tips s') s /\
        length (tips s') = length (tips s) /\
        (forall n', n' <> n -> tips s' !! n' = tips s !! n') /\
        (forall r, (r < nsites s)%nat ->
           let codon := substring (3 * r) 3 sequence in
           (codon = "---"%string /\ (r ∈ gp) /\ entry s' n r = entry s n r) \/
           (codon <> "---"%string /\ (r ∉ gp) /\
            exists x, CODON_TO_INDEX !! codon = Some x /\
                      entry s' n r = Some x)))
     any s.
Proof.
  eapply wp_post;
    [apply (wp_foldM _ (fun pre gp s' =>
              s' = set_tips (tips s') s /\
              length (tips s') = length (tips s) /\
              (forall n', n' <> n -> tips s' !! n' = tips s !! n') /\
              (forall r, (r ∈ gp) -> r ∈ pre) /\
              (forall r, (r ∉ pre) -> entry s' n r = entry s n r) /\
              (forall r, (r ∈ pre) ->
                 let codon := substring (3 * r) 3 sequence in
                 (codon = "---"%string /\ (r ∈ gp) /\
                  entry s' n r = entry s n r) \/
                 (codon <> "---"%string /\ (r ∉ gp) /\
                  exists x, CODON_TO_INDEX !! codon = Some x /\
                            entry s' n r = Some x)))) | ].
  - split; [by destruct s|]. split; [done|]. split; [done|].
    split; [by intros r ?%elem_of_nil|]. split; [done|].
    by intros r ?%elem_of_nil.
  - intros pre r post gp s' Hseq (Hs' & Hlen & Hrows & Hgp & Hrest & Hdone).
    destruct (seq_middle _ _ _ _ _ Hseq) as (Hr & Hlt & Hpre).
    assert (r ∉ pre) as Hfresh.
    { rewrite Hpre. intros Hin%elem_of_seq. lia. }
    unfold encode_site.
    destruct (decide (substring (3 * r) 3 sequence = "---"%string)) as [Hgap|Hgap].
    + wp_go. split; [done|]. split; [done|]. split; [done|].
      split; [|split].
      * intros r0 Hr0. apply elem_of_app. apply elem_of_app in Hr0 as [Hr0|Hr0]; auto.
      * intros r0 Hr0. apply Hrest. intros Hin. apply Hr0, elem_of_app. auto.
      * intros r0 Hr0. apply elem_of_app in Hr0 as [Hr0|Hr0].
        -- destruct (Hdone r0 Hr0) as [(? & ? & ?)|(? & Hnot & ?)]; [left|right].
           ++ split; [done|]. split; [|done]. apply elem_of_app. auto.
           ++ split; [done|]. split; [|done].
              intros [Hin|Hin%list_elem_of_singleton]%elem_of_app; [done|].
              by subst r0.
        -- apply list_elem_of_singleton in Hr0. subst r0. left.
           split; [done|]. split; [|by apply Hrest].
           apply elem_of_app. right. by apply list_elem_of_singleton.
    + destruct (CODON_TO_INDEX !! substring (3 * r) 3 sequence) as [x|] eqn:Hx;
        [|by wp_go].
      wp_read row Hrow. apply py_index_nat in Hrow.
      wp_setitem Hrlen. wp_setitem Hnlen.
      set (s'' := set_tips _ s').
      assert (forall r0, entry s'' n r0
                         = if decide (r0 = r) then Some x else entry s' n r0)
        as Hentry.
      { intros r0. unfold entry. subst s''. cbn.
        rewrite list_lookup_insert_eq by done. cbn. rewrite Hrow. cbn.
        destruct (decide (r0 = r)) as [->|Hne].
        - by rewrite list_lookup_insert_eq.
        - by rewrite list_lookup_insert_ne. }
      split; [subst s''; rewrite Hs'; done|].
      split; [subst s''; cbn; by rewrite length_insert|].
      split; [|split; [|split]].
      * intros n' Hn'. subst s''. cbn. rewrite list_lookup_insert_ne by done.
        by apply Hrows.
      * intros r0 Hr0. apply elem_of_app. left. by apply Hgp.
      * intros r0 Hr0. rewrite Hentry.
        destruct (decide (r0 = r)) as [->|Hne].
        -- exfalso. apply Hr0, elem_of_app. right. by apply list_elem_of_singleton.
        -- apply Hrest. intros Hin. apply Hr0, elem_of_app. auto.
      * intros r0 Hr0. rewrite Hentry.
        destruct (decide (r0 = r)) as [->|Hne].
        -- right. split; [done|]. split; [|by eauto].
           intros Hin. by apply Hfresh, Hgp.
        -- apply elem_of_app in Hr0 as [Hr0|Hr0%list_elem_of_singleton]; [|done].
           by apply Hdone.
  - intros gp s' (Hs' & Hlen & Hrows & Hgp & Hrest & Hdone).
    split; [done|]. split; [done|]. split; [done|].
    intros r Hr. apply Hdone. apply elem_of_seq. lia.
Qed.

(** *** Indexing one node *)

(** The effect of one turn of the loop over the nodes. *)
Lemma index_node_spec alignment_d s n path node :
  wp (index_node alignment_d (n, (path, node)))
     (fun _ s' =>
        reindexed s s' /\
        name_to_nodeindex s' = <[path := n]> (name_to_nodeindex s) /\
        length (tips s') = length (tips s) /\
        (forall n', n' <> n -> tips s' !! n' = tips s !! n') /\
        if is_terminal node then
          (n < ntips s)%nat /\
          rdescend s' = rdescend s /\ ldescend s' = ldescend s /\
          exists head sequence gp,
            name node = Some head /\ alignment_d !! head = Some sequence /\
            gaps s' = gaps s ++ [gp] /\
            forall r, (r < nsites s)%nat ->
              let codon := substring (3 * r) 3 sequence in
              (codon = "---"%string /\ (r ∈ gp) /\
               entry s' n r = entry s n r) \/
              (codon <> "---"%string /\ (r ∉ gp) /\
               exists x, CODON_TO_INDEX !! codon = Some x /\
                         entry s' n r = Some x)
        else
          (ntips s <= n)%nat /\ tips s' = tips s /\ gaps s' = gaps s /\
          length (clades node) = 2%nat /\
          exists nr nl,
            name_to_nodeindex s !! (path ++ [0%nat]) = Some nr /\
            name_to_nodeindex s !! (path ++ [1%nat]) = Some nl /\
            (n - ntips s < length (rdescend s))%nat /\
            (n - ntips s < length (ldescend s))%nat /\
            rdescend s' = <[(n - ntips s)%nat := Z.of_nat nr]> (rdescend s) /\
            ldescend s' = <[(n - ntips s)%nat := Z.of_nat nl]> (ldescend s))
     any s.
Proof.
  unfold index_node. wp_go.
  eapply (wp_post _ (fun _ s1 => exists tv, s1 = set_t tv s)).
  { destruct (decide (path = [])); wp_go.
    - exists (t s). by destruct s.
    - wp_assert Hn. wp_setitem Hlen. by eexists. }
  intros _ ? [tv ->]. wp_go.
  destruct (is_terminal node) eqn:Hterm.
  - wp_assert Hn. apply Nat.ltb_lt in Hn.
    destruct (name node) as [head|] eqn:Hname; [|by wp_go].
    wp_read sequence Hsequence.
    eapply wp_post; [apply (encode_sites_spec (set_t tv s) n sequence)|].
    intros gp s2 (Hs2 & Hlen & Hrows & Hsites).
    remember (tips s2) as tp eqn:Htp in *. clear Htp. subst s2.
    cbn in Hlen, Hrows. wp_go. cbn.
    split; [by destruct s|]. split; [done|]. split; [done|]. split; [done|].
    split; [done|]. split; [done|]. split; [done|].
    exists head, sequence, gp. split; [done|]. split; [done|]. split; [done|].
    exact Hsites.
  - wp_assert Hn. apply Nat.leb_le in Hn. wp_assert Hcl. apply Nat.eqb_eq in Hcl.
    wp_read nr Hnr. wp_setitem Hrlen. wp_read nl Hnl. wp_setitem Hllen. cbn.
    split; [by destruct s|]. split; [done|]. split; [done|]. split; [done|].
    split; [done|]. split; [done|]. split; [done|]. split; [done|].
    exists nr, nl. done.
Qed.

(** *** The loop over the nodes *)

Lemma reindexed_static s s' :
  reindexed s s' ->
  ntips s' = ntips s /\ nsites s' = nsites s /\ nnodes s' = nnodes s /\
  ninternal s' = ninternal s /\ alignment s' = alignment s /\
  tree s' = tree s /\ model s' = model s /\ L s' = L s /\ dL s' = dL s /\
  _paramsarray s' = _paramsarray s /\ calls s' = calls s /\
  _index_to_param s' = _index_to_param s /\ nseqs s' = nseqs s.
Proof. unfold reindexed. intros ->. by repeat split. Qed.

Lemma reindexed_trans s1 s2 s3 :
  reindexed s1 s2 -> reindexed s2 s3 -> reindexed s1 s3.
Proof. unfold reindexed. intros H12 H23. rewrite H23, H12. done. Qed.

Lemma children_insert s s' m n nr nl :
  ntips s' = ntips s -> (ntips s <= m)%nat -> (ntips s <= n)%nat -> m <> n ->
  rdescend s' = <[(n - ntips s)%nat := nr]> (rdescend s) ->
  ldescend s' = <[(n - ntips s)%nat := nl]> (ldescend s) ->
  children s' m = children s m.
Proof.
  intros Hnt Hm Hn Hne Hr Hl. unfold children.
  rewrite Hnt, Hr, Hl, !list_lookup_insert_ne by lia. done.
Qed.

Lemma nodes_loop_spec s0 T I :
  let nodes := T ++ I in
  NoDup (map fst nodes) ->
  Forall (fun pn => is_terminal pn.2 = true) T ->
  Forall (fun pn => is_terminal pn.2 = false) I ->
  name_to_nodeindex s0 = ∅ -> gaps s0 = [] ->
  (forall n r, (n < ntips s0)%nat -> (r < nsites s0)%nat ->
               entry s0 n r = Some 0%nat) ->
  wp (forM_ (enumerate nodes) (index_node (dict_of_pairs (alignment s0))))
     (fun _ s' => nodes_indexed s0 (length T) (enumerate nodes) s') any s0.
Proof.
  intros nodes Hnodup HT HI Hnti0 Hgaps0 Hzero.
  apply (wp_forM_ _ (nodes_indexed s0 (length T))).
  { split; [by destruct s0|]. split.
    { intros path n. rewrite Hnti0, lookup_empty. split; [done|].
      by intros [c ?%elem_of_nil]. }
    split; [done|]. split; [done|]. split; [done|]. split; [done|].
    split; [by intros n path c ?%elem_of_nil|].
    split; [intros m Hm; cbn in Hm; lia|].
    split; [by rewrite Hgaps0|].
    by intros n path c ?%elem_of_nil. }
  intros pre [n [path c]] post s Hen
         (Hre & Hnti & Htlen & Htrows & Hrlen & Hllen & Hterm & Hch & Hglen & Henc).
  destruct (enumerate_middle _ _ _ _ _ Hen) as (Hn & Hnode & Hpre).
  destruct (reindexed_static _ _ Hre)
    as (Hntips & Hnsites & Hnnodes & Hnint & Halign & _).
  assert (forall n' c', (n', (path, c')) ∈ pre -> False) as Hfresh.
  { intros n' c' Hin. destruct (Hpre _ _ Hin) as [Hlt Hn'].
    pose proof (NoDup_lookup _ n' n path Hnodup) as Heq.
    rewrite !list_lookup_fmap, Hn', Hnode in Heq. specialize (Heq eq_refl eq_refl).
    lia. }
  assert (if is_terminal c then (n < length T)%nat else (length T <= n)%nat)
    as Hside.
  { destruct (decide (n < length T)%nat) as [Hlt|Hge].
    - unfold nodes in Hnode. rewrite lookup_app_l in Hnode by done.
      rewrite Forall_forall in HT.
      assert (is_terminal c = true) as ->; [|done].
      apply (HT (path, c)). by eapply list_elem_of_lookup_2.
    - unfold nodes in Hnode. rewrite lookup_app_r in Hnode by lia.
      rewrite Forall_forall in HI.
      assert (is_terminal c = false) as ->; [|lia].
      apply (HI (path, c)). by eapply list_elem_of_lookup_2. }
  eapply wp_post; [rewrite <- Halign; apply index_node_spec|].
  intros _ s' (Hre' & Hnti' & Htlen' & Htrows' & Hbranch).
  rewrite Hntips, Hnsites in Hbranch.
  destruct (reindexed_static _ _ Hre')
    as (Hntips' & Hnsites' & _ & _ & Halign' & _).
  unfold nodes_indexed. rewrite length_app. cbn [length].
  split; [by eapply reindexed_trans|]. split.
  { intros path0 n0. rewrite Hnti'. destruct (decide (path0 = path)) as [->|Hne].
    - rewrite lookup_insert_eq. split.
      + intros [= <-]. exists c. apply elem_of_app. right.
        by apply list_elem_of_singleton.
      + intros [c' Hin]. apply elem_of_app in Hin as [Hin|Hin].
        * by destruct (Hfresh _ _ Hin).
        * apply list_elem_of_singleton in Hin. congruence.
    - rewrite lookup_insert_ne by done. rewrite Hnti. split.
      + intros [c' Hin]. exists c'. apply elem_of_app. auto.
      + intros [c' Hin]. apply elem_of_app in Hin as [Hin|Hin]; [by exists c'|].
        apply list_elem_of_singleton in Hin. congruence. }
  split; [congruence|]. split.
  { intros n0 Hn0. rewrite Htrows' by lia. apply Htrows. lia. }
  destruct (is_terminal c) eqn:Hc.
  - destruct Hbranch as (Hnlt & Hr' & Hl' & head & sequence & gp &
                         Hname & Hseq & Hgaps' & Hsites).
    assert (length (gaps s) = n) as Hglen' by lia.
    split; [congruence|]. split; [congruence|]. split.
    { intros n0 path0 c0 Hin. apply elem_of_app in Hin as [Hin|Hin];
        [by eapply Hterm|].
      apply list_elem_of_singleton in Hin. injection Hin as -> -> ->.
      by rewrite Hc. }
    split.
    { intros m Hm Hm'. assert (m < length pre)%nat as Hlt by lia.
      destruct (Hch m Hlt Hm') as (nr & nl & Hchm & ? & ?).
      exists nr, nl. split; [|done]. rewrite <- Hchm. unfold children.
      by rewrite Hr', Hl', Hntips', Hntips. }
    split; [rewrite Hgaps', length_app; cbn; lia|].
    intros n0 path0 c0 Hin Hc0. apply elem_of_app in Hin as [Hin|Hin].
    + destruct (Henc _ _ _ Hin Hc0) as (head0 & seq0 & Hname0 & Hseq0 & Hsites0).
      exists head0, seq0. split; [done|]. split; [congruence|].
      intros r Hr. rewrite Hnsites', Hnsites in Hr.
      destruct (Hsites0 r) as (gp0 & Hgp0 & Hcases); [lia|].
      destruct (Hpre _ _ Hin) as [Hlt _].
      exists gp0. split.
      * rewrite Hgaps'. rewrite lookup_app_l; [done|]. by eapply lookup_lt_Some.
      * unfold entry in *. rewrite Htrows' by lia. done.
    + apply list_elem_of_singleton in Hin. injection Hin as -> -> ->.
      exists head, sequence. split; [done|]. split; [congruence|].
      intros r Hr. rewrite Hnsites', Hnsites in Hr.
      exists gp. split.
      * rewrite Hgaps'. rewrite lookup_app_r by lia.
        replace (n - length (gaps s))%nat with 0%nat by lia. done.
      * destruct (Hsites r Hr) as [(Hgap & Hin & Hentry)|Hcodon];
          [left|by right].
        split; [done|]. split; [done|]. rewrite Hentry.
        unfold entry. rewrite Htrows by lia. by apply Hzero.
  - destruct Hbranch as (Hnge & Htips' & Hgaps' & Hcl & nr & nl &
                         Hnr & Hnl & Hrlen' & Hllen' & Hr' & Hl').
    split; [rewrite Hr', length_insert; congruence|].
    split; [rewrite Hl', length_insert; congruence|]. split.
    { intros n0 path0 c0 Hin. apply elem_of_app in Hin as [Hin|Hin];
        [by eapply Hterm|].
      apply list_elem_of_singleton in Hin. injection Hin as -> -> ->.
      by rewrite Hc. }
    split.
    { intros m Hm Hm'. destruct (decide (m = n)) as [->|Hne].
      - exists nr, nl. split.
        + unfold children. rewrite Hntips', Hntips, Hr', Hl'.
          rewrite !list_lookup_insert_eq by lia. cbn.
          destruct (Z.leb_spec 0 (Z.of_nat nr)); [|lia].
          destruct (Z.leb_spec 0 (Z.of_nat nl)); [|lia].
          cbn. by rewrite !Nat2Z.id.
        + apply Hnti in Hnr as [cr Hcr]. apply Hnti in Hnl as [cl Hcl'].
          destruct (Hpre _ _ Hcr), (Hpre _ _ Hcl'). lia.
      - assert (m < length pre)%nat as Hlt by lia.
        destruct (Hch m Hlt Hm') as (nr0 & nl0 & Hchm & ? & ?).
        exists nr0, nl0. split; [|done]. rewrite <- Hchm.
        eapply (children_insert s s' m n);
          [congruence | rewrite Hntips; lia | rewrite Hntips; lia | done | | ].
        + by rewrite Hntips.
        + by rewrite Hntips. }
    split; [rewrite Hgaps'; lia|].
    intros n0 path0 c0 Hin Hc0. apply elem_of_app in Hin as [Hin|Hin].
    + destruct (Henc _ _ _ Hin Hc0) as (head0 & seq0 & Hname0 & Hseq0 & Hsites0).
      exists head0, seq0. split; [done|]. split; [congruence|].
      intros r Hr. rewrite Hnsites', Hnsites in Hr.
      destruct (Hsites0 r) as (gp0 & Hgp0 & Hcases); [lia|].
      exists gp0. unfold entry in *. rewrite Hgaps', Htips'. done.
    + apply list_elem_of_singleton in Hin. injection Hin as -> -> ->. congruence.
Qed.

(** *** The flat parameter map *)

Lemma enumerate_snoc {A} (l : list A) x :
  enumerate (l ++ [x]) = enumerate l ++ [(length l, x)].
Proof.
  apply list_eq. intros i. rewrite lookup_enumerate.
  destruct (decide (i < length l)%nat) as [Hlt|Hge].
  - rewrite !lookup_app_l by (rewrite ?length_enumerate; done).
    by rewrite lookup_enumerate.
  - rewrite !lookup_app_r by (rewrite ?length_enumerate; lia).
    rewrite length_enumerate.
    destruct (i - length l)%nat as [|k] eqn:Hk; cbn; [|done].
    by replace i with (length l) by lia.
Qed.

Lemma dict_setitem_enumerate {A} (l : list A) x :
  dict_setitem (length l) x (enumerate l) = enumerate (l ++ [x]).
Proof.
  rewrite enumerate_snoc.
  assert (forall d : list (nat * A),
            (forall kv, kv ∈ d -> kv.1 <> length l) ->
            dict_setitem (length l) x d = d ++ [(length l, x)]) as Hfresh.
  { induction d as [|[k v] d IH]; intros Hd; [done|]. cbn.
    destruct (decide (length l = k)) as [<-|Hne].
    - destruct (Hd (length l, v)); [by left | done].
    - rewrite IH; [done|]. intros kv Hkv. apply Hd. by right. }
  apply Hfresh. intros [k v] Hin. cbn.
  apply list_elem_of_lookup in Hin as [i Hi]. rewrite lookup_enumerate in Hi.
  destruct (l !! i) eqn:Hl; [|done]. injection Hi as <- <-.
  apply lookup_lt_Some in Hl. lia.
Qed.

(** The loop that builds [_index_to_param] touches nothing else and leaves
    the slots of the free parameters, numbered in order. *)
Lemma index_params_spec s :
  _index_to_param s = [] ->
  wp (foldM index_param (freeparams (model s)) 0%nat)
     (fun i s' => s' = set__index_to_param (_index_to_param s') s /\
                  _index_to_param s' = enumerate (flat_slots (model s)) /\
                  i = length (_index_to_param s'))
     any s.
Proof.
  intros Hnil. unfold flat_slots.
  eapply wp_post;
    [apply (wp_foldM _ (fun pre i s' =>
              s' = set__index_to_param (_index_to_param s') s /\
              _index_to_param s' = enumerate (concat (map (slots_of (model s)) pre)) /\
              i = length (concat (map (slots_of (model s)) pre)))) | ].
  - split; [by destruct s|]. by rewrite Hnil.
  - intros pre param post i s' _ (Hs' & Hmap & ->).
    unfold index_param. wp_go.
    assert (model s' = model s) as Hm by (by rewrite Hs').
    rewrite map_app, concat_app. cbn [map concat]. rewrite app_nil_r.
    unfold slots_of at 3 5 7. rewrite Hm.
    destruct (getattr (model s) param) as [[x|a|y|]|];
      [| |by wp_go|by wp_go|by wp_go].
    + wp_go. cbn [_index_to_param set__index_to_param].
      rewrite Hmap, dict_setitem_enumerate.
      split; [by rewrite Hs'|]. split; [done|].
      rewrite length_app. cbn. lia.
    + set (slots := concat (map (slots_of (model s)) pre)) in *.
      eapply wp_post;
        [apply (wp_foldM _ (fun done i s'' =>
                  s'' = set__index_to_param (_index_to_param s'') s /\
                  _index_to_param s''
                  = enumerate (slots ++ map (Component param)
                                            (seq 0 (length done))) /\
                  i = length (slots ++ map (Component param)
                                           (seq 0 (length done))))) | ].
      * cbn. by rewrite app_nil_r.
      * intros done [pindex pvalue] rest i' s'' Hen (Hs'' & Hmap' & ->).
        destruct (enumerate_middle _ _ _ _ _ Hen) as (-> & _ & _).
        wp_go. cbn [_index_to_param set__index_to_param].
        rewrite Hmap', dict_setitem_enumerate.
        rewrite length_app, seq_app, map_app, !app_assoc. cbn.
        split; [by rewrite Hs''|]. split; [done|].
        rewrite !length_app. cbn. lia.
      * intros i' s'' (Hs'' & Hmap' & ->).
        rewrite length_enumerate in Hmap' |- *. done.
  - intros i s' (Hs' & Hmap & ->). split; [done|]. split; [done|].
    by rewrite Hmap, length_enumerate.
Qed.

(** *** Tips first, then internal nodes *)

Lemma filter_partition {A} (f : A -> bool) (l : list A) :
  List.filter f l ++ List.filter (fun x => negb (f x)) l ≡ₚ l.
Proof.
  induction l as [|x l IH]; [done|]. cbn.
  destruct (f x); cbn.
  - by rewrite IH.
  - by rewrite <- Permutation_middle, IH.
Qed.

Lemma filter_Forall {A} (f : A -> bool) (l : list A) :
  Forall (fun x => f x = true) (List.filter f l).
Proof.
  apply Forall_forall. intros x Hx. apply list_elem_of_In in Hx.
  by apply filter_In in Hx as [_ ?].
Qed.

Lemma elem_of_enumerate {A} (l : list A) n x :
  (n, x) ∈ enumerate l <-> l !! n = Some x.
Proof.
  split.
  - intros [i Hi]%list_elem_of_lookup. rewrite lookup_enumerate in Hi.
    destruct (l !! i) eqn:Hl; [|done]. by injection Hi as <- <-.
  - intros Hl. apply list_elem_of_lookup. exists n.
    by rewrite lookup_enumerate, Hl.
Qed.

(** The list the loop runs over ends with the root. *)
Lemma nodes_last (tree : Clade) :
  let post := postorder [] tree in
  let T := List.filter (fun pn => is_terminal pn.2) post in
  let I := List.filter (fun pn => negb (is_terminal pn.2)) post in
  last (T ++ I) = Some ([], tree).
Proof.
  intros post T I. subst post T I. rewrite postorder_eq.
  destruct tree as [nm b [|ch cs]].
  - done.
  - rewrite !List.filter_app. cbn [List.filter snd is_terminal clades negb].
    rewrite app_assoc. apply last_snoc.
Qed.

(** What the loop over the nodes establishes. *)
Lemma nodes_indexed_final s0 s1 :
  let post := postorder [] (tree s0) in
  let T := List.filter (fun pn => is_terminal pn.2) post in
  let I := List.filter (fun pn => negb (is_terminal pn.2)) post in
  nodes_indexed s0 (length T) (enumerate (T ++ I)) s1 ->
  nnodes s0 = length post -> nnodes s0 = (ntips s0 + ninternal s0)%nat ->
  indexing_holds s1 /\ encoding_holds s1.
Proof.
  intros post T I
         (Hre & Hnti & Htlen & Htrows & Hrlen & Hllen & Hterm & Hch & Hglen & Henc)
         Hnn Hsum.
  destruct (reindexed_static _ _ Hre)
    as (Hntips & Hnsites & Hnnodes & Hnint & Halign & Htree & _).
  assert (T ++ I ≡ₚ post) as Hperm by apply filter_partition.
  assert (length (T ++ I) = nnodes s0) as Hlen by (by rewrite Hperm).
  assert (forall path c, (path, c) ∈ T ++ I <-> node_at (tree s0) path = Some c)
    as Hnodes.
  { intros path c. rewrite Hperm. unfold post. rewrite elem_of_postorder.
    split; [by intros (rel & -> & ?) | intros ?; by exists path]. }
  assert (forall path c,
            node_at (tree s0) path = Some c ->
            exists n, name_to_nodeindex s1 !! path = Some n /\
                      (n, (path, c)) ∈ enumerate (T ++ I)) as Hindex.
  { intros path c Hc. apply Hnodes in Hc.
    apply list_elem_of_lookup in Hc as [n Hn]. exists n.
    apply elem_of_enumerate in Hn. split; [|done]. apply Hnti. by exists c. }
  assert (forall path c n,
            node_at (tree s0) path = Some c ->
            name_to_nodeindex s1 !! path = Some n ->
            (n, (path, c)) ∈ enumerate (T ++ I)) as Hunique.
  { intros path c n Hc Hn. apply Hnti in Hn as [c' Hin].
    pose proof Hin as Hin'. apply elem_of_enumerate in Hin'.
    apply list_elem_of_lookup_2, Hnodes in Hin'. congruence. }
  split; [split; [|split; [|split]]|].
  - intros path c Hc. rewrite Htree in Hc.
    destruct (Hindex path c Hc) as (n & Hn & Hin). exists n. split; [done|].
    rewrite Hnnodes, Hntips. split.
    + apply elem_of_enumerate, lookup_lt_Some in Hin. lia.
    + by apply (Hterm n path c).
  - split.
    + intros n Hn. rewrite Hnnodes, <- Hlen in Hn.
      apply lookup_lt_is_Some in Hn as [[path c] Hpc].
      exists path, c. rewrite Htree. split.
      * by apply Hnodes, list_elem_of_lookup_2 with n.
      * apply Hnti. exists c. by apply elem_of_enumerate.
    + intros path path' n [c Hin]%Hnti [c' Hin']%Hnti.
      apply elem_of_enumerate in Hin, Hin'. congruence.
  - apply Hnti. exists (tree s0). apply elem_of_enumerate.
    pose proof (nodes_last (tree s0)) as Hlast. cbn zeta in Hlast.
    rewrite last_lookup in Hlast. fold post T I in Hlast.
    rewrite Hlen in Hlast. rewrite Hnnodes. rewrite <- Hlast. f_equal. lia.
  - split; [congruence|]. intros m Hm. rewrite Hntips, Hnnodes in Hm.
    apply Hch; [|lia]. rewrite length_enumerate. lia.
  - intros path c n Hc Hterm' Hn. rewrite Htree in Hc.
    pose proof (Hunique path c n Hc Hn) as Hin. split.
    + specialize (Hterm n path c Hin). rewrite Hterm' in Hterm. by rewrite Hntips.
    + by apply (Henc n path c).
Qed.

(** *** Properties of the structure alone *)

Lemma rebuild_structure s s' :
  structure s = structure s' ->
  s' = set_model (model s')
         (set_L (L s')
            (set_dL (dL s')
               (set__paramsarray (_paramsarray s')
                  (set_siteloglik (siteloglik s')
                     (set_loglik (loglik s')
                        (set_dsiteloglik (dsiteloglik s')
                           (set_dloglik (dloglik s')
                              (set_calls (calls s') s)))))))).
Proof. destruct s, s'. unfold structure. cbn. intros [=]. by subst. Qed.

Lemma indexing_holds_structure s s' :
  structure s = structure s' -> indexing_holds s -> indexing_holds s'.
Proof. intros Hs H. rewrite (rebuild_structure s s' Hs). exact H. Qed.

Lemma encoding_holds_structure s s' :
  structure s = structure s' -> encoding_holds s -> encoding_holds s'.
Proof. intros Hs H. rewrite (rebuild_structure s s' Hs). exact H. Qed.

(** *** The constructor *)

Lemma init_body_spec tree0 alignment0 m0 :
  wp init_body
     (fun _ self =>
        tree self = tree0 /\ alignment self = alignment0 /\ model self = m0 /\
        nsites self = model_nsites m0 /\
        alignment_checked self /\
        indexing_holds self /\ encoding_holds self /\
        _index_to_param self = enumerate (flat_slots m0) /\
        _paramsarray self = None /\ calls self = [UpdateInternals] /\
        length (L self) = ninternal self /\
        (forall m, (ntips self <= m < nnodes self)%nat -> node_holds self m) /\
        root_holds self)
     any (allocated tree0 alignment0 m0).
Proof.
  unfold init_body. wp_go.
  set (sa := allocated tree0 alignment0 m0).
  wp_assert Hlens. wp_assert Hnames. wp_assert Hcount.
  eapply wp_post;
    [apply (wp_forM_ _ (fun _ s' => exists d, s' = set_dL d sa)) | ].
  { by exists ∅. }
  { intros pre param post ? _ [d ->]. unfold allocate_dL. wp_go.
    destruct (getattr (model _) param) as [[?|?|?|]|]; wp_go; by eexists. }
  intros _ ? [d ->]. wp_go.
  set (s0 := set_dL d sa).
  set (post := postorder [] tree0).
  set (T := List.filter (fun pn => is_terminal pn.2) post).
  set (I := List.filter (fun pn => negb (is_terminal pn.2)) post).
  assert (nnodes s0 = length post) as Hnn.
  { cbn. unfold count_terminals, get_terminals, get_nonterminals.
    pose proof (filter_partition is_terminal (map snd (preorder [] tree0))) as Hp.
    apply Permutation_length in Hp. rewrite length_app in Hp.
    rewrite Hp, length_map. unfold post. by rewrite length_postorder_preorder. }
  eapply wp_post; [apply (nodes_loop_spec s0 T I)|].
  { assert (map fst (T ++ I) ≡ₚ map fst post) as Hp
      by apply Permutation_map,
               (filter_partition (fun pn : list nat * Clade => is_terminal pn.2)).
    rewrite Hp. apply NoDup_postorder. }
  { apply (filter_Forall (fun pn => is_terminal pn.2)). }
  { eapply Forall_impl;
      [apply (filter_Forall (fun pn => negb (is_terminal pn.2)))|].
    intros pn. cbn. by destruct (is_terminal pn.2). }
  { done. }
  { done. }
  { intros n r Hn Hr. unfold entry. cbn.
    rewrite lookup_replicate_2 by done. cbn. by rewrite lookup_replicate_2. }
  intros ? s1 Hindexed. cbn beta in Hindexed.
  destruct (nodes_indexed_final s0 s1 Hindexed Hnn eq_refl) as [Hix Henc].
  destruct Hindexed as (Hre & _).
  destruct (reindexed_static _ _ Hre)
    as (Hntips & Hnsites & Hnnodes & Hnint & Halign & Htree & Hmodel & HL & HdL &
        Hpa & Hcalls & Hitp & Hnseqs).
  wp_assert Hgaps.
  eapply wp_post.
  { apply index_params_spec. by rewrite Hitp. }
  intros i s2 (Hs2 & Hslots & ->). wp_go.
  set (s3 := set__param_to_index _ s2).
  wp_assert Hi.
  assert (indexing_holds s3 /\ encoding_holds s3) as [Hix3 Henc3].
  { subst s3. generalize (foldl (fun d xy => dict_setitem xy.2 xy.1 d) []
                                (_index_to_param s2)). intros pti.
    rewrite Hs2. split; [exact Hix | exact Henc]. }
  assert (structure s3 = structure (set__param_to_index (_param_to_index s3)
                                      (set__index_to_param (_index_to_param s3) s1)))
    as Hs3 by (subst s3; rewrite Hs2; done).
  eapply wp_post.
  { apply (updateInternals_spec s3).
    - by destruct Hix3 as (_ & _ & _ & ?).
    - subst s3. rewrite Hs2. cbn. rewrite HL. cbn. unfold full3.
      rewrite length_replicate. by rewrite Hnint. }
  intros _ self (Hst & Hmo & Hpa' & Hca & HlenL & Hnodes & Hroot).
  assert (tree self = tree0 /\ alignment self = alignment0 /\
          nsites self = model_nsites m0 /\
          _index_to_param self = _index_to_param s2) as (Ht & Ha & Hns & Hip).
  { rewrite (rebuild_structure s3 self (eq_sym Hst)). subst s3. rewrite Hs2. cbn.
    rewrite Htree, Halign, Hnsites. done. }
  split; [done|]. split; [done|].
  split; [rewrite Hmo; subst s3; rewrite Hs2; cbn; by rewrite Hmodel|].
  split; [done|]. split.
  { unfold alignment_checked. rewrite Ht, Ha, Hns.
    rewrite forallb_forall in Hlens. split; [|split].
    - intros head sequence Hin. apply list_elem_of_In in Hin.
      specialize (Hlens _ Hin). cbn in Hlens. by apply Nat.eqb_eq.
    - apply bool_decide_eq_true in Hnames. intros head.
      assert (Some head ∈ (list_to_set (map (fun hs : string * string => Some hs.1)
                                            alignment0) : gset (option string))
              <-> exists sequence, (head, sequence) ∈ alignment0) as <-.
      { rewrite elem_of_list_to_set, list_elem_of_fmap. split.
        - intros ([h sq] & [= ->] & Hin). by exists sq.
        - intros [sq Hin]. by exists (head, sq). }
      cbn in Hnames. rewrite Hnames.
      rewrite elem_of_list_to_set, list_elem_of_fmap. split.
      + intros (c & Hc & Hin). by exists c.
      + intros (c & Hin & Hc). by exists c.
    - apply Nat.eqb_eq in Hcount. exact Hcount. }
  split; [by apply (indexing_holds_structure s3)|].
  split; [by apply (encoding_holds_structure s3)|].
  split.
  { by rewrite Hip, Hslots, Hmodel. }
  split; [rewrite Hpa'; subst s3; rewrite Hs2; cbn; by rewrite Hpa|].
  split; [rewrite Hca; subst s3; rewrite Hs2; cbn; by rewrite Hcalls|].
  done.
Qed.

End Construction.
End ConstructionFacts.

(** ** The update protocol *)

Module ProtocolFacts.
Import TreeLik TreeFacts TreeLikFacts ConstructionFacts.

Section Protocol.
Context `{FL : Float} `{MO : !ModelOps} `{CO : Constants}.
Implicit Types (s self : TreeLikelihood).

(** *** Properties carried by the structure or by the tables *)

Lemma alignment_checked_structure s s' :
  structure s = structure s' -> alignment_checked s -> alignment_checked s'.
Proof. intros Hs H. rewrite (rebuild_structure s s' Hs). exact H. Qed.

Lemma structure_flat s s' :
  structure s = structure s' ->
  tree s = tree s' /\ alignment s = alignment s' /\ nsites s = nsites s' /\
  _index_to_param s = _index_to_param s'.
Proof. unfold structure. intros [=]. by repeat split. Qed.

Lemma consistent_tables s s' :
  structure s = structure s' -> model s = model s' ->
  L s = L s' -> dL s = dL s' ->
  siteloglik s = siteloglik s' -> loglik s = loglik s' ->
  consistent s -> consistent s'.
Proof.
  intros Hs Hm HL Hd Hsl Hll (Hlen & Hnodes & Hroot).
  destruct (structure_sizes _ _ Hs) as (Hnt & Hnn & Hni).
  split; [congruence|]. split.
  - intros m Hm'. apply (node_holds_tables s s'); try done. apply Hnodes. lia.
  - destruct Hroot as (Lroot & HLroot & Hsites & Hlen' & Hlog).
    exists Lroot. rewrite <- Hnn, <- Hnt, <- HL, <- Hm, <- Hsl, <- Hll. done.
Qed.

(** *** [updateParams] *)

Lemma updateParams_spec s newvalues :
  children_below s -> consistent s -> cache_sized s ->
  wp (updateParams newvalues)
     (fun _ s' => structure s' = structure s /\ consistent s' /\ cache_sized s')
     any s.
Proof.
  intros Hcb Hcons Hcache. unfold updateParams. wp_go.
  set (modelparams := filter _ newvalues).
  set (otherparams := filter _ newvalues).
  eapply (wp_post _ (fun _ s1 =>
            structure s1 = structure s /\ L s1 = L s /\
            _paramsarray s1 = _paramsarray s /\
            (newvalues = ∅ -> s1 = s))).
  { destruct (decide (modelparams = ∅)) as [Hm|Hm]; wp_go; [done|].
    apply wp_zoom. unfold wp.
    destruct (model_updateParams modelparams _) as [[] m'|x m']; [|done].
    cbn. split; [done|]. split; [done|]. split; [done|].
    intros ->. destruct Hm. apply map_filter_empty. }
  intros _ s1 (Hs1 & HL1 & Hpa1 & Hsame). wp_go.
  destruct (decide (otherparams = ∅)) as [_|_]; wp_go.
  destruct (decide (newvalues = ∅)) as [Hnv|Hnv]; wp_go.
  - rewrite (Hsame Hnv). done.
  - eapply wp_post.
    { apply (updateInternals_spec s1).
      + by apply (children_below_structure s s1).
      + destruct Hcons as (Hlen & _).
        destruct (structure_sizes _ _ Hs1) as (_ & _ & Hni). congruence. }
    intros _ s2 (Hs2 & Hm2 & Hpa2 & Hca2 & Hlen2 & Hnodes2 & Hroot2).
    wp_go. split; [change (structure s2 = structure s); congruence|].
    split; [|by intros a Ha].
    by apply (consistent_tables s2).
Qed.

(** *** The property [paramsarray] *)

Lemma paramsarray_spec s :
  cache_sized s ->
  wp paramsarray
     (fun a s' => s' = set__paramsarray (Some a) s /\
                  length a = length (_index_to_param s))
     any s.
Proof.
  intros Hcache. unfold paramsarray. wp_go.
  destruct (_paramsarray s) as [a|] eqn:Hpa.
  - wp_go. split; [|by apply Hcache].
    destruct s. cbn in *. by subst.
  - wp_go.
    eapply wp_post;
      [apply (wp_foldM _ (fun _ a s' =>
                s' = set__paramsarray (Some a) s /\
                length a = length (_index_to_param s))) | ].
    + split; [done|]. by rewrite length_replicate.
    + intros pre [i param] post a s' _ (-> & Hlen). wp_go.
      wp_read v Hv. wp_setitem Hi. split; [done|]. by rewrite length_insert.
    + done.
Qed.

(** *** The setter of [paramsarray] *)

Lemma collect_frame s value items acc :
  wp (foldM (collect value) items acc) (fun _ s' => s' = s) any s.
Proof.
  eapply wp_post; [apply (wp_foldM _ (fun _ _ s' => s' = s)) | done]; [done|].
  intros pre [i param] post [newvalues vectorized_params] ? _ ->.
  unfold collect. wp_read x Hx.
  destruct param as [p|p pindex]; [by wp_go|].
  destruct (vectorized_params !! p); [|by wp_go].
  wp_assert Hfree. done.
Qed.

Lemma assemble_frame s items acc :
  wp (foldM assemble items acc) (fun _ s' => s' = s) any s.
Proof.
  eapply wp_post; [apply (wp_foldM _ (fun _ _ s' => s' = s)) | done]; [done|].
  intros pre [param paramd] post newvalues ? _ ->.
  unfold assemble. wp_assert Hdom.
  eapply wp_post; [apply (wp_foldM _ (fun _ _ s' => s' = s)) | ]; [done| |].
  - intros pre' i post' a ? _ ->. wp_read x Hx. done.
  - intros a ? ->. by wp_go.
Qed.

Lemma set_paramsarray_spec s value :
  children_below s -> consistent s -> cache_sized s ->
  wp (set_paramsarray value)
     (fun _ s' => structure s' = structure s /\ consistent s' /\ cache_sized s')
     any s.
Proof.
  intros Hcb Hcons Hcache. unfold set_paramsarray. wp_go. wp_assert Hlen.
  eapply (wp_post _ (fun _ s' => s' = s)).
  { destruct (_paramsarray s); [|by wp_go]. by wp_read b Hb. }
  intros unchanged ? ->. destruct unchanged; wp_go; [done|].
  eapply wp_post; [apply collect_frame|].
  intros [newvalues vectorized_params] ? ->. wp_go.
  eapply wp_post; [apply assemble_frame|].
  intros newvalues' ? ->. wp_go.
  eapply wp_post; [by apply updateParams_spec|].
  intros _ s1 (Hs1 & Hcons1 & Hcache1). wp_go.
  eapply wp_post; [by apply paramsarray_spec|].
  intros a s2 (-> & Hlen2). wp_go. cbn.
  split; [done|]. split; [exact Hcons1|].
  intros a' [= <-]. exact Hlen2.
Qed.

End Protocol.
End ProtocolFacts.

(** ** What the methods leave alone *)

Module FrameFacts.
Import TreeLik TreeFacts TreeLikFacts ConstructionFacts ProtocolFacts.

Section EngineFrames.
Context `{FL : Float} `{MO : !ModelOps} `{CO : Constants}.
Implicit Types (s self : TreeLikelihood).

Lemma descend_reads nd tn : reads (descend nd tn).
Proof.
  unfold descend. apply reads_bind; [apply reads_get|]. intros self.
  destruct (nd <? Z.of_nat (ntips self)); reads_go.
Qed.

Lemma dterms_reads param j nd : reads (dterms param j nd).
Proof.
  unfold dterms. destruct nd as [[tn codons gp Mn|tn ni Mn] [dMn|dMn]]; reads_go.
Qed.

Lemma computeDerivative_keeps ni MLright MLleft param dMright dMleft j :
  keeps (same beside_tables)
        (computeDerivative ni MLright MLleft param dMright dMleft j).
Proof.
  unfold computeDerivative. keeps_go.
  - apply keeps_reads, dterms_reads; apply _.
  - destruct a as [dMLright MdLright]. keeps_go.
    + apply keeps_reads, dterms_reads; apply _.
    + destruct a as [dMLleft MdLleft]. keeps_go. by apply keeps_modify.
Qed.

Lemma computeDerivatives_keeps ni Dright Dleft MLright MLleft param :
  keeps (same beside_tables)
        (computeDerivatives ni Dright Dleft MLright MLleft param).
Proof.
  unfold computeDerivatives. keeps_go. cbv zeta.
  apply keeps_forM_; [apply _|]. intros j _. apply computeDerivative_keeps.
Qed.

Lemma computeNode_keeps n : keeps (same beside_tables) (computeNode n).
Proof.
  unfold computeNode. keeps_go. cbv zeta. keeps_go.
  - apply keeps_reads, descend_reads; apply _.
  - destruct a4 as [Dright MLright]. keeps_go.
    + apply keeps_reads, descend_reads; apply _.
    + destruct a4 as [Dleft MLleft]. keeps_go; [by apply keeps_modify|].
      apply keeps_forM_; [apply _|]. intros p _. apply computeDerivatives_keeps.
Qed.

(** The kernel writes the tables [L] and [dL] and nothing else, also when
    it raises. *)
Lemma computePartialLikelihoods_keeps :
  keeps (same beside_tables) _computePartialLikelihoods.
Proof.
  unfold _computePartialLikelihoods. keeps_go.
  apply keeps_forM_; [apply _|]. intros n _. apply computeNode_keeps.
Qed.

Lemma beside_tables_inputs s s' :
  same beside_tables s s' -> same inputs s s'.
Proof.
  unfold same, inputs. intros H. symmetry in H.
  apply beside_tables_parts in H as (? & ? & ? & _ & _ & _ & _ & ?). congruence.
Qed.

(** Past its first step, [_updateInternals] leaves the inputs alone. *)
Lemma updateInternals_keeps s :
  same inputs (set_calls (calls s ++ [UpdateInternals]) s)
       (final (_updateInternals s)).
Proof.
  unfold _updateInternals.
  apply (keeps_after_modify (same inputs)
           (fun self => set_calls (calls self ++ [UpdateInternals]) self)).
  apply keeps_bind; [apply _ | |].
  { intros s1. apply beside_tables_inputs, computePartialLikelihoods_keeps. }
  intros _. keeps_go; try (by apply keeps_modify).
  apply keeps_forM_; [apply _|]. intros p _.
  keeps_go; by apply keeps_modify.
Qed.

Lemma inputs_parts s s' :
  inputs s' = inputs s ->
  structure s' = structure s /\ model s' = model s /\
  _paramsarray s' = _paramsarray s /\ calls s' = calls s.
Proof.
  unfold inputs. generalize (structure s), (structure s').
  intros a b [=]. by repeat split.
Qed.

Lemma beside_cache_parts s s' :
  beside_cache s' = beside_cache s ->
  structure s' = structure s /\ model s' = model s /\
  cached s' = cached s /\ calls s' = calls s.
Proof.
  unfold beside_cache. generalize (structure s), (structure s'), (cached s), (cached s').
  intros a b c d [=]. by repeat split.
Qed.

Lemma updateInternals_keeps_structure :
  keeps (same structure) _updateInternals.
Proof.
  intros s. by destruct (inputs_parts _ _ (updateInternals_keeps s)) as (? & _).
Qed.

Lemma updateParams_keeps_structure newvalues :
  keeps (same structure) (updateParams newvalues).
Proof.
  unfold updateParams. keeps_go. cbv zeta. keeps_go.
  - destruct (decide _); keeps_go; [by apply keeps_modify|].
    intros s. unfold zoom. by destruct (model_updateParams _ _).
  - destruct (decide _); keeps_go.
  - destruct (decide _); keeps_go; [|by apply keeps_modify].
    apply updateInternals_keeps_structure.
Qed.

(** Reading [paramsarray] writes the cached flat array and nothing
    else. *)
Lemma paramsarray_keeps : keeps (same beside_cache) paramsarray.
Proof.
  unfold paramsarray. keeps_go.
  destruct (_paramsarray a); keeps_go; [by apply keeps_modify|].
  apply keeps_foldM; [apply _|]. intros a' [i param] _.
  keeps_go. by apply keeps_modify.
Qed.

Lemma collect_reads value acc item : reads (collect value acc item).
Proof.
  unfold collect. destruct acc as [newvalues vectorized_params].
  destruct item as [i [p|p pindex]]; reads_go.
  destruct (vectorized_params !! p); reads_go.
Qed.

Lemma assemble_reads newvalues item : reads (assemble newvalues item).
Proof.
  unfold assemble. destruct item as [param paramd]. reads_go.
  apply reads_foldM. intros a' i. reads_go.
Qed.

Lemma set_paramsarray_keeps_structure value :
  keeps (same structure) (set_paramsarray value).
Proof.
  unfold set_paramsarray. keeps_go. cbv zeta. keeps_go.
  - destruct (_paramsarray a); keeps_go.
  - destruct a1; keeps_go.
    + apply keeps_reads; [apply _|]. apply reads_foldM. intros. apply collect_reads.
    + destruct a1 as [newvalues vectorized_params]. keeps_go.
      * apply keeps_reads; [apply _|]. apply reads_foldM. intros.
        apply assemble_reads.
      * apply updateParams_keeps_structure.
      * intros s. by destruct (beside_cache_parts _ _ (paramsarray_keeps s)) as (? & _).
      * by apply keeps_modify.
Qed.

Lemma paramsarraybounds_reads : reads paramsarraybounds.
Proof.
  unfold paramsarraybounds. reads_go.
  apply reads_foldM. intros bounds [i param]. reads_go.
Qed.

Lemma dloglikarray_reads : reads dloglikarray.
Proof.
  unfold dloglikarray. reads_go. cbv zeta.
  apply reads_foldM. intros a' [i param]. reads_go.
Qed.

End EngineFrames.
End FrameFacts.

(** ** More on construction *)

Module ConstructionMore.
Import TreeLik TreeFacts TreeLikFacts ConstructionFacts ProtocolFacts FrameFacts.

Section Construction.
Context `{FL : Float} `{MO : !ModelOps} `{CO : Constants}.
Implicit Types (s self : TreeLikelihood) (path : list nat).

(** *** The gaps of one tip *)

Lemma filter_snoc {A} (f : A -> bool) (l : list A) x :
  List.filter f (l ++ [x]) = List.filter f l ++ (if f x then [x] else []).
Proof. rewrite List.filter_app. done. Qed.

(** The loop over the sites of a tip returns the gap sites in order, and
    keeps the length of every row of [tips]. *)
Lemma encode_sites_writes s n sequence :
  wp (foldM (encode_site n sequence) (seq 0 (nsites s)) [])
     (fun gp s' =>
        gp = gap_sites (nsites s) sequence /\
        forall n' row, tips s' !! n' = Some row ->
          exists row0, tips s !! n' = Some row0 /\ length row = length row0)
     any s.
Proof.
  set (gap := fun r => bool_decide (substring (3 * r) 3 sequence = "---"%string)).
  eapply wp_post;
    [apply (wp_foldM _ (fun pre gp s' =>
              gp = List.filter gap pre /\
              forall n' row, tips s' !! n' = Some row ->
                exists row0, tips s !! n' = Some row0 /\ length row = length row0)) | ].
  - split; [done|]. intros n' row Hrow. by exists row.
  - intros pre r post gp s' _ (-> & Hrows). unfold encode_site.
    rewrite filter_snoc.
    destruct (decide (substring (3 * r) 3 sequence = "---"%string)) as [Hgap|Hgap].
    + assert (gap r = true) as -> by (by apply bool_decide_eq_true_2).
      by wp_go.
    + assert (gap r = false) as -> by (by apply bool_decide_eq_false_2).
      rewrite app_nil_r.
      destruct (CODON_TO_INDEX !! substring (3 * r) 3 sequence) as [x|];
        [|by wp_go].
      wp_read row Hrow. apply py_index_nat in Hrow.
      wp_setitem Hrlen. wp_setitem Hnlen. split; [done|].
      intros n' row' Hrow'. cbn in Hrow'.
      destruct (decide (n' = n)) as [->|Hne].
      * rewrite list_lookup_insert_eq in Hrow' by done. injection Hrow' as <-.
        destruct (Hrows n row Hrow) as (row0 & Hrow0 & Hlen).
        exists row0. split; [done|]. by rewrite length_insert.
      * rewrite list_lookup_insert_ne in Hrow' by done. by apply Hrows.
  - intros gp s' (-> & Hrows). done.
Qed.

(** *** One turn of the loop over the nodes *)

Lemma index_node_writes alignment_d s n path node :
  wp (index_node alignment_d (n, (path, node)))
     (fun _ s' =>
        length (t s') = length (t s) /\
        (forall n', n' <> n -> t s' !! n' = t s !! n') /\
        (path <> [] -> t s' !! n = Some (branch_length node)) /\
        (forall n' row, tips s' !! n' = Some row ->
           exists row0, tips s !! n' = Some row0 /\ length row = length row0) /\
        (is_terminal node = true ->
           exists head sequence,
             name node = Some head /\ alignment_d !! head = Some sequence /\
             gaps s' = gaps s ++ [gap_sites (nsites s) sequence]))
     any s.
Proof.
  unfold index_node. wp_go.
  eapply (wp_post _ (fun _ s1 =>
            exists tv, s1 = set_t tv s /\ length tv = length (t s) /\
                       (forall n', n' <> n -> tv !! n' = t s !! n') /\
                       (path <> [] -> tv !! n = Some (branch_length node)))).
  { destruct (decide (path = [])); wp_go.
    - exists (t s). split; [by destruct s|]. done.
    - wp_assert Hn. wp_setitem Hlen. eexists. split; [done|].
      split; [by rewrite length_insert|]. split.
      + intros n' Hn'. by rewrite list_lookup_insert_ne.
      + intros _. by rewrite list_lookup_insert_eq. }
  intros _ ? (tv & -> & Htlen & Htrest & Htn). wp_go.
  destruct (is_terminal node) eqn:Hterm.
  - wp_assert Hn.
    destruct (name node) as [head|] eqn:Hname; [|by wp_go].
    wp_read sequence Hsequence.
    eapply wp_post;
      [apply wp_both;
         [apply (encode_sites_spec (set_t tv s) n sequence)
         |apply (encode_sites_writes (set_t tv s) n sequence)] | ].
    intros gp s2 [(Hs2 & _) (-> & Hrows)].
    remember (tips s2) as tp eqn:Htp in *. clear Htp. subst s2.
    cbn in Hrows. wp_go. cbn.
    split; [done|]. split; [done|]. split; [done|]. split; [done|].
    intros _. by exists head, sequence.
  - wp_assert Hn. wp_assert Hcl.
    wp_read nr Hnr. wp_setitem Hrlen. wp_read nl Hnl. wp_setitem Hllen. cbn.
    split; [done|]. split; [done|]. split; [done|].
    split; [|done]. intros n' row Hrow. by exists row.
Qed.

(** *** The loop over the nodes *)

Lemma nodes_loop_writes s0 T I :
  let nodes := T ++ I in
  NoDup (map fst nodes) ->
  Forall (fun pn => is_terminal pn.2 = true) T ->
  Forall (fun pn => is_terminal pn.2 = false) I ->
  name_to_nodeindex s0 = ∅ -> gaps s0 = [] ->
  wp (forM_ (enumerate nodes) (index_node (dict_of_pairs (alignment s0))))
     (fun _ s' => nodes_written s0 (dict_of_pairs (alignment s0)) (length T)
                                (enumerate nodes) s')
     any s0.
Proof.
  intros nodes Hnodup HT HI Hnti0 Hgaps0.
  apply (wp_forM_ _ (nodes_written s0 (dict_of_pairs (alignment s0)) (length T))).
  { split; [by destruct s0|]. split.
    { intros path n. rewrite Hnti0, lookup_empty. split; [done|].
      by intros [c ?%elem_of_nil]. }
    do 4 (split; [done|]).
    split; [intros n row Hrow; by exists row|].
    split; [by intros n path c ?%elem_of_nil|].
    split; [by intros n path c ?%elem_of_nil|].
    split; [by rewrite Hgaps0|].
    by intros n path c ?%elem_of_nil. }
  intros pre [n [path c]] post s Hen
         (Hre & Hnti & Htlen & Hrlen & Hllen & Htips & Hrows & Ht & Hgaps & Hglen & Hch).
  destruct (enumerate_middle _ _ _ _ _ Hen) as (Hn & Hnode & Hpre).
  destruct (reindexed_static _ _ Hre)
    as (Hntips & Hnsites & Hnnodes & Hnint & Halign & _).
  assert (forall n' c', (n', (path, c')) ∈ pre -> False) as Hfresh.
  { intros n' c' Hin. destruct (Hpre _ _ Hin) as [Hlt Hn'].
    pose proof (NoDup_lookup _ n' n path Hnodup) as Heq.
    rewrite !list_lookup_fmap, Hn', Hnode in Heq. specialize (Heq eq_refl eq_refl).
    lia. }
  assert (if is_terminal c then (n < length T)%nat else (length T <= n)%nat)
    as Hside.
  { destruct (decide (n < length T)%nat) as [Hlt|Hge].
    - unfold nodes in Hnode. rewrite lookup_app_l in Hnode by done.
      rewrite Forall_forall in HT.
      assert (is_terminal c = true) as ->; [|done].
      apply (HT (path, c)). by eapply list_elem_of_lookup_2.
    - unfold nodes in Hnode. rewrite lookup_app_r in Hnode by lia.
      rewrite Forall_forall in HI.
      assert (is_terminal c = false) as ->; [|lia].
      apply (HI (path, c)). by eapply list_elem_of_lookup_2. }
  eapply wp_post;
    [apply wp_both; [rewrite <- Halign; apply index_node_spec
                    |apply index_node_writes] | ].
  intros _ s' [(Hre' & Hnti' & Htlen' & Htrows' & Hbranch)
               (Htl & Htrest & Htn & Hrows' & Hgp)].
  rewrite Hntips in Hbranch. rewrite Hnsites in Hgp.
  unfold nodes_written. rewrite length_app. cbn [length].
  split; [by eapply reindexed_trans|]. split.
  { intros path0 n0. rewrite Hnti'. destruct (decide (path0 = path)) as [->|Hne].
    - rewrite lookup_insert_eq. split.
      + intros [= <-]. exists c. apply elem_of_app. right.
        by apply list_elem_of_singleton.
      + intros [c' Hin]. apply elem_of_app in Hin as [Hin|Hin].
        * by destruct (Hfresh _ _ Hin).
        * apply list_elem_of_singleton in Hin. congruence.
    - rewrite lookup_insert_ne by done. rewrite Hnti. split.
      + intros [c' Hin]. exists c'. apply elem_of_app. auto.
      + intros [c' Hin]. apply elem_of_app in Hin as [Hin|Hin]; [by exists c'|].
        apply list_elem_of_singleton in Hin. congruence. }
  split; [congruence|].
  assert (length (rdescend s') = length (rdescend s) /\
          length (ldescend s') = length (ldescend s)) as [Hrl Hll].
  { destruct (is_terminal c).
    - destruct Hbranch as (_ & -> & -> & _). done.
    - destruct Hbranch as (_ & _ & _ & _ & nr & nl & _ & _ & _ & _ & -> & ->).
      by rewrite !length_insert. }
  split; [congruence|]. split; [congruence|]. split; [congruence|].
  split.
  { intros n0 row Hrow. destruct (Hrows' n0 row Hrow) as (row1 & Hrow1 & Hlen1).
    destruct (Hrows n0 row1 Hrow1) as (row0 & Hrow0 & Hlen0).
    exists row0. split; [done | congruence]. }
  split.
  { intros n0 path0 c0 Hin Hne. apply elem_of_app in Hin as [Hin|Hin].
    - destruct (Hpre _ _ Hin) as [Hlt _].
      rewrite Htrest by lia. by eapply Ht.
    - apply list_elem_of_singleton in Hin. injection Hin as -> -> ->.
      by apply Htn. }
  split.
  { intros n0 path0 c0 Hin Hc0. apply elem_of_app in Hin as [Hin|Hin].
    - destruct (Hgaps _ _ _ Hin Hc0) as (head & sequence & Hname & Hseq & Hg).
      exists head, sequence. split; [done|]. split; [done|].
      destruct (is_terminal c).
      + destruct (Hgp eq_refl) as (? & ? & _ & _ & ->).
        rewrite lookup_app_l; [done|]. by eapply lookup_lt_Some.
      + destruct Hbranch as (_ & _ & -> & _). done.
    - apply list_elem_of_singleton in Hin. injection Hin as -> -> ->.
      rewrite Hc0 in Hside.
      destruct (Hgp Hc0) as (head & sequence & Hname & Hseq & ->).
      exists head, sequence. split; [done|]. split; [done|].
      rewrite lookup_app_r by lia.
      replace (n - length (gaps s))%nat with 0%nat by lia. done. }
  destruct (is_terminal c) eqn:Hc.
  - destruct (Hgp eq_refl) as (head & sequence & _ & _ & Hgaps').
    destruct Hbranch as (Hnlt & Hr' & Hl' & _).
    split; [rewrite Hgaps', length_app; cbn; lia|].
    intros n0 path0 c0 Hin Hc0. apply elem_of_app in Hin as [Hin|Hin].
    + destruct (Hch _ _ _ Hin Hc0)
        as (cr & cl & nr & nl & Hge & Hcl & Hnr & Hnl & Hrd & Hld).
      exists cr, cl, nr, nl. split; [done|]. split; [done|].
      rewrite Hnti'.
      assert (forall k nk, name_to_nodeindex s !! (path0 ++ [k]) = Some nk ->
                <[path := n]> (name_to_nodeindex s) !! (path0 ++ [k]) = Some nk)
        as Hkeep.
      { intros k nk Hk. rewrite lookup_insert_ne; [done|].
        intros ->. apply Hnti in Hk as [c' Hin']. by destruct (Hfresh _ _ Hin'). }
      split; [by apply Hkeep|]. split; [by apply Hkeep|].
      by rewrite Hr', Hl'.
    + apply list_elem_of_singleton in Hin. injection Hin as -> -> ->. congruence.
  - destruct Hbranch as (Hnge & Htips' & Hgaps' & Hcl & nr & nl &
                         Hnr & Hnl & Hrlen' & Hllen' & Hr' & Hl').
    split; [rewrite Hgaps'; lia|].
    assert (forall path0 k nk, name_to_nodeindex s !! (path0 ++ [k]) = Some nk ->
              name_to_nodeindex s' !! (path0 ++ [k]) = Some nk) as Hkeep.
    { intros path0 k nk Hk. rewrite Hnti', lookup_insert_ne; [done|].
      intros ->. apply Hnti in Hk as [c' Hin']. by destruct (Hfresh _ _ Hin'). }
    intros n0 path0 c0 Hin Hc0. apply elem_of_app in Hin as [Hin|Hin].
    + destruct (Hch _ _ _ Hin Hc0)
        as (cr & cl & nr0 & nl0 & Hge & Hcl0 & Hnr0 & Hnl0 & Hrd & Hld).
      destruct (Hpre _ _ Hin) as [Hlt _].
      exists cr, cl, nr0, nl0. split; [done|]. split; [done|].
      split; [by apply Hkeep|]. split; [by apply Hkeep|].
      rewrite Hr', Hl', !list_lookup_insert_ne by lia. done.
    + apply list_elem_of_singleton in Hin. injection Hin as -> -> ->.
      destruct (clades c) as [|cr [|cl [|? ?]]] eqn:Hcs; try discriminate.
      exists cr, cl, nr, nl. split; [done|]. split; [done|].
      split; [by apply Hkeep|]. split; [by apply Hkeep|].
      rewrite Hr', Hl', !list_lookup_insert_eq by done. done.
Qed.

(** *** The stages of construction *)

Lemma topology_structure s s' :
  structure s' = structure s -> topology s' = topology s.
Proof. unfold structure, topology. intros [=]. congruence. Qed.

Lemma topology_fields s s' :
  topology s' = topology s ->
  nsites s' = nsites s /\ alignment s' = alignment s /\ nseqs s' = nseqs s /\
  tree s' = tree s /\ name_to_nodeindex s' = name_to_nodeindex s /\
  ninternal s' = ninternal s /\ ntips s' = ntips s /\ nnodes s' = nnodes s /\
  rdescend s' = rdescend s /\ ldescend s' = ldescend s /\ t s' = t s /\
  tips s' = tips s /\ gaps s' = gaps s.
Proof. unfold topology. intros [=]. by repeat split. Qed.

Lemma numbered_NoDup (tree0 : Clade) : NoDup (map fst (numbered tree0)).
Proof.
  unfold numbered.
  assert (map fst (List.filter (fun pn : list nat * Clade => is_terminal pn.2)
                               (postorder [] tree0)
                   ++ List.filter (fun pn => negb (is_terminal pn.2))
                                  (postorder [] tree0))
          ≡ₚ map fst (postorder [] tree0)) as Hp
    by apply Permutation_map,
             (filter_partition (fun pn : list nat * Clade => is_terminal pn.2)).
  rewrite Hp. apply NoDup_postorder.
Qed.

(** A constructed engine has passed the three checks on the alignment;
    its node attributes are those the loop over the nodes has written,
    starting from the allocated object with [dL] filled in. *)
Lemma init_stages tree0 alignment0 m0 self :
  __init__ tree0 alignment0 m0 = inr self ->
  let sa := allocated tree0 alignment0 m0 in
  let T := List.filter (fun pn : list nat * Clade => is_terminal pn.2)
                       (postorder [] tree0) in
  forallb (fun hs : string * string =>
             (String.length hs.2 =? 3 * model_nsites m0)%nat) alignment0 = true /\
  (list_to_set (map (fun hs : string * string => Some hs.1) alignment0)
     : gset (option string))
  = list_to_set (map name (get_terminals tree0)) /\
  count_terminals tree0 = length alignment0 /\
  exists d s1,
    nodes_written (set_dL d sa) (dict_of_pairs alignment0) (length T)
                  (enumerate (numbered tree0)) s1 /\
    length (gaps s1) = ntips s1 /\
    topology self = topology s1.
Proof.
  intros Hinit sa T. unfold __init__ in Hinit. fold sa in Hinit.
  destruct (init_body sa) as [[] self'|x self'] eqn:Hbody; [|done].
  injection Hinit as ->. unfold init_body in Hbody.
  apply bind_Ret_inv in Hbody as (? & ? & [= <- <-] & Hbody).
  apply bind_Ret_inv in Hbody as (? & ? & [Hlens ->]%assert_Ret_inv & Hbody).
  apply bind_Ret_inv in Hbody as (? & ? & [Hnames ->]%assert_Ret_inv & Hbody).
  apply bind_Ret_inv in Hbody as (? & ? & [Hcount ->]%assert_Ret_inv & Hbody).
  apply bind_Ret_inv in Hbody as ([] & s0 & HdL & Hbody).
  assert (exists d, s0 = set_dL d sa) as [d ->].
  { apply (wp_Ret _ (fun _ s' => exists d, s' = set_dL d sa) any _ _ _) in HdL;
      [done|].
    apply (wp_forM_ _ (fun _ s' => exists d, s' = set_dL d sa)).
    - by exists ∅.
    - intros pre param post ? _ [d ->]. unfold allocate_dL. wp_go.
      destruct (getattr (model _) param) as [[?|?|?|]|]; wp_go; by eexists. }
  cbv zeta in Hbody.
  apply bind_Ret_inv in Hbody as ([] & s1 & Hloop & Hbody).
  assert (nodes_written (set_dL d sa) (dict_of_pairs alignment0) (length T)
                        (enumerate (numbered tree0)) s1) as Hwritten.
  { apply (wp_Ret _ (fun _ s' =>
               nodes_written (set_dL d sa) (dict_of_pairs alignment0) (length T)
                             (enumerate (numbered tree0)) s') any _ _ _) in Hloop;
      [done|].
    apply (nodes_loop_writes (set_dL d sa) T).
    - apply numbered_NoDup.
    - apply (filter_Forall (fun pn => is_terminal pn.2)).
    - eapply Forall_impl;
        [apply (filter_Forall (fun pn => negb (is_terminal pn.2)))|].
      intros pn. cbn. by destruct (is_terminal pn.2).
    - done.
    - done. }
  apply bind_Ret_inv in Hbody as (? & ? & [= <- <-] & Hbody).
  apply bind_Ret_inv in Hbody as (? & ? & [Hgaps ->]%assert_Ret_inv & Hbody).
  apply bind_Ret_inv in Hbody as (i & s2 & Hparams & Hbody).
  assert (topology s2 = topology s1) as Hs2.
  { pose proof Hwritten as (Hre & _).
    destruct (reindexed_static _ _ Hre)
      as (_ & _ & _ & _ & _ & _ & _ & _ & _ & _ & _ & Hitp & _).
    pose proof (wp_Ret _ _ _ _ _ _ (index_params_spec s1 Hitp) Hparams)
      as (-> & _). done. }
  apply bind_Ret_inv in Hbody as (? & ? & [= <- <-] & Hbody).
  apply bind_Ret_inv in Hbody as ([] & s3 & [= <-] & Hbody).
  apply bind_Ret_inv in Hbody as (? & ? & [_ ->]%assert_Ret_inv & Hbody).
  pose proof (keeps_Ret _ _ _ _ _ updateInternals_keeps_structure Hbody) as Hs3.
  apply topology_structure in Hs3.
  split; [exact Hlens|]. split; [by apply bool_decide_eq_true in Hnames|].
  split; [by apply Nat.eqb_eq in Hcount|].
  exists d, s1. split; [exact Hwritten|].
  split; [by apply Nat.eqb_eq in Hgaps|].
  rewrite Hs3. exact Hs2.
Qed.

(** The two flat maps a constructed engine has: the second is built from
    the items of the first, swapped. *)
Lemma init_param_index tree0 alignment0 m0 self :
  __init__ tree0 alignment0 m0 = inr self ->
  _param_to_index self
  = foldl (fun d xy => dict_setitem xy.2 xy.1 d) [] (_index_to_param self).
Proof.
  intros Hinit. unfold __init__ in Hinit.
  destruct (init_body _) as [[] self'|x self'] eqn:Hbody; [|done].
  injection Hinit as ->. unfold init_body in Hbody.
  do 5 apply bind_Ret_inv in Hbody as (? & ? & _ & Hbody). cbv zeta in Hbody.
  do 4 apply bind_Ret_inv in Hbody as (? & ? & _ & Hbody).
  apply bind_Ret_inv in Hbody as (? & s2 & [= <- <-] & Hbody).
  apply bind_Ret_inv in Hbody as ([] & s3 & [= <-] & Hbody).
  apply bind_Ret_inv in Hbody as (? & ? & [_ ->]%assert_Ret_inv & Hbody).
  pose proof (keeps_Ret _ _ _ _ _ updateInternals_keeps_structure Hbody) as Hs.
  unfold same, structure in Hs. injection Hs as _ _ _ _ _ _ _ _ _ _ _ _ _ Hitp Hpti.
  rewrite Hpti, Hitp. done.
Qed.

(** Filing distinct keys one after the other lists them in order. *)
Lemma foldl_dict_setitem_swap {K V} `{EqDecision V} (items : list (K * V)) :
  NoDup items.*2 ->
  foldl (fun d xy => dict_setitem xy.2 xy.1 d) [] items
  = map (fun xy => (xy.2, xy.1)) items.
Proof.
  intros Hnodup.
  assert (forall d : list (V * K),
            NoDup (d.*1 ++ items.*2) ->
            foldl (fun d xy => dict_setitem xy.2 xy.1 d) d items
            = d ++ map (fun xy => (xy.2, xy.1)) items) as Hgen.
  { clear Hnodup. induction items as [|[k v] items IH]; intros d Hnd; cbn.
    - by rewrite app_nil_r.
    - assert (dict_setitem v k d = d ++ [(v, k)]) as ->.
      { assert (v ∉ d.*1) as Hfresh.
        { cbn in Hnd. apply NoDup_app in Hnd as (_ & Hdis & _).
          intros Hin. apply (Hdis v Hin). by left. }
        clear -Hfresh. induction d as [|[v' k'] d IH]; [done|]. cbn.
        destruct (decide (v = v')) as [->|Hne].
        - destruct Hfresh. cbn. by left.
        - rewrite IH; [done|]. intros Hin. apply Hfresh. cbn. by right. }
      rewrite IH.
      + by rewrite <- app_assoc.
      + rewrite fmap_app. cbn in *. by rewrite <- app_assoc. }
  by rewrite (Hgen [] Hnodup).
Qed.

(** *** Failures of construction *)

(** The loop that allocates [dL] stops at the first free parameter that
    is neither a float nor a 1-dimensional array, with the exception that
    value gives. *)
Lemma allocate_dL_raises pre param post s x :
  (forall q, q ∈ pre -> allocatable (getattr (model s) q)) ->
  allocation_error (getattr (model s) param) = Some x ->
  raised (forM_ (pre ++ param :: post) allocate_dL s) = Some x.
Proof.
  revert s. induction pre as [|p pre IH]; intros s Hpre Hparam.
  { cbn [app forM_]. unfold bind at 1, allocate_dL at 1, bind at 1. cbn [get].
    by destruct (getattr (model s) param) as [[y|a|y|]|]. }
  cbn [app forM_]. unfold bind at 1. unfold allocate_dL at 1. unfold bind at 1.
  cbn [get].
  pose proof (Hpre p ltac:(by left)) as Hp.
  destruct (getattr (model s) p) as [[y|a|y|]|] eqn:Hget; cbn in Hp; try done;
    cbn [modify].
  - apply IH; [intros q Hq; apply Hpre; by right|exact Hparam].
  - apply IH; [intros q Hq; apply Hpre; by right|exact Hparam].
Qed.

Lemma init_raised tree0 alignment0 m0 x :
  raised (init_body (allocated tree0 alignment0 m0)) = Some x ->
  __init__ tree0 alignment0 m0 = inl x.
Proof.
  unfold __init__. destruct (init_body _) as [u s|x' s]; cbn; [done|].
  by intros [= ->].
Qed.

(** *** Construction up to the first bad codon *)

Lemma postorder_preorder (c : Clade) :
  forall path, postorder path c ≡ₚ preorder path c.
Proof.
  induction c as [nm b cs IH] using Clade_nested_ind. intros path.
  rewrite postorder_eq, preorder_eq. cbn [clades].
  rewrite <- Permutation_cons_append. apply Permutation_cons; [done|].
  generalize 0%nat.
  induction IH as [|ch cs Hch _ IHcs]; intros i; [done|].
  rewrite postorder_children_cons, preorder_children_cons.
  by rewrite Hch, IHcs.
Qed.

Lemma length_filter_Permutation {A} (f : A -> bool) (l l' : list A) :
  l ≡ₚ l' -> length (List.filter f l) = length (List.filter f l').
Proof.
  induction 1 as [|x l l' _ IH|x y l|l l' l'' _ IH1 _ IH2]; cbn.
  - done.
  - destruct (f x); cbn; by rewrite IH.
  - by destruct (f x), (f y).
  - congruence.
Qed.

Lemma length_filter_map {A B} (f : B -> bool) (g : A -> B) (l : list A) :
  length (List.filter f (map g l)) = length (List.filter (fun x => f (g x)) l).
Proof.
  induction l as [|x l IH]; [done|]. cbn. destruct (f (g x)); cbn; by rewrite IH.
Qed.

(** The tips numbered are as many as [count_terminals] says. *)
Lemma length_tips_numbered (tree0 : Clade) :
  length (List.filter (fun pn : list nat * Clade => is_terminal pn.2)
                      (postorder [] tree0))
  = count_terminals tree0.
Proof.
  unfold count_terminals, get_terminals.
  rewrite length_filter_map.
  apply length_filter_Permutation, postorder_preorder.
Qed.

(** A tree with a node below its root has an internal node. *)
Lemma nonterminals_pos (tree0 : Clade) path c :
  node_at tree0 path = Some c -> path <> [] ->
  (0 < length (get_nonterminals tree0))%nat.
Proof.
  intros Hc Hpath. destruct path as [|i path]; [done|]. cbn in Hc.
  unfold get_nonterminals. rewrite preorder_eq. cbn.
  unfold is_terminal at 1.
  destruct (clades tree0) as [|ch cs]; [done|]. cbn. lia.
Qed.

Lemma dict_of_pairs_is_Some {K V} `{Countable K} (pairs : list (K * V)) k v :
  (k, v) ∈ pairs -> is_Some (dict_of_pairs pairs !! k).
Proof.
  unfold dict_of_pairs.
  assert (forall d : gmap K V,
            (k, v) ∈ pairs \/ is_Some (d !! k) ->
            is_Some (foldl (fun d kv => <[kv.1 := kv.2]> d) d pairs !! k)) as Hgen.
  { induction pairs as [|[k' v'] pairs IH]; intros d [Hin|Hd]; cbn.
    - by apply elem_of_nil in Hin.
    - done.
    - apply IH. apply elem_of_cons in Hin as [[= <- <-]|Hin]; [|by left].
      right. cbn. by rewrite lookup_insert_eq.
    - apply IH. right. cbn. destruct (decide (k' = k)) as [->|Hne].
      + by rewrite lookup_insert_eq.
      + by rewrite lookup_insert_ne. }
  intros Hin. apply Hgen. by left.
Qed.

(** The loop over the sites of a tip raises nothing but [ValueError],
    and returns only if every window is a gap or a codon of the table. *)
Lemma encode_sites_progress s n sequence :
  is_Some (tips s !! n) ->
  (forall n' row, tips s !! n' = Some row -> length row = nsites s) ->
  wp (foldM (encode_site n sequence) (seq 0 (nsites s)) [])
     (fun _ _ =>
        forall r, (r < nsites s)%nat ->
          substring (3 * r) 3 sequence = "---"%string \/
          is_Some (CODON_TO_INDEX !! substring (3 * r) 3 sequence))
     (fun x _ => x = ValueError) s.
Proof.
  intros Hn Hrows.
  eapply wp_mono;
    [apply (wp_foldM _ (fun pre _ s' =>
              is_Some (tips s' !! n) /\
              (forall n' row, tips s' !! n' = Some row -> length row = nsites s) /\
              forall r, r ∈ pre ->
                substring (3 * r) 3 sequence = "---"%string \/
                is_Some (CODON_TO_INDEX !! substring (3 * r) 3 sequence))
                       (fun x _ => x = ValueError)) | | done].
  - split; [done|]. split; [done|]. by intros r ?%elem_of_nil.
  - intros pre r post gp s' Hseq (Hn' & Hrows' & Hdone).
    destruct (seq_middle _ _ _ _ _ Hseq) as (Hr & Hlt & _).
    unfold encode_site.
    destruct (decide (substring (3 * r) 3 sequence = "---"%string)) as [Hgap|Hgap].
    + apply wp_ret. split; [done|]. split; [done|].
      intros r0 [Hr0|Hr0%list_elem_of_singleton]%elem_of_app; [by apply Hdone|].
      subst r0. by left.
    + destruct (CODON_TO_INDEX !! substring (3 * r) 3 sequence) as [x|] eqn:Hx;
        [|by apply wp_raise].
      destruct Hn' as [row Hrow].
      apply wp_bind, wp_get. apply wp_bind, wp_index.
      2: { intros Herr. apply py_index_nat in Hrow. congruence. }
      intros row' Hrow'. apply py_index_nat in Hrow'.
      assert (row' = row) as -> by congruence.
      pose proof (Hrows' n row Hrow) as Hlen.
      apply wp_bind, wp_setitem; [|lia]. intros _.
      apply wp_bind, wp_setitem.
      2: { apply lookup_lt_Some in Hrow. lia. }
      intros Hnlt. apply wp_bind, wp_modify, wp_ret. cbn.
      split; [by rewrite list_lookup_insert_eq|]. split.
      * intros n' row0 Hrow0. destruct (decide (n' = n)) as [->|Hne].
        -- rewrite list_lookup_insert_eq in Hrow0 by done. injection Hrow0 as <-.
           by rewrite length_insert.
        -- rewrite list_lookup_insert_ne in Hrow0 by done. by eapply Hrows'.
      * intros r0 [Hr0|Hr0%list_elem_of_singleton]%elem_of_app; [by apply Hdone|].
        subst r0. right. rewrite ?Hx. by eexists.
  - intros gp s' (_ & _ & Hall) r Hr. apply Hall, elem_of_seq. lia.
Qed.

(** One turn of the loop over the nodes at a tip whose sequence the
    alignment has raises nothing but [ValueError], and returns only if
    every window of the sequence is a gap or a codon of the table. *)
Lemma index_tip_progress alignment_d s n path c head sequence :
  is_terminal c = true -> name c = Some head ->
  alignment_d !! head = Some sequence ->
  (n < ntips s)%nat -> (path <> [] -> n < nnodes s - 1)%nat ->
  length (t s) = (nnodes s - 1)%nat -> length (tips s) = ntips s ->
  (forall n' row, tips s !! n' = Some row -> length row = nsites s) ->
  wp (index_node alignment_d (n, (path, c)))
     (fun _ _ =>
        forall r, (r < nsites s)%nat ->
          substring (3 * r) 3 sequence = "---"%string \/
          is_Some (CODON_TO_INDEX !! substring (3 * r) 3 sequence))
     (fun x _ => x = ValueError) s.
Proof.
  intros Hterm Hname Hseq Hn Hroot Htlen Htips Hrows.
  unfold index_node. apply wp_bind, wp_get. apply wp_bind.
  eapply (wp_returns _ (fun _ s1 => exists tv, s1 = set_t tv s)).
  { destruct (decide (path = [])).
    - apply wp_ret. exists (t s). by destruct s.
    - apply wp_bind, wp_assert.
      2: { intros Hf. apply Nat.ltb_ge in Hf. specialize (Hroot n0). lia. }
      intros _. apply wp_bind, wp_setitem.
      2: { specialize (Hroot n0). lia. }
      intros _. apply wp_modify. by eexists. }
  intros _ ? [tv ->]. cbn beta. rewrite Hterm. apply wp_bind.
  eapply (wp_returns _ (fun _ _ =>
            forall r, (r < nsites s)%nat ->
              substring (3 * r) 3 sequence = "---"%string \/
              is_Some (CODON_TO_INDEX !! substring (3 * r) 3 sequence))).
  2: { intros _ s' Hall. apply wp_bind, wp_get. by apply wp_modify. }
  apply wp_bind, wp_assert.
  2: { intros Hf. apply Nat.ltb_ge in Hf. lia. }
  intros _. rewrite Hname. apply wp_bind, wp_getitem; [|congruence].
  intros a Ha. assert (a = sequence) as -> by congruence. apply wp_bind.
  eapply wp_returns; [apply (encode_sites_progress (set_t tv s) n sequence)| ].
  - cbn. apply lookup_lt_is_Some. lia.
  - exact Hrows.
  - intros gp s' Hall. apply wp_bind, wp_get. by apply wp_modify.
Qed.

Lemma allocate_dL_returns params s :
  (forall param, param ∈ params -> allocatable (getattr (model s) param)) ->
  exists d, forM_ params allocate_dL s = Ret tt (set_dL d s).
Proof.
  assert (forall d, (forall param, param ∈ params ->
                       allocatable (getattr (model s) param)) ->
            exists d', forM_ params allocate_dL (set_dL d s)
                       = Ret tt (set_dL d' s)) as Hgen.
  { induction params as [|p params IH]; intros d Hparams; [by exists d|].
    cbn [forM_]. unfold bind at 1, allocate_dL at 1, bind at 1. cbn [get].
    change (model (set_dL d s)) with (model s).
    pose proof (Hparams p ltac:(by left)) as Hp.
    destruct (getattr (model s) p) as [[x|a|x|]|]; cbn in Hp; try done; cbn.
    - apply IH. intros q Hq. apply Hparams. by right.
    - apply IH. intros q Hq. apply Hparams. by right. }
  intros Hparams. destruct (Hgen (dL s) Hparams) as [d Hd]. exists d.
  rewrite <- Hd. f_equal. by destruct s.
Qed.

(** With a sequence in the alignment that has a window neither a gap nor
    a codon of the table, the loop over the nodes raises [ValueError]. *)
Lemma nodes_loop_raises tree0 alignment0 m0 d head sequence r :
  (list_to_set (map (fun hs : string * string => Some hs.1) alignment0)
     : gset (option string))
  = list_to_set (map name (get_terminals tree0)) ->
  dict_of_pairs alignment0 !! head = Some sequence ->
  (r < model_nsites m0)%nat ->
  substring (3 * r) 3 sequence <> "---"%string ->
  CODON_TO_INDEX !! substring (3 * r) 3 sequence = None ->
  raised (forM_ (enumerate (numbered tree0))
                (index_node (dict_of_pairs alignment0))
                (set_dL d (allocated tree0 alignment0 m0)))
  = Some ValueError.
Proof.
  intros Hnames Hseq Hr Hgap Hcodon.
  set (s0 := set_dL d (allocated tree0 alignment0 m0)).
  set (T := List.filter (fun pn : list nat * Clade => is_terminal pn.2)
                        (postorder [] tree0)).
  assert (forall path c, (path, c) ∈ T ->
            is_terminal c = true /\ node_at tree0 path = Some c /\
            exists head' sequence',
              name c = Some head' /\
              dict_of_pairs alignment0 !! head' = Some sequence') as HT.
  { intros path c Hin. apply list_elem_of_In, filter_In in Hin as [Hin Hterm].
    cbn in Hterm. apply list_elem_of_In, elem_of_postorder in Hin as (rel & -> & Hc).
    split; [done|]. split; [done|].
    assert (name c ∈ (list_to_set (map name (get_terminals tree0))
                        : gset (option string))) as Hname.
    { apply elem_of_list_to_set, list_elem_of_fmap. exists c. split; [done|].
      unfold get_terminals. apply list_elem_of_In, filter_In. split; [|done].
      apply list_elem_of_In, list_elem_of_fmap. exists (rel, c). split; [done|].
      apply elem_of_preorder. by exists rel. }
    rewrite <- Hnames in Hname.
    apply elem_of_list_to_set, list_elem_of_fmap in Hname
      as ([head' sequence'] & Hn & Hin).
    destruct (dict_of_pairs_is_Some _ _ _ Hin) as [sequence'' Hs].
    by exists head', sequence''. }
  assert (exists nb pathb cb, T !! nb = Some (pathb, cb) /\ name cb = Some head)
    as (nb & pathb & cb & Hnb & Hcb).
  { apply dict_of_pairs_lookup in Hseq.
    assert (Some head ∈ (list_to_set (map name (get_terminals tree0))
                           : gset (option string))) as Hin.
    { rewrite <- Hnames. apply elem_of_list_to_set, list_elem_of_fmap.
      by exists (head, sequence). }
    apply elem_of_list_to_set, list_elem_of_fmap in Hin as (cb & Hname & Hin).
    unfold get_terminals in Hin. apply list_elem_of_In, filter_In in Hin as [Hin Hterm].
    apply list_elem_of_In, list_elem_of_fmap in Hin as ([pathb cb'] & -> & Hin).
    apply elem_of_preorder in Hin as (rel & Hrel & Hc). cbn in Hrel. subst rel.
    assert ((pathb, cb') ∈ T) as HinT.
    { apply list_elem_of_In, filter_In. split; [|done].
      apply list_elem_of_In, elem_of_postorder. by exists pathb. }
    apply list_elem_of_lookup in HinT as [nb Hnb]. by exists nb, pathb, cb'. }
  pose proof (lookup_lt_Some _ _ _ Hnb) as Hnblt.
  pose proof (length_tips_numbered tree0) as HlenT. fold T in HlenT.
  assert (wp (forM_ (enumerate (numbered tree0))
                    (index_node (dict_of_pairs alignment0)))
             (fun _ s' => (length (enumerate (numbered tree0)) <= nb)%nat)
             (fun x _ => x = ValueError) s0) as Hwp.
  { eapply wp_returns;
      [apply (wp_forM_ _ (fun pre s =>
                reindexed s0 s /\ length (t s) = length (t s0) /\
                length (tips s) = length (tips s0) /\
                (forall n row, tips s !! n = Some row ->
                   length row = model_nsites m0) /\
                (length pre <= nb)%nat)) | ].
    - split; [done|]. split; [done|]. split; [done|]. split; [|cbn; lia].
      intros n row Hrow. cbn in Hrow. apply lookup_replicate in Hrow as [-> _].
      by rewrite length_replicate.
    - intros pre [n [path c]] post s Hen (Hre & Htl & Htips & Hrows & Hle).
      destruct (enumerate_middle _ _ _ _ _ Hen) as (Hn & Hnode & _).
      destruct (reindexed_static _ _ Hre)
        as (Hntips & Hnsites & Hnnodes & Hnint & Halign & _).
      assert (T !! n = Some (path, c)) as HnT.
      { unfold numbered in Hnode. fold T in Hnode.
        rewrite lookup_app_l in Hnode by lia. done. }
      destruct (HT path c) as (Hterm & Hc & head' & sequence' & Hname & Hseq');
        [by eapply list_elem_of_lookup_2|].
      eapply wp_mono;
        [apply wp_conj;
           [apply wp_conj;
              [apply (index_node_spec (dict_of_pairs alignment0) s n path c)
              |apply (index_node_writes (dict_of_pairs alignment0) s n path c)]
           |apply (index_tip_progress (dict_of_pairs alignment0) s n path c
                     head' sequence')] | | ].
      + done.
      + done.
      + done.
      + rewrite Hntips. cbn. lia.
      + intros Hpath. rewrite Hnnodes. cbn.
        pose proof (nonterminals_pos tree0 path c Hc Hpath). lia.
      + rewrite Htl, Hnnodes. cbn. by rewrite length_replicate.
      + rewrite Htips, Hntips. cbn. by rewrite length_replicate.
      + intros n' row Hrow. rewrite Hnsites. by eapply Hrows.
      + intros _ s' [[(Hre' & _ & Htips' & _) (Htl' & _ & _ & Hrows' & _)] Hok].
        split; [by eapply reindexed_trans|]. split; [congruence|].
        split; [congruence|]. split.
        { intros n' row Hrow. destruct (Hrows' n' row Hrow) as (row0 & Hrow0 & ->).
          by eapply Hrows. }
        rewrite length_app. cbn.
        destruct (decide (n = nb)) as [Heq|Hne]; [|lia]. exfalso.
        rewrite Heq, Hnb in HnT. injection HnT as -> ->.
        assert (head' = head) as -> by congruence.
        assert (sequence' = sequence) as -> by congruence.
        rewrite Hnsites in Hok. destruct (Hok r Hr) as [?|[x Hx]]; [done|].
        congruence.
      + by intros x s' [_ ->].
    - by intros _ s' (_ & _ & _ & _ & Hle). }
  unfold wp in Hwp.
  destruct (forM_ _ _ s0) as [u s'|x s']; [|by rewrite Hwp].
  rewrite length_enumerate in Hwp. unfold numbered in Hwp. fold T in Hwp.
  rewrite length_app in Hwp. lia.
Qed.

End Construction.
End ConstructionMore.

(** ** Reachable states and the constructed engine *)

Module ReachFacts.
Import TreeLik TreeFacts TreeLikFacts ConstructionFacts ProtocolFacts FrameFacts
       ConstructionMore.

Section Reach.
Context `{FL : Float} `{MO : !ModelOps} `{CO : Constants}.
Implicit Types (s self : TreeLikelihood) (path : list nat).

(** A reachable state has the structure construction gave it. *)
Lemma reachable_init tree0 alignment0 model0 self :
  reachable tree0 alignment0 model0 self ->
  exists self0, __init__ tree0 alignment0 model0 = inr self0 /\
                structure self = structure self0.
Proof.
  induction 1 as [self Hinit
                 |self newvalues self' _ [self0 [Hinit IH]] Hcall
                 |self value self' _ [self0 [Hinit IH]] Hcall
                 |self a self' _ [self0 [Hinit IH]] Hcall].
  - by exists self.
  - exists self0. split; [done|]. rewrite <- IH.
    exact (keeps_Ret _ _ _ _ _ (updateParams_keeps_structure newvalues) Hcall).
  - exists self0. split; [done|]. rewrite <- IH.
    exact (keeps_Ret _ _ _ _ _ (set_paramsarray_keeps_structure value) Hcall).
  - exists self0. split; [done|]. rewrite <- IH.
    by destruct (beside_cache_parts _ _ (keeps_Ret _ _ _ _ _ paramsarray_keeps Hcall))
      as (? & _).
Qed.

(** The nodes numbered are the nodes of the tree. *)
Lemma elem_of_numbered (tree0 : Clade) path c :
  (path, c) ∈ numbered tree0 <-> node_at tree0 path = Some c.
Proof.
  unfold numbered.
  rewrite (filter_partition (fun pn : list nat * Clade => is_terminal pn.2)).
  rewrite elem_of_postorder.
  split; [by intros (rel & -> & ?) | intros ?; by exists path].
Qed.

(** What the loop over the nodes wrote is in every reachable state. *)
Lemma reachable_written tree0 alignment0 model0 self :
  reachable tree0 alignment0 model0 self ->
  let sa := allocated tree0 alignment0 model0 in
  let T := List.filter (fun pn : list nat * Clade => is_terminal pn.2)
                       (postorder [] tree0) in
  exists d s1,
    nodes_written (set_dL d sa) (dict_of_pairs alignment0) (length T)
                  (enumerate (numbered tree0)) s1 /\
    length (gaps s1) = ntips s1 /\
    topology self = topology s1.
Proof.
  intros Hreach sa T.
  destruct (reachable_init _ _ _ _ Hreach) as (self0 & Hinit & Hs).
  destruct (init_stages _ _ _ _ Hinit) as (_ & _ & _ & d & s1 & Hw & Hg & Ht).
  exists d, s1. split; [done|]. split; [done|].
  rewrite <- Ht. by apply topology_structure.
Qed.

(** The index of a node of the tree is its position among the nodes
    numbered. *)
Lemma written_index tree0 s0 alignment_d ntip s1 path c n :
  nodes_written s0 alignment_d ntip (enumerate (numbered tree0)) s1 ->
  node_at tree0 path = Some c -> name_to_nodeindex s1 !! path = Some n ->
  (n, (path, c)) ∈ enumerate (numbered tree0).
Proof.
  intros (_ & Hnti & _) Hc Hn. apply Hnti in Hn as [c' Hin].
  pose proof Hin as Hin'. apply elem_of_enumerate, list_elem_of_lookup_2 in Hin'.
  apply elem_of_numbered in Hin'. congruence.
Qed.

End Reach.
End ReachFacts.

(** ** The properties of the engine *)

Module TreeLikelihoodProperties.
Import TreeLik TreeFacts TreeLikFacts ConstructionFacts ProtocolFacts.

Section Reachable.
Context `{FL : Float} `{MO : !ModelOps} `{CO : Constants}.
Implicit Types (s self : TreeLikelihood).

(** What every reachable state satisfies. *)
Lemma reachable_invariant tree0 alignment0 model0 self :
  reachable tree0 alignment0 model0 self ->
  tree self = tree0 /\ alignment self = alignment0 /\
  nsites self = model_nsites model0 /\
  alignment_checked self /\ indexing_holds self /\ encoding_holds self /\
  _index_to_param self = enumerate (flat_slots model0) /\
  consistent self /\ cache_sized self.
Proof.
  induction 1 as [self Hinit
                 |self newvalues self' _ IH Hcall
                 |self value self' _ IH Hcall
                 |self a self' _ IH Hcall].
  - unfold __init__ in Hinit.
    destruct (init_body _) as [[] s|x s] eqn:Hbody; [|discriminate].
    injection Hinit as ->.
    pose proof (wp_Ret _ _ _ _ _ _ (init_body_spec tree0 alignment0 model0) Hbody)
      as (Ht & Ha & Hm & Hns & Hal & Hix & Henc & Hip & Hpa & Hca & Hlen & Hnodes & Hroot).
    do 8 (split; [done|]). intros a. by rewrite Hpa.
  - destruct IH as (Ht & Ha & Hns & Hal & Hix & Henc & Hip & Hcons & Hcache).
    assert (children_below self) as Hcb by (by destruct Hix as (_ & _ & _ & ?)).
    pose proof (wp_Ret _ _ _ _ _ _
                  (updateParams_spec self newvalues Hcb Hcons Hcache) Hcall)
      as (Hs & Hcons' & Hcache').
    symmetry in Hs. destruct (structure_flat _ _ Hs) as (Ht' & Ha' & Hns' & Hip').
    split; [congruence|]. split; [congruence|]. split; [congruence|].
    split; [by apply (alignment_checked_structure self)|].
    split; [by apply (indexing_holds_structure self)|].
    split; [by apply (encoding_holds_structure self)|].
    split; [congruence|]. done.
  - destruct IH as (Ht & Ha & Hns & Hal & Hix & Henc & Hip & Hcons & Hcache).
    assert (children_below self) as Hcb by (by destruct Hix as (_ & _ & _ & ?)).
    pose proof (wp_Ret _ _ _ _ _ _
                  (set_paramsarray_spec self value Hcb Hcons Hcache) Hcall)
      as (Hs & Hcons' & Hcache').
    symmetry in Hs. destruct (structure_flat _ _ Hs) as (Ht' & Ha' & Hns' & Hip').
    split; [congruence|]. split; [congruence|]. split; [congruence|].
    split; [by apply (alignment_checked_structure self)|].
    split; [by apply (indexing_holds_structure self)|].
    split; [by apply (encoding_holds_structure self)|].
    split; [congruence|]. done.
  - destruct IH as (Ht & Ha & Hns & Hal & Hix & Henc & Hip & Hcons & Hcache).
    pose proof (wp_Ret _ _ _ _ _ _ (paramsarray_spec self Hcache) Hcall)
      as (-> & Hlen).
    do 8 (split; [done|]). intros a' [= <-]. exact Hlen.
Qed.

Lemma cell_tab_mul (a b : tab) r x u v :
  cell a r x = Some u -> cell b r x = Some v ->
  cell (tab_mul a b) r x = Some (fmul u v).
Proof.
  unfold cell, tab_mul. intros Ha Hb. rewrite lookup_zip_with.
  destruct (a !! r) as [ar|]; [|done]. destruct (b !! r) as [br|]; [|done].
  cbn in *. rewrite lookup_zip_with, Ha. cbn. by rewrite Hb.
Qed.


(** The product of a matrix array with a table, cell by cell: the sum
    over [y] of [m[r][x][y] * v[r][y]]. *)
Lemma cell_broadcastMatrixVectorMultiply (m : mat) (v : tab) r x mr vr mrx :
  m !! r = Some mr -> v !! r = Some vr -> mr !! x = Some mrx ->
  cell (broadcastMatrixVectorMultiply m v) r x
  = Some (fsum (zip_with fmul mrx vr)).
Proof.
  unfold cell, broadcastMatrixVectorMultiply. intros Hm Hv Hx.
  rewrite lookup_zip_with, Hm. cbn. rewrite Hv. cbn.
  by rewrite list_lookup_fmap, Hx.
Qed.

(** C1: in a reachable state, for every internal node [m], the stored
    partial likelihood [L[m - ntips]] is the elementwise product of the
    messages of its two children, which have smaller indices; the message
    of a tip child is [model.M(t[c], tips[c], gaps[c])] and that of an
    internal child is the product of [model.M(t[c])] with [L[c - ntips]],
    both read in the same final state. *)
Theorem partial_likelihood_recursion tree0 alignment0 model0 self m
    (Hreach : reachable tree0 alignment0 model0 self)
    (Hm : (ntips self <= m < nnodes self)%nat) :
  exists nright nleft MLright MLleft Lm,
    children self m = Some (nright, nleft) /\
    (nright < m)%nat /\ (nleft < m)%nat /\
    ML self nright = Some MLright /\ ML self nleft = Some MLleft /\
    L self !! (m - ntips self)%nat = Some Lm /\
    Lm = tab_mul MLright MLleft /\
    (forall r x u v,
        cell MLright r x = Some u -> cell MLleft r x = Some v ->
        cell Lm r x = Some (fmul u v)).
Proof.
  destruct (reachable_invariant _ _ _ _ Hreach)
    as (_ & _ & _ & _ & Hix & _ & _ & (_ & Hnodes & _) & _).
  destruct Hix as (_ & _ & _ & _ & Hcb).
  destruct (Hcb m Hm) as (nr & nl & Hch & Hr & Hl).
  destruct (Hnodes m Hm) as [(nr' & nl' & MLr & MLl & Hch' & HMLr & HMLl & HL) _].
  assert (nr' = nr /\ nl' = nl) as [-> ->] by (split; congruence).
  exists nr, nl, MLr, MLl, (tab_mul MLr MLl).
  do 7 (split; [done|]).
  intros r x u v. apply cell_tab_mul.
Qed.



(** C3: in a reachable state, [siteloglik[r]] is the logarithm of the sum
    over [x] of [L[root - ntips][r][x] * pi[r][x]] for every site [r], the
    root being the node [nnodes - 1], and [loglik] is the sum of
    [siteloglik], nothing applied in between. *)
Theorem root_reduction tree0 alignment0 model0 self
    (Hreach : reachable tree0 alignment0 model0 self) :
  exists Lroot,
    L self !! (nnodes self - 1 - ntips self)%nat = Some Lroot /\
    (forall r Lr pir,
        Lroot !! r = Some Lr -> stationarystate (model self) !! r = Some pir ->
        siteloglik self !! r = Some (flog (fsum (zip_with fmul Lr pir)))) /\
    length (siteloglik self)
    = (length Lroot `min` length (stationarystate (model self)))%nat /\
    loglik self = fsum (siteloglik self).
Proof.
  destruct (reachable_invariant _ _ _ _ Hreach)
    as (_ & _ & _ & _ & _ & _ & _ & (_ & _ & Hroot) & _).
  exact Hroot.
Qed.

(** C4: in a reachable state every node of the tree has an index below
    [nnodes], which is below [ntips] exactly when the node is a tip; every
    index below [nnodes] is that of a node, and of one only; the root has
    index [nnodes - 1]; and both children of every internal node [m] have
    indices smaller than [m]. *)
Theorem node_indexing tree0 alignment0 model0 self
    (Hreach : reachable tree0 alignment0 model0 self) :
  tree self = tree0 /\
  nnodes self = (ntips self + ninternal self)%nat /\
  (forall path c, node_at tree0 path = Some c ->
     exists n, name_to_nodeindex self !! path = Some n /\
               (n < nnodes self)%nat /\
               (is_terminal c = true <-> (n < ntips self)%nat)) /\
  (forall n, (n < nnodes self)%nat ->
     exists path c, node_at tree0 path = Some c /\
                    name_to_nodeindex self !! path = Some n) /\
  (forall path path' n,
     name_to_nodeindex self !! path = Some n ->
     name_to_nodeindex self !! path' = Some n -> path = path') /\
  name_to_nodeindex self !! [] = Some (nnodes self - 1)%nat /\
  (forall m, (ntips self <= m < nnodes self)%nat ->
     exists nright nleft,
       rdescend self !! (m - ntips self)%nat = Some (Z.of_nat nright) /\
       ldescend self !! (m - ntips self)%nat = Some (Z.of_nat nleft) /\
       (nright < m)%nat /\ (nleft < m)%nat).
Proof.
  destruct (reachable_invariant _ _ _ _ Hreach)
    as (Ht & _ & _ & _ & (Hnodes & [Hidx Hinj] & Hroot & Hsum & Hcb) & _).
  rewrite <- Ht. split; [done|]. split; [done|]. split.
  { intros path c Hc. destruct (Hnodes path c Hc) as (n & Hn & Hlt & Hside).
    exists n. split; [done|]. split; [done|].
    destruct (is_terminal c); split; try done; intros; lia. }
  split; [done|]. split; [done|]. split; [done|].
  intros m Hm. destruct (Hcb m Hm) as (nr & nl & Hch & Hr & Hl).
  exists nr, nl. unfold children in Hch.
  destruct (rdescend self !! (m - ntips self)%nat) as [zr|]; [|done].
  destruct (ldescend self !! (m - ntips self)%nat) as [zl|]; [|done].
  cbn in Hch.
  destruct (Z.leb_spec 0 zr), (Z.leb_spec 0 zl); cbn in Hch; try discriminate.
  injection Hch as <- <-. rewrite !Z2Nat.id by done. done.
Qed.

(** The bounds are those of the slots' parameters, slot by slot; the
    property raises [KeyError] exactly when a parameter has no limits. *)
Lemma paramsarraybounds_spec s :
  wp paramsarraybounds
     (fun bounds s' =>
        s' = s /\
        Forall2 (fun (it : nat * slot) b =>
                   PARAMLIMITS (model s) !! slot_name it.2 = Some b)
                (_index_to_param s) bounds)
     (fun x s' =>
        exists it, it ∈ _index_to_param s /\
                   PARAMLIMITS (model s) !! slot_name it.2 = None)
     s.
Proof.
  unfold paramsarraybounds. apply wp_bind, wp_get. apply wp_bind.
  eapply wp_mono;
    [apply (wp_foldM _ (fun pre bounds s' =>
              s' = s /\
              (forall it, it ∈ pre -> it ∈ _index_to_param s) /\
              Forall2 (fun (it : nat * slot) b =>
                         PARAMLIMITS (model s) !! slot_name it.2 = Some b)
                      pre bounds)
              (fun x s' =>
                 exists it, it ∈ _index_to_param s /\
                            PARAMLIMITS (model s) !! slot_name it.2 = None)) | | ].
  - split; [done|]. split; [by intros it ?%elem_of_nil|]. constructor.
  - intros pre [i param] post bounds ? Hitems (-> & Hsub & Hall).
    apply wp_bind, wp_getitem.
    + intros b Hb. apply wp_ret. split; [done|]. split.
      * intros it [Hin|Hin%list_elem_of_singleton]%elem_of_app; [by apply Hsub|].
        subst it. rewrite Hitems. apply elem_of_app. right. by left.
      * apply Forall2_app; [done|]. by constructor.
    + intros Hnone. exists (i, param). split; [|done].
      rewrite Hitems. apply elem_of_app. right. by left.
  - intros bounds ? (-> & _ & Hall). apply wp_bind, wp_assert.
    + intros _. by apply wp_ret.
    + intros Hlen. apply Nat.eqb_neq in Hlen.
      by apply Forall2_length in Hall.
  - done.
Qed.

(** C7: in a reachable state the flat parameter map lists, under the
    indices 0, 1, ..., the slots of the free parameters in the order the
    model declared them at construction, one slot for a scalar and one per
    component, in component order, for a vector; [paramsarraybounds], when
    it returns, changes nothing and gives one pair per slot, the limits of
    that slot's parameter name; and it returns when every such name has
    limits. *)
Theorem flat_parameter_map tree0 alignment0 model0 self
    (Hreach : reachable tree0 alignment0 model0 self) :
  _index_to_param self = enumerate (flat_slots model0) /\
  (forall bounds self',
      paramsarraybounds self = Ret bounds self' ->
      self' = self /\ length bounds = length (flat_slots model0) /\
      forall i param, flat_slots model0 !! i = Some param ->
        exists b, bounds !! i = Some b /\
                  PARAMLIMITS (model self) !! slot_name param = Some b) /\
  ((forall param, param ∈ flat_slots model0 ->
      is_Some (PARAMLIMITS (model self) !! slot_name param)) ->
   exists bounds, paramsarraybounds self = Ret bounds self).
Proof.
  destruct (reachable_invariant _ _ _ _ Hreach)
    as (_ & _ & _ & _ & _ & _ & Hip & _).
  split; [done|].
  pose proof (paramsarraybounds_spec self) as Hspec. unfold wp in Hspec.
  rewrite Hip in Hspec. split.
  - intros bounds self' Hret. rewrite Hret in Hspec. destruct Hspec as [-> Hall].
    split; [done|].
    pose proof (Forall2_length _ _ _ Hall) as Hlen.
    rewrite length_enumerate in Hlen. split; [done|].
    intros i param Hi.
    assert (enumerate (flat_slots model0) !! i = Some (i, param)) as Hen
      by (by rewrite lookup_enumerate, Hi).
    destruct (Forall2_lookup_l _ _ _ _ _ Hall Hen) as (b & Hb & Hlim).
    by exists b.
  - intros Hlimits. destruct (paramsarraybounds self) as [bounds s'|x s'].
    + destruct Hspec as [-> _]. by exists bounds.
    + destruct Hspec as ([i param] & Hin & Hnone). cbn in Hnone.
      apply elem_of_enumerate, list_elem_of_lookup_2 in Hin.
      destruct (Hlimits param Hin) as [b Hb]. congruence.
Qed.

(** [all(value == a)] holds when the arrays are equal element by
    element. *)
Lemma all_equal_true (value a : list F) :
  Forall2 (fun x y => feqb x y = true) value a -> all_equal value a = inr true.
Proof.
  intros Hall. unfold all_equal.
  rewrite (Forall2_length _ _ _ Hall), Nat.eqb_refl. f_equal.
  induction Hall as [|x y value a Hxy _ IH]; [done|].
  cbn. by rewrite Hxy, IH.
Qed.

(** An assignment of an array equal element by element to the cached one
    returns at once. *)
Lemma set_paramsarray_unchanged self value a :
  _paramsarray self = Some a ->
  length a = length (_index_to_param self) ->
  Forall2 (fun x y => feqb x y = true) value a ->
  set_paramsarray value self = Ret tt self.
Proof.
  intros Hpa Hlen Hall. unfold set_paramsarray, bind, get.
  rewrite (Forall2_length _ _ _ Hall), Hlen, Nat.eqb_refl. cbn.
  rewrite Hpa. unfold lift. by rewrite (all_equal_true _ _ Hall).
Qed.

(** C6: in a reachable state, reading [paramsarray] leaves the model, the
    cached quantities and the record of calls as they were, and assigning
    the array read, none of whose elements differs from itself, returns
    without any change of state: no call is added to the record, and the
    model and every cached quantity are the same; so does the assignment
    of any array equal element by element to the cached flat array. *)
Theorem paramsarray_roundtrip tree0 alignment0 model0 self
    (Hreach : reachable tree0 alignment0 model0 self) :
  (forall a self1,
      paramsarray self = Ret a self1 ->
      Forall (fun x => feqb x x = true) a ->
      cached self1 = cached self /\ model self1 = model self /\
      calls self1 = calls self /\
      set_paramsarray a self1 = Ret tt self1) /\
  (forall value a,
      _paramsarray self = Some a ->
      Forall2 (fun x y => feqb x y = true) value a ->
      set_paramsarray value self = Ret tt self).
Proof.
  destruct (reachable_invariant _ _ _ _ Hreach)
    as (_ & _ & _ & _ & _ & _ & _ & _ & Hcache).
  split.
  - intros a self1 Hget Hrefl.
    pose proof (wp_Ret _ _ _ _ _ _ (paramsarray_spec self Hcache) Hget)
      as (-> & Hlen).
    do 3 (split; [done|]).
    apply (set_paramsarray_unchanged _ a a); [done | done |].
    clear -Hrefl. induction Hrefl as [|x a Hx _ IH]; [constructor|].
    by constructor.
  - intros value a Hpa Hall.
    apply (set_paramsarray_unchanged _ value a); [done | by apply Hcache | done].
Qed.

(** With pairwise distinct headers, [dict(alignment)] gives every row. *)
Lemma dict_of_pairs_rows {K V} `{Countable K} (pairs : list (K * V)) k v :
  NoDup (pairs.*1) -> (k, v) ∈ pairs -> dict_of_pairs pairs !! k = Some v.
Proof.
  intros Hnodup Hin.
  destruct (ConstructionMore.dict_of_pairs_is_Some _ _ _ Hin) as [v' Hv'].
  rewrite Hv'. f_equal. apply dict_of_pairs_lookup in Hv'.
  clear -Hnodup Hin Hv'.
  induction pairs as [|[k0 v0] pairs IH]; [by apply elem_of_nil in Hin|].
  cbn in Hnodup. apply NoDup_cons in Hnodup as [Hfresh Hnodup].
  apply elem_of_cons in Hin as [Hin|Hin];
    apply elem_of_cons in Hv' as [Hv'|Hv'].
  - congruence.
  - injection Hin as -> ->.
    destruct Hfresh. apply list_elem_of_fmap. by exists (k0, v').
  - injection Hv' as -> ->.
    destruct Hfresh. apply list_elem_of_fmap. by exists (k0, v).
  - by apply IH.
Qed.

(** C8, as the code has it: in a reachable state, every tip of the tree,
    of index [n], has a sequence of [3 * nsites] characters, the one
    [dict(alignment)] gives for its name (the last row with that header),
    and at every site [r] the 3-character window of that sequence is
    either ['---'], with [r] in [gaps[n]] and [tips[n][r]] still [0], or a
    codon of the table, with its index in [tips[n][r]] and [r] not in
    [gaps[n]]; hence an engine exists only if every window of every
    sequence that [dict(alignment)] gives for a header is ['---'] or a
    codon of the table.  A row overridden by a later row with the same
    header is never read; when the headers are pairwise distinct, every
    row of the alignment is read, and all its windows are of the two
    kinds. *)
Theorem tip_encoding tree0 alignment0 model0 self
    (Hreach : reachable tree0 alignment0 model0 self) :
  (forall path c n,
      node_at tree0 path = Some c -> is_terminal c = true ->
      name_to_nodeindex self !! path = Some n ->
      (n < ntips self)%nat /\
      exists head sequence,
        name c = Some head /\
        dict_of_pairs alignment0 !! head = Some sequence /\
        String.length sequence = (3 * nsites self)%nat /\
        forall r, (r < nsites self)%nat ->
          let codon := substring (3 * r) 3 sequence in
          String.length codon = 3%nat /\
          exists gp, gaps self !! n = Some gp /\
            ((codon = "---"%string /\ (r ∈ gp) /\
              entry self n r = Some 0%nat) \/
             (codon <> "---"%string /\ (r ∉ gp) /\
              exists x, CODON_TO_INDEX !! codon = Some x /\
                        entry self n r = Some x))) /\
  (forall head sequence r,
      dict_of_pairs alignment0 !! head = Some sequence ->
      (r < nsites self)%nat ->
      let codon := substring (3 * r) 3 sequence in
      codon = "---"%string \/ is_Some (CODON_TO_INDEX !! codon)) /\
  (NoDup (alignment0.*1) ->
   forall head sequence r,
      (head, sequence) ∈ alignment0 ->
      (r < nsites self)%nat ->
      let codon := substring (3 * r) 3 sequence in
      codon = "---"%string \/ is_Some (CODON_TO_INDEX !! codon)).
Proof.
  destruct (reachable_invariant _ _ _ _ Hreach)
    as (Ht & Ha & _ & (Hlens & Hnames & _) & (Hnodes & _) & Henc & _).
  subst tree0 alignment0.
  assert (forall path c n,
            node_at (tree self) path = Some c -> is_terminal c = true ->
            name_to_nodeindex self !! path = Some n ->
            (n < ntips self)%nat /\
            exists head sequence,
              name c = Some head /\
              dict_of_pairs (alignment self) !! head = Some sequence /\
              String.length sequence = (3 * nsites self)%nat /\
              forall r, (r < nsites self)%nat ->
                String.length (substring (3 * r) 3 sequence) = 3%nat /\
                site_encoded self n sequence r) as Htips.
  { intros path c n Hc Hterm Hn.
    destruct (Henc path c n Hc Hterm Hn)
      as (Hlt & head & sequence & Hname & Hseq & Hsites).
    split; [done|]. exists head, sequence.
    pose proof (Hlens _ _ (dict_of_pairs_lookup _ _ _ Hseq)) as Hlen.
    do 3 (split; [done|]). intros r Hr. split; [|by apply Hsites].
    apply length_substring. lia. }
  split; [exact Htips|].
  assert (forall head sequence r,
            dict_of_pairs (alignment self) !! head = Some sequence ->
            (r < nsites self)%nat ->
            substring (3 * r) 3 sequence = "---"%string \/
            is_Some (CODON_TO_INDEX !! substring (3 * r) 3 sequence)) as Hread;
    [|split; [exact Hread|];
      intros Hnodup head sequence r Hin Hr;
      apply (Hread head sequence r); [by apply dict_of_pairs_rows | done]].
  intros head sequence r Hseq Hr.
  destruct (proj1 (Hnames head)) as (c & Hc & Hname).
  { exists sequence. by apply dict_of_pairs_lookup. }
  unfold get_terminals in Hc. apply list_elem_of_In, filter_In in Hc as [Hc Hterm].
  apply list_elem_of_In, list_elem_of_fmap in Hc as ([path c'] & -> & Hpc).
  cbn in Hterm, Hname.
  apply elem_of_preorder in Hpc as (rel & Hpath & Hrel). cbn in Hpath. subst rel.
  destruct (Hnodes path c' Hrel) as (n & Hn & _).
  destruct (Htips path c' n Hrel Hterm Hn)
    as (_ & head' & sequence' & Hname' & Hseq' & _ & Hsites).
  assert (head' = head) as -> by congruence.
  assert (sequence' = sequence) as -> by congruence.
  destruct (Hsites r Hr) as (_ & gp & _ & [(Hgap & _)|(_ & _ & x & Hx & _)]).
  - by left.
  - right. by exists x.
Qed.

End Reachable.

Section UpdateParams.
Context `{FL : Float} `{MO : !ModelOps} `{CO : Constants}.

(** C5, as the code has it: an assignment with a key that is not a free
    parameter of the model makes [updateParams] raise, and leaves the
    cached quantities, the structure and the cached flat array as they
    were, without running the kernel; when no key of the assignment is a
    free parameter the error is [RuntimeError] and nothing at all has
    changed; otherwise the model keys have been forwarded to the model's
    update before the error is raised, which is that of the model's update
    if it fails and [RuntimeError] if not. *)
Theorem updateParams_other_key (self : TreeLikelihood)
    (newvalues : gmap string pyval) (param : string)
    (Hin : is_Some (newvalues !! param))
    (Hother : param ∉ freeparams (model self)) :
  exists x self',
    updateParams newvalues self = Exc x self' /\
    cached self' = cached self /\ structure self' = structure self /\
    _paramsarray self' = _paramsarray self /\
    let modelparams :=
      filter (fun kv => kv.1 ∈ freeparams (model self)) newvalues in
    if decide (modelparams = ∅) then x = RuntimeError /\ self' = self
    else calls self' = calls self ++ [ModelUpdateParams] /\
         model self' = final (model_updateParams modelparams (model self)) /\
         x = default RuntimeError
               (raised (model_updateParams modelparams (model self))).
Proof.
  destruct Hin as [v Hv].
  assert (filter (fun kv : string * pyval => kv.1 ∉ freeparams (model self))
                 newvalues <> ∅) as Hne.
  { intros Hempty.
    assert (filter (fun kv : string * pyval => kv.1 ∉ freeparams (model self))
                   newvalues !! param = Some v) as Hlk
      by (by apply map_lookup_filter_Some).
    by rewrite Hempty, lookup_empty in Hlk. }
  unfold updateParams, bind, get. cbn zeta.
  destruct (decide (filter _ newvalues = ∅)) as [Hm|Hm].
  - cbn. destruct (decide (filter _ newvalues = ∅)) as [?|_]; [done|].
    cbn. exists RuntimeError, self. by destruct self.
  - unfold modify, zoom. cbn.
    destruct (model_updateParams _ (model self)) as [[] m'|x m'] eqn:Hupd; cbn.
    + destruct (decide (filter _ newvalues = ∅)) as [?|_]; [done|]. cbn.
      eexists _, _. split; [done|]. by cbn.
    + eexists _, _. split; [done|]. by cbn.
Qed.

End UpdateParams.
End TreeLikelihoodProperties.

(** ** More on the update protocol *)

Module ProtocolMore.
Import TreeLik TreeFacts TreeLikFacts ConstructionFacts ProtocolFacts FrameFacts
       ConstructionMore ReachFacts.

Section Protocol.
Context `{FL : Float} `{MO : !ModelOps} `{CO : Constants}.
Implicit Types (s self : TreeLikelihood).

(** *** A call of [updateParams] that returns *)

Lemma filter_complement_empty (newvalues : gmap string pyval) (P : string -> Prop)
    `{!forall p, Decision (P p)} :
  filter (fun kv : string * pyval => ~ P kv.1) newvalues = ∅ ->
  filter (fun kv : string * pyval => P kv.1) newvalues = newvalues /\
  forall p, is_Some (newvalues !! p) -> P p.
Proof.
  intros Hempty.
  assert (forall p v, newvalues !! p = Some v -> P p) as Hall.
  { intros p v Hp. destruct (decide (P p)) as [|Hn]; [done|].
    assert (filter (fun kv : string * pyval => ~ P kv.1) newvalues !! p = Some v)
      as Hlk by (by apply map_lookup_filter_Some).
    by rewrite Hempty, lookup_empty in Hlk. }
  split.
  - apply map_filter_id. intros p v Hp. by apply (Hall p v).
  - intros p [v Hp]. by apply (Hall p v).
Qed.

(** The steps a returning call has gone through. *)
Lemma updateParams_Ret s newvalues s' :
  updateParams newvalues s = Ret tt s' ->
  filter (fun kv : string * pyval => kv.1 ∉ freeparams (model s)) newvalues = ∅ /\
  if decide (newvalues = ∅) then s' = s
  else exists m' s0 s2,
      model_updateParams newvalues (model s) = Ret tt m' /\
      inputs s' = (structure s, m', None,
                   calls s ++ [ModelUpdateParams; UpdateInternals]) /\
      _updateInternals s0 = Ret tt s2 /\ s' = set__paramsarray None s2.
Proof.
  unfold updateParams. intros Hret.
  apply bind_Ret_inv in Hret as (? & ? & [= <- <-] & Hret). cbv zeta in Hret.
  apply bind_Ret_inv in Hret as ([] & s1 & Hmodel & Hret).
  apply bind_Ret_inv in Hret as ([] & s2 & Hother & Hret).
  destruct (decide (filter (fun kv : string * pyval => kv.1 ∉ freeparams (model s))
                           newvalues = ∅)) as [Hnone|]; [|done].
  injection Hother as <-. split; [done|].
  destruct (filter_complement_empty newvalues (fun p => p ∈ freeparams (model s)) Hnone)
    as [Hall _].
  rewrite Hall in Hmodel.
  destruct (decide (newvalues = ∅)) as [Hnv|Hnv].
  - by injection Hmodel as <-; injection Hret as <-.
  - apply bind_Ret_inv in Hmodel as ([] & s0 & [= <-] & Hmodel).
    unfold zoom in Hmodel. cbn in Hmodel.
    destruct (model_updateParams newvalues (model s)) as [[] m'|x m'] eqn:Hupd;
      [|done].
    injection Hmodel as <-.
    apply bind_Ret_inv in Hret as ([] & s3 & Hkernel & [= <-]).
    exists m', (set_model m' (set_calls (calls s ++ [ModelUpdateParams]) s)), s3.
    split; [done|]. split; [|done].
    pose proof (updateInternals_keeps
                  (set_model m' (set_calls (calls s ++ [ModelUpdateParams]) s))) as Hk.
    rewrite Hkernel in Hk. cbn [final] in Hk.
    apply inputs_parts in Hk as (Hst & Hm & _ & Hca).
    unfold inputs. cbn. cbn in Hst, Hm, Hca.
    change (structure (set__paramsarray None s3)) with (structure s3).
    rewrite Hst, Hm, Hca, <- app_assoc. done.
Qed.

(** *** Reading [paramsarray] *)

(** The array read is in the cache afterwards, and nothing else has
    changed. *)
Lemma paramsarray_Ret s a s1 :
  paramsarray s = Ret a s1 -> s1 = set__paramsarray (Some a) s.
Proof.
  intros Hread.
  apply (wp_Ret _ (fun a s' => s' = set__paramsarray (Some a) s) any _ _ _) in Hread;
    [done|].
  unfold paramsarray. wp_go.
  destruct (_paramsarray s) as [a0|] eqn:Hpa.
  - wp_go. destruct s. cbn in *. by subst.
  - wp_go.
    eapply wp_post;
      [apply (wp_foldM _ (fun _ a s' => s' = set__paramsarray (Some a) s)) | ].
    + done.
    + intros pre [i param] post a0 s' _ ->. wp_go.
      wp_read v Hv. wp_setitem Hi. done.
    + done.
Qed.

(** The array read holds the values of the model, whether it comes from
    an up-to-date cache or is built anew. *)
Lemma paramsarray_reflects s slots :
  _index_to_param s = enumerate slots -> cache_fresh s ->
  wp paramsarray (fun a _ => reflects s a) any s.
Proof.
  intros Hslots Hfresh. unfold paramsarray. wp_go.
  destruct (_paramsarray s) as [a0|] eqn:Hpa.
  - wp_go. by apply Hfresh.
  - wp_go. unfold reflects. rewrite Hslots.
    eapply wp_post;
      [apply (wp_foldM _ (fun pre a s' =>
                model s' = model s /\ length a = length slots /\
                forall i param, (i, param) ∈ pre ->
                  exists x, a !! i = Some x /\
                            slot_value (model s) param = inr x)) | ].
    + split; [done|]. split; [by rewrite length_replicate, length_enumerate|].
      by intros i param ?%elem_of_nil.
    + intros pre [i param] post a s' Hen (Hm & Hlen & Hpre).
      destruct (enumerate_middle _ _ _ _ _ Hen) as (Hi & _ & Hlt).
      wp_go. wp_read v Hv. wp_setitem Hia. cbn.
      split; [done|]. split; [by rewrite length_insert|].
      intros k param' [Hin|Hin%list_elem_of_singleton]%elem_of_app.
      * destruct (Hpre _ _ Hin) as (x & Hx & Hval).
        destruct (Hlt _ _ Hin) as [Hk _].
        exists x. split; [|done]. rewrite list_lookup_insert_ne by lia. done.
      * injection Hin as -> ->. exists v. rewrite Hm in Hv.
        split; [|done]. by rewrite list_lookup_insert_eq.
    + intros a s' (_ & Hlen & Hall).
      apply Forall2_same_length_lookup_2; [by rewrite length_enumerate|].
      intros i [k param] x Hit Hx. rewrite lookup_enumerate in Hit.
      destruct (slots !! i) as [param'|] eqn:Hs; [|done]. injection Hit as <- <-.
      destruct (Hall i param') as (x' & Hx' & Hval).
      { by apply elem_of_enumerate. }
      cbn. congruence.
Qed.

(** *** A call of the setter that returns *)

Lemma set_paramsarray_Ret s value s' :
  set_paramsarray value s = Ret tt s' ->
  length value = length (_index_to_param s) /\
  (s' = s \/
   exists newvalues s1 a s2,
     updateParams newvalues s = Ret tt s1 /\ paramsarray s1 = Ret a s2 /\
     s' = set__paramsarray (Some a) s2).
Proof.
  unfold set_paramsarray. intros Hret.
  apply bind_Ret_inv in Hret as (? & ? & [= <- <-] & Hret). cbv zeta in Hret.
  apply bind_Ret_inv in Hret as (? & ? & [Hlen ->]%assert_Ret_inv & Hret).
  apply Nat.eqb_eq in Hlen. split; [done|].
  apply bind_Ret_inv in Hret as (unchanged & s0 & Hun & Hret).
  assert (s0 = s) as ->.
  { destruct (_paramsarray s); [|by injection Hun as _ <-].
    by apply (reads_Ret _ _ _ _ (reads_lift _)) in Hun. }
  destruct unchanged; [left; by injection Hret as <-|]. right.
  apply bind_Ret_inv in Hret as ([newvalues vectorized_params] & s0 & Hcollect & Hret).
  apply reads_Ret in Hcollect as ->;
    [|apply reads_foldM; intros; apply collect_reads].
  apply bind_Ret_inv in Hret as (newvalues' & s0 & Hassemble & Hret).
  apply reads_Ret in Hassemble as ->;
    [|apply reads_foldM; intros; apply assemble_reads].
  apply bind_Ret_inv in Hret as ([] & s1 & Hupdate & Hret).
  apply bind_Ret_inv in Hret as (a & s2 & Hread & [= <-]).
  by exists newvalues', s1, a, s2.
Qed.

(** *** The cache is never stale *)

Lemma cache_fresh_set s a :
  reflects s a -> cache_fresh (set__paramsarray (Some a) s).
Proof. intros Ha a' [= <-]. exact Ha. Qed.

Lemma reachable_fresh tree0 alignment0 model0 self :
  reachable tree0 alignment0 model0 self -> cache_fresh self.
Proof.
  assert (forall s nv s1, reachable tree0 alignment0 model0 s -> cache_fresh s ->
            updateParams nv s = Ret tt s1 -> cache_fresh s1) as Hupdate.
  { intros s nv s1 _ Hfresh Hcall.
    destruct (updateParams_Ret _ _ _ Hcall) as [_ Hcases].
    destruct (decide (nv = ∅)); [by subst|].
    destruct Hcases as (m' & ? & ? & _ & Hin & _).
    assert (_paramsarray s1 = None) as Hnone.
    { revert Hin. unfold inputs. generalize (structure s1), (structure s).
      by intros ? ? [=]. }
    intros a Ha. congruence. }
  assert (forall s a s1, reachable tree0 alignment0 model0 s -> cache_fresh s ->
            paramsarray s = Ret a s1 ->
            s1 = set__paramsarray (Some a) s /\ reflects s a) as Hread.
  { intros s a s1 Hreach Hfresh Hcall.
    split; [by apply paramsarray_Ret|].
    destruct (TreeLikelihoodProperties.reachable_invariant _ _ _ _ Hreach)
      as (_ & _ & _ & _ & _ & _ & Hip & _).
    exact (wp_Ret _ _ _ _ _ _ (paramsarray_reflects s _ Hip Hfresh) Hcall). }
  induction 1 as [self Hinit
                 |self newvalues self' Hreach IH Hcall
                 |self value self' Hreach IH Hcall
                 |self a self' Hreach IH Hcall].
  - unfold __init__ in Hinit.
    destruct (init_body _) as [[] s|x s] eqn:Hbody; [|discriminate].
    injection Hinit as ->.
    pose proof (wp_Ret _ _ _ _ _ _ (init_body_spec tree0 alignment0 model0) Hbody)
      as (_ & _ & _ & _ & _ & _ & _ & _ & Hpa & _).
    intros a Ha. congruence.
  - by eapply Hupdate.
  - destruct (set_paramsarray_Ret _ _ _ Hcall)
      as [_ [->|(nv & s1 & a & s2 & Hup & Hrd & ->)]]; [done|].
    assert (reachable tree0 alignment0 model0 s1) as Hreach1
      by (by eapply reachable_updateParams).
    destruct (Hread s1 a s2 Hreach1 (Hupdate _ _ _ Hreach IH Hup) Hrd) as [-> Ha].
    by apply cache_fresh_set.
  - destruct (Hread self a self' Hreach IH Hcall) as [-> Ha].
    by apply cache_fresh_set.
Qed.

(** Reading [paramsarray] returns when every slot has a value in the
    model. *)
Lemma paramsarray_returns s slots :
  _index_to_param s = enumerate slots ->
  (forall param, param ∈ slots -> exists x, slot_value (model s) param = inr x) ->
  exists a s1, paramsarray s = Ret a s1.
Proof.
  intros Hslots Hvalues.
  assert (wp paramsarray (fun _ _ => True) (fun _ _ => False) s) as Hwp.
  { unfold paramsarray. apply wp_bind, wp_get.
    destruct (_paramsarray s) as [a0|]; [by apply wp_ret|].
    apply wp_bind, wp_modify. rewrite Hslots.
    eapply wp_mono;
      [apply (wp_foldM _ (fun _ a s' => model s' = model s /\
                                         length a = length slots)
                         (fun _ _ => False)) | done | done].
    - split; [done|]. by rewrite length_replicate, length_enumerate.
    - intros pre [i param] post a s' Hen (Hm & Hlen).
      destruct (enumerate_middle _ _ _ _ _ Hen) as (Hi & Hparam & _).
      apply wp_bind, wp_get. rewrite Hm.
      destruct (Hvalues param) as [x ->]; [by eapply list_elem_of_lookup_2|].
      apply wp_bind, wp_lift; [|done]. intros ? [= <-].
      apply wp_bind, wp_setitem.
      + intros _. apply wp_bind, wp_modify, wp_ret.
        split; [done|]. by rewrite length_insert.
      + apply lookup_lt_Some in Hparam. lia. }
  unfold wp in Hwp. destruct (paramsarray s) as [a s1|x s1]; [|done].
  by exists a, s1.
Qed.

(** *** The gradient *)




(** *** [dloglikarray] *)

Lemma dloglikarray_spec s slots :
  _index_to_param s = enumerate slots ->
  wp dloglikarray
     (fun a _ =>
        length a = length slots /\
        forall i param, slots !! i = Some param ->
          exists d x, dloglik s !! slot_name param = Some d /\
                      darr_get d (slot_index param) = inr x /\
                      a !! i = Some x)
     any s.
Proof.
  intros Hslots. unfold dloglikarray. wp_go. cbv zeta. rewrite Hslots.
  eapply wp_post;
    [apply (wp_foldM _ (fun pre a s' =>
              length a = length slots /\
              forall i param, (i, param) ∈ pre ->
                exists d x, dloglik s !! slot_name param = Some d /\
                            darr_get d (slot_index param) = inr x /\
                            a !! i = Some x)) | ].
  - split; [by rewrite length_replicate, length_enumerate|].
    by intros i param ?%elem_of_nil.
  - intros pre [i param] post a s' Hen (Hlen & Hpre).
    destruct (enumerate_middle _ _ _ _ _ Hen) as (Hi & _ & Hlt).
    wp_read d Hd. wp_read v Hv. wp_setitem Hia.
    split; [by rewrite length_insert|].
    intros k param' [Hin|Hin%list_elem_of_singleton]%elem_of_app.
    + destruct (Hpre _ _ Hin) as (d' & x & Hd' & Hx & Ha).
      destruct (Hlt _ _ Hin) as [Hk _].
      exists d', x. split; [done|]. split; [done|].
      rewrite list_lookup_insert_ne by lia. done.
    + injection Hin as -> ->. exists d, v. split; [done|].
      split; [by destruct param|]. by rewrite list_lookup_insert_eq.
  - intros a s' (Hlen & Hall). split; [done|].
    intros i param Hi. apply Hall. by apply elem_of_enumerate.
Qed.

(** *** The slots of the flat parameter map *)

Lemma elem_of_concat {A} (x : A) (ls : list (list A)) :
  x ∈ concat ls <-> exists l, x ∈ l /\ l ∈ ls.
Proof.
  induction ls as [|l ls IH]; cbn.
  - split; [by intros ?%elem_of_nil | by intros (l & _ & ?%elem_of_nil)].
  - rewrite elem_of_app, IH. split.
    + intros [Hin|(l' & Hin & Hl')].
      * exists l. split; [done | by left].
      * exists l'. split; [done | by right].
    + intros (l' & Hin & [->|Hl']%elem_of_cons); [by left|].
      right. by exists l'.
Qed.

Lemma elem_of_slots_of (m : Model) p param :
  param ∈ slots_of m p <->
  (param = Scalar p /\ exists x, getattr m p = Some (PFloat x)) \/
  (exists k a, param = Component p k /\ getattr m p = Some (PArray a) /\
               (k < length a)%nat).
Proof.
  unfold slots_of. destruct (getattr m p) as [[x|a|y|]|].
  - rewrite list_elem_of_singleton. split.
    + intros ->. left. split; [done|]. by exists x.
    + intros [[-> _]|(k & a & _ & ? & _)]; done.
  - rewrite list_elem_of_fmap. split.
    + intros (k & -> & Hk%elem_of_seq). right. exists k, a.
      split; [done|]. split; [done|]. lia.
    + intros [[_ [x ?]]|(k & a' & -> & [= <-] & Hk)]; [done|].
      exists k. split; [done|]. apply elem_of_seq. lia.
  - split; [by intros ?%elem_of_nil|].
    intros [[_ [x ?]]|(k & a & _ & ? & _)]; done.
  - split; [by intros ?%elem_of_nil|].
    intros [[_ [x ?]]|(k & a & _ & ? & _)]; done.
  - split; [by intros ?%elem_of_nil|].
    intros [[_ [x ?]]|(k & a & _ & ? & _)]; done.
Qed.

Lemma elem_of_flat_slots (m : Model) param :
  param ∈ flat_slots m <->
  slot_name param ∈ freeparams m /\ param ∈ slots_of m (slot_name param).
Proof.
  unfold flat_slots. rewrite elem_of_concat. split.
  - intros (l & Hin & Hl). apply list_elem_of_fmap in Hl as (p & -> & Hp).
    assert (slot_name param = p) as ->; [|done].
    apply elem_of_slots_of in Hin as [[-> _]|(k & a & -> & _)]; done.
  - intros [Hp Hin]. exists (slots_of m (slot_name param)). split; [done|].
    apply list_elem_of_fmap. by exists (slot_name param).
Qed.

Lemma NoDup_slots_of (m : Model) p : NoDup (slots_of m p).
Proof.
  unfold slots_of. destruct (getattr m p) as [[x|a|y|]|].
  - apply NoDup_singleton.
  - apply NoDup_fmap_2; [by intros k k' [=] | apply NoDup_seq].
  - constructor.
  - constructor.
  - constructor.
Qed.

Lemma NoDup_flat_slots (m : Model) :
  NoDup (freeparams m) -> NoDup (flat_slots m).
Proof.
  unfold flat_slots. induction 1 as [|p params Hp _ IH]; cbn; [constructor|].
  apply NoDup_app. split; [apply NoDup_slots_of|]. split; [|done].
  intros param Hin Hin'. apply elem_of_concat in Hin' as (l & Hin' & Hl).
  apply list_elem_of_fmap in Hl as (q & -> & Hq).
  assert (slot_name param = p) as Hname
    by (apply elem_of_slots_of in Hin as [[-> _]|(k & a & -> & _)]; done).
  assert (slot_name param = q) as Hname'
    by (apply elem_of_slots_of in Hin' as [[-> _]|(k & a & -> & _)]; done).
  congruence.
Qed.

(** *** The assignment the setter builds *)

(** The first loop of the setter over slots that are all different: it
    never raises, leaves the state alone, and files the element of every
    scalar slot under its parameter and the element of every component
    under its parameter and position. *)
Lemma collect_spec s (value : list F) (slots : list slot) :
  NoDup slots -> length value = length slots ->
  wp (foldM (collect value) (enumerate slots) (∅, ∅))
     (fun acc s' =>
        s' = s /\
        (forall p v, acc.1 !! p = Some v <->
           exists i x, slots !! i = Some (Scalar p) /\ value !! i = Some x /\
                       v = PFloat x) /\
        (forall p k x, (acc.2 !! p ≫= (.!! k)) = Some x <->
           exists i, slots !! i = Some (Component p k) /\ value !! i = Some x) /\
        (forall p paramd, acc.2 !! p = Some paramd -> paramd <> ∅))
     (fun _ _ => False) s.
Proof.
  intros Hnodup Hlen.
  assert (forall i i' param, slots !! i = Some param -> slots !! i' = Some param ->
            i = i') as Hpos.
  { intros i i' param Hi Hi'. by eapply NoDup_lookup. }
  eapply wp_returns;
    [apply (wp_foldM _ (fun pre acc s' =>
              s' = s /\
              (forall p v, acc.1 !! p = Some v <->
                 exists i x, (i, Scalar p) ∈ pre /\ value !! i = Some x /\
                             v = PFloat x) /\
              (forall p k x, (acc.2 !! p ≫= (.!! k)) = Some x <->
                 exists i, (i, Component p k) ∈ pre /\ value !! i = Some x) /\
              (forall p paramd, acc.2 !! p = Some paramd -> paramd <> ∅))) | ].
  - split; [done|]. split; [|split].
    + intros p v. cbn. rewrite lookup_empty. split; [done|].
      by intros (i & x & ?%elem_of_nil & _).
    + intros p k x. cbn. rewrite lookup_empty. split; [done|].
      by intros (i & ?%elem_of_nil & _).
    + intros p paramd. cbn. by rewrite lookup_empty.
  - intros pre [i param] post [nv vp] s' Hen (-> & Hnv & Hvp & Hne).
    destruct (enumerate_middle _ _ _ _ _ Hen) as (Hi & Hparam & Hpre).
    cbn [fst snd] in *.
    assert (exists x, value !! i = Some x) as [x Hx].
    { apply lookup_lt_is_Some. apply lookup_lt_Some in Hparam. lia. }
    assert (forall j param', (j, param') ∈ pre ++ [(i, param)] <->
              (j, param') ∈ pre \/ (j = i /\ param' = param)) as Hmem.
    { intros j param'. rewrite elem_of_app, list_elem_of_singleton.
      split; (intros [?|?]; [by left|right]); [by simplify_eq | by destruct_and!; subst]. }
    assert (forall j, (j, param) ∈ pre -> False) as Hfresh.
    { intros j Hj. destruct (Hpre _ _ Hj) as [Hlt Hj'].
      pose proof (Hpos _ _ _ Hj' Hparam). lia. }
    unfold collect. apply wp_bind, wp_index.
    2: { intros Herr. apply py_index_nat in Hx. congruence. }
    intros x' Hx'. apply py_index_nat in Hx'. assert (x' = x) as -> by congruence.
    destruct param as [p|p k].
    + apply wp_ret. cbn [fst snd]. split; [done|]. split; [|split; [|done]].
      * intros q v. destruct (decide (q = p)) as [->|Hqp].
        -- rewrite lookup_insert_eq. split.
           ++ intros [= <-]. exists i, x. rewrite Hmem. auto.
           ++ intros (j & y & [Hj|[-> _]]%Hmem & Hy & ->);
                [by destruct (Hfresh j) | congruence].
        -- rewrite lookup_insert_ne by done. rewrite Hnv.
           split; intros (j & y & Hj & Hy); exists j, y; (split; [|done]).
           ++ apply Hmem. by left.
           ++ apply Hmem in Hj as [?|[_ ?]]; [done | congruence].
      * intros q k y. rewrite Hvp.
        split; intros (j & Hj & Hy); exists j; (split; [|done]).
        -- apply Hmem. by left.
        -- apply Hmem in Hj as [?|[_ ?]]; [done | congruence].
    + assert (wp (ret (nv, <[p := <[k := x]> (default ∅ (vp !! p))]> vp)
                    : Py TreeLikelihood _)
                 (fun acc s' =>
                    s' = s /\
                    (forall q v, acc.1 !! q = Some v <->
                       exists j y, (j, Scalar q) ∈ pre ++ [(i, Component p k)] /\
                                   value !! j = Some y /\ v = PFloat y) /\
                    (forall q k' y, (acc.2 !! q ≫= (.!! k')) = Some y <->
                       exists j, (j, Component q k') ∈ pre ++ [(i, Component p k)] /\
                                 value !! j = Some y) /\
                    (forall q paramd, acc.2 !! q = Some paramd -> paramd <> ∅))
                 (fun _ _ => False) s) as Hret.
      { apply wp_ret. cbn [fst snd]. split; [done|]. split; [|split].
        - intros q v. rewrite Hnv.
          split; intros (j & y & Hj & Hy); exists j, y; (split; [|done]).
          + apply Hmem. by left.
          + apply Hmem in Hj as [?|[_ ?]]; [done | congruence].
        - intros q k' y. destruct (decide (q = p)) as [->|Hqp].
          + rewrite lookup_insert_eq. cbn.
            destruct (decide (k' = k)) as [->|Hk].
            * rewrite lookup_insert_eq. split.
              -- intros [= <-]. exists i. rewrite Hmem. auto.
              -- intros (j & [Hj|[-> _]]%Hmem & Hy);
                   [by destruct (Hfresh j) | congruence].
            * rewrite lookup_insert_ne by done.
              assert (default ∅ (vp !! p) !! k' = (vp !! p ≫= (.!! k'))) as ->.
              { destruct (vp !! p); [done|]. cbn. by rewrite lookup_empty. }
              rewrite Hvp.
              split; intros (j & Hj & Hy); exists j; (split; [|done]).
              -- apply Hmem. by left.
              -- apply Hmem in Hj as [?|[_ ?]]; [done | congruence].
          + rewrite lookup_insert_ne by done. rewrite Hvp.
            split; intros (j & Hj & Hy); exists j; (split; [|done]).
            * apply Hmem. by left.
            * apply Hmem in Hj as [?|[_ ?]]; [done | congruence].
        - intros q paramd. destruct (decide (q = p)) as [->|Hqp].
          + rewrite lookup_insert_eq. intros [= <-]. apply insert_non_empty.
          + rewrite lookup_insert_ne by done. apply Hne. }
      destruct (vp !! p) as [paramd|] eqn:Hp; [|exact Hret].
      apply wp_bind, wp_assert; [intros _; exact Hret|].
      intros Hfalse. apply bool_decide_eq_false in Hfalse.
      destruct (paramd !! k) as [y|] eqn:Hk; [|done].
      destruct (proj1 (Hvp p k y)) as (j & Hj & _); [by rewrite Hp|].
      by destruct (Hfresh j).
  - intros [nv vp] s' (-> & Hnv & Hvp & Hne). cbn [fst snd] in *.
    split; [done|]. split; [|split; [|done]].
    + intros p v. rewrite Hnv. split; intros (i & x & Hi & Hrest); exists i, x.
      * split; [by apply elem_of_enumerate|done].
      * split; [by apply elem_of_enumerate|done].
    + intros p k x. rewrite Hvp. split; intros (i & Hi & Hrest); exists i.
      * split; [by apply elem_of_enumerate|done].
      * split; [by apply elem_of_enumerate|done].
Qed.

(** The second loop of the setter, when the components filed under every
    vector parameter are those of the positions below its length: it never
    raises, leaves the state alone, and adds every vector parameter with the
    array of its components in order. *)
Lemma assemble_spec s (nv : gmap string pyval) (vp : gmap string (gmap nat F))
    (len : string -> nat) :
  (forall p paramd, vp !! p = Some paramd ->
     forall k, is_Some (paramd !! k) <-> (k < len p)%nat) ->
  wp (foldM assemble (map_to_list vp) nv)
     (fun nv' s' =>
        s' = s /\
        forall q, match vp !! q with
                  | Some paramd =>
                      exists a, nv' !! q = Some (PArray a) /\ length a = len q /\
                                forall k, a !! k = paramd !! k
                  | None => nv' !! q = nv !! q
                  end)
     (fun _ _ => False) s.
Proof.
  intros Hdom.
  pose proof (NoDup_fst_map_to_list vp) as Hnodup.
  eapply wp_returns;
    [apply (wp_foldM _ (fun pre nv' s' =>
              s' = s /\
              forall q, match vp !! q with
                        | Some paramd =>
                            if decide (q ∈ pre.*1) then
                              exists a, nv' !! q = Some (PArray a) /\
                                        length a = len q /\
                                        forall k, a !! k = paramd !! k
                            else nv' !! q = nv !! q
                        | None => nv' !! q = nv !! q
                        end)) | ].
  - split; [done|]. intros q. destruct (vp !! q); [|done].
    destruct (decide (q ∈ _)) as [Hin|_]; [|done]. by apply elem_of_nil in Hin.
  - intros pre [p paramd] post nv' s' Hlist (-> & Hinv).
    assert (vp !! p = Some paramd) as Hp.
    { apply elem_of_map_to_list. rewrite Hlist, elem_of_app. right. by left. }
    assert (p ∉ pre.*1) as Hfresh.
    { rewrite Hlist, fmap_app in Hnodup. apply NoDup_app in Hnodup as (_ & Hdis & _).
      intros Hin. apply (Hdis p Hin). cbn. by left. }
    pose proof (Hdom p paramd Hp) as Hkeys.
    assert (dom paramd = list_to_set (seq 0 (len p))) as Hd.
    { apply set_eq. intros k. rewrite elem_of_dom, Hkeys, elem_of_list_to_set, elem_of_seq.
      lia. }
    assert (size paramd = len p) as Hsize.
    { rewrite <- size_dom, Hd, size_list_to_set by apply NoDup_seq.
      apply length_seq. }
    unfold assemble. apply wp_bind, wp_assert.
    2: { intros Hf. apply bool_decide_eq_false in Hf. by rewrite Hsize in Hf. }
    intros _. rewrite Hsize. apply wp_bind.
    eapply wp_returns;
      [apply (wp_foldM _ (fun done a s' =>
                s' = s /\ length a = length done /\
                forall k, (k < length done)%nat -> a !! k = paramd !! k)) | ].
    + split; [done|]. split; [done|]. cbn. intros k Hk. lia.
    + intros done k rest a s' Hseq (-> & Hlen & Ha).
      destruct (seq_middle _ _ _ _ _ Hseq) as (Hk & Hlt & _). cbn in Hk.
      apply wp_bind, wp_getitem.
      2: { intros Hnone. destruct (proj2 (Hkeys k)) as [x Hx]; [lia | congruence]. }
      intros x Hx. apply wp_ret. split; [done|].
      rewrite !length_app. cbn. split; [lia|].
      intros k' Hk'. destruct (decide (k' = k)) as [->|Hne].
      * rewrite lookup_app_r by lia.
        replace (k - length a)%nat with 0%nat by lia. done.
      * rewrite lookup_app_l by lia. apply Ha. lia.
    + intros a s' (-> & Hlen & Ha). rewrite length_seq in Hlen, Ha.
      apply wp_ret. split; [done|]. intros q.
      rewrite fmap_app. cbn.
      destruct (decide (q = p)) as [->|Hqp].
      * rewrite Hp. rewrite decide_True by (apply elem_of_app; right; by left).
        exists a. rewrite lookup_insert_eq. split; [done|]. split; [done|].
        intros k. destruct (decide (k < len p)%nat) as [Hk|Hk]; [by apply Ha|].
        rewrite lookup_ge_None_2 by lia. symmetry.
        apply eq_None_not_Some. rewrite Hkeys. lia.
      * rewrite lookup_insert_ne by done. specialize (Hinv q).
        destruct (vp !! q) as [pd|]; [|done].
        destruct (decide (q ∈ pre.*1)) as [Hin|Hnin].
        -- rewrite decide_True by (apply elem_of_app; by left). done.
        -- rewrite decide_False; [done|].
           intros [?|Hin%list_elem_of_singleton]%elem_of_app; done.
  - intros nv' s' (-> & Hinv). split; [done|]. intros q. specialize (Hinv q).
    destruct (vp !! q) as [pd|] eqn:Hq; [|done].
    rewrite decide_True in Hinv; [done|].
    apply list_elem_of_fmap. exists (q, pd). split; [done|].
    by apply elem_of_map_to_list.
Qed.

(** The setter, given an array of the right length that is not the
    cached one, passes to [updateParams] an assignment with the element of
    every scalar slot, and for every vector parameter the array of the
    elements of its components. *)
Lemma setter_assignment s (value : list F) (m : Model) :
  _index_to_param s = enumerate (flat_slots m) ->
  NoDup (freeparams m) ->
  length value = length (flat_slots m) ->
  (forall a, _paramsarray s = Some a -> all_equal value a = inr false) ->
  exists newvalues : gmap string pyval,
    set_paramsarray value s
    = (updateParams newvalues >>
       do a <- paramsarray; modify (set__paramsarray (Some a))) s /\
    (forall i p x, flat_slots m !! i = Some (Scalar p) -> value !! i = Some x ->
       newvalues !! p = Some (PFloat x)) /\
    (forall i p k x, flat_slots m !! i = Some (Component p k) ->
       value !! i = Some x ->
       exists a, newvalues !! p = Some (PArray a) /\ a !! k = Some x /\
                 forall a0, getattr m p = Some (PArray a0) -> length a = length a0) /\
    (forall p, is_Some (newvalues !! p) ->
       exists i param, flat_slots m !! i = Some param /\ slot_name param = p).
Proof.
  intros Hslots Hnodup Hlen Hchanged.
  set (slots := flat_slots m) in *.
  set (len := fun p => match getattr m p with Some (PArray a) => length a | _ => 0%nat end).
  pose proof (collect_spec s value slots (NoDup_flat_slots m Hnodup) Hlen) as Hcollect.
  unfold wp in Hcollect.
  destruct (foldM (collect value) (enumerate slots) (∅, ∅) s)
    as [[nv vp] s1|x s1] eqn:Hfold1; [|done].
  destruct Hcollect as (-> & Hnv & Hvp & Hne). cbn [fst snd] in *.
  assert (forall i param, slots !! i = Some param -> is_Some (value !! i)) as Hval.
  { intros i param Hi. apply lookup_lt_is_Some. apply lookup_lt_Some in Hi. lia. }
  assert (forall p k, (exists i, slots !! i = Some (Component p k)) <->
            p ∈ freeparams m /\ exists a, getattr m p = Some (PArray a) /\
                                          (k < length a)%nat) as Hcomp.
  { intros p k. split.
    - intros [i Hi]. apply list_elem_of_lookup_2, elem_of_flat_slots in Hi as [Hp Hin].
      cbn in Hp, Hin. split; [done|].
      apply elem_of_slots_of in Hin as [[? _]|(k' & a & [= <-] & Ha & Hk)]; [done|].
      by exists a.
    - intros (Hp & a & Ha & Hk).
      apply list_elem_of_lookup, elem_of_flat_slots. cbn. split; [done|].
      apply elem_of_slots_of. right. by exists k, a. }
  assert (forall p paramd, vp !! p = Some paramd ->
            forall k, is_Some (paramd !! k) <-> (k < len p)%nat) as Hdom.
  { intros p paramd Hp.
    assert (forall k, is_Some (paramd !! k) <->
                      exists i, slots !! i = Some (Component p k)) as Hkeys.
    { intros k. split.
      - intros [x Hx]. destruct (proj1 (Hvp p k x)) as (i & Hi & _);
          [by rewrite Hp | by exists i].
      - intros [i Hi]. destruct (Hval _ _ Hi) as [x Hx]. exists x.
        pose proof (proj2 (Hvp p k x) (ex_intro _ i (conj Hi Hx))) as Hk.
        by rewrite Hp in Hk. }
    assert (exists k0, is_Some (paramd !! k0)) as [k0 Hk0].
    { destruct (map_choose paramd (Hne _ _ Hp)) as (k0 & x0 & Hx0). by exists k0. }
    apply Hkeys, Hcomp in Hk0 as (Hpfree & a0 & Ha0 & _).
    intros k. rewrite Hkeys, Hcomp. unfold len. rewrite Ha0. split.
    - by intros (_ & a & [= <-] & Hk).
    - intros Hk. split; [done|]. by exists a0. }
  pose proof (assemble_spec s nv vp len Hdom) as Hassemble.
  unfold wp in Hassemble.
  destruct (foldM assemble (map_to_list vp) nv s) as [nv' s1|x s1] eqn:Hfold2;
    [|done].
  destruct Hassemble as (-> & Hnv').
  exists nv'. split; [|split; [|split]].
  - unfold set_paramsarray. unfold bind at 1. cbn [get].
    rewrite Hslots, length_enumerate, Hlen, Nat.eqb_refl.
    unfold bind at 1. cbn [assert ret].
    assert ((match _paramsarray s with
             | Some a => lift (all_equal value a)
             | None => ret false
             end : Py TreeLikelihood bool) s = Ret false s) as Hun.
    { destruct (_paramsarray s) as [a|] eqn:Hpa; [|done].
      by rewrite (Hchanged a eq_refl). }
    rewrite (bind_Ret _ _ _ _ _ Hun). cbv iota.
    rewrite (bind_Ret _ _ _ _ _ Hfold1). cbv beta iota.
    by rewrite (bind_Ret _ _ _ _ _ Hfold2).
  - intros i p x Hi Hx. specialize (Hnv' p).
    destruct (vp !! p) as [paramd|] eqn:Hp.
    + exfalso. destruct (map_choose paramd (Hne _ _ Hp)) as (k0 & x0 & Hx0).
      assert (is_Some (paramd !! k0)) as Hk0 by done.
      apply (Hdom _ _ Hp) in Hk0. unfold len in Hk0.
      apply list_elem_of_lookup_2, elem_of_flat_slots in Hi as [_ Hin].
      cbn in Hin. apply elem_of_slots_of in Hin as [[_ [y Hy]]|(? & ? & ? & _)];
        [|done].
      rewrite Hy in Hk0. lia.
    + rewrite Hnv'. apply Hnv. by exists i, x.
  - intros i p k x Hi Hx.
    pose proof (proj2 (Hvp p k x) (ex_intro _ i (conj Hi Hx))) as Hk.
    specialize (Hnv' p).
    destruct (vp !! p) as [paramd|] eqn:Hp; [|done]. cbn in Hk.
    destruct Hnv' as (a & Ha & Hlena & Helems).
    exists a. split; [done|]. split; [by rewrite Helems|].
    intros a0 Ha0. rewrite Hlena. unfold len. by rewrite Ha0.
  - intros p [v Hv]. specialize (Hnv' p).
    destruct (vp !! p) as [paramd|] eqn:Hp.
    + destruct (map_choose paramd (Hne _ _ Hp)) as (k0 & x0 & Hx0).
      destruct (proj1 (Hvp p k0 x0)) as (i & Hi & _); [by rewrite Hp|].
      by exists i, (Component p k0).
    + rewrite Hnv' in Hv. apply Hnv in Hv as (i & x & Hi & _).
      by exists i, (Scalar p).
Qed.

(** *** Reading back what was assigned *)

(** The two ways the setter returns: the array compared equal to the
    cached one, or it did not and was assigned. *)
Lemma set_paramsarray_cases s value s' :
  set_paramsarray value s = Ret tt s' ->
  (s' = s /\ exists a, _paramsarray s = Some a /\ all_equal value a = inr true) \/
  (forall a, _paramsarray s = Some a -> all_equal value a = inr false).
Proof.
  unfold set_paramsarray. intros Hret.
  apply bind_Ret_inv in Hret as (? & ? & [= <- <-] & Hret). cbv zeta in Hret.
  apply bind_Ret_inv in Hret as (? & ? & [Hlen ->]%assert_Ret_inv & Hret).
  apply bind_Ret_inv in Hret as (unchanged & s0 & Hun & Hret).
  destruct (_paramsarray s) as [a|] eqn:Hcache.
  - unfold lift in Hun. destruct (all_equal value a) as [e|b] eqn:Heq; [done|].
    injection Hun as <- <-. destruct b.
    + left. injection Hret as <-. split; [done|]. by exists a.
    + right. by intros a' [= <-].
  - right. by intros a' ?.
Qed.

Lemma paramsarray_of_cache s a :
  _paramsarray s = Some a -> paramsarray s = Ret a s.
Proof. intros Hcache. unfold paramsarray, bind, get. by rewrite Hcache. Qed.

(** The values of the slots in a model that has stored an assignment
    built from [value]. *)
Lemma stored_slot_value (m' : Model) (newvalues : gmap string pyval)
    (slots : list slot) (value : list F) i param x :
  (forall p v, newvalues !! p = Some v -> getattr m' p = Some v) ->
  (forall i p x, slots !! i = Some (Scalar p) -> value !! i = Some x ->
     newvalues !! p = Some (PFloat x)) ->
  (forall i p k x, slots !! i = Some (Component p k) -> value !! i = Some x ->
     exists a, newvalues !! p = Some (PArray a) /\ a !! k = Some x) ->
  slots !! i = Some param -> value !! i = Some x ->
  slot_value m' param = inr x.
Proof.
  intros Hstored Hscalar Hcomp Hparam Hx.
  destruct param as [p|p k]; cbn.
  - by rewrite (Hstored p _ (Hscalar i p x Hparam Hx)).
  - destruct (Hcomp i p k x Hparam Hx) as (a & Ha & Hk).
    rewrite (Hstored p _ Ha). unfold py_index.
    destruct (Z.ltb_spec (Z.of_nat k) 0) as [Hneg|_]; [lia|].
    destruct (Z.ltb_spec (Z.of_nat k) 0) as [Hneg|_]; [lia|].
    by rewrite Nat2Z.id, Hk.
Qed.

(** *** The tables are a function of the structure and the model *)

Lemma structure_kernel_fields s s' :
  structure s = structure s' ->
  ntips s = ntips s' /\ nnodes s = nnodes s' /\ ninternal s = ninternal s' /\
  rdescend s = rdescend s' /\ ldescend s = ldescend s' /\ t s = t s' /\
  tips s = tips s' /\ gaps s = gaps s'.
Proof.
  unfold structure. intros Hs.
  injection Hs as _ _ _ _ _ ? ? ? ? ? ? ? ? _ _. by repeat split.
Qed.

Lemma ML_unique s s' c :
  structure s = structure s' -> model s = model s' ->
  ((c < ntips s)%nat \/ L s !! (c - ntips s)%nat = L s' !! (c - ntips s)%nat) ->
  ML s c = ML s' c.
Proof.
  intros Hs Hm HL.
  destruct (structure_kernel_fields _ _ Hs)
    as (Hnt & _ & _ & _ & _ & Ht & Htips & Hgaps).
  unfold ML. rewrite <- Hnt, <- Ht, <- Htips, <- Hgaps, <- Hm.
  destruct (t s !! c) as [tc|]; [|done]. cbn -[Nat.ltb].
  destruct (c <? ntips s)%nat eqn:Hc; [done|].
  destruct HL as [Hlt|HL]; [|by rewrite HL]. apply Nat.ltb_ge in Hc. lia.
Qed.

Lemma children_unique s s' m :
  structure s = structure s' -> children s m = children s' m.
Proof.
  intros Hs.
  destruct (structure_kernel_fields _ _ Hs) as (Hnt & _ & _ & Hr & Hl & _).
  unfold children. by rewrite Hnt, Hr, Hl.
Qed.

(** Two consistent states with the same structure and the same model have
    the same partial likelihoods. *)
Lemma L_unique s s' :
  structure s = structure s' -> model s = model s' ->
  children_below s -> consistent s -> consistent s' ->
  L s = L s'.
Proof.
  intros Hs Hm [Hnn Hbelow] (Hlen & Hnodes & _) (Hlen' & Hnodes' & _).
  destruct (structure_kernel_fields _ _ Hs) as (Hnt & Hnn' & Hni & _).
  assert (forall m, (ntips s <= m < nnodes s)%nat ->
                    L s !! (m - ntips s)%nat = L s' !! (m - ntips s)%nat) as Hall.
  { intros m. induction (lt_wf m) as [m _ IH]. intros Hrange.
    destruct (Hbelow m Hrange) as (nr & nl & Hch & Hnr & Hnl).
    destruct (Hnodes m Hrange) as [(nr1 & nl1 & MLr & MLl & Hch1 & HMLr & HMLl & HL) _].
    assert (ntips s' <= m < nnodes s')%nat as Hrange' by lia.
    destruct (Hnodes' m Hrange')
      as [(nr2 & nl2 & MLr' & MLl' & Hch2 & HMLr' & HMLl' & HL') _].
    rewrite <- (children_unique s s' m Hs) in Hch2.
    assert (nr1 = nr /\ nl1 = nl) as [-> ->] by (split; congruence).
    assert (nr2 = nr /\ nl2 = nl) as [-> ->] by (split; congruence).
    assert (forall c, (c < m)%nat -> ML s c = ML s' c) as Hchild.
    { intros c Hc. apply ML_unique; [done..|].
      destruct (decide (c < ntips s)%nat) as [?|Hge]; [by left|right].
      apply IH; lia. }
    rewrite (Hchild nr Hnr) in HMLr. rewrite (Hchild nl Hnl) in HMLl.
    rewrite <- Hnt in HL'. rewrite HL, HL'. congruence. }
  apply list_eq. intros i.
  destruct (decide (i < ninternal s)%nat) as [Hi|Hi].
  - specialize (Hall (i + ntips s)%nat ltac:(lia)).
    by replace (i + ntips s - ntips s)%nat with i in Hall by lia.
  - rewrite !lookup_ge_None_2; [done|lia..].
Qed.

(** And the same log likelihoods. *)
Lemma root_unique s s' :
  structure s = structure s' -> model s = model s' -> L s = L s' ->
  root_holds s -> root_holds s' ->
  siteloglik s = siteloglik s' /\ loglik s = loglik s'.
Proof.
  intros Hs Hm HL (Lroot & HLroot & Hsites & Hlen & Hlog)
         (Lroot' & HLroot' & Hsites' & Hlen' & Hlog').
  destruct (structure_kernel_fields _ _ Hs) as (Hnt & Hnn & _).
  rewrite <- Hnt, <- Hnn, <- HL in HLroot'.
  assert (Lroot' = Lroot) as -> by congruence.
  rewrite <- Hm in Hsites', Hlen'.
  assert (siteloglik s = siteloglik s') as Heq.
  { apply list_eq_same_length
      with (length Lroot `min` length (stationarystate (model s)))%nat;
      [done..|].
    intros r x y Hr Hx Hy.
    destruct (lookup_lt_is_Some_2 Lroot r) as [Lr HLr]; [lia|].
    destruct (lookup_lt_is_Some_2 (stationarystate (model s)) r) as [pir Hpir];
      [lia|].
    rewrite (Hsites r Lr pir HLr Hpir) in Hx.
    rewrite (Hsites' r Lr pir HLr Hpir) in Hy. congruence. }
  split; [done|]. by rewrite Hlog, Hlog', Heq.
Qed.

End Protocol.
End ProtocolMore.

(** ** Further properties of the engine *)

Module TreeLikelihoodExtras.
Import TreeLik TreeFacts TreeLikFacts ConstructionFacts ProtocolFacts FrameFacts
       ConstructionMore ReachFacts ProtocolMore.
Import TreeLikelihoodProperties.

Section Structure.
Context `{FL : Float} `{MO : !ModelOps} `{CO : Constants}.
Implicit Types (s self : TreeLikelihood) (path : list nat).

(** X1: no method writes the structure the constructor built (sizes,
    node indices, descendants, branch lengths, tips, gaps and the flat
    parameter map), whether it returns or raises: [updateParams] and the
    setter of [paramsarray] leave it as it was, reading [paramsarray]
    writes the cached flat array only, and [paramsarraybounds] and
    [dloglikarray] write nothing at all. *)
Theorem structure_fixed (self : TreeLikelihood) :
  (forall newvalues,
      structure (final (updateParams newvalues self)) = structure self) /\
  (forall value,
      structure (final (set_paramsarray value self)) = structure self) /\
  beside_cache (final (paramsarray self)) = beside_cache self /\
  final (paramsarraybounds self) = self /\
  final (dloglikarray self) = self.
Proof.
  split; [intros nv; apply updateParams_keeps_structure|].
  split; [intros value; apply set_paramsarray_keeps_structure|].
  split; [apply paramsarray_keeps|].
  split; [apply paramsarraybounds_reads | apply dloglikarray_reads].
Qed.

(** X2: in a reachable state [t] has [nnodes - 1] entries, and [t[n]] is
    the branch length of the node of index [n], for every node but the
    root. *)
Theorem branch_lengths tree0 alignment0 model0 self
    (Hreach : reachable tree0 alignment0 model0 self) :
  length (t self) = (nnodes self - 1)%nat /\
  forall path c n,
    node_at tree0 path = Some c -> path <> [] ->
    name_to_nodeindex self !! path = Some n ->
    t self !! n = Some (branch_length c).
Proof.
  destruct (reachable_written _ _ _ _ Hreach) as (d & s1 & Hw & _ & Htop).
  apply topology_fields in Htop
    as (_ & _ & _ & _ & Hnti & _ & _ & Hnn & _ & _ & Ht & _).
  pose proof Hw as (Hre & _ & Htlen & _ & _ & _ & _ & Hbl & _).
  destruct (reindexed_static _ _ Hre) as (_ & _ & Hnn1 & _).
  rewrite Ht, Hnti, Hnn, Hnn1. split.
  - rewrite Htlen. cbn. by rewrite length_replicate.
  - intros path c n Hc Hpath Hn.
    eapply Hbl; [|done]. by eapply written_index.
Qed.

(** X3: in a reachable state every internal node of the tree has exactly
    two children, and [rdescend] and [ldescend] hold, at its internal
    number, the indices of the first and of the second. *)
Theorem descendants_of_node tree0 alignment0 model0 self path c m
    (Hreach : reachable tree0 alignment0 model0 self)
    (Hc : node_at tree0 path = Some c)
    (Hinternal : is_terminal c = false)
    (Hm : name_to_nodeindex self !! path = Some m) :
  exists cr cl nr nl,
    clades c = [cr; cl] /\ (ntips self <= m)%nat /\
    name_to_nodeindex self !! (path ++ [0%nat]) = Some nr /\
    name_to_nodeindex self !! (path ++ [1%nat]) = Some nl /\
    rdescend self !! (m - ntips self)%nat = Some (Z.of_nat nr) /\
    ldescend self !! (m - ntips self)%nat = Some (Z.of_nat nl).
Proof.
  destruct (reachable_written _ _ _ _ Hreach) as (d & s1 & Hw & _ & Htop).
  apply topology_fields in Htop
    as (_ & _ & _ & _ & Hnti & _ & Hnt & _ & Hrd & Hld & _).
  pose proof Hw as (Hre & _ & _ & _ & _ & _ & _ & _ & _ & _ & Hch).
  destruct (reindexed_static _ _ Hre) as (Hnt1 & _).
  rewrite Hnti in Hm |- *. rewrite Hrd, Hld, Hnt, Hnt1.
  destruct (Hch m path c) as (cr & cl & nr & nl & Hge & Hcl & Hrest);
    [by eapply written_index | done |].
  exists cr, cl, nr, nl. done.
Qed.

(** X4: in a reachable state [gaps[n]], for the tip of index [n], lists
    the sites at which the window of its sequence is ['---'], each once
    and in increasing order. *)
Theorem gaps_of_tip tree0 alignment0 model0 self path c n
    (Hreach : reachable tree0 alignment0 model0 self)
    (Hc : node_at tree0 path = Some c)
    (Htip : is_terminal c = true)
    (Hn : name_to_nodeindex self !! path = Some n) :
  exists head sequence,
    name c = Some head /\
    dict_of_pairs alignment0 !! head = Some sequence /\
    gaps self !! n = Some (gap_sites (nsites self) sequence).
Proof.
  destruct (reachable_written _ _ _ _ Hreach) as (d & s1 & Hw & _ & Htop).
  apply topology_fields in Htop
    as (Hns & _ & _ & _ & Hnti & _ & _ & _ & _ & _ & _ & _ & Hg).
  pose proof Hw as (Hre & _ & _ & _ & _ & _ & _ & _ & Hgaps & _).
  destruct (reindexed_static _ _ Hre) as (_ & Hns1 & _).
  rewrite Hnti in Hn. rewrite Hg, Hns, Hns1.
  apply (Hgaps n path c); [by eapply written_index | done].
Qed.

(** X5: the sizes in a reachable state: [nnodes = ntips + ninternal],
    with as many tips as the tree has terminals and the alignment has
    sequences; [t] has [nnodes - 1] entries, [rdescend], [ldescend] and [L]
    have [ninternal], [gaps] has [ntips], and [tips] has [ntips] rows of
    [nsites] entries. *)
Theorem sizes tree0 alignment0 model0 self
    (Hreach : reachable tree0 alignment0 model0 self) :
  ntips self = count_terminals tree0 /\
  ninternal self = length (get_nonterminals tree0) /\
  nnodes self = (ntips self + ninternal self)%nat /\
  nseqs self = ntips self /\ length alignment0 = ntips self /\
  nsites self = model_nsites model0 /\
  length (t self) = (nnodes self - 1)%nat /\
  length (rdescend self) = ninternal self /\
  length (ldescend self) = ninternal self /\
  length (L self) = ninternal self /\
  length (gaps self) = ntips self /\
  length (tips self) = ntips self /\
  (forall n row, tips self !! n = Some row -> length row = nsites self).
Proof.
  destruct (reachable_written _ _ _ _ Hreach) as (d & s1 & Hw & Hglen & Htop).
  destruct (reachable_invariant _ _ _ _ Hreach)
    as (_ & _ & _ & (_ & _ & Hcount) & _ & _ & _ & (HL & _) & _).
  apply topology_fields in Htop
    as (Hns & Hal & Hnseqs & Htr & _ & Hni & Hnt & Hnn & Hrd & Hld & Ht & Htips & Hg).
  pose proof Hw as (Hre & _ & Htlen & Hrlen & Hllen & Htipslen & Hrows & _).
  destruct (reindexed_static _ _ Hre)
    as (Hnt1 & Hns1 & Hnn1 & Hni1 & Hal1 & Htr1 & _ & _ & _ & _ & _ & _ & Hnseqs1).
  rewrite Hns, Hnseqs, Hni, Hnt, Hnn, Hrd, Hld, Ht, Htips, Hg.
  rewrite Hns1, Hnseqs1, Hni1, Hnt1, Hnn1.
  rewrite Htlen, Hrlen, Hllen, Htipslen. cbn.
  rewrite !length_replicate.
  rewrite Htr, Hal, Htr1, Hal1 in Hcount. cbn in Hcount.
  do 3 (split; [done|]). split; [done|]. split; [done|].
  do 4 (split; [done|]).
  split; [by rewrite HL, Hni, Hni1|].
  split; [by rewrite Hglen, Hnt1|]. split; [done|].
  intros n row Hrow. destruct (Hrows n row Hrow) as (row0 & Hrow0 & ->).
  cbn in Hrow0. apply lookup_replicate in Hrow0 as [-> _].
  by rewrite length_replicate.
Qed.

(** X6: an engine exists only for an alignment that passed the checks of
    the constructor: every sequence has [3 * nsites] characters, the
    headers are, as a set, the names of the tips of the tree, and there are
    as many sequences as tips. *)
Theorem alignment_validated tree0 alignment0 model0 self
    (Hreach : reachable tree0 alignment0 model0 self) :
  (forall head sequence, (head, sequence) ∈ alignment0 ->
     String.length sequence = (3 * model_nsites model0)%nat) /\
  (forall head, (exists sequence, (head, sequence) ∈ alignment0) <->
                (exists c, c ∈ get_terminals tree0 /\ name c = Some head)) /\
  count_terminals tree0 = length alignment0.
Proof.
  destruct (reachable_invariant _ _ _ _ Hreach)
    as (Ht & Ha & Hns & Hchecked & _).
  unfold alignment_checked in Hchecked. by rewrite Ht, Ha, Hns in Hchecked.
Qed.

(** X12: construction raises [AssertionError] when a sequence of the
    alignment has not [3 * nsites] characters, when the headers are not,
    as a set, the names of the tips of the tree, or when the number of
    sequences is not the number of tips. *)
Theorem construction_checks_alignment (tree0 : Clade)
    (alignment0 : list (string * string)) (model0 : Model)
    (Hbad : (exists head sequence,
                (head, sequence) ∈ alignment0 /\
                String.length sequence <> (3 * model_nsites model0)%nat) \/
            (list_to_set (map (fun hs : string * string => Some hs.1) alignment0)
               : gset (option string))
            <> list_to_set (map name (get_terminals tree0)) \/
            count_terminals tree0 <> length alignment0) :
  __init__ tree0 alignment0 model0 = inl AssertionError.
Proof.
  apply init_raised. unfold init_body, bind at 1. cbn [get].
  change (nsites (allocated tree0 alignment0 model0)) with (model_nsites model0).
  change (alignment (allocated tree0 alignment0 model0)) with alignment0.
  change (tree (allocated tree0 alignment0 model0)) with tree0.
  change (nseqs (allocated tree0 alignment0 model0)) with (length alignment0).
  destruct (forallb _ alignment0) eqn:Hlens.
  2: { done. }
  unfold bind at 1. cbn [assert ret].
  destruct (bool_decide _) eqn:Hnames.
  2: { done. }
  unfold bind at 1. cbn [assert ret].
  destruct (count_terminals tree0 =? length alignment0)%nat eqn:Hcount.
  2: { done. }
  exfalso. destruct Hbad as [(head & sequence & Hin & Hlen)|[Hne|Hne]].
  - rewrite forallb_forall in Hlens. apply list_elem_of_In in Hin.
    specialize (Hlens _ Hin). cbn in Hlens. by apply Nat.eqb_eq in Hlens.
  - by apply bool_decide_eq_true in Hnames.
  - by apply Nat.eqb_eq in Hcount.
Qed.

(** X13: with an alignment that passes the checks, construction fails at
    the first free parameter, in the order of [model.freeparams], that is
    neither a float nor a 1-dimensional array: with [AttributeError] when
    the model has no attribute of that name, with [TypeError] when the
    value is a 0-dimensional array, and with [ValueError] for any other
    value. *)
Theorem construction_checks_parameters (tree0 : Clade)
    (alignment0 : list (string * string)) (model0 : Model)
    (pre : list string) (param : string) (post : list string)
    (Hlens : forall head sequence, (head, sequence) ∈ alignment0 ->
               String.length sequence = (3 * model_nsites model0)%nat)
    (Hnames : (list_to_set (map (fun hs : string * string => Some hs.1) alignment0)
                 : gset (option string))
              = list_to_set (map name (get_terminals tree0)))
    (Hcount : count_terminals tree0 = length alignment0)
    (Hsplit : freeparams model0 = pre ++ param :: post)
    (Hpre : forall q, q ∈ pre -> allocatable (getattr model0 q)) :
  (getattr model0 param = None ->
   __init__ tree0 alignment0 model0 = inl AttributeError) /\
  ((exists x, getattr model0 param = Some (PUnsized x)) ->
   __init__ tree0 alignment0 model0 = inl TypeError) /\
  (getattr model0 param = Some POther ->
   __init__ tree0 alignment0 model0 = inl ValueError).
Proof.
  assert (forall x, allocation_error (getattr model0 param) = Some x ->
                    __init__ tree0 alignment0 model0 = inl x) as Hraise.
  { intros x Hx.
    apply init_raised. unfold init_body, bind at 1. cbn [get].
    change (nsites (allocated tree0 alignment0 model0)) with (model_nsites model0).
    change (alignment (allocated tree0 alignment0 model0)) with alignment0.
    change (tree (allocated tree0 alignment0 model0)) with tree0.
    change (nseqs (allocated tree0 alignment0 model0)) with (length alignment0).
    change (model (allocated tree0 alignment0 model0)) with model0.
    assert (forallb (fun hs : string * string =>
                       (String.length hs.2 =? 3 * model_nsites model0)%nat)
                    alignment0 = true) as ->.
    { apply forallb_forall. intros [head sequence] Hin%list_elem_of_In. cbn.
      apply Nat.eqb_eq. by apply (Hlens head). }
    unfold bind at 1. cbn [assert ret].
    rewrite bool_decide_eq_true_2 by done.
    unfold bind at 1. cbn [assert ret].
    rewrite (proj2 (Nat.eqb_eq _ _) Hcount).
    unfold bind at 1. cbn [assert ret].
    pose proof (allocate_dL_raises pre param post
                  (allocated tree0 alignment0 model0) x Hpre Hx) as Hraises.
    rewrite <- Hsplit in Hraises.
    unfold bind at 1.
    destruct (forM_ (freeparams model0) allocate_dL _) as [u s|x' s];
      cbn in *; [discriminate Hraises | exact Hraises]. }
  split; [|split].
  - intros Hnone. apply Hraise. by rewrite Hnone.
  - intros [x Hx]. apply Hraise. by rewrite Hx.
  - intros Hother. apply Hraise. by rewrite Hother.
Qed.

(** X14: with an alignment that passes the checks and free parameters
    that are floats or 1-dimensional arrays, construction raises
    [ValueError] when a sequence of the alignment has, at a site, a window
    that is neither ['---'] nor a codon of the table. *)
Theorem construction_checks_codons (tree0 : Clade)
    (alignment0 : list (string * string)) (model0 : Model)
    (head sequence : string) (r : nat)
    (Hlens : forall head sequence, (head, sequence) ∈ alignment0 ->
               String.length sequence = (3 * model_nsites model0)%nat)
    (Hnames : (list_to_set (map (fun hs : string * string => Some hs.1) alignment0)
                 : gset (option string))
              = list_to_set (map name (get_terminals tree0)))
    (Hcount : count_terminals tree0 = length alignment0)
    (Hparams : forall param, param ∈ freeparams model0 ->
                 allocatable (getattr model0 param))
    (Hseq : dict_of_pairs alignment0 !! head = Some sequence)
    (Hr : (r < model_nsites model0)%nat)
    (Hgap : substring (3 * r) 3 sequence <> "---"%string)
    (Hcodon : CODON_TO_INDEX !! substring (3 * r) 3 sequence = None) :
  __init__ tree0 alignment0 model0 = inl ValueError.
Proof.
  apply init_raised. unfold init_body, bind at 1. cbn [get].
  change (nsites (allocated tree0 alignment0 model0)) with (model_nsites model0).
  change (alignment (allocated tree0 alignment0 model0)) with alignment0.
  change (tree (allocated tree0 alignment0 model0)) with tree0.
  change (nseqs (allocated tree0 alignment0 model0)) with (length alignment0).
  change (model (allocated tree0 alignment0 model0)) with model0.
  assert (forallb (fun hs : string * string =>
                     (String.length hs.2 =? 3 * model_nsites model0)%nat)
                  alignment0 = true) as ->.
  { apply forallb_forall. intros [head' sequence'] Hin%list_elem_of_In. cbn.
    apply Nat.eqb_eq. by apply (Hlens head'). }
  unfold bind at 1. cbn [assert ret].
  rewrite bool_decide_eq_true_2 by done.
  unfold bind at 1. cbn [assert ret].
  rewrite (proj2 (Nat.eqb_eq _ _) Hcount).
  unfold bind at 1. cbn [assert ret].
  destruct (allocate_dL_returns (freeparams model0)
              (allocated tree0 alignment0 model0) Hparams) as [d Hd].
  rewrite (bind_Ret _ _ _ _ _ Hd). cbv zeta.
  apply raised_bind.
  by apply (nodes_loop_raises tree0 alignment0 model0 d head sequence r).
Qed.

(** X16: in a reachable state the nodes are numbered as [__init__] walks
    them: the index of a node is its position in the list of the tips of
    the tree in postorder followed by its internal nodes in postorder. *)
Theorem node_numbering tree0 alignment0 model0 self
    (Hreach : reachable tree0 alignment0 model0 self) :
  forall path n,
    name_to_nodeindex self !! path = Some n <->
    exists c, numbered tree0 !! n = Some (path, c).
Proof.
  destruct (reachable_written _ _ _ _ Hreach) as (d & s1 & Hw & _ & Htop).
  apply topology_fields in Htop as (_ & _ & _ & _ & Hnti & _).
  destruct Hw as (_ & Hindex & _).
  intros path n. rewrite Hnti, Hindex.
  split; intros [c Hc]; exists c; by apply elem_of_enumerate.
Qed.

(** X17: in a reachable state whose model declared every free parameter
    once, [_param_to_index] is the inverse of [_index_to_param]: it lists
    the slots in the same order, each with its index, so that a slot is
    under an index in the one exactly when the index is under the slot in
    the other. *)
Theorem flat_maps_inverse tree0 alignment0 model0 self
    (Hreach : reachable tree0 alignment0 model0 self)
    (Hnodup : NoDup (freeparams model0)) :
  _param_to_index self
  = map (fun it : nat * slot => (it.2, it.1)) (enumerate (flat_slots model0)) /\
  forall i param,
    (i, param) ∈ _index_to_param self <-> (param, i) ∈ _param_to_index self.
Proof.
  destruct (reachable_invariant _ _ _ _ Hreach)
    as (_ & _ & _ & _ & _ & _ & Hip & _).
  destruct (reachable_init _ _ _ _ Hreach) as (self0 & Hinit & Hs).
  assert (_index_to_param self = _index_to_param self0 /\
          _param_to_index self = _param_to_index self0) as [Hitp Hpti].
  { unfold structure in Hs. by injection Hs as _ _ _ _ _ _ _ _ _ _ _ _ _ ? ?. }
  assert (_param_to_index self
          = map (fun it : nat * slot => (it.2, it.1))
                (enumerate (flat_slots model0))) as Heq.
  { rewrite Hpti, (init_param_index _ _ _ _ Hinit), <- Hitp, Hip.
    apply foldl_dict_setitem_swap.
    unfold enumerate. rewrite snd_zip by (rewrite length_seq; lia).
    by apply NoDup_flat_slots. }
  split; [done|]. intros i param. rewrite Heq, Hip, list_elem_of_fmap. split.
  - intros Hin. by exists (i, param).
  - by intros ([i' param'] & [= -> ->] & Hin).
Qed.

End Structure.

Section Protocol.
Context `{FL : Float} `{MO : !ModelOps} `{CO : Constants}.
Implicit Types (s self : TreeLikelihood).

(** X7: a call of [updateParams] that returns was given keys of
    [model.freeparams] only; with an empty assignment it has changed
    nothing; otherwise it has passed the whole assignment to the model's
    update, once, then run the kernel, once, and dropped the cached flat
    array, the structure staying as it was. *)
Theorem updateParams_returns self newvalues self'
    (Hret : updateParams newvalues self = Ret tt self') :
  (forall param, is_Some (newvalues !! param) ->
                 param ∈ freeparams (model self)) /\
  if decide (newvalues = ∅) then self' = self
  else model_updateParams newvalues (model self) = Ret tt (model self') /\
       calls self' = calls self ++ [ModelUpdateParams; UpdateInternals] /\
       _paramsarray self' = None /\
       structure self' = structure self.
Proof.
  destruct (updateParams_Ret _ _ _ Hret) as [Hnone Hcases].
  split.
  { by apply (filter_complement_empty newvalues
                (fun p => p ∈ freeparams (model self))). }
  destruct (decide (newvalues = ∅)); [done|].
  destruct Hcases as (m' & s0 & s2 & Hupd & Hin & _).
  unfold inputs in Hin. revert Hin.
  generalize (structure self'), (structure self). intros a b [= -> -> -> ->].
  done.
Qed.

(** X8: an array read from [paramsarray] is in the cache afterwards,
    nothing else having changed, so that reading again returns the same
    array and changes nothing. *)
Theorem paramsarray_cached self a self1
    (Hread : paramsarray self = Ret a self1) :
  self1 = set__paramsarray (Some a) self /\
  paramsarray self1 = Ret a self1.
Proof.
  pose proof (paramsarray_Ret _ _ _ Hread) as ->. done.
Qed.

(** X9: in a reachable state the array read from [paramsarray] is never
    stale: it has one entry per slot of the flat parameter map, the value
    the model has now for that slot ([model.param] for a scalar,
    [model.param[k]] for a component); and the read returns whenever the
    model has a value for every slot. *)
Theorem paramsarray_reflects_model tree0 alignment0 model0 self
    (Hreach : reachable tree0 alignment0 model0 self) :
  (forall a self1,
      paramsarray self = Ret a self1 ->
      length a = length (flat_slots model0) /\
      forall i param, flat_slots model0 !! i = Some param ->
        exists x, a !! i = Some x /\ slot_value (model self) param = inr x) /\
  ((forall param, param ∈ flat_slots model0 ->
      exists x, slot_value (model self) param = inr x) ->
   exists a self1, paramsarray self = Ret a self1).
Proof.
  destruct (reachable_invariant _ _ _ _ Hreach)
    as (_ & _ & _ & _ & _ & _ & Hip & _).
  split.
  - intros a self1 Hread.
    pose proof (wp_Ret _ _ _ _ _ _
                  (paramsarray_reflects self _ Hip (reachable_fresh _ _ _ _ Hreach))
                  Hread) as Ha.
    unfold reflects in Ha. rewrite Hip in Ha.
    pose proof (Forall2_length _ _ _ Ha) as Hlen. rewrite length_enumerate in Hlen.
    split; [done|]. intros i param Hi.
    assert (enumerate (flat_slots model0) !! i = Some (i, param)) as Hen
      by (by rewrite lookup_enumerate, Hi).
    destruct (Forall2_lookup_l _ _ _ _ _ Ha Hen) as (x & Hx & Hval).
    by exists x.
  - intros Hvalues. by apply (paramsarray_returns self (flat_slots model0)).
Qed.


(** X11: in a reachable state [dloglikarray], when it returns, has one
    entry per slot of the flat parameter map: [dloglik[param]] for a
    scalar slot and [dloglik[param][k]] for the component [k] of a vector;
    the state is as it was. *)
Theorem dloglikarray_entries tree0 alignment0 model0 self a self1
    (Hreach : reachable tree0 alignment0 model0 self)
    (Hret : dloglikarray self = Ret a self1) :
  self1 = self /\ length a = length (flat_slots model0) /\
  forall i param, flat_slots model0 !! i = Some param ->
    exists d x, dloglik self !! slot_name param = Some d /\
                darr_get d (slot_index param) = inr x /\
                a !! i = Some x.
Proof.
  destruct (reachable_invariant _ _ _ _ Hreach)
    as (_ & _ & _ & _ & _ & _ & Hip & _).
  split; [exact (reads_Ret _ _ _ _ dloglikarray_reads Hret)|].
  exact (wp_Ret _ _ _ _ _ _ (dloglikarray_spec self _ Hip) Hret).
Qed.

(** X15: the setter of [paramsarray] in a reachable state whose model
    declared every free parameter once.  An array of the wrong length
    raises [AssertionError] and changes nothing.  An array of the right
    length that is not the cached one is turned into an assignment, passed
    to [updateParams], that gives every scalar parameter the element of its
    slot and every vector parameter the array of the elements of its
    components, in order and as long as the vector was at construction, and
    that has no other keys; the loops that build it never raise. *)
Theorem setter_builds_assignment tree0 alignment0 model0 self (value : list F)
    (Hreach : reachable tree0 alignment0 model0 self)
    (Hnodup : NoDup (freeparams model0)) :
  (length value <> length (flat_slots model0) ->
   set_paramsarray value self = Exc AssertionError self) /\
  (length value = length (flat_slots model0) ->
   (forall a, _paramsarray self = Some a -> all_equal value a = inr false) ->
   exists newvalues : gmap string pyval,
     set_paramsarray value self
     = (updateParams newvalues >>
        do a <- paramsarray; modify (set__paramsarray (Some a))) self /\
     (forall i p x, flat_slots model0 !! i = Some (Scalar p) ->
        value !! i = Some x -> newvalues !! p = Some (PFloat x)) /\
     (forall i p k x, flat_slots model0 !! i = Some (Component p k) ->
        value !! i = Some x ->
        exists a, newvalues !! p = Some (PArray a) /\ a !! k = Some x /\
                  forall a0, getattr model0 p = Some (PArray a0) ->
                             length a = length a0) /\
     (forall p, is_Some (newvalues !! p) ->
        exists i param, flat_slots model0 !! i = Some param /\
                        slot_name param = p)).
Proof.
  destruct (reachable_invariant _ _ _ _ Hreach)
    as (_ & _ & _ & _ & _ & _ & Hip & _).
  split.
  - intros Hlen. unfold set_paramsarray, bind at 1. cbn [get].
    rewrite Hip, length_enumerate.
    by rewrite (proj2 (Nat.eqb_neq _ _) Hlen).
  - intros Hlen Hchanged. by apply setter_assignment.
Qed.

(** X25: reading back what was assigned.  With a model whose update
    stores the values it is given for its free parameters, after the
    setter of [paramsarray] has returned in a reachable state, a read of
    [paramsarray] returns the array assigned and changes nothing; unless
    the assignment was skipped because the array compared equal to the
    cached one, in which case the read returns that cached array. *)
Theorem setter_then_getter tree0 alignment0 model0 self (value : list F) self'
    (Hreach : reachable tree0 alignment0 model0 self)
    (Hnodup : NoDup (freeparams model0))
    (Hstores : forall (d : gmap string pyval) (m m' : Model) p v,
                 model_updateParams d m = Ret tt m' ->
                 p ∈ freeparams m -> d !! p = Some v -> getattr m' p = Some v)
    (Hset : set_paramsarray value self = Ret tt self') :
  exists a,
    paramsarray self' = Ret a self' /\
    (a = value \/
     (self' = self /\ _paramsarray self = Some a /\
      all_equal value a = inr true)).
Proof.
  destruct (reachable_invariant _ _ _ _ Hreach)
    as (_ & _ & _ & _ & _ & _ & Hip & _).
  destruct (set_paramsarray_cases _ _ _ Hset)
    as [(-> & a & Hcache & Heq)|Hchanged].
  { exists a. split; [by apply paramsarray_of_cache|]. right. done. }
  destruct (set_paramsarray_Ret _ _ _ Hset) as [Hlen _].
  rewrite Hip, length_enumerate in Hlen.
  destruct (setter_assignment self value model0 Hip Hnodup Hlen Hchanged)
    as (newvalues & Hrun & Hscalar & Hcomp & Hkeys).
  rewrite Hrun in Hset.
  apply bind_Ret_inv in Hset as ([] & s1 & Hupdate & Hset).
  apply bind_Ret_inv in Hset as (a & s2 & Hread & [= <-]).
  exists a. split; [by apply paramsarray_of_cache|]. left.
  assert (reachable tree0 alignment0 model0 s1) as Hreach1
    by (by eapply reachable_updateParams).
  destruct (reachable_invariant _ _ _ _ Hreach1)
    as (_ & _ & _ & _ & _ & _ & Hip1 & _).
  pose proof (wp_Ret _ _ _ _ _ _
                (paramsarray_reflects s1 _ Hip1 (reachable_fresh _ _ _ _ Hreach1))
                Hread) as Ha.
  unfold reflects in Ha. rewrite Hip1 in Ha.
  pose proof (Forall2_length _ _ _ Ha) as Hlena. rewrite length_enumerate in Hlena.
  apply updateParams_Ret in Hupdate as [Hnone Hupdate].
  destruct (filter_complement_empty newvalues
              (fun p => p ∈ freeparams (model self)) Hnone) as [_ Hfree].
  apply list_eq_same_length with (length (flat_slots model0)); [done..|].
  intros i y x Hi Hy Hx.
  destruct (lookup_lt_is_Some_2 (flat_slots model0) i Hi) as [param Hparam].
  assert (enumerate (flat_slots model0) !! i = Some (i, param)) as Hen
    by (by rewrite lookup_enumerate, Hparam).
  destruct (Forall2_lookup_l _ _ _ _ _ Ha Hen) as (y' & Hy' & Hval).
  assert (y' = y) as -> by congruence. cbn in Hval.
  assert (is_Some (newvalues !! slot_name param)) as Hkey.
  { destruct param as [p|p k]; cbn.
    - by rewrite (Hscalar i p x Hparam Hx).
    - destruct (Hcomp i p k x Hparam Hx) as (arr & -> & _). done. }
  destruct (decide (newvalues = ∅)) as [->|Hne].
  { destruct Hkey as [? Hkey]. by rewrite lookup_empty in Hkey. }
  destruct Hupdate as (m' & s0 & s3 & Hmodel & Hinputs & _).
  assert (model s1 = m') as Hm1.
  { unfold inputs in Hinputs. by injection Hinputs as _ ? _ _. }
  rewrite Hm1 in Hval.
  rewrite (stored_slot_value m' newvalues (flat_slots model0) value i param x)
    in Hval; [congruence| |done| |done..].
  - intros p v Hp. apply (Hstores newvalues (model self) m' p v); [done| |done].
    apply Hfree. by eexists.
  - intros i' p k x' Hp Hx'.
    destruct (Hcomp i' p k x' Hp Hx') as (arr & Harr & Hk & _). by exists arr.
Qed.

(** X26: the likelihood does not depend on the history.  Two states
    reached from the same construction, by whatever calls, in which the
    model is the same, have the same partial likelihoods [L], the same
    [siteloglik] and the same [loglik]. *)
Theorem likelihood_history_independent tree0 alignment0 model0 self self'
    (Hreach : reachable tree0 alignment0 model0 self)
    (Hreach' : reachable tree0 alignment0 model0 self')
    (Hmodel : model self = model self') :
  L self = L self' /\ siteloglik self = siteloglik self' /\
  loglik self = loglik self'.
Proof.
  destruct (reachable_init _ _ _ _ Hreach) as (self0 & Hinit & Hs).
  destruct (reachable_init _ _ _ _ Hreach') as (self0' & Hinit' & Hs').
  assert (self0' = self0) as -> by congruence.
  assert (structure self = structure self') as Hstructure by congruence.
  destruct (reachable_invariant _ _ _ _ Hreach)
    as (_ & _ & _ & _ & (_ & _ & _ & Hbelow) & _ & _ & Hcons & _).
  destruct (reachable_invariant _ _ _ _ Hreach')
    as (_ & _ & _ & _ & _ & _ & _ & Hcons' & _).
  pose proof (L_unique _ _ Hstructure Hmodel Hbelow Hcons Hcons') as HL.
  split; [done|].
  destruct Hcons as (_ & _ & Hroot). destruct Hcons' as (_ & _ & Hroot').
  by apply root_unique.
Qed.

End Protocol.
End TreeLikelihoodExtras.

(** ** The properties at the small instance *)

Module TreeLikelihoodExamples.
Import TreeLik Toy TreeLikelihoodProperties.

(** The small engine is a constructed one. *)
Lemma toy_reachable :
  reachable (MO := toy_ops) toy_tree toy_alignment toy_start toy_engine.
Proof.
  assert (toy_constructs = true) as Hinit by (vm_compute; reflexivity).
  apply reachable_init. unfold toy_constructs in Hinit. unfold toy_engine.
  destruct (__init__ _ _ _) as [x|self]; [discriminate | reflexivity].
Defined.

Lemma toy_sizes : ntips toy_engine = 3%nat /\ nnodes toy_engine = 5%nat.
Proof. split; vm_compute; reflexivity. Defined.

(** C1 at the node 3, the parent of the tips 0 and 1. *)
Lemma partial_likelihood_recursion_witness :
  exists nright nleft MLright MLleft Lm,
    children toy_engine 3 = Some (nright, nleft) /\
    (nright < 3)%nat /\ (nleft < 3)%nat /\
    ML toy_engine nright = Some MLright /\ ML toy_engine nleft = Some MLleft /\
    L toy_engine !! (3 - ntips toy_engine)%nat = Some Lm /\
    Lm = tab_mul MLright MLleft /\
    (forall r x u v,
        cell MLright r x = Some u -> cell MLleft r x = Some v ->
        cell Lm r x = Some (fmul u v)).
Proof.
  apply (partial_likelihood_recursion (MO := toy_ops) toy_tree toy_alignment toy_start
           toy_engine 3 toy_reachable).
  destruct toy_sizes as [-> ->]. lia.
Defined.


(** C3 at the small engine. *)
Lemma root_reduction_witness :
  exists Lroot,
    L toy_engine !! (nnodes toy_engine - 1 - ntips toy_engine)%nat = Some Lroot /\
    (forall r Lr pir,
        Lroot !! r = Some Lr ->
        stationarystate (model toy_engine) !! r = Some pir ->
        siteloglik toy_engine !! r = Some (flog (fsum (zip_with fmul Lr pir)))) /\
    length (siteloglik toy_engine)
    = (length Lroot `min` length (stationarystate (model toy_engine)))%nat /\
    loglik toy_engine = fsum (siteloglik toy_engine).
Proof.
  exact (root_reduction (MO := toy_ops) toy_tree toy_alignment toy_start toy_engine
           toy_reachable).
Defined.

(** C4 at the small engine. *)
Lemma node_indexing_witness :
  name_to_nodeindex toy_engine !! [] = Some (nnodes toy_engine - 1)%nat /\
  (forall m, (ntips toy_engine <= m < nnodes toy_engine)%nat ->
     exists nright nleft,
       rdescend toy_engine !! (m - ntips toy_engine)%nat = Some (Z.of_nat nright) /\
       ldescend toy_engine !! (m - ntips toy_engine)%nat = Some (Z.of_nat nleft) /\
       (nright < m)%nat /\ (nleft < m)%nat).
Proof.
  pose proof (node_indexing (MO := toy_ops) toy_tree toy_alignment toy_start toy_engine
                toy_reachable) as (_ & _ & _ & _ & _ & Hroot & Hchildren).
  exact (conj Hroot Hchildren).
Defined.

(** C5 at an assignment with the key ["tau"], which is no parameter of the
    model. *)
Lemma updateParams_other_key_witness :
  exists x self',
    updateParams toy_newvalues toy_engine = Exc x self' /\
    cached self' = cached toy_engine /\
    structure self' = structure toy_engine /\
    _paramsarray self' = _paramsarray toy_engine /\
    let modelparams :=
      filter (fun kv => kv.1 ∈ freeparams (model toy_engine)) toy_newvalues in
    if decide (modelparams = ∅) then x = RuntimeError /\ self' = toy_engine
    else calls self' = calls toy_engine ++ [ModelUpdateParams] /\
         model self'
         = final (model_updateParams modelparams (model toy_engine)) /\
         x = default RuntimeError
               (raised (model_updateParams modelparams (model toy_engine))).
Proof.
  apply (updateParams_other_key toy_engine toy_newvalues "tau").
  - vm_compute. by eexists.
  - vm_compute. intros Hin.
    repeat (apply elem_of_cons in Hin as [Hin|Hin]; [discriminate|]).
    apply elem_of_nil in Hin. destruct Hin.
Defined.

(** C5 as stated fails at that assignment: the call raises for the key
    ["tau"], yet the model's [kappa] has become 5. *)
Lemma updateParams_other_key_counterexample :
  ("tau"%string ∉ freeparams (model toy_engine)) /\
  is_Some (toy_newvalues !! "tau"%string) /\
  updateParams toy_newvalues toy_engine = Exc RuntimeError toy_after /\
  cached toy_after = cached toy_engine /\
  kappa (model toy_engine) = 2 /\ kappa (model toy_after) = 5 /\
  model toy_after <> model toy_engine.
Proof.
  split.
  { vm_compute. intros Hin.
    repeat (apply elem_of_cons in Hin as [Hin|Hin]; [discriminate|]).
    apply elem_of_nil in Hin. destruct Hin. }
  split; [vm_compute; by eexists|].
  split.
  { assert (raised (updateParams toy_newvalues toy_engine) = Some RuntimeError)
      as Hraised by (vm_compute; reflexivity).
    unfold toy_after.
    destruct (updateParams toy_newvalues toy_engine) as [u s|x s];
      [discriminate|]. cbn in *. congruence. }
  split; [vm_compute; reflexivity|].
  split; [vm_compute; reflexivity|].
  split; [vm_compute; reflexivity|].
  vm_compute. intros [=].
Qed.

(** C6 at the small engine: the array read is [2, 1, 3]. *)
Lemma paramsarray_roundtrip_witness :
  paramsarray toy_engine = Ret [2; 1; 3] toy_read /\
  cached toy_read = cached toy_engine /\ model toy_read = model toy_engine /\
  calls toy_read = calls toy_engine /\
  set_paramsarray [2; 1; 3] toy_read = Ret tt toy_read.
Proof.
  assert (paramsarray toy_engine = Ret [2; 1; 3] toy_read) as Hread.
  { assert (returned (paramsarray toy_engine) = Some [2; 1; 3]) as Hreturned
      by (vm_compute; reflexivity).
    unfold toy_read.
    destruct (paramsarray toy_engine) as [a s|x s]; [|discriminate].
    cbn in *. congruence. }
  split; [exact Hread|].
  apply (proj1 (paramsarray_roundtrip (MO := toy_ops) toy_tree toy_alignment toy_start
                  toy_engine toy_reachable) [2; 1; 3] toy_read Hread).
  repeat constructor.
Defined.

(** C7 at the small engine: [kappa], then the two components of [eta]. *)
Lemma flat_parameter_map_witness :
  _index_to_param toy_engine
  = [(0, Scalar "kappa"); (1, Component "eta" 0); (2, Component "eta" 1)]%nat /\
  exists bounds, paramsarraybounds toy_engine = Ret bounds toy_engine.
Proof.
  pose proof (flat_parameter_map (MO := toy_ops) toy_tree toy_alignment toy_start toy_engine
                toy_reachable) as (Hmap & _ & Hreturns).
  split; [exact Hmap|].
  apply Hreturns.
  assert (flat_slots toy_start
          = [Scalar "kappa"; Component "eta" 0; Component "eta" 1]) as ->
    by (vm_compute; reflexivity).
  intros param Hin.
  repeat (apply elem_of_cons in Hin as [->|Hin]; [vm_compute; by eexists|]).
  apply elem_of_nil in Hin.
  destruct Hin.
Defined.

(** C8 at the tip [A] of the small engine, whose second codon is a gap. *)
Lemma tip_encoding_witness :
  (0 < ntips toy_engine)%nat /\
  exists head sequence,
    name (mkClade (Some "A"%string) 1 []) = Some head /\
    dict_of_pairs toy_alignment !! head = Some sequence /\
    String.length sequence = (3 * nsites toy_engine)%nat /\
    forall r, (r < nsites toy_engine)%nat ->
      let codon := substring (3 * r) 3 sequence in
      String.length codon = 3%nat /\
      exists gp, gaps toy_engine !! 0%nat = Some gp /\
        ((codon = "---"%string /\ (r ∈ gp) /\
          entry toy_engine 0 r = Some 0%nat) \/
         (codon <> "---"%string /\ (r ∉ gp) /\
          exists x, CODON_TO_INDEX !! codon = Some x /\
                    entry toy_engine 0 r = Some x)).
Proof.
  apply (proj1 (tip_encoding (MO := toy_ops) toy_tree toy_alignment toy_start toy_engine
                  toy_reachable) [0; 0]%nat).
  - reflexivity.
  - reflexivity.
  - vm_compute. reflexivity.
Defined.

(** C8 as stated fails at a tree with two tips of the same name: the
    engine is constructed although the first row of the alignment, which
    the later row with the same header overrides, has at its first site
    the window [XXX], neither ['---'] nor a codon of the table. *)
Lemma tip_encoding_counterexample :
  (exists self,
     __init__ (MO := toy_ops) ToyMore.twin_tree ToyMore.twin_alignment toy_start
     = inr self) /\
  ("A"%string, "XXXATG"%string) ∈ ToyMore.twin_alignment /\
  (0 < model_nsites toy_start)%nat /\
  substring (3 * 0) 3 "XXXATG" <> "---"%string /\
  CODON_TO_INDEX !! substring (3 * 0) 3 "XXXATG" = None /\
  dict_of_pairs ToyMore.twin_alignment !! "A"%string = Some "ATG---"%string.
Proof.
  split.
  { assert (ToyMore.twin_constructs = true) as Hinit by (vm_compute; reflexivity).
    unfold ToyMore.twin_constructs in Hinit.
    destruct (__init__ _ _ _) as [x|self]; [discriminate | by exists self]. }
  split; [apply list_elem_of_here|].
  split; [cbn; lia|].
  split; [discriminate|].
  split; vm_compute; reflexivity.
Qed.

End TreeLikelihoodExamples.
(** ** The further properties at the small instance *)

Module TreeLikelihoodExtrasExamples.
Import TreeLik Toy ToyMore TreeLikelihoodExtras TreeLikelihoodExamples.

(** X2 at the tip [A], of index 0, whose branch has length 1. *)
Lemma branch_lengths_witness :
  length (t toy_engine) = (nnodes toy_engine - 1)%nat /\
  t toy_engine !! 0%nat = Some 1.
Proof.
  destruct (branch_lengths (MO := toy_ops) toy_tree toy_alignment toy_start
              toy_engine toy_reachable) as [Hlen Hbl].
  split; [exact Hlen|].
  apply (Hbl [0; 0]%nat (@mkClade Zfloat (Some "A"%string) 1 [])).
  - reflexivity.
  - discriminate.
  - vm_compute. reflexivity.
Defined.

(** X3 at the root of the small tree, of index 4. *)
Lemma descendants_of_node_witness :
  exists cr cl nr nl,
    clades toy_tree = [cr; cl] /\ (ntips toy_engine <= 4)%nat /\
    name_to_nodeindex toy_engine !! ([] ++ [0%nat]) = Some nr /\
    name_to_nodeindex toy_engine !! ([] ++ [1%nat]) = Some nl /\
    rdescend toy_engine !! (4 - ntips toy_engine)%nat = Some (Z.of_nat nr) /\
    ldescend toy_engine !! (4 - ntips toy_engine)%nat = Some (Z.of_nat nl).
Proof.
  apply (descendants_of_node (MO := toy_ops) toy_tree toy_alignment toy_start
           toy_engine [] toy_tree 4 toy_reachable).
  - reflexivity.
  - reflexivity.
  - vm_compute. reflexivity.
Defined.

(** X4 at the tip [A], whose second codon is a gap. *)
Lemma gaps_of_tip_witness :
  exists head sequence,
    name (mkClade (Some "A"%string) 1 []) = Some head /\
    dict_of_pairs toy_alignment !! head = Some sequence /\
    gaps toy_engine !! 0%nat = Some (gap_sites (nsites toy_engine) sequence).
Proof.
  apply (gaps_of_tip (MO := toy_ops) toy_tree toy_alignment toy_start
           toy_engine [0; 0]%nat (@mkClade Zfloat (Some "A"%string) 1 []) 0
           toy_reachable).
  - reflexivity.
  - reflexivity.
  - vm_compute. reflexivity.
Defined.

(** X5 at the small engine: three tips, two internal nodes. *)
Lemma sizes_witness :
  ntips toy_engine = 3%nat /\ ninternal toy_engine = 2%nat /\
  length (t toy_engine) = (nnodes toy_engine - 1)%nat /\
  length (gaps toy_engine) = ntips toy_engine /\
  length (tips toy_engine) = ntips toy_engine.
Proof.
  destruct (sizes (MO := toy_ops) toy_tree toy_alignment toy_start toy_engine
              toy_reachable)
    as (Hnt & Hni & _ & _ & _ & _ & Ht & _ & _ & _ & Hg & Htips & _).
  split; [exact Hnt|]. split; [exact Hni|]. split; [exact Ht|].
  split; [exact Hg | exact Htips].
Defined.

(** X6 at the small alignment. *)
Lemma alignment_validated_witness :
  (forall head sequence, (head, sequence) ∈ toy_alignment ->
     String.length sequence = 6%nat) /\
  count_terminals toy_tree = 3%nat.
Proof.
  destruct (alignment_validated (MO := toy_ops) toy_tree toy_alignment toy_start
              toy_engine toy_reachable) as (Hlen & _ & Hcount).
  split; [exact Hlen | exact Hcount].
Defined.

(** X12 at an alignment whose first sequence has one codon instead of
    two. *)
Lemma construction_checks_alignment_witness :
  __init__ (MO := toy_ops) toy_tree short_alignment toy_start
  = inl AssertionError.
Proof.
  apply (construction_checks_alignment (MO := toy_ops)).
  left. exists "A"%string, "ATG"%string. split.
  - apply list_elem_of_here.
  - cbn. lia.
Defined.

Lemma toy_alignment_lengths head sequence :
  (head, sequence) ∈ toy_alignment -> String.length sequence = 6%nat.
Proof.
  intros Hin. unfold toy_alignment in Hin.
  repeat (apply elem_of_cons in Hin as [[= -> ->]|Hin]; [reflexivity|]).
  apply elem_of_nil in Hin. destruct Hin.
Defined.

Lemma odd_alignment_lengths head sequence :
  (head, sequence) ∈ odd_alignment -> String.length sequence = 6%nat.
Proof.
  intros Hin. unfold odd_alignment in Hin.
  repeat (apply elem_of_cons in Hin as [[= -> ->]|Hin]; [reflexivity|]).
  apply elem_of_nil in Hin. destruct Hin.
Defined.

(** X13 at the model with the free parameter [mu], after [kappa]: absent,
    a 0-dimensional array, and another value. *)
Lemma construction_checks_parameters_witness :
  __init__ (MO := odd_ops (@None (@pyval Zfloat))) toy_tree toy_alignment toy_start
  = inl AttributeError /\
  __init__ (MO := odd_ops (Some (@PUnsized Zfloat 1))) toy_tree toy_alignment toy_start
  = inl TypeError /\
  __init__ (MO := odd_ops (Some (@POther Zfloat))) toy_tree toy_alignment toy_start
  = inl ValueError.
Proof.
  split; [|split].
  - apply (construction_checks_parameters (MO := odd_ops (@None (@pyval Zfloat))) toy_tree
             toy_alignment toy_start ["kappa"%string] "mu"%string []).
    + exact toy_alignment_lengths.
    + vm_compute. reflexivity.
    + reflexivity.
    + reflexivity.
    + intros q Hq. apply list_elem_of_singleton in Hq as ->. exact I.
    + reflexivity.
  - apply (construction_checks_parameters (MO := odd_ops (Some (@PUnsized Zfloat 1)))
             toy_tree toy_alignment toy_start ["kappa"%string] "mu"%string []).
    + exact toy_alignment_lengths.
    + vm_compute. reflexivity.
    + reflexivity.
    + reflexivity.
    + intros q Hq. apply list_elem_of_singleton in Hq as ->. exact I.
    + by exists 1.
  - apply (construction_checks_parameters (MO := odd_ops (Some (@POther Zfloat)))
             toy_tree toy_alignment toy_start ["kappa"%string] "mu"%string []).
    + exact toy_alignment_lengths.
    + vm_compute. reflexivity.
    + reflexivity.
    + reflexivity.
    + intros q Hq. apply list_elem_of_singleton in Hq as ->. exact I.
    + reflexivity.
Defined.

(** X14 at the alignment with the window [XXX]. *)
Lemma construction_checks_codons_witness :
  __init__ (MO := toy_ops) toy_tree odd_alignment toy_start = inl ValueError.
Proof.
  apply (construction_checks_codons (MO := toy_ops) toy_tree odd_alignment
           toy_start "A"%string "ATGXXX"%string 1).
  - exact odd_alignment_lengths.
  - vm_compute. reflexivity.
  - reflexivity.
  - intros param Hin. cbn in Hin.
    repeat (apply elem_of_cons in Hin as [->|Hin]; [exact I|]).
    apply elem_of_nil in Hin. destruct Hin.
  - vm_compute. reflexivity.
  - cbn. lia.
  - discriminate.
  - vm_compute. reflexivity.
Defined.

Lemma toy_update_returns :
  updateParams toy_update toy_engine = Ret tt toy_updated.
Proof.
  assert (returned (updateParams toy_update toy_engine) = Some tt) as Hreturned
    by (vm_compute; reflexivity).
  unfold toy_updated.
  exact (returned_Ret (updateParams toy_update) toy_engine tt Hreturned).
Defined.

Lemma toy_read_returns : paramsarray toy_engine = Ret [2; 1; 3] toy_read.
Proof.
  assert (returned (paramsarray toy_engine) = Some [2; 1; 3]) as Hreturned
    by (vm_compute; reflexivity).
  unfold toy_read.
  exact (returned_Ret paramsarray toy_engine [2; 1; 3] Hreturned).
Defined.

(** X7 at the assignment of [kappa] alone. *)
Lemma updateParams_returns_witness :
  (forall param, is_Some (toy_update !! param) ->
                 param ∈ freeparams (model toy_engine)) /\
  if decide (toy_update = ∅) then toy_updated = toy_engine
  else model_updateParams toy_update (model toy_engine)
       = Ret tt (model toy_updated) /\
       calls toy_updated
       = calls toy_engine ++ [ModelUpdateParams; UpdateInternals] /\
       _paramsarray toy_updated = None /\
       structure toy_updated = structure toy_engine.
Proof.
  exact (updateParams_returns toy_engine toy_update toy_updated toy_update_returns).
Defined.

(** X8 at the small engine. *)
Lemma paramsarray_cached_witness :
  toy_read = set__paramsarray (Some [2; 1; 3]) toy_engine /\
  paramsarray toy_read = Ret [2; 1; 3] toy_read.
Proof.
  exact (paramsarray_cached toy_engine [2; 1; 3] toy_read toy_read_returns).
Defined.

(** X9 at the small engine: the array read is [kappa], [eta[0]],
    [eta[1]]. *)
Lemma paramsarray_reflects_model_witness :
  length [2; 1; 3] = length (flat_slots toy_start) /\
  forall i param, flat_slots toy_start !! i = Some param ->
    exists x, [2; 1; 3] !! i = Some x /\
              slot_value (model toy_engine) param = inr x.
Proof.
  exact (proj1 (paramsarray_reflects_model (MO := toy_ops) toy_tree toy_alignment
                  toy_start toy_engine toy_reachable)
               [2; 1; 3] toy_read toy_read_returns).
Defined.


Lemma toy_gradient_returns :
  dloglikarray toy_engine = Ret [16; 16; 16] toy_engine.
Proof.
  assert (returned (dloglikarray toy_engine) = Some [16; 16; 16]) as Hreturned
    by (vm_compute; reflexivity).
  exact (returned_reads dloglikarray toy_engine [16; 16; 16]
           FrameFacts.dloglikarray_reads Hreturned).
Defined.

(** X11 at the small engine. *)
Lemma dloglikarray_entries_witness :
  toy_engine = toy_engine /\ length [16; 16; 16] = length (flat_slots toy_start) /\
  forall i param, flat_slots toy_start !! i = Some param ->
    exists d x, dloglik toy_engine !! slot_name param = Some d /\
                darr_get d (slot_index param) = inr x /\
                [16; 16; 16] !! i = Some x.
Proof.
  exact (dloglikarray_entries (MO := toy_ops) toy_tree toy_alignment toy_start
           toy_engine [16; 16; 16] toy_engine toy_reachable toy_gradient_returns).
Defined.

Lemma toy_freeparams_NoDup : NoDup (freeparams toy_start).
Proof.
  apply NoDup_cons. split; [|apply NoDup_singleton].
  intros Hin%list_elem_of_singleton. discriminate.
Defined.

(** X16 at the small engine, whose nodes are the tips [A], [B], [C], then
    the inner node and the root: the tip [C] has index 2. *)
Lemma node_numbering_witness :
  name_to_nodeindex toy_engine !! [1%nat] = Some 2%nat <->
  exists c, numbered toy_tree !! 2%nat = Some ([1%nat], c).
Proof.
  exact (node_numbering (MO := toy_ops) toy_tree toy_alignment toy_start
           toy_engine toy_reachable [1%nat] 2%nat).
Defined.

(** X17 at the small engine. *)
Lemma flat_maps_inverse_witness :
  _param_to_index toy_engine
  = map (fun it : nat * slot => (it.2, it.1)) (enumerate (flat_slots toy_start)) /\
  forall i param,
    (i, param) ∈ _index_to_param toy_engine <->
    (param, i) ∈ _param_to_index toy_engine.
Proof.
  exact (flat_maps_inverse (MO := toy_ops) toy_tree toy_alignment toy_start
           toy_engine toy_reachable toy_freeparams_NoDup).
Defined.

(** X15 at the small engine, whose cache is empty, and the array
    [5, 1, 3]. *)
Lemma setter_builds_assignment_witness :
  exists newvalues : gmap string pyval,
    set_paramsarray [5; 1; 3] toy_engine
    = (updateParams newvalues >>
       do a <- paramsarray; modify (set__paramsarray (Some a))) toy_engine /\
    (forall i p x, flat_slots toy_start !! i = Some (Scalar p) ->
       [5; 1; 3] !! i = Some x -> newvalues !! p = Some (PFloat x)) /\
    (forall i p k x, flat_slots toy_start !! i = Some (Component p k) ->
       [5; 1; 3] !! i = Some x ->
       exists a, newvalues !! p = Some (PArray a) /\ a !! k = Some x /\
                 forall a0, getattr toy_start p = Some (PArray a0) ->
                            length a = length a0) /\
    (forall p, is_Some (newvalues !! p) ->
       exists i param, flat_slots toy_start !! i = Some param /\
                       slot_name param = p).
Proof.
  apply (proj2 (setter_builds_assignment (MO := toy_ops) toy_tree toy_alignment
                  toy_start toy_engine [5; 1; 3] toy_reachable
                  toy_freeparams_NoDup)).
  - reflexivity.
  - assert (_paramsarray toy_engine = None) as Hnone by (vm_compute; reflexivity).
    intros a Ha. rewrite Hnone in Ha. discriminate.
Defined.

Lemma toy_assigned_returns :
  set_paramsarray [5; 1; 3] toy_engine = Ret tt toy_assigned.
Proof.
  assert (returned (set_paramsarray [5; 1; 3] toy_engine) = Some tt) as Hreturned
    by (vm_compute; reflexivity).
  unfold toy_assigned.
  exact (returned_Ret (set_paramsarray [5; 1; 3]) toy_engine tt Hreturned).
Defined.

(** The update of the small model stores what it is given. *)
Lemma toy_stores (d : gmap string pyval) (m m' : toy_model) p v :
  model_updateParams (ModelOps := toy_ops) d m = Ret tt m' ->
  p ∈ freeparams (ModelOps := toy_ops) m -> d !! p = Some v ->
  getattr (ModelOps := toy_ops) m' p = Some v.
Proof.
  cbn. intros Hupdate Hp Hv.
  apply elem_of_cons in Hp as [->|Hp].
  - rewrite Hv in Hupdate.
    destruct v as [x|a|x|]; [|done..].
    destruct (d !! "eta"%string) as [[y|a|y|]|]; try done;
      by injection Hupdate as <-.
  - apply list_elem_of_singleton in Hp as ->. rewrite Hv in Hupdate.
    destruct (d !! "kappa"%string) as [[y|a|y|]|]; try done;
      destruct v as [x|a'|x|]; try done; by injection Hupdate as <-.
Defined.

(** X25 at the small engine: the array [5, 1, 3] is read back. *)
Lemma setter_then_getter_witness :
  exists a,
    paramsarray toy_assigned = Ret a toy_assigned /\
    (a = [5; 1; 3] \/
     (toy_assigned = toy_engine /\ _paramsarray toy_engine = Some a /\
      all_equal [5; 1; 3] a = inr true)).
Proof.
  exact (setter_then_getter (MO := toy_ops) toy_tree toy_alignment toy_start
           toy_engine [5; 1; 3] toy_assigned toy_reachable toy_freeparams_NoDup
           toy_stores toy_assigned_returns).
Defined.

(** X26 at the small engine after [kappa] has been set to 5 through
    [updateParams], and after the array [5, 1, 3] has been assigned to
    [paramsarray]: the model is the same, and so are the tables. *)
Lemma likelihood_history_independent_witness :
  L toy_updated = L toy_assigned /\
  siteloglik toy_updated = siteloglik toy_assigned /\
  loglik toy_updated = loglik toy_assigned.
Proof.
  assert (model toy_updated = model toy_assigned) as Hmodel
    by (vm_compute; reflexivity).
  exact (likelihood_history_independent (MO := toy_ops)
           toy_tree toy_alignment toy_start toy_updated toy_assigned
           (reachable_updateParams toy_tree toy_alignment toy_start
              toy_engine toy_update toy_updated toy_reachable toy_update_returns)
           (reachable_set_paramsarray toy_tree toy_alignment toy_start
              toy_engine [5; 1; 3] toy_assigned toy_reachable
              toy_assigned_returns)
           Hmodel).
Defined.

End TreeLikelihoodExtrasExamples.

